(** * sebnf2pars: the semantic analyzer between the EBNF parser and the emitters

    A shallow embedding of [ebnfClasses.hh], [ebnfClasses.cc] and of the
    analysis passes of [sebnf2parsYACC.cc] ([findProdValueAll],
    [findSupertypes], [findAllAncestors], [findBeInstance], [findOptProds],
    [findAttNamesAll], [findMyExps], the emission loop of [printCppClasses]
    and the pass sequence of [main]).

    Conventions of the embedding.
    - The global [productions] list is a [list production].  A
      [production *] is the position of the production in that list (the
      parser allocates one object per list cell and the list never changes
      after parsing), so the null pointer is [None] and pointer equality is
      equality of positions.
    - The doubly linked [expList], [defList], [prodList] and the singly
      linked [stringList] are Rocq lists; [pushBack] is [l ++ [x]].
    - [char *] names are [string]s; every expression the parser builds has a
      name, so [itemName] is not optional.  [strcmp] is [String.compare].
    - [fprintf (stderr, ...); exit (1)] is the result [Exit msg] (the text
      without its final newline); reading through a null pointer is
      [Crash]; recursion that the source does not bound takes fuel. *)

From Stdlib Require Import ZArith String Ascii Lia.
From Stdlib Require OrderedTypeEx.
From stdpp Require Import base decidable option list list_numbers strings.

Local Open Scope Z_scope.

(** ** Token codes of the EBNF parser ([enum yytokentype]) *)

Definition KEYWORD : Z := 260.
Definition NONTERMINAL : Z := 262.
Definition ONECHAR : Z := 263.
Definition TERMINAL : Z := 266.
Definition TERMINALSTRING : Z := 267.
Definition TWOCHAR : Z := 268.

(** [strcmp]: negative, zero or positive; bytes compare as unsigned. *)
Definition strcmp (a b : string) : Z :=
  match String.compare a b with
  | Eq => 0
  | Lt => -1
  | Gt => 1
  end.

(** ** Data model ([ebnfClasses.hh]) *)

Record expression : Type := mkExpression {
  theType : Z;
  itemName : string;
  prodValue : option nat
}.

(** [class definition] holds one [expList]. *)
Abbreviation definition := (list expression) (only parsing).

Record production : Type := mkProduction {
  ancestors : list nat;
  attNames : list string;
  beInstance : option nat;
  defs : list definition;
  isInstance : bool;
  isList : Z;
  isOptional : Z;
  isSupertype : bool;
  lhs : string;
  myAtts : list string;
  myExps : list expression;
  optProd : option nat;
  subtypeOf : list nat;
  transferName : option string;
  wasPrinted : bool
}.

(** The shared expression that stands for every [c] of a right-hand side. *)
Definition commaExp : expression := mkExpression 0 "c" None.

(** Field assignments. *)

Definition set_prodValue (v : option nat) (e : expression) : expression :=
  mkExpression (theType e) (itemName e) v.

Definition set_ancestors (v : list nat) (p : production) : production :=
  mkProduction v (attNames p) (beInstance p) (defs p) (isInstance p)
    (isList p) (isOptional p) (isSupertype p) (lhs p) (myAtts p) (myExps p)
    (optProd p) (subtypeOf p) (transferName p) (wasPrinted p).

Definition set_attNames (v : list string) (p : production) : production :=
  mkProduction (ancestors p) v (beInstance p) (defs p) (isInstance p)
    (isList p) (isOptional p) (isSupertype p) (lhs p) (myAtts p) (myExps p)
    (optProd p) (subtypeOf p) (transferName p) (wasPrinted p).

Definition set_beInstance (v : option nat) (p : production) : production :=
  mkProduction (ancestors p) (attNames p) v (defs p) (isInstance p)
    (isList p) (isOptional p) (isSupertype p) (lhs p) (myAtts p) (myExps p)
    (optProd p) (subtypeOf p) (transferName p) (wasPrinted p).

Definition set_defs (v : list definition) (p : production) : production :=
  mkProduction (ancestors p) (attNames p) (beInstance p) v (isInstance p)
    (isList p) (isOptional p) (isSupertype p) (lhs p) (myAtts p) (myExps p)
    (optProd p) (subtypeOf p) (transferName p) (wasPrinted p).

Definition set_isInstance (v : bool) (p : production) : production :=
  mkProduction (ancestors p) (attNames p) (beInstance p) (defs p) v
    (isList p) (isOptional p) (isSupertype p) (lhs p) (myAtts p) (myExps p)
    (optProd p) (subtypeOf p) (transferName p) (wasPrinted p).

Definition set_isList (v : Z) (p : production) : production :=
  mkProduction (ancestors p) (attNames p) (beInstance p) (defs p)
    (isInstance p) v (isOptional p) (isSupertype p) (lhs p) (myAtts p)
    (myExps p) (optProd p) (subtypeOf p) (transferName p) (wasPrinted p).

Definition set_isOptional (v : Z) (p : production) : production :=
  mkProduction (ancestors p) (attNames p) (beInstance p) (defs p)
    (isInstance p) (isList p) v (isSupertype p) (lhs p) (myAtts p)
    (myExps p) (optProd p) (subtypeOf p) (transferName p) (wasPrinted p).

Definition set_isSupertype (v : bool) (p : production) : production :=
  mkProduction (ancestors p) (attNames p) (beInstance p) (defs p)
    (isInstance p) (isList p) (isOptional p) v (lhs p) (myAtts p)
    (myExps p) (optProd p) (subtypeOf p) (transferName p) (wasPrinted p).

Definition set_myAtts (v : list string) (p : production) : production :=
  mkProduction (ancestors p) (attNames p) (beInstance p) (defs p)
    (isInstance p) (isList p) (isOptional p) (isSupertype p) (lhs p) v
    (myExps p) (optProd p) (subtypeOf p) (transferName p) (wasPrinted p).

Definition set_myExps (v : list expression) (p : production) : production :=
  mkProduction (ancestors p) (attNames p) (beInstance p) (defs p)
    (isInstance p) (isList p) (isOptional p) (isSupertype p) (lhs p)
    (myAtts p) v (optProd p) (subtypeOf p) (transferName p) (wasPrinted p).

Definition set_optProd (v : option nat) (p : production) : production :=
  mkProduction (ancestors p) (attNames p) (beInstance p) (defs p)
    (isInstance p) (isList p) (isOptional p) (isSupertype p) (lhs p)
    (myAtts p) (myExps p) v (subtypeOf p) (transferName p) (wasPrinted p).

Definition set_subtypeOf (v : list nat) (p : production) : production :=
  mkProduction (ancestors p) (attNames p) (beInstance p) (defs p)
    (isInstance p) (isList p) (isOptional p) (isSupertype p) (lhs p)
    (myAtts p) (myExps p) (optProd p) v (transferName p) (wasPrinted p).

Definition set_transferName (v : option string) (p : production) : production :=
  mkProduction (ancestors p) (attNames p) (beInstance p) (defs p)
    (isInstance p) (isList p) (isOptional p) (isSupertype p) (lhs p)
    (myAtts p) (myExps p) (optProd p) (subtypeOf p) v (wasPrinted p).

Definition set_wasPrinted (v : bool) (p : production) : production :=
  mkProduction (ancestors p) (attNames p) (beInstance p) (defs p)
    (isInstance p) (isList p) (isOptional p) (isSupertype p) (lhs p)
    (myAtts p) (myExps p) (optProd p) (subtypeOf p) (transferName p) v.

(** ** [production::findIsList] and the constructor ([ebnfClasses.cc]) *)

(** The [None] branches below stand for list cells that the preceding
    length tests have shown to exist. *)
Definition findIsList (p : production) : Z :=
  if negb (length (defs p) =? 2)%nat then 0
  else
    match head (defs p), last (defs p) with
    | Some dfirst, Some dlast =>
        if negb (length dfirst =? 1)%nat then 0
        else
          let len := length dlast in
          if negb (len =? 2)%nat && negb (len =? 3)%nat then 0
          else
            match head dlast, head dfirst, last dlast with
            | Some e2first, Some e1first, Some e2last =>
                if negb (strcmp (lhs p) (itemName e2first) =? 0) then 0
                else if negb (strcmp (itemName e1first) (itemName e2last) =? 0)
                then 0
                else if (len =? 3)%nat then
                  match dlast !! 1%nat with
                  | Some mid =>
                      if negb (strcmp (itemName mid) "c" =? 0) then 0 else 2
                  | None => 0
                  end
                else 1
            | _, _, _ => 0
            end
    | _, _ => 0
    end.

(** [production::production (lhsIn, defsIn)]. *)
Definition new_production (lhsIn : string) (defsIn : list definition)
  : production :=
  let p := mkProduction [] [] None defsIn false 0 0 false lhsIn [] [] None []
             None false in
  set_isList (findIsList p) p.

(** The list shapes that [findIsList] recognizes, in the words of its
    documentation: two definitions, the first one expression long, the
    second starting with an expression named like the production and
    ending with an expression named like the list item. *)
Definition isPlainListShape (p : production) : Prop :=
  ∃ item self final : expression,
    defs p = [[item]; [self; final]] ∧
    itemName self = lhs p ∧ itemName final = itemName item.

Definition isCommaListShape (p : production) : Prop :=
  ∃ item self mid final : expression,
    defs p = [[item]; [self; mid; final]] ∧
    itemName self = lhs p ∧ itemName mid = "c"%string ∧
    itemName final = itemName item.

(** The same shapes with the additional demand that the left-recursive
    expression be a NONTERMINAL. *)
Definition isPlainListShape_nonterminal (p : production) : Prop :=
  ∃ item self final : expression,
    defs p = [[item]; [self; final]] ∧ theType self = NONTERMINAL ∧
    itemName self = lhs p ∧ itemName final = itemName item.

Definition isCommaListShape_nonterminal (p : production) : Prop :=
  ∃ item self mid final : expression,
    defs p = [[item]; [self; mid; final]] ∧ theType self = NONTERMINAL ∧
    itemName self = lhs p ∧ itemName mid = "c"%string ∧
    itemName final = itemName item.

(** [ITEMS = ITEM | ITEMS , ITEM ;] : a left-recursive production whose
    left-hand side is a keyword token (rule [leftSide : KEYWORD IS]). *)
Definition keywordList : production :=
  new_production "ITEMS"
    [[mkExpression KEYWORD "ITEM" None];
     [mkExpression KEYWORD "ITEMS" None; mkExpression KEYWORD "ITEM" None]].

(** ** Binding: [expList::setProdValue], [findProdValueOne],
       [findProdValueAll] *)

(** [prod] is the pointer and [prodLhs] is [prod->lhs]. *)
Definition setProdValue (prod : nat) (prodLhs : string)
    (exps : list expression) : list expression :=
  (λ e, if strcmp (itemName e) prodLhs =? 0
        then set_prodValue (Some prod) e else e) <$> exps.

(** Every production except [prod] itself has the expressions named
    [prod->lhs] pointed at [prod]. *)
Definition findProdValueOne (prod : nat) (productions : list production)
  : list production :=
  match productions !! prod with
  | None => productions
  | Some p =>
      imap (λ user u,
              if decide (user = prod) then u
              else set_defs (setProdValue prod (lhs p) <$> defs u) u)
           productions
  end.

Definition findProdValueAll (productions : list production)
  : list production :=
  foldl (λ ps prod, findProdValueOne prod ps) productions
        (seq 0 (length productions)).

(** ** Outcomes of a pass *)

Inductive result (A : Type) : Type :=
| Ok (a : A)          (* the pass returns *)
| Exit (msg : string) (* a diagnostic on stderr, then exit (1) *)
| Crash               (* a null pointer is dereferenced *)
| OutOfFuel.          (* the recursion went deeper than the fuel given *)

Arguments Ok {A} a.
Arguments Exit {A} msg.
Arguments Crash {A}.
Arguments OutOfFuel {A}.

Definition result_bind {A B : Type} (f : A → result B) (m : result A)
  : result B :=
  match m with
  | Ok a => f a
  | Exit msg => Exit msg
  | Crash => Crash
  | OutOfFuel => OutOfFuel
  end.

#[global] Instance result_ret : MRet result := λ A a, Ok a.
#[global] Instance result_mbind : MBind result := λ A B f m, result_bind f m.

(** [for (prodCell = productions.first; prodCell; prodCell = prodCell->next)]
    with a body that may change the productions but not the list. *)
Definition forEachProd (body : nat → list production → list production)
    (productions : list production) : list production :=
  foldl (λ ps k, body k ps) productions (seq 0 (length productions)).

Definition forEachProdM
    (body : nat → list production → result (list production))
    (productions : list production) : result (list production) :=
  foldl (λ acc k, ps ← acc; body k ps) (Ok productions)
        (seq 0 (length productions)).

(** ** Supertypes: [findSupertypes] *)

(** One turn of the test loop of [findSupertypes]: [true] when the
    definition does not make the loop [break]. *)
Definition supertypeDef (productions : list production) (d : definition)
  : bool :=
  if negb (length d =? 1)%nat then false
  else
    match head d with
    | Some exp =>
        if negb (theType exp =? NONTERMINAL) then false
        else
          match prodValue exp with
          | None => false
          | Some q =>
              match productions !! q with
              | Some sub => isList sub =? 0
              | None => false
              end
          end
    | None => false
    end.

(** [defCell->data->expressions->first->data->prodValue] *)
Definition firstProdValue (d : definition) : option nat :=
  e ← head d; prodValue e.

Definition findSupertypesOne (k : nat) (productions : list production)
  : list production :=
  match productions !! k with
  | None => productions
  | Some prod =>
      if forallb (supertypeDef productions) (defs prod) then
        let ps := alter (set_isSupertype true) k productions in
        if strcmp (lhs prod) "instance" =? 0 then
          foldl (λ ps d,
                   match firstProdValue d with
                   | Some sub => alter (set_isInstance true) sub ps
                   | None => ps
                   end) ps (defs prod)
        else
          foldl (λ ps d,
                   match firstProdValue d with
                   | Some sub =>
                       alter (λ s, set_subtypeOf (subtypeOf s ++ [k]) s) sub ps
                   | None => ps
                   end) ps (defs prod)
      else productions
  end.

Definition findSupertypes : list production → list production :=
  forEachProd findSupertypesOne.

(** ** Ancestors: [findAncestors], [findAllAncestors] *)

(** The recursion of [findAncestors] always ends (every call follows a
    [pushBack] of a production that was not yet on [ancesti]); in the
    embedding it is bounded by [fuel]. *)
Fixpoint findAncestors (fuel : nat) (productions : list production)
    (prod : nat) (ancesti : list nat) : result (list nat) :=
  match fuel with
  | O => OutOfFuel
  | S fuel' =>
      match productions !! prod with
      | None => Ok ancesti
      | Some p =>
          foldl (λ acc super,
                   anc ← acc;
                   match productions !! super with
                   | Some s =>
                       if negb (bool_decide (super ∈ anc))
                          && negb (isOptional s =? 1)
                          && negb (isOptional s =? 2)
                       then findAncestors fuel' productions super
                              (anc ++ [super])
                       else Ok anc
                   | None => Ok anc
                   end)
                (Ok ancesti) (subtypeOf p)
      end
  end.

Definition findAllAncestorsOne (k : nat) (productions : list production)
  : result (list production) :=
  match productions !! k with
  | None => Ok productions
  | Some p =>
      anc ← findAncestors (S (length productions)) productions k (ancestors p);
      Ok (alter (set_ancestors anc) k productions)
  end.

Definition findAllAncestors
  : list production → result (list production) :=
  forEachProdM findAllAncestorsOne.

(** ** [findBeInstance] *)

Definition findBeInstanceOne (sub : nat) (productions : list production)
  : list production :=
  match productions !! sub with
  | None => productions
  | Some s =>
      if isInstance s then
        foldl (λ ps super,
                 alter (λ a, match beInstance a with
                             | None => set_beInstance (Some sub) a
                             | Some _ => a
                             end) super ps)
              productions (ancestors s)
      else productions
  end.

Definition findBeInstance : list production → list production :=
  forEachProd findBeInstanceOne.

(** ** Optionals: [findTransferName], [findOptProds] *)

Definition findTransferName (parent child : nat)
    (productions : list production) : result (list production) :=
  match
    List.find (λ prod, bool_decide (child ∈ ancestors prod) && isInstance prod)
              productions
  with
  | Some prod => Ok (alter (set_transferName (Some (lhs prod))) parent
                           productions)
  | None =>
      match productions !! parent with
      | Some P => Exit ("did not find transferName for " +:+ lhs P)
      | None => Crash
      end
  end.

(** The test of [findOptProds]; the result is the optional child. *)
Definition optionalChild (parent : production) : option nat :=
  if (length (defs parent) =? 2)%nat then
    match head (defs parent), last (defs parent) with
    | Some firstExps, Some lastExps =>
        if (length firstExps =? 1)%nat && (length lastExps =? 1)%nat then
          match head firstExps, head lastExps with
          | Some fe, Some le =>
              match prodValue fe with
              | Some child =>
                  if (theType le =? ONECHAR) && (strcmp (itemName le) "$" =? 0)
                  then Some child else None
              | None => None
              end
          | _, _ => None
          end
        else None
    | _, _ => None
    end
  else None.

Definition findOptProdsOne (parent : nat) (productions : list production)
  : result (list production) :=
  match productions !! parent with
  | None => Ok productions
  | Some P =>
      match optionalChild P with
      | None => Ok productions
      | Some child =>
          let ps1 :=
            alter (λ c, set_optProd (Some parent) (set_isOptional 3 c))
                  child productions in
          let ps2 := alter (set_optProd (Some child)) parent ps1 in
          match ps2 !! child with
          | None => Crash
          | Some C =>
              if isInstance C then
                Ok (alter (λ p, set_transferName (Some (lhs C))
                                  (set_isOptional 1 p)) parent ps2)
              else
                match beInstance C with
                | Some _ =>
                    findTransferName parent child
                      (alter (set_isOptional 1) parent ps2)
                | None =>
                    Ok (alter (λ p, set_transferName (Some (lhs C))
                                      (set_isOptional 2 p)) parent ps2)
                end
          end
      end
  end.

Definition findOptProds : list production → result (list production) :=
  forEachProdM findOptProdsOne.

(** ** Attribute names: [findMyAtts], [findAttNamesOne], [findAttNamesAll] *)

(** [findProd]: the first production with the given name. *)
Definition findProd (name : string) (productions : list production)
  : option nat :=
  fst <$> list_find (λ p, lhs p = name) productions.

(** One comment line of the attribute section, as [sscanf] splits it:
    the production name, the names up to the end of the line or to a
    second colon, and the names after a second colon when there is one. *)
Record attLine : Type := mkAttLine {
  attProd : string;
  attOwn : list string;
  attFull : option (list string)
}.

(** The attribute section of the EBNF file: absent when no line reads
    [(* Start attributes *)]; otherwise the lines that follow it, up to the
    line [(* End attributes *)] ([closed]) or to the end of the file. *)
Inductive attributeSection : Type :=
| NoStartLine
| AttLines (lines : list attLine) (closed : bool).

Definition findMyAttsLine (l : attLine) (productions : list production)
  : result (list production) :=
  match findProd (attProd l) productions with
  | None => Exit ("Did not find production " +:+ attProd l)
  | Some prod =>
      Ok (alter (λ p,
                   let p1 := set_myAtts (myAtts p ++ attOwn l) p in
                   match attFull l with
                   | Some names => set_attNames (attNames p1 ++ names) p1
                   | None => p1
                   end) prod productions)
  end.

Definition findMyAtts (inFile : attributeSection)
    (productions : list production) : result (list production) :=
  match inFile with
  | NoStartLine => Exit "Did not find Start attributes"
  | AttLines lines closed =>
      ps ← foldl (λ acc l, ps ← acc; findMyAttsLine l ps) (Ok productions)
                 lines;
      if closed then Ok ps else Exit "Did not find End attributes"
  end.

(** [front] always is [&(super->attNames)], so it is read from the
    production [super] when it is copied.  The recursion follows the
    definitions of supertypes and ends only when these have no cycle. *)
Fixpoint findAttNamesOne (fuel : nat) (super : nat)
    (productions : list production) : result (list production) :=
  match fuel with
  | O => OutOfFuel
  | S fuel' =>
      match productions !! super with
      | None => Crash
      | Some S0 =>
          foldl (λ acc d,
                   ps ← acc;
                   match firstProdValue d with
                   | None => Crash
                   | Some sub =>
                       match ps !! sub, ps !! super with
                       | Some T, Some S1 =>
                           let ps1 :=
                             match attNames T with
                             | [] => alter (set_attNames
                                              (attNames S1 ++ myAtts T)) sub ps
                             | _ :: _ => ps
                             end in
                           if isSupertype T
                           then findAttNamesOne fuel' sub ps1
                           else Ok ps1
                       | _, _ => Crash
                       end
                   end)
                (Ok productions) (defs S0)
      end
  end.

Definition findAttNamesAllOne (fuel : nat) (k : nat)
    (productions : list production) : result (list production) :=
  match productions !! k with
  | None => Ok productions
  | Some prod =>
      if strcmp (lhs prod) "instance" =? 0 then Ok productions
      else
        match subtypeOf prod with
        | [] =>
            let ps :=
              alter (set_attNames (attNames prod ++ myAtts prod)) k
                    productions in
            if isSupertype prod then findAttNamesOne fuel k ps else Ok ps
        | _ :: _ => Ok productions
        end
  end.

Definition findAttNamesAll (fuel : nat)
  : list production → result (list production) :=
  forEachProdM (findAttNamesAllOne fuel).

(** ** Own expressions: [findMyExps] *)

Definition isAttExp (e : expression) : bool :=
  (theType e =? TERMINAL) || (theType e =? NONTERMINAL).

(** An [expListCell *] is the rest of the list from that cell on; the
    null pointer is the empty rest.  [skipToAtt] is the loop that stops at
    the first TERMINAL or NONTERMINAL cell. *)
Fixpoint skipToAtt (expCell : list expression) : list expression :=
  match expCell with
  | [] => []
  | e :: next => if isAttExp e then expCell else skipToAtt next
  end.

(** The loop over [source->attNames] that looks for the first name of
    [myAtts]; it yields [attCell] and [expCell]. *)
Fixpoint findAttCell (attCell : list string) (myName : string)
    (expCell : list expression) : result (list string * list expression) :=
  match attCell with
  | [] => Ok ([], expCell)
  | a :: rest =>
      if strcmp a myName =? 0 then Ok (attCell, expCell)
      else
        match expCell with
        | [] => Crash
        | _ :: next => findAttCell rest myName (skipToAtt next)
        end
  end.

(** The loop over [myCell]; [exps] collects what is pushed on [myExps]. *)
Fixpoint matchMyAtts (prodLhs : string) (myCell attCell : list string)
    (expCell exps : list expression) : result (list expression) :=
  match myCell with
  | [] => Ok exps
  | my :: myRest =>
      match expCell with
      | [] => Exit ("Not enough expressions to match attributes for "
                    +:+ prodLhs)
      | e :: next =>
          match attCell with
          | [] => Exit ("Not enough attNames to match myAtts for "
                        +:+ prodLhs)
          | a :: attRest =>
              if negb (strcmp a my =? 0)
              then Exit ("Matching attribute names " +:+ a +:+ " and "
                         +:+ my +:+ " differ for " +:+ prodLhs)
              else matchMyAtts prodLhs myRest attRest (skipToAtt next)
                     (exps ++ [e])
          end
      end
  end.

(** The production whose first definition holds the expressions. *)
Definition sourceOf (productions : list production) (k : nat)
    (prod : production) : option production :=
  if isInstance prod then Some prod
  else match beInstance prod with
       | Some b => productions !! b
       | None => Some prod
       end.

(** The body of the loop of [findMyExps] for a production with
    attributes: the expressions to push on its [myExps]. *)
Definition alignMyExps (prod source : production)
  : result (list expression) :=
  match myAtts prod with
  | [] => Ok []
  | myName :: _ =>
      match defs source with
      | [] => Crash
      | firstDef :: _ =>
          match skipToAtt firstDef with
          | [] => Exit ("Not enough expressions to match attributes for "
                        +:+ lhs prod)
          | expCell =>
              '(attCell, expCell') ← findAttCell (attNames source) myName
                                       expCell;
              matchMyAtts (lhs prod) (myAtts prod) attCell expCell' []
          end
      end
  end.

Definition findMyExpsOne (k : nat) (productions : list production)
  : result (list production) :=
  match productions !! k with
  | None => Ok productions
  | Some prod =>
      match myAtts prod with
      | [] => Ok productions
      | _ :: _ =>
          match sourceOf productions k prod with
          | None => Crash
          | Some source =>
              exps ← alignMyExps prod source;
              Ok (alter (λ p, set_myExps (myExps p ++ exps) p) k productions)
          end
      end
  end.

Definition findMyExps : list production → result (list production) :=
  forEachProdM findMyExpsOne.

(** ** Name tables: [recordToken], [recordTerminal], [recordClass],
       [findToken] *)

Definition LETTERSIZE : nat := 200.
Definition CLASSSIZE : nat := 400.
Definition NAMESIZE : nat := 256.

(** [s[n]] as an integer; the terminating NUL when [n] is the length. *)
Definition charAt (n : nat) (s : string) : Z :=
  match String.get n s with
  | Some c => Z.of_N (N_of_ascii c)
  | None => 0
  end.

(** [name[0] - base] when it is the index of one of the 26 sub-arrays. *)
Definition letterIndex (base : Z) (name : string) : option nat :=
  let i := charAt 0 name - base in
  if (0 <=? i) && (i <? 26) then Some (Z.to_nat i) else None.

(** A sub-array of names is the list of its entries before the first
    null.  [scanNames] is the search loop of the three [record] functions:
    [None] when the name is already there, else the place [n] at which the
    loop stops. *)
Fixpoint scanNames (name : string) (letterNames : list string) (n : nat)
  : option nat :=
  match letterNames with
  | [] => Some n
  | x :: rest =>
      let r := strcmp name x in
      if r =? 0 then None
      else if r <? 0 then Some n
      else scanNames name rest (S n)
  end.

Definition recordName (size : nat) (tooMany : string) (name : string)
    (letterNames : list string) : result (list string) :=
  match scanNames name letterNames 0 with
  | None => Ok letterNames
  | Some n =>
      if (n =? size)%nat then Exit tooMany
      else if (n <? length letterNames)%nat
              && (length letterNames =? size)%nat
      then Exit tooMany
      else Ok (take n letterNames ++ name :: drop n letterNames)
  end.

Definition recordInTable (base : Z) (size : nat) (tooMany : string)
    (name : string) (table : list (list string))
  : result (list (list string)) :=
  match letterIndex base name with
  | None => Crash
  | Some i =>
      match table !! i with
      | None => Crash
      | Some letterNames =>
          names ← recordName size
                    (tooMany +:+ String.substring 0 1 name) name letterNames;
          Ok (<[i := names]> table)
      end
  end.

Definition recordToken : string → list (list string)
                         → result (list (list string)) :=
  recordInTable 65 LETTERSIZE "Too many tokens starting with ".

Definition recordClass : string → list (list string)
                         → result (list (list string)) :=
  recordInTable 97 CLASSSIZE "Too many classes starting with ".

Definition recordTerminal (terminalName : string)
    (terminalNames : list string) : result (list string) :=
  recordName LETTERSIZE "Too many terminals" terminalName terminalNames.

(** The place of [text] in a sorted sub-array, if it is there. *)
Fixpoint findInNames (text : string) (letterNames : list string) (n : nat)
  : option nat :=
  match letterNames with
  | [] => None
  | x :: rest =>
      let r := strcmp text x in
      if r =? 0 then Some n
      else if r <? 0 then None
      else findInNames text rest (S n)
  end.

Definition findToken (text : string) (tokenNames : list (list string))
  : option nat :=
  if (charAt 0 text <? 65) || (90 <? charAt 0 text) then None
  else
    i ← letterIndex 65 text;
    letterNames ← tokenNames !! i;
    findInNames text letterNames 0.

(** ** The state of the program and the actions of the EBNF parser *)

Record analyzer : Type := mkAnalyzer {
  productions : list production;
  tokenNames : list (list string);
  tokenLexes : list (list string);
  terminalNames : list string;
  classNames : list (list string)
}.

Definition set_productions (v : list production) (a : analyzer) : analyzer :=
  mkAnalyzer v (tokenNames a) (tokenLexes a) (terminalNames a) (classNames a).

Definition set_tokenNames (v : list (list string)) (a : analyzer)
  : analyzer :=
  mkAnalyzer (productions a) v (tokenLexes a) (terminalNames a) (classNames a).

Definition set_tokenLexes (v : list (list string)) (a : analyzer)
  : analyzer :=
  mkAnalyzer (productions a) (tokenNames a) v (terminalNames a) (classNames a).

Definition set_terminalNames (v : list string) (a : analyzer) : analyzer :=
  mkAnalyzer (productions a) (tokenNames a) (tokenLexes a) v (classNames a).

Definition set_classNames (v : list (list string)) (a : analyzer)
  : analyzer :=
  mkAnalyzer (productions a) (tokenNames a) (tokenLexes a) (terminalNames a) v.

(** The globals as [main] has them before [yyparse]. *)
Definition initialAnalyzer : analyzer :=
  mkAnalyzer [] (replicate 26 []) (replicate 26 []) [] (replicate 26 []).

(** The tokens of a right-hand side, as the lexer classifies them. *)
Inductive token : Type :=
| TokKeyword (text : string)
| TokNonterminal (text : string)
| TokTerminal (text : string)
| TokTerminalString (text : string)
| TokOneChar (text : string)
| TokTwoChar (text : string).

(** A production of the EBNF file: [leftSide definitionList ;]. *)
Record sourceProduction : Type := mkSourceProduction {
  leftSide : string;
  definitionList : list (list token)
}.

(** The actions of the rules for [expression]. *)
Definition expressionAction (t : token) (a : analyzer)
  : result (expression * analyzer) :=
  match t with
  | TokKeyword text =>
      names ← recordToken text (tokenNames a);
      Ok (mkExpression KEYWORD text None, set_tokenNames names a)
  | TokNonterminal text =>
      if negb (strcmp text "c" =? 0)
      then Ok (mkExpression NONTERMINAL text None, a)
      else Ok (commaExp, a)
  | TokTerminal text =>
      names ← recordTerminal text (terminalNames a);
      Ok (mkExpression TERMINAL text None, set_terminalNames names a)
  | TokTerminalString text => Ok (mkExpression TERMINALSTRING text None, a)
  | TokOneChar text => Ok (mkExpression ONECHAR text None, a)
  | TokTwoChar text => Ok (mkExpression TWOCHAR text None, a)
  end.

Definition expressionListAction (ts : list token) (a : analyzer)
  : result (list expression * analyzer) :=
  foldl (λ acc t,
           '(exps, a) ← acc;
           '(e, a') ← expressionAction t a;
           Ok (exps ++ [e], a'))
        (Ok ([], a)) ts.

Definition definitionListAction (ds : list (list token)) (a : analyzer)
  : result (list definition * analyzer) :=
  foldl (λ acc ts,
           '(defs, a) ← acc;
           '(exps, a') ← expressionListAction ts a;
           Ok (defs ++ [exps], a'))
        (Ok ([], a)) ds.

(** The actions of the rules for [production] and [productionList]: the
    production is built, and kept unless it is named [c]. *)
Definition productionAction (sp : sourceProduction) (a : analyzer)
  : result analyzer :=
  '(ds, a1) ← definitionListAction (definitionList sp) a;
  let prod := new_production (leftSide sp) ds in
  if negb (strcmp (lhs prod) "c" =? 0)
  then Ok (set_productions (productions a1 ++ [prod]) a1)
  else names ← recordToken "C" (tokenNames a1);
       Ok (set_tokenNames names a1).

Definition yyparse (grammar : list sourceProduction) (a : analyzer)
  : result analyzer :=
  foldl (λ acc sp, a ← acc; productionAction sp a) (Ok a) grammar.

(** ** [reviseSpelling] *)

(** The string that [strdup (buffer)] copies: up to the first NUL. *)
Fixpoint bufferString (codes : list Z) : string :=
  match codes with
  | [] => EmptyString
  | c :: rest =>
      if c =? 0 then EmptyString
      else String (ascii_of_N (Z.to_N c)) (bufferString rest)
  end.

(** The characters that one spelling production puts into [buffer], which
    has room for [NAMESIZE] of them; [codes] is what is there already. *)
Fixpoint spellingCodes (exps : list expression) (codes : list Z)
  : result (list Z) :=
  match exps with
  | [] => Ok codes
  | exp :: rest =>
      if theType exp =? ONECHAR then
        if (NAMESIZE <=? length codes)%nat then Crash
        else spellingCodes rest (codes ++ [charAt 0 (itemName exp)])
      else if theType exp =? TWOCHAR then
        if negb (charAt 1 (itemName exp) =? charAt 0 (itemName exp) + (97 - 65))
        then Exit "Bad token spelling in reviseSpelling"
        else if (NAMESIZE <=? length codes)%nat then Crash
        else spellingCodes rest (codes ++ [charAt 0 (itemName exp)])
      else Exit "Bad token spelling in reviseSpelling"
  end.

Definition reviseSpellingOne (prod : production)
    (names lexes : list (list string)) : result (list (list string)) :=
  match findToken (lhs prod) names with
  | None => Ok lexes
  | Some n =>
      match defs prod with
      | [exps] =>
          codes ← spellingCodes exps [];
          if (NAMESIZE <=? length codes)%nat then Crash
          else
            match letterIndex 65 (lhs prod) with
            | Some i => Ok (alter (λ bucket, <[n := bufferString codes]> bucket)
                                  i lexes)
            | None => Crash
            end
      | _ => Exit "Bad token spelling in reviseSpelling"
      end
  end.

Definition reviseSpelling (a : analyzer) : result analyzer :=
  lexes ← foldl (λ acc prod, lexes ← acc;
                             reviseSpellingOne prod (tokenNames a) lexes)
                (Ok (tokenNames a)) (productions a);
  Ok (set_tokenLexes lexes a).

(** ** The passes as steps of [main] *)

Definition onProductions (f : list production → result (list production))
    (a : analyzer) : result analyzer :=
  ps ← f (productions a); Ok (set_productions ps a).

(** ** Selection and emission order: [selectProductions], [recordClasses],
       the loop of [printCppClasses] *)

(** [for (n = 0; terminalNames[n]; n++)]: the array has [LETTERSIZE]
    entries and the loop has no other bound. *)
Definition isTerminalName (prodName : string) (names : list string)
  : result bool :=
  if existsb (λ t, strcmp prodName t =? 0) names then Ok true
  else if (length names <? LETTERSIZE)%nat then Ok false
  else Crash.

Definition selectProductions (a : analyzer) : result (list nat) :=
  foldl (λ acc k,
           toPrint ← acc;
           match productions a !! k with
           | None => Ok toPrint
           | Some prod =>
               isTerminal ← isTerminalName (lhs prod) (terminalNames a);
               if (isTerminal : bool) then Ok toPrint
               else if bool_decide (is_Some (findToken (lhs prod) (tokenNames a)))
               then Ok toPrint
               else if negb (isList prod =? 0) then Ok toPrint
               else if strcmp (lhs prod) "instancePlus" =? 0 then Ok toPrint
               else if (isOptional prod =? 1) || (isOptional prod =? 2)
               then Ok toPrint
               else Ok (toPrint ++ [k])
           end)
        (Ok []) (seq 0 (length (productions a))).

Definition recordClasses (toPrint : list nat) (a : analyzer)
  : result analyzer :=
  foldl (λ acc k,
           a ← acc;
           match productions a !! k with
           | None => Ok a
           | Some prod =>
               names ← recordClass (lhs prod) (classNames a);
               Ok (set_classNames names a)
           end)
        (Ok a) toPrint.

(** The state of the emission loop: the productions (with their
    [wasPrinted] marks), the sequence of the productions for which
    [printCppProductionClass] was called, and [numberPrinted]. *)
Record printing : Type := mkPrinting {
  printProds : list production;
  printed : list nat;
  numberPrinted : nat
}.

Section Emission.

(** [printCppProductionClass] writes the class of one production; it is
    an emitter, of which only the outcome matters here: [None] when it
    returns, [Some msg] when it exits with a diagnostic. *)
Variable printCppProductionClass : list production → nat → option string.

Definition printOne (instanceProd : option nat) (k : nat) (st : printing)
  : result printing :=
  match printProds st !! k with
  | None => Ok st
  | Some prod =>
      if wasPrinted prod then Ok st
      else
        waitInstance ←
          (if isInstance prod then
             match instanceProd ≫= (printProds st !!.) with
             | Some ip => Ok (negb (wasPrinted ip))
             | None => Crash
             end
           else Ok false);
        if (waitInstance : bool) then Ok st
        else if existsb (λ super,
                           match printProds st !! super with
                           | Some sp => negb (wasPrinted sp)
                           | None => true
                           end) (subtypeOf prod)
        then Ok st
        else
          match printCppProductionClass (printProds st) k with
          | Some msg => Exit msg
          | None =>
              Ok (mkPrinting
                    (alter (set_wasPrinted true) k (printProds st))
                    (printed st ++ [k]) (S (numberPrinted st)))
          end
  end.

(** One pass over [toPrint], with [numberPrinted] starting at 0. *)
Definition printPass (instanceProd : option nat) (toPrint : list nat)
    (ps : list production) (out : list nat) : result printing :=
  foldl (λ acc k, st ← acc; printOne instanceProd k st)
        (Ok (mkPrinting ps out 0)) toPrint.

(** [for (n = 0; n < totalToPrint; n++)], with [n] passes left; the
    result carries [totalPrinted]. *)
Fixpoint printPasses (n : nat) (instanceProd : option nat)
    (toPrint : list nat) (ps : list production) (out : list nat)
    (totalPrinted : nat) : result (list production * list nat * nat) :=
  match n with
  | O => Ok (ps, out, totalPrinted)
  | S n' =>
      st ← printPass instanceProd toPrint ps out;
      if (numberPrinted st =? 0)%nat
      then Ok (printProds st, printed st, totalPrinted)
      else printPasses n' instanceProd toPrint (printProds st) (printed st)
             (totalPrinted + numberPrinted st)
  end.

(** The emission loop and the test that follows it; the result is the
    productions and the emission sequence. *)
Definition printLoop (instanceProd : option nat) (toPrint : list nat)
    (ps : list production) : result (list production * list nat) :=
  let totalToPrint := length toPrint in
  '(ps', out, totalPrinted) ←
    printPasses totalToPrint instanceProd toPrint ps [] 0%nat;
  if negb (totalPrinted =? totalToPrint)%nat
  then Exit "loop found in productions"
  else Ok (ps', out).

Definition printCppClasses (a : analyzer)
  : result (analyzer * list nat) :=
  let instanceProd := findProd "instance" (productions a) in
  toPrint ← selectProductions a;
  a1 ← recordClasses toPrint a;
  '(ps, out) ← printLoop instanceProd toPrint (productions a1);
  Ok (set_productions ps a1, out).

End Emission.

(** ** [main] *)

Section Main.

Variable printCppProductionClass : list production → nat → option string.

(** The input: the productions of the EBNF file, its attribute section,
    and the bound on the depth of [findAttNamesOne]. *)
Variable grammar : list sourceProduction.
Variable inFile : attributeSection.
Variable fuel : nat.

(** The calls of [main] from [yyparse] to [findSupertypes]. *)
Definition classify : result analyzer :=
  a ← yyparse grammar initialAnalyzer;
  a ← reviseSpelling a;
  a ← onProductions (findMyAtts inFile) a;
  a ← onProductions (λ ps, Ok (findProdValueAll ps)) a;
  onProductions (λ ps, Ok (findSupertypes ps)) a.

(** The calls of [main] from [yyparse] to [findMyExps]: the analysis. *)
Definition analyze : result analyzer :=
  a ← classify;
  a ← onProductions findAllAncestors a;
  a ← onProductions (λ ps, Ok (findBeInstance ps)) a;
  a ← onProductions findOptProds a;
  a ← onProductions (findAttNamesAll fuel) a;
  onProductions findMyExps a.

(** [main] up to [printCppClasses]; with the analyzed model it yields
    the order in which the classes were printed. *)
Definition main : result (analyzer * list nat) :=
  a ← analyze;
  printCppClasses printCppProductionClass a.

(** The passes by name, to state in which order they run. *)
Inductive pass : Type :=
| Parse | Bind | ClassifyLists | RefineSpelling | ReadOwnAtts
| ClassifySupertypes | Ancestors | BeInstance | ClassifyOptionals
| FullAtts | OwnExps | Emit.

(** List classification as a pass of its own: what the constructor does
    for one production, done for all of them. *)
Definition classifyLists (ps : list production) : list production :=
  (λ p, set_isList (findIsList p) p) <$> ps.

Definition runPass (p : pass) (st : analyzer * list nat)
  : result (analyzer * list nat) :=
  let keep (r : result analyzer) := a ← r; Ok (a, st.2) in
  match p with
  | Parse => keep (yyparse grammar st.1)
  | Bind => keep (onProductions (λ ps, Ok (findProdValueAll ps)) st.1)
  | ClassifyLists => keep (onProductions (λ ps, Ok (classifyLists ps)) st.1)
  | RefineSpelling => keep (reviseSpelling st.1)
  | ReadOwnAtts => keep (onProductions (findMyAtts inFile) st.1)
  | ClassifySupertypes =>
      keep (onProductions (λ ps, Ok (findSupertypes ps)) st.1)
  | Ancestors => keep (onProductions findAllAncestors st.1)
  | BeInstance => keep (onProductions (λ ps, Ok (findBeInstance ps)) st.1)
  | ClassifyOptionals => keep (onProductions findOptProds st.1)
  | FullAtts => keep (onProductions (findAttNamesAll fuel) st.1)
  | OwnExps => keep (onProductions findMyExps st.1)
  | Emit => printCppClasses printCppProductionClass st.1
  end.

Definition runPasses (l : list pass) : result (analyzer * list nat) :=
  foldl (λ acc p, st ← acc; runPass p st) (Ok (initialAnalyzer, [])) l.

(** The calls of [main], in its order; list classification is part of
    [Parse], where the constructor of [production] does it. *)
Definition mainPasses : list pass :=
  [Parse; RefineSpelling; ReadOwnAtts; Bind; ClassifySupertypes; Ancestors;
   BeInstance; ClassifyOptionals; FullAtts; OwnExps; Emit].

(** The order that the specification gives. *)
Definition specPasses : list pass :=
  [Parse; Bind; ClassifyLists; RefineSpelling; ReadOwnAtts;
   ClassifySupertypes; Ancestors; BeInstance; ClassifyOptionals; FullAtts;
   OwnExps; Emit].

End Main.

(** The expression at place [n] of definition [d] of production [i]. *)
Definition expAt (productions : list production) (i d n : nat)
  : option expression :=
  p ← productions !! i; D ← defs p !! d; D !! n.

(** What [findProdValueAll] has done to one expression of the production
    at position [user] once the first [n] productions have been handled. *)
Fixpoint boundUpTo (names : list string) (user n : nat) (e : expression)
  : expression :=
  match n with
  | O => e
  | S n' =>
      let e' := boundUpTo names user n' e in
      if decide (user = n') then e'
      else match names !! n' with
           | Some nm =>
               if strcmp (itemName e') nm =? 0
               then set_prodValue (Some n') e' else e'
           | None => e'
           end
  end.

(** [xs = x | xs , x ;  x = X ;] *)
Definition listGrammar : list production :=
  [ new_production "xs"
      [[mkExpression NONTERMINAL "x" None];
       [mkExpression NONTERMINAL "xs" None; mkExpression NONTERMINAL "x" None]];
    new_production "x" [[mkExpression KEYWORD "X" None]] ].

(** ** Shapes and outcomes of the optional classification *)

(** The shape that [findOptProds] looks for: two definitions of one
    expression each, the first with a resolved production [c], the second
    the ONECHAR [$]. *)
Definition optionalParentShape (P : production) (c : nat) : Prop :=
  ∃ fe le : expression,
    defs P = [[fe]; [le]] ∧ prodValue fe = Some c ∧
    theType le = ONECHAR ∧ itemName le = "$"%string.

(** The shape with a NONTERMINAL child and the two definitions in either
    order. *)
Definition optionalParentShape_anyOrder (P : production) (c : nat) : Prop :=
  ∃ ce le : expression,
    (defs P = [[ce]; [le]] ∨ defs P = [[le]; [ce]]) ∧
    theType ce = NONTERMINAL ∧ prodValue ce = Some c ∧
    theType le = ONECHAR ∧ itemName le = "$"%string.

(** Production [k] stands as an optional parent with child [c]. *)
Definition classifiedOptional (ps : list production) (k c : nat) : Prop :=
  ∃ P C : production,
    ps !! k = Some P ∧ ps !! c = Some C ∧
    (isOptional P = 1 ∨ isOptional P = 2) ∧ optProd P = Some c ∧
    isOptional C = 3 ∧ optProd C = Some k.

(** The roles after the first [k] turns of [findOptProds], when no
    optional child has itself the shape of an optional parent. *)
Definition rolesUpTo (ps : list production) (k : nat)
    (qs : list production) : Prop :=
  defs <$> qs = defs <$> ps ∧
  ∀ p P0 Q, ps !! p = Some P0 → qs !! p = Some Q →
    match optionalChild P0 with
    | Some c =>
        if decide (p < k)%nat
        then (isOptional Q = 1 ∨ isOptional Q = 2) ∧ optProd Q = Some c
        else isOptional Q = 0
    | None =>
        (isOptional Q = 3 ∧
         ∃ q Q0, (q < k)%nat ∧ ps !! q = Some Q0 ∧ optionalChild Q0 = Some p)
        ∨ (isOptional Q = 0 ∧
           ∀ q Q0, (q < k)%nat → ps !! q = Some Q0 →
                   optionalChild Q0 ≠ Some p)
    end.

(** ** States of the model *)

(** A production as the parser has just built it. *)
Definition isNew (P : production) : Prop :=
  P = new_production (lhs P) (defs P).

(** Every definition is one NONTERMINAL expression: what the test loop of
    [findSupertypes] asks of the definitions, pointers left aside. *)
Definition nonterminalDefs (P : production) : Prop :=
  ∀ d, d ∈ defs P → ∃ e, d = [e] ∧ theType e = NONTERMINAL.

(** The test of [findSupertypes] on a whole production. *)
Definition supertypeShape (ps : list production) (S : production) : bool :=
  forallb (supertypeDef ps) (defs S).

(** Production [s] is a supertype, other than [instance], with a
    definition that names [p]: what makes [findSupertypes] push [s] on the
    [subtypeOf] of [p]. *)
Definition supertypeOf (ps : list production) (s p : nat) : Prop :=
  ∃ S d, ps !! s = Some S ∧ supertypeShape ps S = true ∧
         lhs S ≠ "instance"%string ∧ d ∈ defs S ∧
         firstProdValue d = Some p.

(** The three diagnostics of [findMyExps] for the production named [P]. *)
Definition alignmentDiagnostic (P : string) (msg : string) : Prop :=
  msg = "Not enough expressions to match attributes for " +:+ P ∨
  msg = "Not enough attNames to match myAtts for " +:+ P ∨
  ∃ a b, msg = "Matching attribute names " +:+ a +:+ " and " +:+ b
                 +:+ " differ for " +:+ P.

(** The expressions of the first definition that bear attributes. *)
Definition attExps (source : production) : list expression :=
  match defs source with
  | [] => []
  | firstDef :: _ => filter (λ e, isAttExp e = true) firstDef
  end.

(** ** The emission sequence *)

(** [out] is in emission order for the productions [ps]: every production
    in it comes after the members of its [subtypeOf] and, when it is an
    instance, after the production [instance]. *)
Definition emissionOrdered (ps : list production) (instanceProd : option nat)
    (out : list nat) : Prop :=
  ∀ l1 k l2 P, out = l1 ++ k :: l2 → ps !! k = Some P →
    (∀ s, s ∈ subtypeOf P → s ∈ l1) ∧
    (isInstance P = true → ∃ i, instanceProd = Some i ∧ i ∈ l1).

(** What holds of the state of the emission loop, started on [ps0]. *)
Definition printingInv (ps0 : list production) (instanceProd : option nat)
    (toPrint : list nat) (qs : list production) (out : list nat) : Prop :=
  (λ P, (subtypeOf P, isInstance P)) <$> qs
  = (λ P, (subtypeOf P, isInstance P)) <$> ps0 ∧
  (∀ k P, qs !! k = Some P → (wasPrinted P = true ↔ k ∈ out)) ∧
  NoDup out ∧
  (∀ k, k ∈ out → k ∈ toPrint) ∧
  emissionOrdered ps0 instanceProd out.

(** [P'] is [P] with some of its expressions bound: the same production
    but for the [prodValue] of its expressions. *)
Definition boundFrom (P P' : production) : Prop :=
  ∃ b : expression → expression,
    (∀ e, theType (b e) = theType e ∧ itemName (b e) = itemName e) ∧
    P' = set_defs (fmap (M:=list) b <$> defs P) P.

(** ** The attribute names during [findAttNamesAll] *)





(** ** The productions that [findAttNamesAll] reaches *)






(** ** The ancestors that [findAllAncestors] finds *)

(** The productions not yet on [ancesti]: what bounds the depth of the
    recursion of [findAncestors]. *)
Definition unvisited (ps : list production) (ancesti : list nat) : nat :=
  length (filter (λ k, k ∉ ancesti) (seq 0 (length ps))).

(** The test of [findAncestors] on a member of a [subtypeOf] list, the
    membership in [ancesti] left aside. *)
Definition eligibleSuper (ps : list production) (p s : nat) : Prop :=
  ∃ P S, ps !! p = Some P ∧ s ∈ subtypeOf P ∧ ps !! s = Some S ∧
         isOptional S ≠ 1 ∧ isOptional S ≠ 2.

(** [a] is reached from [p] by going up through [subtypeOf] lists. *)
Inductive superPath (ps : list production) : nat → nat → Prop :=
| superPath_one p s : eligibleSuper ps p s → superPath ps p s
| superPath_more p s a :
    eligibleSuper ps p s → superPath ps s a → superPath ps p a.
(** What one call of [findAncestors] does to [ancesti]. *)
Definition ancestorsPost (ps : list production) (prod : nat)
    (anc anc' : list nat) : Prop :=
  NoDup anc' ∧ (∀ a, a ∈ anc → a ∈ anc') ∧
  (∀ s, eligibleSuper ps prod s → s ∈ anc') ∧
  (∀ x s, x ∈ anc' → x ∉ anc → eligibleSuper ps x s → s ∈ anc') ∧
  (∀ x, x ∈ anc' → x ∉ anc → superPath ps prod x).

(** ** The lattice that [findSupertypes] builds *)

(** The production [instance] is a supertype with a definition that names
    [p]: what makes [findSupertypes] set the [isInstance] of [p]. *)
Definition instanceOf (ps : list production) (p : nat) : Prop :=
  ∃ i I d, ps !! i = Some I ∧ supertypeShape ps I = true ∧
           lhs I = "instance"%string ∧ d ∈ defs I ∧
           firstProdValue d = Some p.

(** The fields that [findSupertypes] writes, as the constructor of a
    production leaves them. *)
Definition unclassified (P : production) : Prop :=
  isSupertype P = false ∧ subtypeOf P = [] ∧ isInstance P = false.

(** ** The own expressions that [findMyExps] finds *)

(** The [myExps] of the production [P] at place [p] stand, in the
    attribute-bearing expressions of its source, where its own attribute
    names stand in the attribute names of the source. *)
Definition ownExpsAligned (ps : list production) (p : nat) (P : production)
  : Prop :=
  length (myExps P) = length (myAtts P) ∧
  (myAtts P ≠ [] →
   ∃ S j, sourceOf ps p P = Some S ∧
          myExps P = take (length (myAtts P)) (drop j (attExps S)) ∧
          take (length (myAtts P)) (drop j (attNames S)) = myAtts P).
(** What [findMyExps] reads. *)
Definition readByFindMyExps (P : production) :=
  (myAtts P, defs P, attNames P, isInstance P, beInstance P, lhs P).

(** ** The productions that get a class *)

(** The production at place [k] is none of those that [selectProductions]
    leaves out. *)
Definition selected (a : analyzer) (k : nat) : Prop :=
  ∃ P, productions a !! k = Some P ∧
       isTerminalName (lhs P) (terminalNames a) = Ok false ∧
       findToken (lhs P) (tokenNames a) = None ∧
       isList P = 0 ∧ lhs P ≠ "instancePlus"%string ∧
       isOptional P ≠ 1 ∧ isOptional P ≠ 2.

(** The production [P] waits, in the state [qs] of the emission loop, for
    the class of [instance] or for the class of a supertype. *)
Definition blocked (instanceProd : option nat) (qs : list production)
    (P : production) : Prop :=
  (isInstance P = true ∧
   ∃ i ip, instanceProd = Some i ∧ qs !! i = Some ip ∧
           wasPrinted ip = false) ∨
  (∃ s, s ∈ subtypeOf P ∧ ∀ sp, qs !! s = Some sp → wasPrinted sp = false).

(** ** Sorted name tables *)

(** The names are in strictly ascending order of [strcmp]. *)
Fixpoint ascending (names : list string) : Prop :=
  match names with
  | [] => True
  | x :: rest => Forall (λ y, strcmp x y < 0) rest ∧ ascending rest
  end.

(** A table of 26 sub-arrays of at most [size] names, each in ascending
    order: what [recordToken] and [recordClass] keep of [tokenNames] and
    [classNames]. *)
Definition tableSorted (size : nat) (table : list (list string)) : Prop :=
  length table = 26%nat ∧
  Forall (λ names, ascending names ∧ (length names ≤ size)%nat) table.

(** ** What the parser builds *)

(** The expression that the parser builds for a token. *)
Definition tokenExpression (t : token) : expression :=
  match t with
  | TokKeyword text => mkExpression KEYWORD text None
  | TokNonterminal text =>
      if strcmp text "c" =? 0 then commaExp
      else mkExpression NONTERMINAL text None
  | TokTerminal text => mkExpression TERMINAL text None
  | TokTerminalString text => mkExpression TERMINALSTRING text None
  | TokOneChar text => mkExpression ONECHAR text None
  | TokTwoChar text => mkExpression TWOCHAR text None
  end.

(** The production that the parser builds for a production of the
    file. *)
Definition parsedProduction (sp : sourceProduction) : production :=
  new_production (leftSide sp)
                 (fmap (M:=list) tokenExpression <$> definitionList sp).

(** The name tables are sorted and within their bounds. *)
Definition tablesSorted (a : analyzer) : Prop :=
  tableSorted LETTERSIZE (tokenNames a) ∧
  ascending (terminalNames a) ∧ (length (terminalNames a) ≤ LETTERSIZE)%nat.

(** The token or terminal that an expression stands for is in the name
    tables. *)
Definition recorded (a : analyzer) (e : expression) : Prop :=
  (theType e = KEYWORD → is_Some (findToken (itemName e) (tokenNames a))) ∧
  (theType e = TERMINAL → itemName e ∈ terminalNames a).

(** Whatever the tables of [a] hold, the tables of [a'] hold. *)
Definition tablesExtend (a a' : analyzer) : Prop :=
  (∀ text, is_Some (findToken text (tokenNames a)) →
           is_Some (findToken text (tokenNames a'))) ∧
  (∀ t, t ∈ terminalNames a → t ∈ terminalNames a').

(** ** The recursion of [findAttNamesOne] *)

(** The supertype [q] has a definition that names the supertype [r]: a
    call of [findAttNamesOne] on [q] calls it on [r]. *)
Definition namesSupertype (ps : list production) (q r : nat) : Prop :=
  ∃ Q R d, ps !! q = Some Q ∧ isSupertype Q = true ∧ d ∈ defs Q ∧
           firstProdValue d = Some r ∧ ps !! r = Some R ∧
           isSupertype R = true.

Inductive subPath (ps : list production) : nat → nat → Prop :=
| subPath_one q r : namesSupertype ps q r → subPath ps q r
| subPath_more q r u :
    namesSupertype ps q r → subPath ps r u → subPath ps q u.

(** Every definition of a supertype starts with an expression bound to a
    production, as [findSupertypes] has checked. *)
Definition supertypesBound (ps : list production) : Prop :=
  ∀ q Q d, ps !! q = Some Q → isSupertype Q = true → d ∈ defs Q →
           ∃ r, firstProdValue d = Some r ∧ is_Some (ps !! r).

(** The states that [findAttNamesOne] goes through from [ps]: the
    productions with other attribute names. *)
Definition sameLattice (ps qs : list production) : Prop :=
  (λ P, (defs P, isSupertype P)) <$> qs
  = (λ P, (defs P, isSupertype P)) <$> ps.

(** ** The optional parents that [findOptProds] leaves *)

(** The production [P'] is an optional parent as [findOptProds] sets one
    up in the model [ps]: it points at its optional child, its role
    tells whether the child is an instance or an ancestor of one, and its
    [transferName] is the name of the child or, for a child that is no
    instance but has a [beInstance], the name of an instance with the
    child among its ancestors. *)
Definition optionalParentOf (ps : list production) (P' : production)
  : Prop :=
  ∃ c C, optionalChild P' = Some c ∧ optProd P' = Some c ∧
         ps !! c = Some C ∧
         (isOptional P' = 1 ↔ isInstance C = true ∨ is_Some (beInstance C)) ∧
         ∃ name, transferName P' = Some name ∧
                 if isInstance C then name = lhs C
                 else match beInstance C with
                      | None => name = lhs C
                      | Some _ =>
                          ∃ I, I ∈ ps ∧ c ∈ ancestors I ∧
                               isInstance I = true ∧ name = lhs I
                      end.

(** What [findOptProds] reads and does not write. *)
Definition readByFindOptProds (P : production) :=
  (defs P, isInstance P, beInstance P, ancestors P, lhs P).

(** ** Type names: [findTypeName] *)

(** The three renamings that [findTypeName] makes of the item name of a
    list. *)
Definition listItemTypeName (typeName : string) : string :=
  if strcmp typeName "CHARSTRING" =? 0 then "char"
  else if strcmp typeName "REALSTRING" =? 0 then "double"
  else if strcmp typeName "instancePlus" =? 0 then "instance"
  else typeName.

(** [findTypeName (exp)]. The function dereferences [exp->prodValue], the
    first definition of a list and its last expression, and the [optProd]
    of an optional parent without a test: a null pointer there is
    [Crash]. *)
Definition findTypeName (productions : list production) (exp : expression)
  : result string :=
  match prodValue exp ≫= (productions !!.) with
  | None => Crash
  | Some Q =>
      if negb (isList Q =? 0) then
        match head (defs Q) ≫= last with
        | Some item => Ok (listItemTypeName (itemName item))
        | None => Crash
        end
      else if (isOptional Q =? 1) || (isOptional Q =? 2) then
        match optProd Q ≫= (productions !!.) with
        | Some C => Ok (lhs C)
        | None => Crash
        end
      else Ok (itemName exp)
  end.

(** ** The cells of a [stringList] ([ebnfClasses.hh], [ebnfClasses.cc]) *)

(** An [int] after [++]: the value wraps round at 32 bits. *)
Definition int_succ (n : Z) : Z := (n + 1 + 2 ^ 31) mod 2 ^ 32 - 2 ^ 31.

Definition INT_MAX : Z := 2 ^ 31 - 1.

(** The methods of [stringList] on the cells themselves. The cells that
    [new] has made so far are a list, a pointer to a cell is its index
    there and the null pointer is [None]; a cell is never deleted. *)
Module StringList.

Record stringListCell : Type := mkStringListCell {
  data : string;
  next : option nat
}.

Record stringList : Type := mkStringList {
  first : option nat;
  last : option nat
}.

Abbreviation heap := (list stringListCell).

Definition set_next (v : option nat) (c : stringListCell) : stringListCell :=
  mkStringListCell (data c) v.

(** [new stringListCell (dataIn)]: the pointer and the cells with the new
    one. *)
Definition new_stringListCell (dataIn : string) (h : heap) : nat * heap :=
  (length h, h ++ [mkStringListCell dataIn None]).

(** [stringList ()]. *)
Definition new_stringList : stringList := mkStringList None None.

(** [cell->next = v], where [cell] may be null or never set. *)
Definition store_next (cell : option nat) (v : option nat) (h : heap)
  : result heap :=
  match cell with
  | None => Crash
  | Some c =>
      match h !! c with
      | None => Crash
      | Some _ => Ok (alter (set_next v) c h)
      end
  end.

(** The loop of [stringList::findLength]; the fuel bounds the number of
    cells visited. *)
Fixpoint findLength_loop (fuel : nat) (h : heap) (stringCell : option nat)
    (length : Z) : result Z :=
  match stringCell with
  | None => Ok length
  | Some cell =>
      match fuel with
      | O => OutOfFuel
      | S fuel =>
          match h !! cell with
          | None => Crash
          | Some c => findLength_loop fuel h (next c) (int_succ length)
          end
      end
  end.

(** [stringList::findLength ()]. *)
Definition findLength (fuel : nat) (h : heap) (l : stringList) : result Z :=
  findLength_loop fuel h (first l) 0.

(** The loop of [stringList::record] with the test [if (!aCell)] after
    it. [backCell] is [None] as long as the loop has not set it. *)
Fixpoint record_loop (fuel : nat) (dataIn : string) (h : heap)
    (l : stringList) (aCell backCell : option nat)
  : result (heap * stringList) :=
  match aCell with
  | None =>
      let '(newLast, h) := new_stringListCell dataIn h in
      h ← store_next backCell (Some newLast) h;
      Ok (h, mkStringList (first l) (Some newLast))
  | Some a =>
      match fuel with
      | O => OutOfFuel
      | S fuel =>
          match h !! a with
          | None => Crash
          | Some c =>
              let compVal := strcmp dataIn (data c) in
              if compVal <? 0 then
                if decide (aCell = first l) then
                  let '(newFirst, h) := new_stringListCell dataIn h in
                  h ← store_next (Some newFirst) aCell h;
                  Ok (h, mkStringList (Some newFirst) (last l))
                else
                  let '(newCell, h) := new_stringListCell dataIn h in
                  h ← store_next backCell (Some newCell) h;
                  h ← store_next (Some newCell) aCell h;
                  Ok (h, l)
              else if compVal =? 0 then Ok (h, l)
              else record_loop fuel dataIn h l (next c) aCell
          end
      end
  end.

(** [stringList::record (dataIn)]. *)
Definition record (fuel : nat) (dataIn : string) (h : heap) (l : stringList)
  : result (heap * stringList) :=
  match first l with
  | None =>
      let '(newFirst, h) := new_stringListCell dataIn h in
      Ok (h, mkStringList (Some newFirst) (Some newFirst))
  | Some _ => record_loop fuel dataIn h l (first l) None
  end.

(** [stringList::pushBack (dataIn)]; it makes two cells and uses the
    second. *)
Definition pushBack (dataIn : string) (h : heap) (l : stringList)
  : result (heap * stringList) :=
  let '(_, h) := new_stringListCell dataIn h in
  match last l with
  | None =>
      let '(newFirst, h) := new_stringListCell dataIn h in
      Ok (h, mkStringList (Some newFirst) (Some newFirst))
  | Some _ =>
      let '(newCell, h) := new_stringListCell dataIn h in
      h ← store_next (last l) (Some newCell) h;
      Ok (h, mkStringList (first l) (Some newCell))
  end.

(** The loop of [stringList::member]. *)
Fixpoint member_loop (fuel : nat) (h : heap) (aString : string)
    (stringCell : option nat) : result (option nat) :=
  match stringCell with
  | None => Ok None
  | Some cell =>
      match fuel with
      | O => OutOfFuel
      | S fuel =>
          match h !! cell with
          | None => Crash
          | Some c =>
              if strcmp (data c) aString =? 0 then Ok stringCell
              else member_loop fuel h aString (next c)
          end
      end
  end.

(** [stringList::member (aString)]. *)
Definition member (fuel : nat) (h : heap) (aString : string)
    (l : stringList) : result (option nat) :=
  member_loop fuel h aString (first l).

(** The cells [cells], each with its string, are linked by [next] from
    the pointer [p] up to the pointer [q]. *)
Fixpoint segment (h : heap) (p : option nat) (cells : list (nat * string))
    (q : option nat) : Prop :=
  match cells with
  | [] => p = q
  | (a, s) :: rest =>
      p = Some a ∧
      ∃ c, h !! a = Some c ∧ data c = s ∧ segment h (next c) rest q
  end.

(** The list [l] is made of the cells [cells]: they are linked from
    [first] to the null pointer and [last] points at the last of them. *)
Definition represents (h : heap) (l : stringList)
    (cells : list (nat * string)) : Prop :=
  segment h (first l) cells None ∧ last l = fst <$> list.last cells.

End StringList.

(** What [record] makes of the strings [old] of a list. *)
Definition recorded_in (dataIn : string) (old new : list string) : Prop :=
  ∃ before after,
    old = before ++ after ∧ Forall (λ y, 0 < strcmp dataIn y) before ∧
    match after with
    | [] => new = old ++ [dataIn]
    | y :: _ =>
        if strcmp dataIn y =? 0 then new = old
        else strcmp dataIn y < 0 ∧ new = before ++ dataIn :: after
    end.

(** ** The cells of a [defList], an [expList] and a [prodList]
       ([ebnfClasses.hh], [ebnfClasses.cc]) *)

(** The three classes have the same cells and the same code, with a
    pointer to a definition, an expression or a production as [data];
    [A] is the type of that pointer. As for [stringList], the cells that
    [new] has made are a list and a pointer to a cell is its index. *)
Module CellList.

Record listCell (A : Type) : Type := mkListCell {
  next : option nat;
  back : option nat;
  data : A
}.
Arguments mkListCell {A} _ _ _.
Arguments next {A} _.
Arguments back {A} _.
Arguments data {A} _.

Record cellList : Type := mkCellList {
  first : option nat;
  last : option nat
}.

Definition set_next {A : Type} (v : option nat) (c : listCell A)
  : listCell A :=
  mkListCell v (back c) (data c).

Definition set_back {A : Type} (v : option nat) (c : listCell A)
  : listCell A :=
  mkListCell (next c) v (data c).

(** [new defListCell (def)] and the like. *)
Definition new_listCell {A : Type} (dataIn : A) (h : list (listCell A))
  : nat * list (listCell A) :=
  (length h, h ++ [mkListCell None None dataIn]).

(** [defList ()] and the like. *)
Definition new_cellList : cellList := mkCellList None None.

(** A write through the pointer [cell]. *)
Definition store {A : Type} (cell : option nat)
    (f : listCell A → listCell A) (h : list (listCell A))
  : result (list (listCell A)) :=
  match cell with
  | None => Crash
  | Some c =>
      match h !! c with
      | None => Crash
      | Some _ => Ok (alter f c h)
      end
  end.

(** [defList::pushBack], [expList::pushBack], [prodList::pushBack]. *)
Definition pushBack {A : Type} (dataIn : A) (h : list (listCell A))
    (l : cellList) : result (list (listCell A) * cellList) :=
  let '(newCell, h) := new_listCell dataIn h in
  match last l with
  | Some _ =>
      h ← store (last l) (set_next (Some newCell)) h;
      h ← store (Some newCell) (set_back (last l)) h;
      Ok (h, mkCellList (first l) (Some newCell))
  | None => Ok (h, mkCellList (Some newCell) (Some newCell))
  end.

(** [defList::pushFront], [expList::pushFront]. *)
Definition pushFront {A : Type} (dataIn : A) (h : list (listCell A))
    (l : cellList) : result (list (listCell A) * cellList) :=
  let '(newCell, h) := new_listCell dataIn h in
  match first l with
  | Some _ =>
      h ← store (first l) (set_back (Some newCell)) h;
      h ← store (Some newCell) (set_next (first l)) h;
      Ok (h, mkCellList (Some newCell) (last l))
  | None => Ok (h, mkCellList (Some newCell) (Some newCell))
  end.

(** The loop of [findLength]; the fuel bounds the number of cells
    visited. *)
Fixpoint findLength_loop {A : Type} (fuel : nat) (h : list (listCell A))
    (cell : option nat) (length : Z) : result Z :=
  match cell with
  | None => Ok length
  | Some a =>
      match fuel with
      | O => OutOfFuel
      | S fuel =>
          match h !! a with
          | None => Crash
          | Some c => findLength_loop fuel h (next c) (int_succ length)
          end
      end
  end.

(** [defList::findLength], [expList::findLength],
    [prodList::findLength]. *)
Definition findLength {A : Type} (fuel : nat) (h : list (listCell A))
    (l : cellList) : result Z :=
  findLength_loop fuel h (first l) 0.

(** The loop of [prodList::member]; the productions are compared as
    pointers. *)
Fixpoint member_loop (fuel : nat) (h : list (listCell nat)) (prod : nat)
    (prodCell : option nat) : result (option nat) :=
  match prodCell with
  | None => Ok None
  | Some a =>
      match fuel with
      | O => OutOfFuel
      | S fuel =>
          match h !! a with
          | None => Crash
          | Some c =>
              if decide (data c = prod) then Ok prodCell
              else member_loop fuel h prod (next c)
          end
      end
  end.

(** [prodList::member (prod)]. *)
Definition member (fuel : nat) (h : list (listCell nat)) (prod : nat)
    (l : cellList) : result (option nat) :=
  member_loop fuel h prod (first l).

(** The cell before the pointer that follows [cells], when [prev] is the
    cell before them. *)
Definition lastCell {A : Type} (prev : option nat) (cells : list (nat * A))
  : option nat :=
  match list.last cells with
  | Some c => Some c.1
  | None => prev
  end.

(** The cells [cells], each with its data, are linked by [next] from the
    pointer [p] up to the pointer [q], and by [back] the other way, the
    first of them to [prev]. *)
Fixpoint segment {A : Type} (h : list (listCell A)) (prev p : option nat)
    (cells : list (nat * A)) (q : option nat) : Prop :=
  match cells with
  | [] => p = q
  | (a, x) :: rest =>
      p = Some a ∧
      ∃ c, h !! a = Some c ∧ data c = x ∧ back c = prev ∧
           segment h (Some a) (next c) rest q
  end.

(** The list [l] is made of the cells [cells]: they are linked both ways
    between two null pointers, [first] points at the first of them and
    [last] at the last. *)
Definition represents {A : Type} (h : list (listCell A)) (l : cellList)
    (cells : list (nat * A)) : Prop :=
  segment h None (first l) cells None ∧ last l = lastCell None cells.

End CellList.

(** ** What [recordClasses] records *)

(** The name is in one of the sub-arrays of the table. *)
Definition inTable (name : string) (table : list (list string)) : Prop :=
  ∃ i names, table !! i = Some names ∧ name ∈ names.

(** The name is in the sub-array of its first letter, a lower case
    letter. *)
Definition classRecorded (name : string) (table : list (list string))
  : Prop :=
  ∃ i names, letterIndex 97 name = Some i ∧ table !! i = Some names ∧
             name ∈ names.

(** ** Example grammars *)

(** The productions that the analysis passes up to [findAllAncestors]
    make of a grammar, for examples. *)
Definition withAncestors (grammar : list sourceProduction)
  : list production :=
  match
    (a ← yyparse grammar initialAnalyzer;
     findAllAncestors (findSupertypes (findProdValueAll (productions a))))
  with
  | Ok ps => ps
  | _ => []
  end.

(** [instance = a | b ;  s = a | b ;  a = A ;  b = B ;  c = ',' ;] *)
Definition twoInstances : list sourceProduction :=
  [ mkSourceProduction "instance"
      [[TokNonterminal "a"]; [TokNonterminal "b"]];
    mkSourceProduction "s" [[TokNonterminal "a"]; [TokNonterminal "b"]];
    mkSourceProduction "a" [[TokKeyword "A"]];
    mkSourceProduction "b" [[TokKeyword "B"]];
    mkSourceProduction "c" [[TokOneChar ","]] ].

(** [instance = a | b ;  b = a | d ;  a = A ;  d = D ;  c = ',' ;] : the
    instance [b] is a supertype of the instance [a]. *)
Definition instanceChain : list sourceProduction :=
  [ mkSourceProduction "instance"
      [[TokNonterminal "a"]; [TokNonterminal "b"]];
    mkSourceProduction "b" [[TokNonterminal "a"]; [TokNonterminal "d"]];
    mkSourceProduction "a" [[TokKeyword "A"]];
    mkSourceProduction "d" [[TokKeyword "D"]];
    mkSourceProduction "c" [[TokOneChar ","]] ].

(** [optD = '$' | d ;  d = D ;  c = ',' ;] : the two definitions of an
    optional, the other way round. *)
Definition dollarFirst : list sourceProduction :=
  [ mkSourceProduction "optD" [[TokOneChar "$"]; [TokNonterminal "d"]];
    mkSourceProduction "d" [[TokKeyword "D"]];
    mkSourceProduction "c" [[TokOneChar ","]] ].

(** [optD = d | '$' ;  d = D ;  c = ',' ;] *)
Definition dollarLast : list sourceProduction :=
  [ mkSourceProduction "optD" [[TokNonterminal "d"]; [TokOneChar "$"]];
    mkSourceProduction "d" [[TokKeyword "D"]];
    mkSourceProduction "c" [[TokOneChar ","]] ].

(** [optB = b | '$' ;  b = x | '$' ;  x = X ;  c = ',' ;] : [b] is the
    optional child of [optB] and the optional parent of [x]. *)
Definition optionalChain : list sourceProduction :=
  [ mkSourceProduction "optB" [[TokNonterminal "b"]; [TokOneChar "$"]];
    mkSourceProduction "b" [[TokNonterminal "x"]; [TokOneChar "$"]];
    mkSourceProduction "x" [[TokKeyword "X"]];
    mkSourceProduction "c" [[TokOneChar ","]] ].

(** [instance = p ;  p = P , x ;  s = p ;  x = X ;  c = ',' ;] with the
    attribute lines [(* s : name kind *)] and [(* p : size *)]: [p]
    inherits two attributes from [s] and has a single expression that can
    bear an attribute. *)
Definition tooFewExpressions : list sourceProduction :=
  [ mkSourceProduction "instance" [[TokNonterminal "p"]];
    mkSourceProduction "p" [[TokKeyword "P"; TokNonterminal "x"]];
    mkSourceProduction "s" [[TokNonterminal "p"]];
    mkSourceProduction "x" [[TokKeyword "X"]];
    mkSourceProduction "c" [[TokOneChar ","]] ].

Definition tooFewExpressionsAtts : attributeSection :=
  AttLines [ mkAttLine "s" ["name"; "kind"]%string None;
             mkAttLine "p" ["size"]%string None ] true.

(** The analyzed productions of [twoInstances]. *)
Definition twoInstancesAnalyzed : list production :=
  Eval vm_compute in
    match analyze twoInstances (AttLines [] true) 1 with
    | Ok a => productions a
    | _ => []
    end.

(** An emitter that never fails. *)
Definition printsAll : list production → nat → option string := λ _ _, None.

(** [instance = p ;  p = P , x , x , x ;  s = p ;  x = X ;  c = ',' ;]
    with the attribute lines [(* s : name kind *)] and [(* p : size *)]. *)
Definition inheritedAtts : list sourceProduction :=
  [ mkSourceProduction "instance" [[TokNonterminal "p"]];
    mkSourceProduction "p"
      [[TokKeyword "P"; TokNonterminal "x"; TokNonterminal "x";
        TokNonterminal "x"]];
    mkSourceProduction "s" [[TokNonterminal "p"]];
    mkSourceProduction "x" [[TokKeyword "X"]];
    mkSourceProduction "c" [[TokOneChar ","]] ].




(** The productions that parsing, binding and [findSupertypes] make of a
    grammar, for examples. *)
Definition withSupertypes (grammar : list sourceProduction)
  : list production :=
  match yyparse grammar initialAnalyzer with
  | Ok a => findSupertypes (findProdValueAll (productions a))
  | _ => []
  end.

(** [top = mid | side ;  mid = leaf ;  side = leaf ;  leaf = L ;] : [leaf]
    has two supertypes with a common supertype. *)
Definition diamond : list sourceProduction :=
  [ mkSourceProduction "top" [[TokNonterminal "mid"]; [TokNonterminal "side"]];
    mkSourceProduction "mid" [[TokNonterminal "leaf"]];
    mkSourceProduction "side" [[TokNonterminal "leaf"]];
    mkSourceProduction "leaf" [[TokKeyword "L"]] ].

(** The productions of [twoInstances] as the parser builds them. *)
Definition twoInstancesParsed : list production :=
  Eval vm_compute in
    match yyparse twoInstances initialAnalyzer with
    | Ok a => productions a
    | _ => []
    end.

(** [ints = int | ints , c , int ;  int = I ;  c = ',' ;] : a list with
    commas. *)
Definition intList : list sourceProduction :=
  [ mkSourceProduction "ints"
      [[TokNonterminal "int"];
       [TokNonterminal "ints"; TokNonterminal "c"; TokNonterminal "int"]];
    mkSourceProduction "int" [[TokKeyword "I"]];
    mkSourceProduction "c" [[TokOneChar ","]] ].

(** The analyzed model of [intList]. *)
Definition intListAnalyzed : analyzer :=
  Eval vm_compute in
    match analyze intList (AttLines [] true) 1 with
    | Ok a => a
    | _ => initialAnalyzer
    end.

(** [a = b ;  b = a ;] : two supertypes that are subtypes of each other. *)
Definition cyclicPair : list sourceProduction :=
  [ mkSourceProduction "a" [[TokNonterminal "b"]];
    mkSourceProduction "b" [[TokNonterminal "a"]] ].

(** The analyzed productions of [cyclicPair]. *)
Definition cyclicPairAnalyzed : list production :=
  Eval vm_compute in
    match analyze cyclicPair (AttLines [] true) 1 with
    | Ok a => productions a
    | _ => []
    end.

(** [instance = a ;  s = a | b ;  optS = s | '$' ;  optA = a | '$' ;
    optB = b | '$' ;  a = A ;  b = B ;  c = ',' ;] : the optional child
    [s] is no instance but a supertype of the instance [a]; [a] is an
    instance; [b] is neither. *)
Definition optionalSuper : list sourceProduction :=
  [ mkSourceProduction "instance" [[TokNonterminal "a"]];
    mkSourceProduction "s" [[TokNonterminal "a"]; [TokNonterminal "b"]];
    mkSourceProduction "optS" [[TokNonterminal "s"]; [TokOneChar "$"]];
    mkSourceProduction "optA" [[TokNonterminal "a"]; [TokOneChar "$"]];
    mkSourceProduction "optB" [[TokNonterminal "b"]; [TokOneChar "$"]];
    mkSourceProduction "a" [[TokKeyword "A"]];
    mkSourceProduction "b" [[TokKeyword "B"]];
    mkSourceProduction "c" [[TokOneChar ","]] ].

(** The productions of [optionalSuper] as [findOptProds] gets them. *)
Definition optionalSuperClassified : list production :=
  Eval vm_compute in findBeInstance (withAncestors optionalSuper).

(** The list of the strings [b] and [d], made of two cells. *)
Definition twoStrings : list StringList.stringListCell :=
  [ StringList.mkStringListCell "b" (Some 1%nat);
    StringList.mkStringListCell "d" None ].

Definition twoStringsList : StringList.stringList :=
  StringList.mkStringList (Some 0%nat) (Some 1%nat).

Definition twoStringsCells : list (nat * string) :=
  [ (0%nat, "b"%string); (1%nat, "d"%string) ].

(** A list of the productions 7 and 9, made of two cells. *)
Definition twoCells : list (CellList.listCell nat) :=
  [ CellList.mkListCell (Some 1%nat) None 7%nat;
    CellList.mkListCell None (Some 0%nat) 9%nat ].

Definition twoCellsList : CellList.cellList :=
  CellList.mkCellList (Some 0%nat) (Some 1%nat).

Definition twoCellsCells : list (nat * nat) :=
  [ (0%nat, 7%nat); (1%nat, 9%nat) ].

(* ================================================================== *)
(** * Properties *)

(** ** Basic facts *)

Lemma compare_refl (a : string) : String.compare a a = Eq.
Proof.
  pose proof (String.compare_antisym a a) as H.
  destruct (String.compare a a); simpl in H; congruence.
Qed.

Lemma strcmp_eq_0 (a b : string) : strcmp a b = 0 ↔ a = b.
Proof.
  unfold strcmp. split.
  - intros E. apply String.compare_eq_iff.
    destruct (String.compare a b); [reflexivity | discriminate..].
  - intros ->. by rewrite compare_refl.
Qed.

Lemma strcmp_eqb_true (a b : string) : (strcmp a b =? 0) = true ↔ a = b.
Proof. rewrite Z.eqb_eq. apply strcmp_eq_0. Qed.

Lemma strcmp_refl (a : string) : strcmp a a = 0.
Proof. by apply strcmp_eq_0. Qed.

(** ** List classification *)

Lemma strcmp_eqb_false (a b : string) : (strcmp a b =? 0) = false ↔ a ≠ b.
Proof. rewrite Z.eqb_neq. by rewrite strcmp_eq_0. Qed.

Lemma isList_new_production (name : string) (ds : list definition) :
  isList (new_production name ds) = findIsList (new_production name ds).
Proof. reflexivity. Qed.

Lemma findIsList_plain (p : production) :
  findIsList p = 1 ↔ isPlainListShape p.
Proof.
  unfold findIsList, isPlainListShape.
  destruct (defs p) as [|d1 [|d2 [|d3 ds]]]; simpl;
    try (split; [discriminate | intros (?&?&?&?&?); discriminate]).
  destruct d1 as [|item [|item' d1]]; simpl;
    try (split; [discriminate | intros (?&?&?&?&?); discriminate]).
  destruct d2 as [|self [|e2 [|e3 [|e4 d2]]]]; simpl;
    try (split; [discriminate | intros (?&?&?&?&?); discriminate]).
  - destruct (strcmp (lhs p) (itemName self) =? 0) eqn:E1; simpl.
    + destruct (strcmp (itemName item) (itemName e2) =? 0) eqn:E2; simpl.
      * apply strcmp_eqb_true in E1, E2. split; [|done].
        intros _. by exists item, self, e2.
      * apply strcmp_eqb_false in E2. split; [discriminate|].
        intros (?&?&?&[= <- <- <-]&?&?). congruence.
    + apply strcmp_eqb_false in E1. split; [discriminate|].
      intros (?&?&?&[= <- <- <-]&?&?). congruence.
  - destruct (strcmp (lhs p) (itemName self) =? 0); simpl;
      [destruct (strcmp (itemName item) (itemName e3) =? 0); simpl;
       [destruct (strcmp (itemName e2) "c" =? 0); simpl|]|];
      (split; [discriminate | intros (?&?&?&?&?); discriminate]).
Qed.

Lemma findIsList_comma (p : production) :
  findIsList p = 2 ↔ isCommaListShape p.
Proof.
  unfold findIsList, isCommaListShape.
  destruct (defs p) as [|d1 [|d2 [|d3 ds]]]; simpl;
    try (split; [discriminate | intros (?&?&?&?&?&?); discriminate]).
  destruct d1 as [|item [|item' d1]]; simpl;
    try (split; [discriminate | intros (?&?&?&?&?&?); discriminate]).
  destruct d2 as [|self [|e2 [|e3 [|e4 d2]]]]; simpl;
    try (split; [discriminate | intros (?&?&?&?&?&?); discriminate]).
  - destruct (strcmp (lhs p) (itemName self) =? 0); simpl;
      [destruct (strcmp (itemName item) (itemName e2) =? 0); simpl|];
      (split; [discriminate | intros (?&?&?&?&?&?); discriminate]).
  - destruct (strcmp (lhs p) (itemName self) =? 0) eqn:E1; simpl.
    + destruct (strcmp (itemName item) (itemName e3) =? 0) eqn:E2; simpl.
      * destruct (strcmp (itemName e2) "c" =? 0) eqn:E3; simpl.
        -- apply strcmp_eqb_true in E1, E2, E3. split; [|done].
           intros _. by exists item, self, e2, e3.
        -- apply strcmp_eqb_false in E3. split; [discriminate|].
           intros (?&?&?&?&[= <- <- <- <-]&?&?&?). congruence.
      * apply strcmp_eqb_false in E2. split; [discriminate|].
        intros (?&?&?&?&[= <- <- <- <-]&?&?&?). congruence.
    + apply strcmp_eqb_false in E1. split; [discriminate|].
      intros (?&?&?&?&[= <- <- <- <-]&?&?&?). congruence.
Qed.

Lemma findIsList_range (p : production) :
  findIsList p = 0 ∨ findIsList p = 1 ∨ findIsList p = 2.
Proof.
  unfold findIsList.
  repeat (match goal with
          | |- context [if ?b then _ else _] => destruct b
          | |- context [match ?x with _ => _ end] => destruct x
          end; auto).
Qed.

(** C8 (as the code has it): the constructor's list classification gives
    a production list-kind 2 (comma-separated) exactly when it has two
    definitions, the first with one expression and the second with three
    expressions of which the first, of whatever kind, is named like the
    production, the middle one is named [c] and the last one is named like
    the sole expression of the first definition; list-kind 1 (plain)
    exactly when the second definition has two expressions, the first
    named like the production and the last like the list item; and
    list-kind 0 in every other case. *)
Theorem findIsList_classification (name : string) (ds : list definition) :
  let p := new_production name ds in
  (isList p = 2 ↔ isCommaListShape p) ∧
  (isList p = 1 ↔ isPlainListShape p) ∧
  (isList p = 0 ↔ ¬ isCommaListShape p ∧ ¬ isPlainListShape p).
Proof.
  intros p. assert (E : isList p = findIsList p) by reflexivity. rewrite E.
  split; [apply findIsList_comma|]. split; [apply findIsList_plain|].
  rewrite <- findIsList_comma, <- findIsList_plain.
  destruct (findIsList_range p) as [H|[H|H]]; rewrite H; split;
    try done; intros [? ?]; done.
Qed.

(** C8 (as stated) fails: [ITEMS = ITEM | ITEMS , ITEM ;] is classified as
    a plain list although its left-recursive expression is a KEYWORD, not
    a NONTERMINAL. *)
Lemma findIsList_ignores_kind :
  isList keywordList = 1 ∧ ¬ isPlainListShape_nonterminal keywordList.
Proof.
  split; [reflexivity|].
  intros (item & self & final & Hd & Hk & _). simpl in Hd.
  injection Hd as _ <- _. discriminate Hk.
Qed.

(** ** Binding *)

Lemma set_defs_id (p : production) : set_defs (defs p) p = p.
Proof. by destruct p. Qed.

Lemma boundUpTo_itemName names user n e :
  itemName (boundUpTo names user n e) = itemName e.
Proof.
  induction n as [|n IH]; [done|]. simpl.
  destruct (decide (user = n)); [done|].
  destruct (names !! n); [|done].
  by destruct (strcmp _ _ =? 0).
Qed.

Lemma boundUpTo_theType names user n e :
  theType (boundUpTo names user n e) = theType e.
Proof.
  induction n as [|n IH]; [done|]. simpl.
  destruct (decide (user = n)); [done|].
  destruct (names !! n); [|done].
  by destruct (strcmp _ _ =? 0).
Qed.

Lemma setProdValue_boundUpTo names user n nm (d : definition) :
  user ≠ n → names !! n = Some nm →
  setProdValue n nm (boundUpTo names user n <$> d)
  = boundUpTo names user (S n) <$> d.
Proof.
  intros Hne Hnm. unfold setProdValue. rewrite <- list_fmap_compose.
  apply list_fmap_ext. intros i e _. simpl.
  destruct (decide (user = n)); [done|]. by rewrite Hnm.
Qed.

Lemma findProdValueAll_prefix (productions : list production) (n : nat) :
  (n ≤ length productions)%nat →
  foldl (λ ps prod, findProdValueOne prod ps) productions (seq 0 n)
  = imap (λ user u,
            set_defs
              (fmap (M:=list) (boundUpTo (lhs <$> productions) user n) <$> defs u)
              u)
         productions.
Proof.
  induction n as [|n IH]; intros Hn.
  - simpl. apply list_eq. intros i. rewrite list_lookup_imap.
    destruct (productions !! i) as [p|]; [|done]. simpl. f_equal. symmetry.
    transitivity (set_defs (defs p) p); [|apply set_defs_id]. f_equal.
    transitivity (id <$> defs p); [|apply list_fmap_id].
    apply list_fmap_ext. intros ? d _. apply list_fmap_id.
  - rewrite seq_S, foldl_app. simpl. rewrite IH by lia.
    destruct (lookup_lt_is_Some_2 productions n) as [pn Hpn]; [lia|].
    unfold findProdValueOne at 1. rewrite list_lookup_imap, Hpn. simpl.
    apply list_eq. intros i. rewrite !list_lookup_imap.
    destruct (productions !! i) as [p|]; [|done]. simpl. f_equal.
    destruct (decide (i = n)) as [->|Hne].
    + done.
    + unfold set_defs. simpl. f_equal.
      rewrite <- list_fmap_compose. apply list_fmap_ext. intros ? d _. simpl.
      rewrite (setProdValue_boundUpTo (lhs <$> productions) i n (lhs pn));
        [|done|by rewrite list_lookup_fmap, Hpn].
      apply list_fmap_ext. intros ? e _. simpl.
      by destruct (decide (i = n)).
Qed.

Lemma findProdValueAll_spec (productions : list production) :
  findProdValueAll productions
  = imap (λ user u,
            set_defs
              (fmap (M:=list)
                 (boundUpTo (lhs <$> productions) user (length productions))
               <$> defs u) u)
         productions.
Proof. by apply findProdValueAll_prefix. Qed.

Lemma boundUpTo_unbound names user n e :
  (∀ j, (j < n)%nat → j ≠ user → names !! j ≠ Some (itemName e)) →
  prodValue (boundUpTo names user n e) = prodValue e.
Proof.
  induction n as [|n IH]; intros Hno; [done|]. simpl.
  assert (prodValue (boundUpTo names user n e) = prodValue e) as IH'.
  { apply IH. intros j Hj. apply Hno. lia. }
  destruct (decide (user = n)); [done|].
  destruct (names !! n) as [nm|] eqn:Hnm; [|done].
  destruct (strcmp _ _ =? 0) eqn:E; [|done].
  apply strcmp_eqb_true in E. rewrite boundUpTo_itemName in E. subst nm.
  by destruct (Hno n); [lia|..].
Qed.

Lemma boundUpTo_bound names user n e j :
  (j < n)%nat → j ≠ user → names !! j = Some (itemName e) →
  ∃ k, prodValue (boundUpTo names user n e) = Some k ∧
       (k < n)%nat ∧ k ≠ user ∧ names !! k = Some (itemName e) ∧
       ∀ j', (j' < n)%nat → j' ≠ user →
             names !! j' = Some (itemName e) → (j' ≤ k)%nat.
Proof.
  revert j. induction n as [|n IH]; intros j Hj Hne Hnm; [lia|]. simpl.
  destruct (decide (user = n)) as [->|Hun].
  - destruct (IH j) as (k & Hk & Hlt & Hku & Hkn & Hmax); [lia|done..|].
    exists k. repeat split; [done|lia|done..|].
    intros j' Hj' Hj'u. apply Hmax; [lia|done].
  - destruct (names !! n) as [nm|] eqn:Hn.
    + destruct (strcmp _ _ =? 0) eqn:E.
      * apply strcmp_eqb_true in E. rewrite boundUpTo_itemName in E.
        subst nm. exists n. simpl. repeat split; [lia|done..|]. intros; lia.
      * apply strcmp_eqb_false in E. rewrite boundUpTo_itemName in E.
        assert (j ≠ n) by (intros ->; congruence).
        destruct (IH j) as (k & Hk & Hlt & Hku & Hkn & Hmax); [lia|done..|].
        exists k. repeat split; [done|lia|done..|].
        intros j' Hj' Hj'u Hj'n. assert (j' ≠ n) by (intros ->; congruence).
        apply Hmax; [lia|done..].
    + assert (j ≠ n) by (intros ->; congruence).
      destruct (IH j) as (k & Hk & Hlt & Hku & Hkn & Hmax); [lia|done..|].
      exists k. repeat split; [done|lia|done..|].
      intros j' Hj' Hj'u Hj'n. assert (j' ≠ n) by (intros ->; congruence).
      apply Hmax; [lia|done..].
Qed.

(** Where an expression sits after binding. *)
Lemma findProdValueAll_lookup (productions : list production)
    (i d n : nat) (P : production) (D : definition) (E : expression) :
  productions !! i = Some P → defs P !! d = Some D → D !! n = Some E →
  ∃ P' D',
    findProdValueAll productions !! i = Some P' ∧
    defs P' !! d = Some D' ∧
    D' !! n = Some (boundUpTo (lhs <$> productions) i (length productions) E)
    ∧ lhs P' = lhs P.
Proof.
  intros HP HD HE. rewrite findProdValueAll_spec.
  set (f := boundUpTo (lhs <$> productions) i (length productions)).
  exists (set_defs (fmap (M:=list) f <$> defs P) P), (f <$> D).
  rewrite list_lookup_imap, HP. simpl.
  split; [reflexivity|]. rewrite !list_lookup_fmap, HD, HE. done.
Qed.

Lemma expAt_Some (productions : list production) (i d n : nat) E :
  expAt productions i d n = Some E ↔
  ∃ P D, productions !! i = Some P ∧ defs P !! d = Some D ∧ D !! n = Some E.
Proof.
  unfold expAt. split.
  - intros H. destruct (productions !! i) as [P|]; [|done]. simpl in H.
    destruct (defs P !! d) as [D|] eqn:HD; [|done]. simpl in H. eauto.
  - intros (P & D & -> & HD & HE). simpl. by rewrite HD.
Qed.

Lemma findProdValueAll_lhs (productions : list production) :
  lhs <$> findProdValueAll productions = lhs <$> productions.
Proof.
  rewrite findProdValueAll_spec. apply list_eq. intros i.
  rewrite !list_lookup_fmap, list_lookup_imap.
  by destruct (productions !! i).
Qed.

Lemma findProdValueAll_length (productions : list production) :
  length (findProdValueAll productions) = length productions.
Proof. rewrite findProdValueAll_spec. apply length_imap. Qed.

(** C1 (as the code has it): binding keeps the place, kind and name of
    every expression; an expression of production [i] whose name is the
    name of a production at another place [j ≠ i] ends up pointing at
    such a production (the last one in list order, so at [j] itself when
    names are unique); an expression whose name is borne by no other
    production, in particular a reference of a production to itself, keeps
    the pointer it had (null after parsing). *)
Theorem findProdValueAll_binds_others (productions : list production)
    (i d n : nat) (E : expression) :
  expAt productions i d n = Some E →
  ∃ E', expAt (findProdValueAll productions) i d n = Some E' ∧
        theType E' = theType E ∧ itemName E' = itemName E ∧
        (∀ j Q, j ≠ i → productions !! j = Some Q → lhs Q = itemName E →
           ∃ k Q', prodValue E' = Some k ∧ k ≠ i ∧
                   productions !! k = Some Q' ∧ lhs Q' = itemName E ∧
                   ∀ j' Q'', j' ≠ i → productions !! j' = Some Q'' →
                             lhs Q'' = itemName E → (j' ≤ k)%nat) ∧
        ((∀ j Q, j ≠ i → productions !! j = Some Q → lhs Q ≠ itemName E) →
         prodValue E' = prodValue E).
Proof.
  intros (P & D & HP & HD & HE)%expAt_Some.
  destruct (findProdValueAll_lookup productions i d n P D E)
    as (P' & D' & HP' & HD' & HE' & _); [done..|].
  eexists. split; [apply expAt_Some; eauto|].
  split; [apply boundUpTo_theType|]. split; [apply boundUpTo_itemName|].
  split.
  - intros j Q Hji HQ Hname.
    destruct (boundUpTo_bound (lhs <$> productions) i (length productions)
                E j) as (k & Hk & Hlt & Hki & Hkn & Hmax).
    { by eapply lookup_lt_Some. }
    { done. }
    { by rewrite list_lookup_fmap, HQ, <- Hname. }
    rewrite list_lookup_fmap in Hkn.
    destruct (productions !! k) as [Q'|] eqn:HQ'; [|done].
    injection Hkn as Hkn. exists k, Q'. repeat split; [done..|].
    intros j' Q'' Hj' HQ'' Hname'. apply Hmax; [|done|].
    + by eapply lookup_lt_Some.
    + by rewrite list_lookup_fmap, HQ'', <- Hname'.
  - intros Hno. apply boundUpTo_unbound. intros j Hj Hji Hnm.
    rewrite list_lookup_fmap in Hnm.
    destruct (productions !! j) as [Q|] eqn:HQ; [|done].
    injection Hnm as Hnm. by eapply Hno.
Qed.

Lemma findProdValueAll_binds_others_witness :
  ∃ E', expAt (findProdValueAll listGrammar) 0 0 0 = Some E' ∧
        theType E' = NONTERMINAL ∧ itemName E' = "x"%string ∧
        (∀ j Q, j ≠ 0%nat → listGrammar !! j = Some Q → lhs Q = "x"%string →
           ∃ k Q', prodValue E' = Some k ∧ k ≠ 0%nat ∧
                   listGrammar !! k = Some Q' ∧ lhs Q' = "x"%string ∧
                   ∀ j' Q'', j' ≠ 0%nat → listGrammar !! j' = Some Q'' →
                             lhs Q'' = "x"%string → (j' ≤ k)%nat) ∧
        ((∀ j Q, j ≠ 0%nat → listGrammar !! j = Some Q →
                 lhs Q ≠ "x"%string) →
         prodValue E' = None).
Proof.
  apply (findProdValueAll_binds_others listGrammar 0 0 0
           (mkExpression NONTERMINAL "x" None)).
  reflexivity.
Defined.

(** C1 (as stated) fails: in [xs = x | xs , x ;] the left-recursive
    expression [xs] names the retained production [xs] itself and is a
    NONTERMINAL, yet it is still unbound after the binding pass. *)
Lemma findProdValueAll_skips_self :
  (lhs <$> findProdValueAll listGrammar) !! 0%nat = Some "xs"%string ∧
  expAt (findProdValueAll listGrammar) 0 1 0
  = Some (mkExpression NONTERMINAL "xs" None).
Proof. split; reflexivity. Qed.

(** ** Loops over the productions *)

Lemma result_bind_Ok {A B : Type} (f : A → result B) (m : result A) (b : B) :
  (m ≫= f) = Ok b ↔ ∃ a, m = Ok a ∧ f a = Ok b.
Proof.
  split.
  - destruct m; simpl; try discriminate. eauto.
  - by intros (a & -> & ?).
Qed.

Lemma foldl_result_snoc_Ok {A B : Type} (body : B → A → result A)
    (l : list B) (k : B) (r : result A) (a' : A) :
  foldl (λ acc k, x ← acc; body k x) r (l ++ [k]) = Ok a' ↔
  ∃ x, foldl (λ acc k, x ← acc; body k x) r l = Ok x ∧ body k x = Ok a'.
Proof. rewrite foldl_snoc. apply result_bind_Ok. Qed.

(** An invariant indexed by the number of turns of the loop. *)
Lemma foldl_result_ind {A B : Type} (body : B → A → result A)
    (I : nat → A → Prop) (l : list B) (a a' : A) :
  I 0%nat a →
  (∀ i k x x', l !! i = Some k → I i x → body k x = Ok x' → I (S i) x') →
  foldl (λ acc k, x ← acc; body k x) (Ok a) l = Ok a' →
  I (length l) a'.
Proof.
  intros H0. revert a'. induction l as [|k l IH] using rev_ind;
    intros a' Hstep Hrun.
  - simpl in Hrun. by injection Hrun as <-.
  - apply foldl_result_snoc_Ok in Hrun as (x & Hx & Hk).
    rewrite length_app. simpl. replace (length l + 1)%nat with (S (length l)) by lia.
    apply (Hstep (length l) k x); [|apply IH|done].
    + by rewrite lookup_app_r, Nat.sub_diag by lia.
    + intros i k' y y' Hi. apply Hstep. by apply lookup_app_l_Some.
    + done.
Qed.

Lemma foldl_ind_idx {A B : Type} (body : B → A → A) (I : nat → A → Prop)
    (l : list B) (a : A) :
  I 0%nat a →
  (∀ i k x, l !! i = Some k → I i x → I (S i) (body k x)) →
  I (length l) (foldl (λ x k, body k x) a l).
Proof.
  intros H0. induction l as [|k l IH] using rev_ind; intros Hstep; [done|].
  rewrite foldl_snoc, length_app. simpl.
  replace (length l + 1)%nat with (S (length l)) by lia.
  apply Hstep; [by rewrite lookup_app_r, Nat.sub_diag by lia|].
  apply IH. intros i k' y Hi. apply Hstep. by apply lookup_app_l_Some.
Qed.

Lemma forEachProd_ind (I : nat → list production → Prop)
    (body : nat → list production → list production)
    (ps : list production) :
  I 0%nat ps →
  (∀ k qs, (k < length ps)%nat → I k qs → I (S k) (body k qs)) →
  I (length ps) (forEachProd body ps).
Proof.
  intros H0 Hstep. unfold forEachProd.
  pose proof (foldl_ind_idx body I (seq 0 (length ps)) ps H0) as H.
  rewrite length_seq in H. apply H.
  intros i k x [-> Hi]%lookup_seq. simpl. by apply Hstep.
Qed.

Lemma forEachProdM_ind (I : nat → list production → Prop)
    (body : nat → list production → result (list production))
    (ps ps' : list production) :
  I 0%nat ps →
  (∀ k qs qs', (k < length ps)%nat → I k qs → body k qs = Ok qs' →
               I (S k) qs') →
  forEachProdM body ps = Ok ps' →
  I (length ps) ps'.
Proof.
  intros H0 Hstep Hrun. unfold forEachProdM in Hrun.
  pose proof (foldl_result_ind body I (seq 0 (length ps)) ps ps' H0) as H.
  rewrite length_seq in H. apply H; [|done].
  intros i k x x' [-> Hi]%lookup_seq. simpl. by apply Hstep.
Qed.

(** ** What a pass leaves alone *)

Lemma fmap_alter_keep {A : Type} (f : production → A)
    (g : production → production) (k : nat) (ps : list production) :
  (∀ P, f (g P) = f P) → f <$> alter g k ps = f <$> ps.
Proof.
  intros Hg. apply list_eq. intros i. rewrite !list_lookup_fmap.
  destruct (decide (k = i)) as [->|Hne].
  - rewrite list_lookup_alter_eq. destruct (ps !! i); simpl; [|done].
    by rewrite Hg.
  - by rewrite list_lookup_alter_ne.
Qed.

Lemma fmap_eq_lookup {A : Type} (f : production → A)
    (ps ps' : list production) (i : nat) (P' : production) :
  f <$> ps' = f <$> ps → ps' !! i = Some P' →
  ∃ P, ps !! i = Some P ∧ f P' = f P.
Proof.
  intros Heq HP'.
  assert ((f <$> ps') !! i = Some (f P')) as H
    by by rewrite list_lookup_fmap, HP'.
  rewrite Heq, list_lookup_fmap in H.
  destruct (ps !! i) as [P|]; [|done]. injection H as H. eauto.
Qed.

Lemma fmap_eq_lookup_r {A : Type} (f : production → A)
    (ps ps' : list production) (i : nat) (P : production) :
  f <$> ps' = f <$> ps → ps !! i = Some P →
  ∃ P', ps' !! i = Some P' ∧ f P' = f P.
Proof.
  intros Heq HP. symmetry in Heq.
  destruct (fmap_eq_lookup f ps' ps i P Heq HP) as (P' & ? & ?). eauto.
Qed.

Lemma fmap_eq_length {A : Type} (f : production → A)
    (ps ps' : list production) :
  f <$> ps' = f <$> ps → length ps' = length ps.
Proof. intros H. by rewrite <- (length_fmap f ps'), H, length_fmap. Qed.

Lemma foldl_keep {A B : Type} (f : production → A)
    (step : list production → B → list production) (l : list B)
    (qs : list production) :
  (∀ qs b, f <$> step qs b = f <$> qs) → f <$> foldl step qs l = f <$> qs.
Proof.
  intros Hstep. revert qs. induction l as [|b l IH]; intros qs; [done|].
  simpl. by rewrite IH, Hstep.
Qed.

Lemma forEachProd_keep {A : Type} (f : production → A)
    (body : nat → list production → list production)
    (ps : list production) :
  (∀ k qs, f <$> body k qs = f <$> qs) → f <$> forEachProd body ps = f <$> ps.
Proof. intros Hbody. unfold forEachProd. by apply foldl_keep. Qed.

Lemma foldl_result_keep {A B : Type} (f : production → A)
    (body : B → list production → result (list production)) (l : list B)
    (ps ps' : list production) :
  (∀ k qs qs', body k qs = Ok qs' → f <$> qs' = f <$> qs) →
  foldl (λ acc k, x ← acc; body k x) (Ok ps) l = Ok ps' →
  f <$> ps' = f <$> ps.
Proof.
  intros Hbody Hrun.
  apply (foldl_result_ind body (λ _ qs, f <$> qs = f <$> ps) l ps ps');
    [done| |done].
  intros i k x x' _ Hx Hk. by rewrite (Hbody k x x' Hk).
Qed.

Lemma forEachProdM_keep {A : Type} (f : production → A)
    (body : nat → list production → result (list production))
    (ps ps' : list production) :
  (∀ k qs qs', body k qs = Ok qs' → f <$> qs' = f <$> qs) →
  forEachProdM body ps = Ok ps' → f <$> ps' = f <$> ps.
Proof. intros Hbody. unfold forEachProdM. by apply foldl_result_keep. Qed.

Section Keeps.

Context {A : Type} (f : production → A).

Lemma findProdValueAll_keeps (ps : list production) :
  (∀ v P, f (set_defs v P) = f P) → f <$> findProdValueAll ps = f <$> ps.
Proof.
  intros Hf. rewrite findProdValueAll_spec. apply list_eq. intros i.
  rewrite !list_lookup_fmap, list_lookup_imap.
  destruct (ps !! i); simpl; [|done]. by rewrite Hf.
Qed.

Lemma findSupertypesOne_keeps (k : nat) (qs : list production) :
  (∀ v P, f (set_isSupertype v P) = f P) →
  (∀ v P, f (set_isInstance v P) = f P) →
  (∀ v P, f (set_subtypeOf v P) = f P) →
  f <$> findSupertypesOne k qs = f <$> qs.
Proof.
  intros H1 H2 H3.
  unfold findSupertypesOne. destruct (qs !! k) as [prod|]; [|done].
  destruct (forallb _ _); [|done].
  destruct (strcmp _ _ =? 0).
  - rewrite foldl_keep; [by apply fmap_alter_keep|].
    intros rs d. destruct (firstProdValue d); [|done].
    by apply fmap_alter_keep.
  - rewrite foldl_keep; [by apply fmap_alter_keep|].
    intros rs d. destruct (firstProdValue d); [|done].
    by apply fmap_alter_keep.
Qed.

Lemma findSupertypes_keeps (ps : list production) :
  (∀ v P, f (set_isSupertype v P) = f P) →
  (∀ v P, f (set_isInstance v P) = f P) →
  (∀ v P, f (set_subtypeOf v P) = f P) →
  f <$> findSupertypes ps = f <$> ps.
Proof.
  intros H1 H2 H3. apply forEachProd_keep. intros k qs.
  by apply findSupertypesOne_keeps.
Qed.

Lemma findAllAncestorsOne_keeps (k : nat) (qs qs' : list production) :
  (∀ v P, f (set_ancestors v P) = f P) →
  findAllAncestorsOne k qs = Ok qs' → f <$> qs' = f <$> qs.
Proof.
  intros H1. unfold findAllAncestorsOne. destruct (qs !! k) as [p|].
  - intros (anc & _ & [= <-])%result_bind_Ok. by apply fmap_alter_keep.
  - by intros [= <-].
Qed.

Lemma findAllAncestors_keeps (ps ps' : list production) :
  (∀ v P, f (set_ancestors v P) = f P) →
  findAllAncestors ps = Ok ps' → f <$> ps' = f <$> ps.
Proof.
  intros H1. apply forEachProdM_keep. intros k qs qs'.
  by apply findAllAncestorsOne_keeps.
Qed.

Lemma findBeInstanceOne_keeps (k : nat) (qs : list production) :
  (∀ v P, f (set_beInstance v P) = f P) →
  f <$> findBeInstanceOne k qs = f <$> qs.
Proof.
  intros H1. unfold findBeInstanceOne. destruct (qs !! k) as [s|]; [|done].
  destruct (isInstance s); [|done].
  apply foldl_keep. intros rs super. apply fmap_alter_keep.
  intros P. by destruct (beInstance P).
Qed.

Lemma findBeInstance_keeps (ps : list production) :
  (∀ v P, f (set_beInstance v P) = f P) →
  f <$> findBeInstance ps = f <$> ps.
Proof.
  intros H1. apply forEachProd_keep. intros k qs.
  by apply findBeInstanceOne_keeps.
Qed.

Lemma findTransferName_keeps (parent child : nat)
    (ps ps' : list production) :
  (∀ v P, f (set_transferName v P) = f P) →
  findTransferName parent child ps = Ok ps' → f <$> ps' = f <$> ps.
Proof.
  intros H1. unfold findTransferName. destruct (List.find _ _).
  - intros [= <-]. by apply fmap_alter_keep.
  - by destruct (ps !! parent).
Qed.

Lemma findOptProdsOne_keeps (k : nat) (ps ps' : list production) :
  (∀ v P, f (set_isOptional v P) = f P) →
  (∀ v P, f (set_optProd v P) = f P) →
  (∀ v P, f (set_transferName v P) = f P) →
  findOptProdsOne k ps = Ok ps' → f <$> ps' = f <$> ps.
Proof.
  intros H1 H2 H3. unfold findOptProdsOne.
  destruct (ps !! k) as [P|]; [|by intros [= <-]].
  destruct (optionalChild P) as [child|]; [|by intros [= <-]].
  assert (f <$> alter (set_optProd (Some child)) k
                  (alter (λ c, set_optProd (Some k) (set_isOptional 3 c))
                         child ps) = f <$> ps) as Hps2.
  { rewrite fmap_alter_keep by done. apply fmap_alter_keep.
    intros Q. by rewrite H2, H1. }
  destruct (_ !! child) as [C|]; [|done].
  destruct (isInstance C).
  - intros [= <-]. rewrite fmap_alter_keep; [done|].
    intros Q. by rewrite H3, H1.
  - destruct (beInstance C).
    + intros Hrun%findTransferName_keeps; [|done].
      by rewrite Hrun, fmap_alter_keep.
    + intros [= <-]. rewrite fmap_alter_keep; [done|].
      intros Q. by rewrite H3, H1.
Qed.

Lemma findOptProds_keeps (ps ps' : list production) :
  (∀ v P, f (set_isOptional v P) = f P) →
  (∀ v P, f (set_optProd v P) = f P) →
  (∀ v P, f (set_transferName v P) = f P) →
  findOptProds ps = Ok ps' → f <$> ps' = f <$> ps.
Proof.
  intros H1 H2 H3. apply forEachProdM_keep. intros k qs qs'.
  by apply findOptProdsOne_keeps.
Qed.

Lemma findAttNamesOne_keeps (fuel super : nat) (ps ps' : list production) :
  (∀ v P, f (set_attNames v P) = f P) →
  findAttNamesOne fuel super ps = Ok ps' → f <$> ps' = f <$> ps.
Proof.
  intros H1. revert super ps ps'.
  induction fuel as [|fuel IH]; intros super ps ps'; [done|]. simpl.
  destruct (ps !! super) as [S0|]; [|done].
  apply foldl_result_keep. intros d qs qs'.
  destruct (firstProdValue d) as [sub|]; [|done].
  destruct (qs !! sub) as [T|]; [|done].
  destruct (qs !! super) as [S1|]; [|done].
  assert (f <$> match attNames T with
                | [] => alter (set_attNames (attNames S1 ++ myAtts T)) sub qs
                | _ :: _ => qs
                end = f <$> qs) as Hps1.
  { destruct (attNames T); [|done]. by apply fmap_alter_keep. }
  destruct (isSupertype T).
  - intros Hrun%IH. by rewrite Hrun.
  - by intros [= <-].
Qed.

Lemma findAttNamesAll_keeps (fuel : nat) (ps ps' : list production) :
  (∀ v P, f (set_attNames v P) = f P) →
  findAttNamesAll fuel ps = Ok ps' → f <$> ps' = f <$> ps.
Proof.
  intros H1. apply forEachProdM_keep. intros k qs qs'.
  unfold findAttNamesAllOne. destruct (qs !! k) as [prod|];
    [|by intros [= <-]].
  destruct (strcmp _ _ =? 0); [by intros [= <-]|].
  destruct (subtypeOf prod); [|by intros [= <-]].
  destruct (isSupertype prod).
  - intros Hrun%findAttNamesOne_keeps; [|done].
    by rewrite Hrun, fmap_alter_keep.
  - intros [= <-]. by apply fmap_alter_keep.
Qed.

Lemma findMyExps_keeps (ps ps' : list production) :
  (∀ v P, f (set_myExps v P) = f P) →
  findMyExps ps = Ok ps' → f <$> ps' = f <$> ps.
Proof.
  intros H1. apply forEachProdM_keep. intros k qs qs'.
  unfold findMyExpsOne. destruct (qs !! k) as [prod|]; [|by intros [= <-]].
  destruct (myAtts prod); [by intros [= <-]|].
  destruct (sourceOf qs k prod); [|done].
  intros (exps & _ & [= <-])%result_bind_Ok. by apply fmap_alter_keep.
Qed.

Lemma findMyAtts_keeps (inFile : attributeSection)
    (ps ps' : list production) :
  (∀ v P, f (set_myAtts v P) = f P) →
  (∀ v P, f (set_attNames v P) = f P) →
  findMyAtts inFile ps = Ok ps' → f <$> ps' = f <$> ps.
Proof.
  intros H1 H2. unfold findMyAtts. destruct inFile as [|lines closed]; [done|].
  intros (qs & Hrun & Hclosed)%result_bind_Ok.
  destruct closed; [|done]. injection Hclosed as <-.
  revert Hrun. apply foldl_result_keep. intros l rs rs'.
  unfold findMyAttsLine. destruct (findProd _ _); [|done].
  intros [= <-]. apply fmap_alter_keep. intros P.
  destruct (attFull l); by rewrite ?H2, ?H1.
Qed.

End Keeps.

(** ** [findBeInstance] *)

Lemma foldl_alter_other (g : nat → production → production) (l : list nat)
    (qs : list production) (p : nat) :
  p ∉ l → foldl (λ ps super, alter (g super) super ps) qs l !! p = qs !! p.
Proof.
  revert qs. induction l as [|a l IH]; intros qs Hp; [done|]. simpl.
  rewrite IH by (intros ?; apply Hp; by right).
  apply list_lookup_alter_ne. intros ->. apply Hp. by left.
Qed.

Lemma findBeInstance_untouched (ps : list production) (p : nat)
    (P : production) :
  ps !! p = Some P →
  (∀ q Q, ps !! q = Some Q → isInstance Q = true → p ∉ ancestors Q) →
  ∃ P', findBeInstance ps !! p = Some P' ∧
        beInstance P' = beInstance P ∧ isInstance P' = isInstance P.
Proof.
  intros HP Hanc.
  pose (f := λ Q : production, (isInstance Q, ancestors Q)).
  assert (f <$> findBeInstance ps = f <$> ps) as Hf
    by by apply findBeInstance_keeps.
  cut (∃ P', findBeInstance ps !! p = Some P' ∧ beInstance P' = beInstance P).
  { intros (P' & HP' & Hbe).
    destruct (fmap_eq_lookup f _ _ p P' Hf HP') as (P0 & HP0 & [= Hi _]).
    exists P'. repeat split; [done..|]. congruence. }
  apply (forEachProd_ind
           (λ _ qs, f <$> qs = f <$> ps ∧
                    ∃ P', qs !! p = Some P' ∧ beInstance P' = beInstance P)
           findBeInstanceOne ps); [eauto|].
  intros k qs Hk [Hqs (P' & HP' & Hbe)]. split.
  { rewrite <- Hqs. by apply findBeInstanceOne_keeps. }
  unfold findBeInstanceOne. destruct (qs !! k) as [s|] eqn:Hs; [|eauto].
  destruct (isInstance s) eqn:Hi; [|eauto].
  destruct (fmap_eq_lookup f _ _ k s Hqs Hs) as (S0 & HS0 & [= Hi0 Ha0]).
  rewrite (foldl_alter_other
             (λ super a, match beInstance a with
                         | None => set_beInstance (Some k) a
                         | Some _ => a
                         end)).
  - eauto.
  - rewrite Ha0. apply (Hanc k S0); congruence.
Qed.

(** C5 (as the code has it): in a model in which, as the source assumes,
    no ancestor of an instance production is itself an instance, every
    production with [isInstance] true whose [beInstance] was null before
    [findBeInstance] still has a null [beInstance] after it.  The pass
    itself does not look at the [isInstance] of the ancestors it marks. *)
Theorem findBeInstance_instance_unset (ps : list production) :
  (∀ q Q a A, ps !! q = Some Q → isInstance Q = true → a ∈ ancestors Q →
              ps !! a = Some A → isInstance A = false) →
  ∀ p P, ps !! p = Some P → isInstance P = true → beInstance P = None →
         ∃ P', findBeInstance ps !! p = Some P' ∧
               isInstance P' = true ∧ beInstance P' = None.
Proof.
  intros Hassume p P HP Hi Hbe.
  destruct (findBeInstance_untouched ps p P HP) as (P' & HP' & Hbe' & Hi').
  - intros q Q HQ HiQ Hin.
    specialize (Hassume q Q p P HQ HiQ Hin HP). congruence.
  - exists P'. repeat split; congruence.
Qed.

Lemma findBeInstance_instance_unset_witness :
  ∃ P', findBeInstance (withAncestors twoInstances) !! 2%nat = Some P' ∧
        isInstance P' = true ∧ beInstance P' = None.
Proof.
  eapply (findBeInstance_instance_unset (withAncestors twoInstances)).
  - intros q Q a A HQ Hi Ha HA.
    remember (withAncestors twoInstances) as ps eqn:E.
    vm_compute in E. subst ps.
    destruct q as [|[|[|[|q]]]]; simpl in HQ; try discriminate;
      injection HQ as <-; simpl in Hi, Ha; try discriminate;
      apply list_elem_of_singleton in Ha; subst a;
      simpl in HA; injection HA as <-; reflexivity.
  - vm_compute. reflexivity.
  - reflexivity.
  - reflexivity.
Defined.

(** C5 (as stated) fails: with [instance = a | b ;  b = a | d ;] the
    production [b] is an instance and an ancestor of the instance [a], and
    the analyzed model gives it [a] as [beInstance]. *)
Lemma findBeInstance_marks_instance_ancestor :
  ∃ a P, analyze instanceChain (AttLines [] true) 1 = Ok a ∧
         productions a !! 1%nat = Some P ∧ lhs P = "b"%string ∧
         isInstance P = true ∧ beInstance P = Some 2%nat.
Proof.
  eexists _, _. split; [vm_compute; reflexivity|].
  split; [reflexivity|]. repeat split.
Qed.

(** ** Optional classification *)

Lemma optionalChild_shape (P : production) (c : nat) :
  optionalChild P = Some c ↔ optionalParentShape P c.
Proof.
  unfold optionalChild, optionalParentShape.
  destruct (defs P) as [|d1 [|d2 [|d3 ds]]]; simpl;
    try (split; [discriminate | intros (?&?&?&?); discriminate]).
  destruct d1 as [|fe [|fe' d1]]; simpl;
    try (split; [discriminate | intros (?&?&?&?); discriminate]).
  destruct d2 as [|le [|le' d2]]; simpl;
    try (split; [discriminate | intros (?&?&?&?); discriminate]).
  destruct (prodValue fe) as [child|] eqn:Hfe.
  - destruct (theType le =? ONECHAR) eqn:E1; simpl.
    + destruct (strcmp (itemName le) "$" =? 0) eqn:E2.
      * apply Z.eqb_eq in E1. apply strcmp_eqb_true in E2. split.
        -- intros [= <-]. by exists fe, le.
        -- intros (?&?&[= <- <-]&?&?&?). congruence.
      * apply strcmp_eqb_false in E2. split; [discriminate|].
        intros (?&?&[= <- <-]&?&?&?). congruence.
    + apply Z.eqb_neq in E1. split; [discriminate|].
      intros (?&?&[= <- <-]&?&?&?). congruence.
  - split; [discriminate|]. intros (?&?&[= <- <-]&?&?&?). congruence.
Qed.

Lemma findTransferName_Ok (parent child : nat) (ps ps' : list production) :
  findTransferName parent child ps = Ok ps' →
  ∃ t, ps' = alter (set_transferName t) parent ps.
Proof.
  unfold findTransferName. destruct (List.find _ _).
  - intros [= <-]. eauto.
  - by destruct (ps !! parent).
Qed.

Lemma findTransferName_outcome (parent child : nat) (ps : list production)
    (P : production) :
  ps !! parent = Some P →
  (∃ ps', findTransferName parent child ps = Ok ps') ∨
  findTransferName parent child ps
  = Exit ("did not find transferName for " +:+ lhs P).
Proof.
  intros HP. unfold findTransferName. destruct (List.find _ _); [eauto|].
  rewrite HP. by right.
Qed.

(** The state after the turn of an optional parent. *)
Lemma findOptProdsOne_Ok (ps ps' : list production) (k c : nat)
    (P : production) :
  ps !! k = Some P → optionalChild P = Some c →
  findOptProdsOne k ps = Ok ps' →
  ∃ r t, (r = 1 ∨ r = 2) ∧
         ps' = alter (λ p, set_transferName t
                             (set_isOptional r (set_optProd (Some c) p))) k
                 (alter (λ c0, set_optProd (Some k) (set_isOptional 3 c0)) c
                        ps).
Proof.
  intros HP Hc. unfold findOptProdsOne. rewrite HP, Hc.
  destruct (_ !! c) as [C|]; [|done].
  destruct (isInstance C).
  - intros [= <-]. exists 1, (Some (lhs C)). split; [by left|].
    rewrite list_alter_alter_eq. by apply list_alter_ext.
  - destruct (beInstance C).
    + intros (t & ->)%findTransferName_Ok. exists 1, t. split; [by left|].
      rewrite !list_alter_alter_eq. by apply list_alter_ext.
    + intros [= <-]. exists 2, (Some (lhs C)). split; [by right|].
      rewrite list_alter_alter_eq. by apply list_alter_ext.
Qed.

Lemma findOptProdsOne_outcome (ps : list production) (k : nat)
    (P : production) :
  ps !! k = Some P →
  (∀ c, optionalChild P = Some c → is_Some (ps !! c)) →
  (∃ ps', findOptProdsOne k ps = Ok ps') ∨
  (findOptProdsOne k ps = Exit ("did not find transferName for " +:+ lhs P)
   ∧ is_Some (optionalChild P)).
Proof.
  intros HP Hvalid. unfold findOptProdsOne. rewrite HP.
  destruct (optionalChild P) as [c|]; [|eauto].
  destruct (Hvalid c eq_refl) as [C HC].
  assert (is_Some (alter (set_optProd (Some c)) k
                     (alter (λ c0, set_optProd (Some k) (set_isOptional 3 c0))
                            c ps) !! c)) as [C' ->].
  { apply lookup_lt_is_Some. rewrite !length_alter.
    by apply lookup_lt_is_Some. }
  destruct (isInstance C'); [eauto|].
  destruct (beInstance C'); [|eauto].
  destruct (findTransferName_outcome k c
              (alter (set_isOptional 1) k
                 (alter (set_optProd (Some c)) k
                    (alter (λ c0, set_optProd (Some k) (set_isOptional 3 c0))
                           c ps))) (set_isOptional 1 (set_optProd (Some c) P)))
    as [?|E]; [|eauto|].
  - rewrite list_lookup_alter_eq, list_lookup_alter_eq.
    destruct (decide (c = k)) as [->|Hne].
    + by rewrite list_lookup_alter_eq, HP.
    + by rewrite list_lookup_alter_ne, HP.
  - right. split; [|eauto]. exact E.
Qed.

(** C6 (as the code has it): in its turn of [findOptProds], a production
    [P] that has no parent role yet becomes an optional parent of [c] (role
    1 or 2, [optProd] set on [P] and on [c], role 3 on [c]) if and only if
    [P] has exactly two definitions of one expression each, the first with
    a resolved production [c] (whatever the kind of the expression) and the
    second the ONECHAR [$], in this order.  The turn ends the program
    with [did not find transferName] only for such a [P], and does nothing
    to the productions otherwise. *)
Theorem findOptProdsOne_classification (ps : list production) (k : nat)
    (P : production) :
  ps !! k = Some P → isOptional P ≠ 1 → isOptional P ≠ 2 →
  (∀ c, optionalChild P = Some c → c ≠ k ∧ is_Some (ps !! c)) →
  ((∃ ps', findOptProdsOne k ps = Ok ps' ∧
           ∀ c, classifiedOptional ps' k c ↔ optionalParentShape P c) ∨
   (findOptProdsOne k ps = Exit ("did not find transferName for " +:+ lhs P)
    ∧ ∃ c, optionalParentShape P c)) ∧
  ((∀ c, ¬ optionalParentShape P c) → findOptProdsOne k ps = Ok ps).
Proof.
  intros HP Hr1 Hr2 Hvalid. split.
  - destruct (findOptProdsOne_outcome ps k P HP) as [[ps' Hrun]|[Hexit Hc]].
    { intros c Hc. by apply Hvalid. }
    + left. exists ps'. split; [done|]. intros c.
      destruct (optionalChild P) as [c0|] eqn:Hc0.
      * destruct (Hvalid c0 eq_refl) as [Hne [C HC]].
        destruct (findOptProdsOne_Ok ps ps' k c0 P HP Hc0 Hrun)
          as (r & t & Hr & ->).
        split.
        -- intros (P' & C' & HP' & _ & _ & Hopt & _).
           rewrite list_lookup_alter_eq, list_lookup_alter_ne, HP in HP'
             by done.
           injection HP' as <-. simpl in Hopt. injection Hopt as <-.
           by apply optionalChild_shape.
        -- intros Hshape%optionalChild_shape.
           assert (c = c0) as -> by congruence.
           eexists _, _. split.
           { by rewrite list_lookup_alter_eq, list_lookup_alter_ne, HP. }
           split.
           { by rewrite list_lookup_alter_ne, list_lookup_alter_eq, HC. }
           simpl. done.
      * assert (ps' = ps) as ->.
        { unfold findOptProdsOne in Hrun. rewrite HP, Hc0 in Hrun.
          by injection Hrun. }
        split.
        -- intros (P' & C' & HP' & _ & Hr & _). rewrite HP in HP'.
           injection HP' as <-. by destruct Hr.
        -- intros Hshape%optionalChild_shape. congruence.
    + right. split; [done|]. destruct Hc as [c Hc]. exists c.
      by apply optionalChild_shape.
  - intros Hno. unfold findOptProdsOne. rewrite HP.
    destruct (optionalChild P) as [c|] eqn:Hc; [|done].
    by destruct (Hno c); apply optionalChild_shape.
Qed.

Lemma findOptProdsOne_classification_witness :
  ∃ P, findBeInstance (withAncestors dollarLast) !! 0%nat = Some P ∧
       ((∃ ps', findOptProdsOne 0 (findBeInstance (withAncestors dollarLast))
                = Ok ps' ∧
                ∀ c, classifiedOptional ps' 0 c ↔ optionalParentShape P c) ∨
        (findOptProdsOne 0 (findBeInstance (withAncestors dollarLast))
         = Exit ("did not find transferName for " +:+ lhs P)
         ∧ ∃ c, optionalParentShape P c)) ∧
       ((∀ c, ¬ optionalParentShape P c) →
        findOptProdsOne 0 (findBeInstance (withAncestors dollarLast))
        = Ok (findBeInstance (withAncestors dollarLast))).
Proof.
  eexists. split; [vm_compute; reflexivity|].
  apply findOptProdsOne_classification.
  - vm_compute. reflexivity.
  - discriminate.
  - discriminate.
  - intros c Hc. vm_compute in Hc. injection Hc as <-.
    split; [lia|]. vm_compute. eauto.
Defined.

(** C6 (as stated) fails: [optD = '$' | d ;] has the two definitions of an
    optional parent in the other order, with a resolved NONTERMINAL [d],
    and is not classified: its role stays 0 in the analyzed model. *)
Lemma findOptProds_order_matters :
  ∃ a P, analyze dollarFirst (AttLines [] true) 1 = Ok a ∧
         productions a !! 0%nat = Some P ∧
         optionalParentShape_anyOrder P 1 ∧
         isOptional P = 0 ∧ optProd P = None ∧
         ¬ classifiedOptional (productions a) 0 1.
Proof.
  eexists _, _. split; [vm_compute; reflexivity|].
  split; [reflexivity|]. split.
  { eexists _, _. split; [right; reflexivity|]. repeat split. }
  split; [reflexivity|]. split; [reflexivity|].
  intros (P & C & HP & _ & Hr & _). injection HP as <-. by destruct Hr.
Qed.

Lemma optionalChild_defs (P Q : production) :
  defs P = defs Q → optionalChild P = optionalChild Q.
Proof. intros H. unfold optionalChild. by rewrite H. Qed.

Lemma rolesUpTo_step (ps : list production) (k : nat)
    (qs qs' : list production) :
  (∀ p P c, ps !! p = Some P → optionalChild P = Some c →
            ∃ C, ps !! c = Some C ∧ optionalChild C = None) →
  (k < length ps)%nat →
  rolesUpTo ps k qs → findOptProdsOne k qs = Ok qs' →
  rolesUpTo ps (S k) qs'.
Proof.
  intros Hchain Hk [Hdefs Hroles] Hrun.
  assert (defs <$> qs' = defs <$> ps) as Hdefs'.
  { rewrite <- Hdefs. by eapply findOptProdsOne_keeps. }
  split; [done|].
  destruct (lookup_lt_is_Some_2 ps k Hk) as [Pk HPk].
  destruct (fmap_eq_lookup_r defs ps qs k Pk Hdefs HPk) as (Qk & HQk & HdQk).
  apply optionalChild_defs in HdQk.
  destruct (optionalChild Pk) as [c|] eqn:Hc.
  - destruct (Hchain k Pk c HPk Hc) as (C & HC & HcC).
    assert (c ≠ k) as Hne by (intros ->; congruence).
    destruct (findOptProdsOne_Ok qs qs' k c Qk HQk HdQk Hrun)
      as (r & t & Hr & ->).
    intros p P0 Q HP0 HQ.
    destruct (decide (p = k)) as [->|Hpk].
    + rewrite list_lookup_alter_eq, list_lookup_alter_ne, HQk in HQ by done.
      injection HQ as <-. assert (P0 = Pk) as -> by congruence.
      rewrite Hc. destruct (decide (k < S k)%nat); [|lia]. done.
    + rewrite list_lookup_alter_ne in HQ by done.
      destruct (decide (p = c)) as [->|Hpc].
      * rewrite list_lookup_alter_eq in HQ.
        destruct (qs !! c) as [Qc|] eqn:HQc; [|done]. injection HQ as <-.
        assert (P0 = C) as -> by congruence. rewrite HcC. left.
        split; [done|]. exists k, Pk. split; [lia|done].
      * rewrite list_lookup_alter_ne in HQ by done.
        specialize (Hroles p P0 Q HP0 HQ).
        destruct (optionalChild P0) as [c0|].
        -- destruct (decide (p < k)%nat), (decide (p < S k)%nat);
             try done; lia.
        -- destruct Hroles as [[H3 (q & Q0 & Hq & HQ0 & Hq0)]|[H0 Hno]].
           ++ left. split; [done|]. exists q, Q0. split; [lia|done].
           ++ right. split; [done|]. intros q Q0 Hq HQ0.
              destruct (decide (q = k)) as [->|Hqk].
              ** assert (Q0 = Pk) as -> by congruence. congruence.
              ** apply (Hno q); [lia|done].
  - assert (qs' = qs) as ->.
    { unfold findOptProdsOne in Hrun. rewrite HQk, HdQk in Hrun.
      by injection Hrun. }
    intros p P0 Q HP0 HQ. specialize (Hroles p P0 Q HP0 HQ).
    destruct (optionalChild P0) as [c0|] eqn:Hc0.
    + assert (p ≠ k) by (intros ->; congruence).
      destruct (decide (p < k)%nat), (decide (p < S k)%nat); try done; lia.
    + destruct Hroles as [[H3 (q & Q0 & Hq & HQ0 & Hq0)]|[H0 Hno]].
      * left. split; [done|]. exists q, Q0. split; [lia|done].
      * right. split; [done|]. intros q Q0 Hq HQ0.
        destruct (decide (q = k)) as [->|Hqk].
        -- assert (Q0 = Pk) as -> by congruence. congruence.
        -- apply (Hno q); [lia|done].
Qed.

Lemma findOptProds_roles (ps ps' : list production) :
  (∀ p P, ps !! p = Some P → isOptional P = 0) →
  (∀ p P c, ps !! p = Some P → optionalChild P = Some c →
            ∃ C, ps !! c = Some C ∧ optionalChild C = None) →
  findOptProds ps = Ok ps' → rolesUpTo ps (length ps) ps'.
Proof.
  intros Hfresh Hchain.
  apply (forEachProdM_ind (rolesUpTo ps) findOptProdsOne ps ps').
  - split; [done|]. intros p P0 Q HP0 HQ. assert (Q = P0) as -> by congruence.
    destruct (optionalChild P0).
    + destruct (decide (p < 0)%nat); [lia|]. by eapply Hfresh.
    + right. split; [by eapply Hfresh|]. intros q Q0 Hq. lia.
  - intros k qs qs' Hk HI Hrun. by eapply rolesUpTo_step.
Qed.

(** C7 (as the code has it): when no production has a role before
    [findOptProds] and the child of every production of optional-parent
    shape exists and has not itself that shape, then after [findOptProds]
    a production has role 3 (child) if and only if some production with
    role 1 or 2 has it as [optProd]. *)
Theorem findOptProds_duality (ps ps' : list production) :
  (∀ p P, ps !! p = Some P → isOptional P = 0) →
  (∀ p P c, ps !! p = Some P → optionalParentShape P c →
            ∃ C, ps !! c = Some C ∧ ∀ c', ¬ optionalParentShape C c') →
  findOptProds ps = Ok ps' →
  ∀ p P', ps' !! p = Some P' →
    (isOptional P' = 3 ↔
     ∃ q Q', ps' !! q = Some Q' ∧
             (isOptional Q' = 1 ∨ isOptional Q' = 2) ∧ optProd Q' = Some p).
Proof.
  intros Hfresh Hchain Hrun p P' HP'.
  assert (∀ p P c, ps !! p = Some P → optionalChild P = Some c →
                   ∃ C, ps !! c = Some C ∧ optionalChild C = None) as Hchain'.
  { intros p0 P c HP Hc%optionalChild_shape.
    destruct (Hchain p0 P c HP Hc) as (C & HC & Hno). exists C. split; [done|].
    destruct (optionalChild C) as [c'|] eqn:HcC; [|done].
    by destruct (Hno c'); apply optionalChild_shape. }
  destruct (findOptProds_roles ps ps' Hfresh Hchain' Hrun) as [Hdefs Hroles].
  destruct (fmap_eq_lookup defs ps ps' p P' Hdefs HP') as (P0 & HP0 & _).
  split.
  - intros H3. pose proof (Hroles p P0 P' HP0 HP') as Hp.
    destruct (optionalChild P0) as [c|].
    + destruct (decide (p < length ps)%nat) as [_|Hge].
      * destruct Hp as [[?|?] _]; congruence.
      * destruct Hge. by eapply lookup_lt_Some.
    + destruct Hp as [[_ (q & Q0 & Hq & HQ0 & Hq0)]|[H0 _]]; [|congruence].
      destruct (fmap_eq_lookup_r defs ps ps' q Q0 Hdefs HQ0) as (Q' & HQ' & _).
      exists q, Q'. split; [done|].
      pose proof (Hroles q Q0 Q' HQ0 HQ') as Hq'. rewrite Hq0 in Hq'.
      by destruct (decide (q < length ps)%nat).
  - intros (q & Q' & HQ' & Hr & Hopt).
    destruct (fmap_eq_lookup defs ps ps' q Q' Hdefs HQ') as (Q0 & HQ0 & _).
    pose proof (Hroles q Q0 Q' HQ0 HQ') as Hq.
    destruct (optionalChild Q0) as [c|] eqn:Hc.
    + assert (q < length ps)%nat as Hlt by by eapply lookup_lt_Some.
      destruct (decide (q < length ps)%nat); [|done].
      destruct Hq as [_ Hopt']. assert (c = p) as -> by congruence.
      destruct (Hchain' q Q0 p HQ0 Hc) as (C & HC & HcC).
      assert (C = P0) as -> by congruence.
      pose proof (Hroles p P0 P' HP0 HP') as Hp. rewrite HcC in Hp.
      destruct Hp as [[H3 _]|[_ Hno]]; [done|].
      by destruct (Hno q Q0 Hlt HQ0).
    + destruct Hq as [[H3 _]|[H0 _]]; destruct Hr; congruence.
Qed.

Lemma findOptProds_duality_witness :
  ∃ ps', findOptProds (findBeInstance (withAncestors dollarLast)) = Ok ps' ∧
         ∀ p P', ps' !! p = Some P' →
           (isOptional P' = 3 ↔
            ∃ q Q', ps' !! q = Some Q' ∧
                    (isOptional Q' = 1 ∨ isOptional Q' = 2) ∧
                    optProd Q' = Some p).
Proof.
  eexists. split; [vm_compute; reflexivity|].
  apply (findOptProds_duality (findBeInstance (withAncestors dollarLast))).
  - intros p P HP.
    remember (findBeInstance (withAncestors dollarLast)) as ps eqn:E.
    vm_compute in E. subst ps.
    destruct p as [|[|p]]; simpl in HP; try discriminate;
      injection HP as <-; reflexivity.
  - intros p P c HP Hs%optionalChild_shape.
    remember (findBeInstance (withAncestors dollarLast)) as ps eqn:E.
    vm_compute in E. subst ps.
    destruct p as [|[|p]]; simpl in HP; try discriminate;
      injection HP as <-; vm_compute in Hs; try discriminate.
    injection Hs as <-. eexists. split; [reflexivity|].
    intros c' Hs'%optionalChild_shape. vm_compute in Hs'. discriminate.
  - vm_compute. reflexivity.
Defined.

(** C7 (as stated) fails: with [optB = b | '$' ;  b = x | '$' ;] the
    production [b] is the [optProd] of [optB], which has role 2, but its
    own role in the analyzed model is 2 (parent of [x]), not 3. *)
Lemma findOptProds_child_and_parent :
  ∃ a Q B, analyze optionalChain (AttLines [] true) 1 = Ok a ∧
           productions a !! 0%nat = Some Q ∧ isOptional Q = 2 ∧
           optProd Q = Some 1%nat ∧
           productions a !! 1%nat = Some B ∧ lhs B = "b"%string ∧
           isOptional B = 2.
Proof.
  eexists _, _, _. split; [vm_compute; reflexivity|].
  split; [reflexivity|]. split; [reflexivity|]. split; [reflexivity|].
  split; [reflexivity|]. split; reflexivity.
Qed.

(** ** What the parser builds *)

Lemma expressionAction_Ok (t : token) (a a' : analyzer) (e : expression) :
  expressionAction t a = Ok (e, a') →
  productions a' = productions a ∧ prodValue e = None.
Proof.
  destruct t; simpl.
  - intros (names & _ & [= <- <-])%result_bind_Ok. done.
  - destruct (negb _); intros [= <- <-]; done.
  - intros (names & _ & [= <- <-])%result_bind_Ok. done.
  - intros [= <- <-]. done.
  - intros [= <- <-]. done.
  - intros [= <- <-]. done.
Qed.

Lemma expressionListAction_Ok (ts : list token) (a a' : analyzer)
    (exps : list expression) :
  expressionListAction ts a = Ok (exps, a') →
  productions a' = productions a ∧ Forall (λ e, prodValue e = None) exps.
Proof.
  intros Hrun.
  apply (foldl_result_ind
           (λ t (st : list expression * analyzer),
              let '(es, a0) := st in
              '(e, a1) ← expressionAction t a0; Ok (es ++ [e], a1))
           (λ _ st, productions st.2 = productions a ∧
                    Forall (λ e, prodValue e = None) st.1)
           ts ([], a) (exps, a')); [done| |].
  - intros i t [es a1] [es' a2] _ [Hp Hes]. simpl in *.
    intros ([e a3] & He & [= <- <-])%result_bind_Ok.
    apply expressionAction_Ok in He as [Hp' He]. simpl. split; [congruence|].
    apply Forall_app. split; [done|]. by constructor.
  - exact Hrun.
Qed.

Lemma definitionListAction_Ok (ds : list (list token)) (a a' : analyzer)
    (defs' : list definition) :
  definitionListAction ds a = Ok (defs', a') →
  productions a' = productions a ∧
  Forall (Forall (λ e, prodValue e = None)) defs'.
Proof.
  intros Hrun.
  apply (foldl_result_ind
           (λ ts (st : list definition * analyzer),
              let '(dfs, a0) := st in
              '(exps, a1) ← expressionListAction ts a0;
              Ok (dfs ++ [exps], a1))
           (λ _ st, productions st.2 = productions a ∧
                    Forall (Forall (λ e, prodValue e = None)) st.1)
           ds ([], a) (defs', a')); [done| |exact Hrun].
  intros i ts [dfs a1] [dfs' a2] _ [Hp Hds]. simpl in *.
  intros ([exps a3] & He & [= <- <-])%result_bind_Ok.
  apply expressionListAction_Ok in He as [Hp' He]. simpl.
  split; [congruence|]. apply Forall_app. split; [done|]. by constructor.
Qed.

Lemma productionAction_Ok (sp : sourceProduction) (a a' : analyzer) :
  productionAction sp a = Ok a' →
  productions a' = productions a ∨
  ∃ ds, productions a' = productions a ++ [new_production (leftSide sp) ds] ∧
        leftSide sp ≠ "c"%string ∧
        Forall (Forall (λ e, prodValue e = None)) ds.
Proof.
  unfold productionAction.
  intros ([ds a1] & Hds & Hrun)%result_bind_Ok.
  apply definitionListAction_Ok in Hds as [Hp Hds]. simpl in Hrun.
  destruct (strcmp (leftSide sp) "c" =? 0) eqn:E; simpl in Hrun.
  - apply result_bind_Ok in Hrun as (names & _ & [= <-]). by left.
  - injection Hrun as <-. right. exists ds. simpl. rewrite Hp.
    apply strcmp_eqb_false in E. done.
Qed.

Lemma isNew_new_production (name : string) (ds : list definition) :
  isNew (new_production name ds).
Proof. reflexivity. Qed.

(** The retained productions are freshly built, none is named [c], and
    no expression points anywhere yet. *)
Lemma yyparse_Ok (grammar : list sourceProduction) (a : analyzer) :
  yyparse grammar initialAnalyzer = Ok a →
  Forall (λ P, isNew P ∧ lhs P ≠ "c"%string ∧
               Forall (Forall (λ e, prodValue e = None)) (defs P))
         (productions a).
Proof.
  intros Hrun.
  apply (foldl_result_ind productionAction
           (λ _ a, Forall (λ P, isNew P ∧ lhs P ≠ "c"%string ∧
                     Forall (Forall (λ e, prodValue e = None)) (defs P))
                     (productions a))
           grammar initialAnalyzer a); [by constructor| |exact Hrun].
  intros i sp a1 a2 _ IH [->|(ds & -> & Hc & Hds)]%productionAction_Ok;
    [done|].
  apply Forall_app. split; [done|]. constructor; [|done].
  split; [apply isNew_new_production|]. done.
Qed.

(** ** Supertypes *)

Lemma supertypeDef_ext (ps qs : list production) (d : definition) :
  isList <$> qs = isList <$> ps → supertypeDef qs d = supertypeDef ps d.
Proof.
  intros Heq. unfold supertypeDef.
  destruct (negb _); [done|]. destruct (head d) as [e|]; [|done].
  destruct (negb _); [done|]. destruct (prodValue e) as [q|]; [|done].
  assert ((isList <$> qs) !! q = (isList <$> ps) !! q) as H by by rewrite Heq.
  rewrite !list_lookup_fmap in H.
  destruct (qs !! q), (ps !! q); simpl in H; try done. by injection H as ->.
Qed.

Lemma supertypeShape_ext (ps qs : list production) (S S' : production) :
  isList <$> qs = isList <$> ps → defs S' = defs S →
  supertypeShape qs S' = supertypeShape ps S.
Proof.
  intros Heq Hd. unfold supertypeShape. rewrite Hd. clear Hd.
  induction (defs S) as [|d ds IH]; [done|]. simpl.
  by rewrite IH, (supertypeDef_ext ps qs).
Qed.

Lemma supertypeDef_true (ps : list production) (d : definition) :
  supertypeDef ps d = true →
  ∃ e q, d = [e] ∧ theType e = NONTERMINAL ∧ prodValue e = Some q ∧
         is_Some (ps !! q).
Proof.
  unfold supertypeDef. destruct d as [|e [|e' d]]; simpl; try done.
  destruct (theType e =? NONTERMINAL) eqn:E; simpl; [|done].
  apply Z.eqb_eq in E. destruct (prodValue e) as [q|] eqn:Hpv; [|done].
  destruct (ps !! q) eqn:Hq; [|done]. intros _. exists e, q.
  repeat split; [done..|]. by eexists.
Qed.

Lemma supertypeShape_nonterminalDefs (ps : list production)
    (S : production) :
  supertypeShape ps S = true → nonterminalDefs S.
Proof.
  unfold supertypeShape. rewrite forallb_forall. intros H d Hd.
  destruct (supertypeDef_true ps d) as (e & q & -> & He & _).
  { apply H. by apply list_elem_of_In. }
  eauto.
Qed.

(** The loop that pushes [k] on the [subtypeOf] of the subtypes. *)
Lemma foldl_push_subtypeOf (k : nat) (ds : list definition)
    (qs : list production) (p : nat) (P' : production) :
  foldl (λ ps d,
           match firstProdValue d with
           | Some sub => alter (λ s, set_subtypeOf (subtypeOf s ++ [k]) s) sub ps
           | None => ps
           end) qs ds !! p = Some P' →
  ∃ Q, qs !! p = Some Q ∧
       ∀ s, s ∈ subtypeOf P' ↔
            s ∈ subtypeOf Q ∨
            (s = k ∧ ∃ d, d ∈ ds ∧ firstProdValue d = Some p).
Proof.
  revert qs. induction ds as [|d ds IH]; intros qs; simpl.
  - intros HP'. exists P'. split; [done|]. intros s. split; [by left|].
    intros [?|[_ (d & Hd & _)]]; [done|]. by apply elem_of_nil in Hd.
  - intros (Q1 & HQ1 & Hmem)%IH.
    destruct (firstProdValue d) as [sub|] eqn:Hd.
    + destruct (decide (sub = p)) as [->|Hne].
      * rewrite list_lookup_alter_eq in HQ1.
        destruct (qs !! p) as [Q|]; [|done]. injection HQ1 as <-.
        exists Q. split; [done|]. intros s. rewrite Hmem. simpl.
        rewrite elem_of_app, list_elem_of_singleton. split.
        -- intros [[?| ->]|[-> (d' & Hd' & Hp)]]; [by left|right..].
           ++ split; [done|]. exists d. split; [by left|done].
           ++ split; [done|]. exists d'. split; [by right|done].
        -- intros [?|[ -> (d' & Hd' & Hp)]]; [by left; left|].
           apply elem_of_cons in Hd' as [->|Hd']; [by left; right|].
           right. split; [done|]. eauto.
      * rewrite list_lookup_alter_ne in HQ1 by done.
        exists Q1. split; [done|]. intros s. rewrite Hmem. split.
        -- intros [?|[ -> (d' & Hd' & Hp)]]; [by left|].
           right. split; [done|]. exists d'. split; [by right|done].
        -- intros [?|[ -> (d' & Hd' & Hp)]]; [by left|].
           apply elem_of_cons in Hd' as [->|Hd']; [congruence|].
           right. split; [done|]. eauto.
    + exists Q1. split; [done|]. intros s. rewrite Hmem. split.
      * intros [?|[ -> (d' & Hd' & Hp)]]; [by left|].
        right. split; [done|]. exists d'. split; [by right|done].
      * intros [?|[ -> (d' & Hd' & Hp)]]; [by left|].
        apply elem_of_cons in Hd' as [->|Hd']; [congruence|].
        right. split; [done|]. eauto.
Qed.

(** What [findSupertypes] has set after its first [k] turns. *)
Lemma findSupertypes_prefix (ps : list production) :
  let f := λ P : production, (defs P, isList P, lhs P) in
  f <$> findSupertypes ps = f <$> ps ∧
  ∀ p P', findSupertypes ps !! p = Some P' →
    ∃ P0, ps !! p = Some P0 ∧
      (isSupertype P' = true ↔
       isSupertype P0 = true ∨ supertypeShape ps P0 = true) ∧
      (∀ s, s ∈ subtypeOf P' ↔ s ∈ subtypeOf P0 ∨ supertypeOf ps s p).
Proof.
  intros f.
  cut (f <$> findSupertypes ps = f <$> ps ∧
       ∀ p P', findSupertypes ps !! p = Some P' →
         ∃ P0, ps !! p = Some P0 ∧
           (isSupertype P' = true ↔
            isSupertype P0 = true ∨
            ((p < length ps)%nat ∧ supertypeShape ps P0 = true)) ∧
           (∀ s, s ∈ subtypeOf P' ↔
                 s ∈ subtypeOf P0 ∨
                 ((s < length ps)%nat ∧ supertypeOf ps s p))).
  { intros [Hf H]. split; [done|]. intros p P' HP'.
    destruct (H p P' HP') as (P0 & HP0 & Hsup & Hsub).
    exists P0. split; [done|]. split.
    - rewrite Hsup. split; [intros [?|[_ ?]]; auto|].
      intros [?|?]; [by left|right]. split; [|done]. by eapply lookup_lt_Some.
    - intros s. rewrite Hsub. split; [intros [?|[_ ?]]; auto|].
      intros [?|Hs]; [by left|right]. split; [|done].
      destruct Hs as (S & d & HS & _). by eapply lookup_lt_Some. }
  apply (forEachProd_ind
           (λ k qs,
              f <$> qs = f <$> ps ∧
              ∀ p P', qs !! p = Some P' →
                ∃ P0, ps !! p = Some P0 ∧
                  (isSupertype P' = true ↔
                   isSupertype P0 = true ∨
                   ((p < k)%nat ∧ supertypeShape ps P0 = true)) ∧
                  (∀ s, s ∈ subtypeOf P' ↔
                        s ∈ subtypeOf P0 ∨
                        ((s < k)%nat ∧ supertypeOf ps s p)))
           findSupertypesOne ps).
  { split; [done|]. intros p P' HP'. exists P'. split; [done|]. split.
    - split; [by left|]. intros [?|[? _]]; [done|lia].
    - intros s. split; [by left|]. intros [?|[? _]]; [done|lia]. }
  intros k qs Hk [Hf Hinv].
  split; [rewrite <- Hf; by apply findSupertypesOne_keeps|].
  destruct (lookup_lt_is_Some_2 ps k Hk) as [Pk HPk].
  destruct (fmap_eq_lookup_r f ps qs k Pk Hf HPk) as (Qk & HQk & [= Hd Hl Hn]).
  assert (isList <$> qs = isList <$> ps) as Hlist.
  { apply (f_equal (fmap (λ x : list definition * Z * string, x.1.2))) in Hf.
    by rewrite <- !list_fmap_compose in Hf. }
  pose proof (supertypeShape_ext ps qs Pk Qk Hlist Hd) as Hshape.
  unfold findSupertypesOne. rewrite HQk. fold (supertypeShape qs Qk).
  rewrite Hshape. destruct (supertypeShape ps Pk) eqn:Hsh.
  - (* production [k] is a supertype *)
    assert (∀ p Q1, alter (set_isSupertype true) k qs !! p = Some Q1 →
              ∃ P0, ps !! p = Some P0 ∧
                (isSupertype Q1 = true ↔
                 isSupertype P0 = true ∨
                 ((p < S k)%nat ∧ supertypeShape ps P0 = true)) ∧
                (∀ s, s ∈ subtypeOf Q1 ↔
                      s ∈ subtypeOf P0 ∨
                      ((s < k)%nat ∧ supertypeOf ps s p))) as Hinv1.
    { intros p Q1 HQ1. destruct (decide (p = k)) as [->|Hne].
      - rewrite list_lookup_alter_eq, HQk in HQ1. injection HQ1 as <-.
        destruct (Hinv k Qk HQk) as (P0 & HP0 & _ & Hsub).
        exists P0. split; [done|]. split; [|done]. simpl.
        assert (P0 = Pk) as -> by congruence.
        split; [|done]. intros _. right. split; [lia|done].
      - rewrite list_lookup_alter_ne in HQ1 by done.
        destruct (Hinv p Q1 HQ1) as (P0 & HP0 & Hsup & Hsub).
        exists P0. split; [done|]. split; [|done]. rewrite Hsup.
        split; (intros [?|[? ?]]; [by left|right; split; [lia|done]]). }
    destruct (strcmp (lhs Qk) "instance" =? 0) eqn:Hinst.
    + (* the subtypes of [instance] *)
      apply strcmp_eqb_true in Hinst.
      intros p P' HP'.
      set (g := λ P : production, (isSupertype P, subtypeOf P)).
      match type of HP' with
      | ?X !! _ = _ =>
          assert (g <$> X = g <$> alter (set_isSupertype true) k qs) as Hg
      end.
      { apply foldl_keep. intros rs d. destruct (firstProdValue d); [|done].
        by apply fmap_alter_keep. }
      destruct (fmap_eq_lookup g _ _ p P' Hg HP') as (Q1 & HQ1 & [= Hg1 Hg2]).
      destruct (Hinv1 p Q1 HQ1) as (P0 & HP0 & Hsup & Hsub).
      exists P0. split; [done|]. rewrite Hg1, Hg2. split; [done|].
      intros s. rewrite Hsub. split.
      * intros [?|[? ?]]; [by left|right; split; [lia|done]].
      * intros [?|[Hs Hof]]; [by left|].
        destruct (decide (s = k)) as [->|Hne]; [|right; split; [lia|done]].
        destruct Hof as (S & d & HS & _ & Hni & _).
        assert (S = Pk) as -> by congruence. congruence.
    + (* the subtypes of another supertype *)
      apply strcmp_eqb_false in Hinst.
      intros p P' HP'.
      match type of HP' with
      | ?X !! _ = _ =>
          assert (isSupertype <$> X
                  = isSupertype <$> alter (set_isSupertype true) k qs) as Hg
      end.
      { apply foldl_keep. intros rs d. destruct (firstProdValue d); [|done].
        by apply fmap_alter_keep. }
      destruct (fmap_eq_lookup isSupertype _ _ p P' Hg HP')
        as (Q1' & HQ1' & Hg1).
      apply foldl_push_subtypeOf in HP' as (Q1 & HQ1 & Hmem).
      assert (Q1' = Q1) as -> by congruence.
      destruct (Hinv1 p Q1 HQ1) as (P0 & HP0 & Hsup & Hsub).
      exists P0. split; [done|]. rewrite Hg1. split; [done|].
      intros s. rewrite Hmem, Hsub. split.
      * intros [[?|[? ?]]|[-> (d & Hdin & Hdp)]];
          [by left|right; split; [lia|done]|].
        right. split; [lia|]. exists Pk, d. rewrite <- Hd. repeat split;
          [done..|congruence|done|done].
      * intros [?|[Hs Hof]]; [by left; left|].
        destruct (decide (s = k)) as [->|Hne];
          [|left; right; split; [lia|done]].
        right. split; [done|].
        destruct Hof as (S & d & HS & _ & _ & Hdin & Hdp).
        assert (S = Pk) as -> by congruence. exists d. by rewrite Hd.
  - (* production [k] is not a supertype *)
    intros p P' HP'. destruct (Hinv p P' HP') as (P0 & HP0 & Hsup & Hsub).
    exists P0. split; [done|]. split.
    + rewrite Hsup. split.
      * intros [?|[? ?]]; [by left|right; split; [lia|done]].
      * intros [?|[Hp Hs]]; [by left|].
        destruct (decide (p = k)) as [->|Hne]; [|right; split; [lia|done]].
        assert (P0 = Pk) as -> by congruence. congruence.
    + intros s. rewrite Hsub. split.
      * intros [?|[? ?]]; [by left|right; split; [lia|done]].
      * intros [?|[Hs Hof]]; [by left|].
        destruct (decide (s = k)) as [->|Hne]; [|right; split; [lia|done]].
        destruct Hof as (S & d & HS & Hsh' & _).
        assert (S = Pk) as -> by congruence. congruence.
Qed.

(** ** Ancestors *)

(** Whatever [findAncestors] adds to [ancesti] is on some [subtypeOf]. *)
Lemma findAncestors_members (fuel : nat) (ps : list production)
    (prod : nat) (anc anc' : list nat) :
  findAncestors fuel ps prod anc = Ok anc' →
  ∀ a, a ∈ anc' → a ∈ anc ∨ ∃ q Q, ps !! q = Some Q ∧ a ∈ subtypeOf Q.
Proof.
  revert prod anc anc'.
  induction fuel as [|fuel IH]; intros prod anc anc'; [done|]. simpl.
  destruct (ps !! prod) as [p|] eqn:Hp; [|intros [= <-]; auto].
  intros Hrun.
  apply (foldl_result_ind
           (λ super anc0,
              match ps !! super with
              | Some s =>
                  if negb (bool_decide (super ∈ anc0))
                     && negb (isOptional s =? 1) && negb (isOptional s =? 2)
                  then findAncestors fuel ps super (anc0 ++ [super])
                  else Ok anc0
              | None => Ok anc0
              end)
           (λ _ x, ∀ a, a ∈ x →
                        a ∈ anc ∨ ∃ q Q, ps !! q = Some Q ∧ a ∈ subtypeOf Q)
           (subtypeOf p) anc anc'); [auto| |exact Hrun].
  intros i super x x' Hi Hx Hstep a Ha.
  destruct (ps !! super) as [s|]; [|injection Hstep as <-; auto].
  destruct (_ && _); [|injection Hstep as <-; auto].
  destruct (IH _ _ _ Hstep a Ha) as [Hin|?]; [|auto].
  apply elem_of_app in Hin as [?|Heq%list_elem_of_singleton]; [auto|]. subst a.
  right. exists prod, p. split; [done|]. by eapply list_elem_of_lookup_2.
Qed.

Lemma findAllAncestors_members (ps ps' : list production) :
  Forall (λ P, ancestors P = []) ps →
  findAllAncestors ps = Ok ps' →
  ∀ p P' a, ps' !! p = Some P' → a ∈ ancestors P' →
            ∃ q Q, ps !! q = Some Q ∧ a ∈ subtypeOf Q.
Proof.
  intros Hfresh Hrun.
  cut (subtypeOf <$> ps' = subtypeOf <$> ps ∧
       ∀ p P' a, ps' !! p = Some P' → a ∈ ancestors P' →
                 ∃ q Q, ps !! q = Some Q ∧ a ∈ subtypeOf Q); [by intros []|].
  apply (forEachProdM_ind
           (λ _ qs,
              subtypeOf <$> qs = subtypeOf <$> ps ∧
              ∀ p P' a, qs !! p = Some P' → a ∈ ancestors P' →
                        ∃ q Q, ps !! q = Some Q ∧ a ∈ subtypeOf Q)
           findAllAncestorsOne ps ps'); [|clear Hrun|exact Hrun].
  - split; [done|]. intros p P' a HP' Ha.
    rewrite Forall_lookup in Hfresh. rewrite (Hfresh p P' HP') in Ha.
    by apply elem_of_nil in Ha.
  - intros k qs qs' Hk [Hsub Hinv] Hstep.
    split; [rewrite <- Hsub; by eapply findAllAncestorsOne_keeps|].
    unfold findAllAncestorsOne in Hstep.
    destruct (qs !! k) as [Qk|] eqn:HQk; [|by injection Hstep as <-].
    apply result_bind_Ok in Hstep as (anc & Hanc & [= <-]).
    intros p P' a HP' Ha. destruct (decide (p = k)) as [->|Hne].
    + rewrite list_lookup_alter_eq, HQk in HP'. injection HP' as <-.
      simpl in Ha.
      destruct (findAncestors_members _ _ _ _ _ Hanc a Ha)
        as [Hin|(q & Q & HQ & Hin)]; [by eapply Hinv|].
      destruct (fmap_eq_lookup subtypeOf ps qs q Q Hsub HQ) as (Q0 & HQ0 & E).
      exists q, Q0. split; [done|]. by rewrite <- E.
    + rewrite list_lookup_alter_ne in HP' by done. by eapply Hinv.
Qed.

(** ** Optional parents have the shape *)

Lemma findOptProds_parent_shape (ps ps' : list production) :
  Forall (λ P, isOptional P = 0) ps →
  findOptProds ps = Ok ps' →
  ∀ p P', ps' !! p = Some P' → isOptional P' = 1 ∨ isOptional P' = 2 →
          ∃ P c, ps !! p = Some P ∧ optionalChild P = Some c.
Proof.
  intros Hfresh Hrun.
  cut (defs <$> ps' = defs <$> ps ∧
       ∀ p P', ps' !! p = Some P' → isOptional P' = 1 ∨ isOptional P' = 2 →
               ∃ P c, ps !! p = Some P ∧ optionalChild P = Some c);
    [by intros []|].
  apply (forEachProdM_ind
           (λ _ qs,
              defs <$> qs = defs <$> ps ∧
              ∀ p P', qs !! p = Some P' →
                      isOptional P' = 1 ∨ isOptional P' = 2 →
                      ∃ P c, ps !! p = Some P ∧ optionalChild P = Some c)
           findOptProdsOne ps ps'); [|clear Hrun|exact Hrun].
  - split; [done|]. intros p P' HP' Hr.
    rewrite Forall_lookup in Hfresh. rewrite (Hfresh p P' HP') in Hr.
    by destruct Hr.
  - intros k qs qs' Hk [Hd Hinv] Hstep.
    split; [rewrite <- Hd; by eapply findOptProdsOne_keeps|].
    destruct (lookup_lt_is_Some_2 ps k Hk) as [Pk HPk].
    destruct (fmap_eq_lookup_r defs ps qs k Pk Hd HPk) as (Qk & HQk & HdQ).
    apply optionalChild_defs in HdQ.
    destruct (optionalChild Qk) as [c|] eqn:Hc.
    + destruct (findOptProdsOne_Ok qs qs' k c Qk HQk Hc Hstep)
        as (r & t & Hr & ->).
      intros p P' HP' Hrole. destruct (decide (p = k)) as [->|Hne].
      * exists Pk, c. split; [done|congruence].
      * rewrite list_lookup_alter_ne in HP' by done.
        destruct (decide (p = c)) as [->|Hnc].
        -- rewrite list_lookup_alter_eq in HP'.
           destruct (qs !! c); [|done]. injection HP' as <-.
           simpl in Hrole. by destruct Hrole.
        -- rewrite list_lookup_alter_ne in HP' by done. by eapply Hinv.
    + unfold findOptProdsOne in Hstep. rewrite HQk, Hc in Hstep.
      injection Hstep as <-. exact Hinv.
Qed.

(** ** The stages of [main] *)

Lemma onProductions_Ok (f : list production → result (list production))
    (a a' : analyzer) :
  onProductions f a = Ok a' ↔
  ∃ ps, f (productions a) = Ok ps ∧ a' = set_productions ps a.
Proof.
  unfold onProductions. rewrite result_bind_Ok. split.
  - intros (ps & Hps & [= <-]). eauto.
  - intros (ps & Hps & ->). eauto.
Qed.

Lemma reviseSpelling_productions (a a' : analyzer) :
  reviseSpelling a = Ok a' → productions a' = productions a.
Proof.
  unfold reviseSpelling. by intros (lexes & _ & [= <-])%result_bind_Ok.
Qed.

Lemma classify_Ok (grammar : list sourceProduction)
    (inFile : attributeSection) (a : analyzer) :
  classify grammar inFile = Ok a →
  ∃ a0 ps1, yyparse grammar initialAnalyzer = Ok a0 ∧
            findMyAtts inFile (productions a0) = Ok ps1 ∧
            productions a = findSupertypes (findProdValueAll ps1).
Proof.
  unfold classify.
  intros (a0 & H0 & (a1 & H1 & (a2 & H2 & (a3 & H3 & H4)%result_bind_Ok)
            %result_bind_Ok)%result_bind_Ok)%result_bind_Ok.
  apply reviseSpelling_productions in H1.
  apply onProductions_Ok in H2 as (ps1 & Hps1 & ->).
  apply onProductions_Ok in H3 as (ps2 & [= <-] & ->).
  apply onProductions_Ok in H4 as (ps3 & [= <-] & ->).
  exists a0, ps1. rewrite <- H1. done.
Qed.

Lemma analyze_Ok (grammar : list sourceProduction)
    (inFile : attributeSection) (fuel : nat) (a : analyzer) :
  analyze grammar inFile fuel = Ok a →
  ∃ a3 ps4 ps6 ps7,
    classify grammar inFile = Ok a3 ∧
    findAllAncestors (productions a3) = Ok ps4 ∧
    findOptProds (findBeInstance ps4) = Ok ps6 ∧
    findAttNamesAll fuel ps6 = Ok ps7 ∧
    findMyExps ps7 = Ok (productions a) ∧
    terminalNames a = terminalNames a3 ∧ tokenNames a = tokenNames a3.
Proof.
  unfold analyze.
  intros (a3 & H3 & (a4 & H4 & (a5 & H5 & (a6 & H6 & (a7 & H7 & H8)
            %result_bind_Ok)%result_bind_Ok)%result_bind_Ok)%result_bind_Ok)
            %result_bind_Ok.
  apply onProductions_Ok in H4 as (ps4 & Hps4 & ->).
  apply onProductions_Ok in H5 as (ps5 & [= <-] & ->).
  apply onProductions_Ok in H6 as (ps6 & Hps6 & ->).
  apply onProductions_Ok in H7 as (ps7 & Hps7 & ->).
  apply onProductions_Ok in H8 as (ps8 & Hps8 & ->).
  exists a3, ps4, ps6, ps7. simpl in *. done.
Qed.

Lemma Forall_keeps {A : Type} (f : production → A) (v : A)
    (ps ps' : list production) :
  f <$> ps' = f <$> ps → Forall (λ P, f P = v) ps → Forall (λ P, f P = v) ps'.
Proof.
  intros Heq Hps. apply Forall_lookup. intros i P' HP'.
  destruct (fmap_eq_lookup f ps ps' i P' Heq HP') as (P & HP & ->).
  rewrite Forall_lookup in Hps. by eapply Hps.
Qed.

(** A field that the constructor sets to [v] and that the passes up to
    [findSupertypes] leave alone is [v] after [classify]. *)
Lemma classify_fresh {A : Type} (f : production → A) (v : A)
    (grammar : list sourceProduction) (inFile : attributeSection)
    (a : analyzer) :
  (∀ l d, f (new_production l d) = v) →
  (∀ x P, f (set_myAtts x P) = f P) → (∀ x P, f (set_attNames x P) = f P) →
  (∀ x P, f (set_defs x P) = f P) → (∀ x P, f (set_isSupertype x P) = f P) →
  (∀ x P, f (set_isInstance x P) = f P) →
  (∀ x P, f (set_subtypeOf x P) = f P) →
  classify grammar inFile = Ok a → Forall (λ P, f P = v) (productions a).
Proof.
  intros Hnew H1 H2 H3 H4 H5 H6 (a0 & ps1 & Hparse & Hatts & ->)%classify_Ok.
  apply (Forall_keeps f v (findProdValueAll ps1));
    [by apply findSupertypes_keeps|].
  apply (Forall_keeps f v ps1); [by apply findProdValueAll_keeps|].
  apply (Forall_keeps f v (productions a0));
    [by eapply findMyAtts_keeps|].
  apply yyparse_Ok in Hparse. eapply Forall_impl; [exact Hparse|].
  intros P (-> & _). apply Hnew.
Qed.

Lemma bound_fresh {A : Type} (f : production → A) (v : A)
    (grammar : list sourceProduction) (inFile : attributeSection)
    (a0 : analyzer) (ps1 : list production) :
  (∀ l d, f (new_production l d) = v) →
  (∀ x P, f (set_myAtts x P) = f P) → (∀ x P, f (set_attNames x P) = f P) →
  (∀ x P, f (set_defs x P) = f P) →
  yyparse grammar initialAnalyzer = Ok a0 →
  findMyAtts inFile (productions a0) = Ok ps1 →
  Forall (λ P, f P = v) (findProdValueAll ps1).
Proof.
  intros Hnew H1 H2 H3 Hparse Hatts.
  apply (Forall_keeps f v ps1); [by apply findProdValueAll_keeps|].
  apply (Forall_keeps f v (productions a0));
    [by eapply findMyAtts_keeps|].
  apply yyparse_Ok in Hparse. eapply Forall_impl; [exact Hparse|].
  intros P (-> & _). apply Hnew.
Qed.

Lemma nonterminalDefs_not_optional (S : production) :
  nonterminalDefs S → optionalChild S = None.
Proof.
  intros Hnt. destruct (optionalChild S) as [c|] eqn:Hc; [|done].
  apply optionalChild_shape in Hc as (fe & le & Hd & _ & Hle & _).
  destruct (Hnt [le]) as (e & [= <-] & He).
  { rewrite Hd. apply elem_of_cons. right. by apply list_elem_of_singleton. }
  rewrite Hle in He. discriminate.
Qed.

Lemma nonterminalDefs_defs (S S' : production) :
  defs S' = defs S → nonterminalDefs S → nonterminalDefs S'.
Proof. unfold nonterminalDefs. by intros ->. Qed.

(** C10: in the analyzed model every member of a [subtypeOf] or
    [ancestors] list is a production all of whose definitions are one
    NONTERMINAL expression, and none is an optional parent ([isOptional] 1
    or 2); and [findAllAncestors] runs on productions whose [isOptional]
    is still 0, so that its own test of [isOptional] never fires. *)
Theorem analyze_supertypes_not_optional (grammar : list sourceProduction)
    (inFile : attributeSection) (fuel : nat) (a : analyzer) :
  analyze grammar inFile fuel = Ok a →
  (∀ p P s, productions a !! p = Some P →
            s ∈ subtypeOf P ∨ s ∈ ancestors P →
            ∃ S, productions a !! s = Some S ∧ nonterminalDefs S ∧
                 isOptional S ≠ 1 ∧ isOptional S ≠ 2) ∧
  (∃ a3, classify grammar inFile = Ok a3 ∧
         Forall (λ P, isOptional P = 0) (productions a3)).
Proof.
  intros Hrun.
  destruct (analyze_Ok _ _ _ _ Hrun)
    as (a3 & ps4 & ps6 & ps7 & Hcl & H4 & H6 & H7 & H8 & _).
  assert (Forall (λ P, isOptional P = 0) (productions a3)) as Hopt3
    by by apply (classify_fresh isOptional 0 grammar inFile).
  split; [|eauto].
  assert (Forall (λ P, ancestors P = []) (productions a3)) as Hanc3
    by by apply (classify_fresh ancestors [] grammar inFile).
  destruct (classify_Ok _ _ _ Hcl) as (a0 & ps1 & Hparse & Hatts & Hps3).
  set (ps2 := findProdValueAll ps1) in *.
  set (ps8 := productions a) in *.
  assert (Forall (λ P, subtypeOf P = []) ps2) as Hsub2
    by by apply (bound_fresh subtypeOf [] grammar inFile a0).
  destruct (findSupertypes_prefix ps2) as [Hf3 Hsuper]. rewrite <- Hps3 in *.
  assert (defs <$> productions a3 = defs <$> ps2) as Hd3.
  { rewrite Hps3. by apply findSupertypes_keeps. }
  (* what the later passes keep *)
  assert (∀ {A} (f : production → A),
            (∀ x P, f (set_myExps x P) = f P) →
            (∀ x P, f (set_attNames x P) = f P) →
            f <$> ps8 = f <$> ps6) as Hlate.
  { intros A f Hf1 Hf2.
    rewrite (findMyExps_keeps f ps7 ps8) by done.
    by apply (findAttNamesAll_keeps f fuel). }
  assert (∀ {A} (f : production → A),
            (∀ x P, f (set_isOptional x P) = f P) →
            (∀ x P, f (set_optProd x P) = f P) →
            (∀ x P, f (set_transferName x P) = f P) →
            (∀ x P, f (set_beInstance x P) = f P) →
            f <$> ps6 = f <$> ps4) as Hmid.
  { intros A f Hf1 Hf2 Hf3' Hf4.
    rewrite (findOptProds_keeps f (findBeInstance ps4) ps6) by done.
    by apply findBeInstance_keeps. }
  assert (subtypeOf <$> ps8 = subtypeOf <$> productions a3) as Hsub8.
  { rewrite Hlate, Hmid by done. by apply findAllAncestors_keeps. }
  assert (ancestors <$> ps8 = ancestors <$> ps4) as Hanc8
    by by rewrite Hlate, Hmid.
  assert (defs <$> ps8 = defs <$> ps2) as Hd8.
  { rewrite Hlate, Hmid, <- Hd3 by done. by apply findAllAncestors_keeps. }
  assert (defs <$> findBeInstance ps4 = defs <$> ps2) as Hd5.
  { rewrite findBeInstance_keeps, <- Hd3 by done.
    by apply findAllAncestors_keeps. }
  assert (Forall (λ P, isOptional P = 0) (findBeInstance ps4)) as Hopt5.
  { apply (Forall_keeps isOptional 0 ps4); [by apply findBeInstance_keeps|].
    apply (Forall_keeps isOptional 0 (productions a3)); [|done].
    by apply findAllAncestors_keeps. }
  (* a member of a [subtypeOf] of the supertype pass is a supertype *)
  assert (∀ q Q s, productions a3 !! q = Some Q → s ∈ subtypeOf Q →
                   ∃ S2, ps2 !! s = Some S2 ∧ nonterminalDefs S2) as Hmember.
  { intros q Q s HQ Hs. destruct (Hsuper q Q HQ) as (Q0 & HQ0 & _ & Hiff).
    destruct (proj1 (Hiff s) Hs) as [Hs'|(S2 & d & HS2 & Hsh & _)].
    - rewrite Forall_lookup in Hsub2. rewrite (Hsub2 q Q0 HQ0) in Hs'.
      by apply elem_of_nil in Hs'.
    - exists S2. split; [done|]. by eapply supertypeShape_nonterminalDefs. }
  assert (∀ s S2, ps2 !! s = Some S2 → nonterminalDefs S2 →
                  ∃ S, ps8 !! s = Some S ∧ nonterminalDefs S ∧
                       isOptional S ≠ 1 ∧ isOptional S ≠ 2) as Hfinal.
  { intros s S2 HS2 Hnt.
    destruct (fmap_eq_lookup_r defs ps2 ps8 s S2 Hd8 HS2) as (S & HS & HdS).
    exists S. split; [done|]. split; [by eapply nonterminalDefs_defs|].
    assert (¬ (isOptional S = 1 ∨ isOptional S = 2)) as Hno; [|lia].
    intros Hrole.
    destruct (fmap_eq_lookup isOptional ps6 ps8 s S) as (S6 & HS6 & E);
      [by apply Hlate|done|].
    rewrite E in Hrole.
    destruct (findOptProds_parent_shape _ _ Hopt5 H6 s S6 HS6 Hrole)
      as (S5 & c & HS5 & Hc).
    destruct (fmap_eq_lookup defs ps2 _ s S5 Hd5 HS5) as (S2' & HS2' & HdS5).
    assert (S2' = S2) as -> by congruence.
    rewrite (nonterminalDefs_not_optional S5) in Hc; [done|].
    by eapply nonterminalDefs_defs. }
  intros p P s HP [Hs|Hs].
  - destruct (fmap_eq_lookup subtypeOf _ ps8 p P Hsub8 HP) as (P3 & HP3 & E).
    rewrite E in Hs. destruct (Hmember p P3 s HP3 Hs) as (S2 & HS2 & Hnt).
    by eapply Hfinal.
  - destruct (fmap_eq_lookup ancestors _ ps8 p P Hanc8 HP) as (P4 & HP4 & E).
    rewrite E in Hs.
    destruct (findAllAncestors_members _ _ Hanc3 H4 p P4 s HP4 Hs)
      as (q & Q & HQ & Hin).
    destruct (Hmember q Q s HQ Hin) as (S2 & HS2 & Hnt). by eapply Hfinal.
Qed.

Lemma analyze_supertypes_not_optional_witness :
  ∃ a, analyze twoInstances (AttLines [] true) 1 = Ok a ∧
       (∀ p P s, productions a !! p = Some P →
                 s ∈ subtypeOf P ∨ s ∈ ancestors P →
                 ∃ S, productions a !! s = Some S ∧ nonterminalDefs S ∧
                      isOptional S ≠ 1 ∧ isOptional S ≠ 2) ∧
       (∃ a3, classify twoInstances (AttLines [] true) = Ok a3 ∧
              Forall (λ P, isOptional P = 0) (productions a3)).
Proof.
  eexists. split; [vm_compute; reflexivity|].
  apply (analyze_supertypes_not_optional twoInstances (AttLines [] true) 1).
  vm_compute. reflexivity.
Defined.

(** ** Own-expression alignment *)

Lemma skipToAtt_filter (l : list expression) :
  filter (λ e, isAttExp e = true) (skipToAtt l)
  = filter (λ e, isAttExp e = true) l.
Proof.
  induction l as [|e l IH]; [done|]. simpl.
  destruct (isAttExp e) eqn:E; [done|].
  rewrite IH, (filter_cons_False _ e l); [done|]. by rewrite E.
Qed.

Lemma skipToAtt_head (l : list expression) (e : expression)
    (rest : list expression) :
  skipToAtt l = e :: rest → isAttExp e = true.
Proof.
  induction l as [|x l IH]; [done|]. simpl.
  destruct (isAttExp x) eqn:E; [|done]. by intros [= <- _].
Qed.

(** A cell pointer as [findMyExps] holds it: null or at an expression
    that bears an attribute. *)
Lemma skipToAtt_cell (l : list expression) :
  match skipToAtt l with
  | [] => True
  | e :: _ => isAttExp e = true
  end.
Proof.
  destruct (skipToAtt l) eqn:E; [done|]. by eapply skipToAtt_head.
Qed.

Lemma matchMyAtts_outcome (prodLhs : string) (myCell attCell : list string)
    (expCell exps : list expression) :
  match expCell with [] => True | e :: _ => isAttExp e = true end →
  match matchMyAtts prodLhs myCell attCell expCell exps with
  | Ok exps' =>
      exps' = exps ++ take (length myCell)
                        (filter (λ e, isAttExp e = true) expCell) ∧
      (length myCell ≤ length (filter (λ e, isAttExp e = true) expCell))%nat ∧
      take (length myCell) attCell = myCell
  | Exit msg => alignmentDiagnostic prodLhs msg
  | Crash => False
  | OutOfFuel => False
  end.
Proof.
  revert attCell expCell exps.
  induction myCell as [|my myRest IH]; intros attCell expCell exps Hcell.
  - simpl. rewrite app_nil_r. split; [done|]. split; [lia|done].
  - simpl. destruct expCell as [|e next]; [by left|].
    destruct attCell as [|a attRest]; [by right; left|].
    destruct (strcmp a my =? 0) eqn:E; simpl; [|right; right; eauto].
    apply strcmp_eqb_true in E. subst a.
    specialize (IH attRest (skipToAtt next) (exps ++ [e])
                  (skipToAtt_cell next)).
    destruct (matchMyAtts _ _ _ _ _); try done.
    destruct IH as (-> & Hlen & Htake).
    rewrite skipToAtt_filter in *.
    rewrite (filter_cons_True _ e next) by done. simpl.
    rewrite <- app_assoc. simpl. split; [done|]. split; [lia|].
    by rewrite Htake.
Qed.

Lemma findAttCell_outcome (attCell : list string) (myName : string)
    (expCell : list expression) :
  match expCell with [] => True | e :: _ => isAttExp e = true end →
  match findAttCell attCell myName expCell with
  | Ok (attCell', expCell') =>
      ∃ k, attCell' = drop k attCell ∧
           filter (λ e, isAttExp e = true) expCell'
           = drop k (filter (λ e, isAttExp e = true) expCell) ∧
           match expCell' with [] => True | e :: _ => isAttExp e = true end ∧
           (∀ j a, (j < k)%nat → attCell !! j = Some a → a ≠ myName)
  | Exit _ => False
  | Crash =>
      ∃ k, (length (filter (λ e, isAttExp e = true) expCell) < k)%nat ∧
           (k ≤ length attCell)%nat ∧
           ∀ j a, (j < k)%nat → attCell !! j = Some a → a ≠ myName
  | OutOfFuel => False
  end.
Proof.
  revert expCell. induction attCell as [|a rest IH]; intros expCell Hcell.
  - simpl. exists 0%nat. repeat split; [done..|]. intros; lia.
  - simpl. destruct (strcmp a myName =? 0) eqn:E.
    + exists 0%nat. repeat split; [done..|]. intros; lia.
    + apply strcmp_eqb_false in E. destruct expCell as [|e next].
      * exists 1%nat. simpl. repeat split; [lia..|].
        intros [|j] b Hj; [|lia]. by intros [= <-].
      * specialize (IH (skipToAtt next) (skipToAtt_cell next)).
        rewrite skipToAtt_filter in IH.
        rewrite (filter_cons_True _ e next) by done.
        destruct (findAttCell rest myName (skipToAtt next)) as [[A' E']| | |];
          try done.
        -- destruct IH as (k & -> & Hf & Hc & Hno). exists (S k). simpl.
           repeat split; [done..|]. intros [|j] b Hj; simpl.
           ++ by intros [= <-].
           ++ apply Hno. lia.
        -- destruct IH as (k & Hlt & Hle & Hno). exists (S k). simpl.
           repeat split; [lia..|]. intros [|j] b Hj; simpl.
           ++ by intros [= <-].
           ++ apply Hno. lia.
Qed.

Lemma alignMyExps_outcome (prod source : production) :
  match alignMyExps prod source with
  | Ok exps =>
      length exps = length (myAtts prod) ∧
      ∃ k, exps = take (length (myAtts prod)) (drop k (attExps source)) ∧
           take (length (myAtts prod)) (drop k (attNames source))
           = myAtts prod
  | Exit msg => alignmentDiagnostic (lhs prod) msg
  | Crash =>
      defs source = [] ∨
      ∃ k myName, head (myAtts prod) = Some myName ∧
                  (length (attExps source) < k)%nat ∧
                  (k ≤ length (attNames source))%nat ∧
                  ∀ j a, (j < k)%nat → attNames source !! j = Some a →
                         a ≠ myName
  | OutOfFuel => False
  end.
Proof.
  unfold alignMyExps, attExps.
  destruct (myAtts prod) as [|myName myRest] eqn:HM.
  { simpl. split; [done|]. exists 0%nat. by rewrite !take_0. }
  destruct (defs source) as [|firstDef ds]; [by left|].
  pose proof (skipToAtt_cell firstDef) as Hcell.
  pose proof (skipToAtt_filter firstDef) as Hfilter.
  destruct (skipToAtt firstDef) as [|e next] eqn:Hskip; [by left|].
  pose proof (findAttCell_outcome (attNames source) myName (e :: next) Hcell)
    as Hfind.
  destruct (findAttCell _ _ _) as [[attCell expCell]| | |];
    cbv beta iota delta [mbind result_mbind result_bind]; try done.
  - destruct Hfind as (k & -> & Hf & Hc & Hno).
    pose proof (matchMyAtts_outcome (lhs prod) (myName :: myRest)
                  (drop k (attNames source)) expCell [] Hc) as Hmatch.
    destruct (matchMyAtts _ _ _ _ _); try done.
    destruct Hmatch as (-> & Hlen & Htake). rewrite Hf, Hfilter in *.
    simpl. split.
    + rewrite length_take. simpl in Hlen. lia.
    + exists k. done.
  - destruct Hfind as (k & Hlt & Hle & Hno). right. exists k, myName.
    rewrite Hfilter in Hlt. done.
Qed.

(** C2: the alignment of one production ends in one of the three
    diagnostics that name it, or with as many expressions as own
    attribute names, taken in order from the attribute-bearing
    expressions of the source's first definition at the place where the
    own names stand in the source's attribute names -- or, which the
    claim leaves out, by reading through a null [expCell] in the search
    loop, when the first own name stands further in the attribute names
    than there are attribute-bearing expressions.  This last outcome is
    the one of [tooFewExpressions]. *)
Theorem findMyExps_alignment_outcomes :
  (∀ prod source : production,
     match alignMyExps prod source with
     | Ok exps =>
         length exps = length (myAtts prod) ∧
         ∃ k, exps = take (length (myAtts prod)) (drop k (attExps source)) ∧
              take (length (myAtts prod)) (drop k (attNames source))
              = myAtts prod
     | Exit msg => alignmentDiagnostic (lhs prod) msg
     | Crash =>
         defs source = [] ∨
         ∃ k myName, head (myAtts prod) = Some myName ∧
                     (length (attExps source) < k)%nat ∧
                     (k ≤ length (attNames source))%nat ∧
                     ∀ j a, (j < k)%nat → attNames source !! j = Some a →
                            a ≠ myName
     | OutOfFuel => False
     end) ∧
  analyze tooFewExpressions tooFewExpressionsAtts 2 = Crash.
Proof.
  split; [apply alignMyExps_outcome|]. vm_compute. reflexivity.
Qed.

(** ** The emission loop *)

Section EmissionLoop.

Variable printCppProductionClass : list production → nat → option string.
Variable instanceProd : option nat.
Variable toPrint : list nat.

(** One turn of the scan either leaves the state alone or prints a class
    for a production that was waiting for nothing. *)
Lemma printOne_Ok (k : nat) (st st' : printing) :
  printOne printCppProductionClass instanceProd k st = Ok st' →
  st' = st ∨
  ∃ prod,
    printProds st !! k = Some prod ∧ wasPrinted prod = false ∧
    (∀ super, super ∈ subtypeOf prod →
              ∃ sp, printProds st !! super = Some sp ∧ wasPrinted sp = true) ∧
    (isInstance prod = true →
     ∃ i ip, instanceProd = Some i ∧ printProds st !! i = Some ip ∧
             wasPrinted ip = true) ∧
    st' = mkPrinting (alter (set_wasPrinted true) k (printProds st))
                     (printed st ++ [k]) (S (numberPrinted st)).
Proof.
  unfold printOne.
  destruct (printProds st !! k) as [prod|] eqn:Hprod;
    [|intros [= <-]; by left].
  destruct (wasPrinted prod) eqn:Hw; [intros [= <-]; by left|].
  intros (wait & Hwait & Hrun)%result_bind_Ok.
  destruct wait; [injection Hrun as <-; by left|].
  destruct (existsb _ _) eqn:Hex; [injection Hrun as <-; by left|].
  destruct (printCppProductionClass _ _); [done|]. injection Hrun as <-.
  right. exists prod. split; [done|]. split; [done|]. split; [|split; [|done]].
  - intros super Hsuper.
    destruct (printProds st !! super) as [sp|] eqn:Hsp.
    + exists sp. split; [done|]. destruct (wasPrinted sp) eqn:Hwsp; [done|].
      assert (existsb (λ super, match printProds st !! super with
                                | Some sp => negb (wasPrinted sp)
                                | None => true
                                end) (subtypeOf prod) = true) as Hex'.
      { apply existsb_exists. exists super. split.
        - by apply list_elem_of_In.
        - by rewrite Hsp, Hwsp. }
      congruence.
    + assert (existsb (λ super, match printProds st !! super with
                                | Some sp => negb (wasPrinted sp)
                                | None => true
                                end) (subtypeOf prod) = true) as Hex'.
      { apply existsb_exists. exists super. split.
        - by apply list_elem_of_In.
        - by rewrite Hsp. }
      congruence.
  - intros Hi. rewrite Hi in Hwait.
    destruct instanceProd as [i|]; [|done]. simpl in Hwait.
    destruct (printProds st !! i) as [ip|] eqn:Hip; [|done].
    injection Hwait as Hwait. exists i, ip. split; [done|]. split; [done|].
    by destruct (wasPrinted ip).
Qed.

(** The invariant of the loop is kept by one turn of the scan. *)
Lemma printOne_inv (ps0 : list production) (k : nat) (st st' : printing) :
  k ∈ toPrint →
  printingInv ps0 instanceProd toPrint (printProds st) (printed st) →
  printOne printCppProductionClass instanceProd k st = Ok st' →
  printingInv ps0 instanceProd toPrint (printProds st') (printed st') ∧
  (numberPrinted st ≤ numberPrinted st')%nat ∧
  (length (printed st') + numberPrinted st
   = length (printed st) + numberPrinted st')%nat ∧
  (numberPrinted st' = numberPrinted st → st' = st).
Proof.
  intros Hk Hinv Hrun. pose proof Hinv as (Hframe & Hmark & Hnd & Hsub & Hord).
  apply printOne_Ok in Hrun
    as [->|(prod & Hprod & Hw & Hsupers & Hinst & ->)].
  { split; [done|]. split; [lia|]. split; [lia|done]. }
  simpl. assert (k ∉ printed st) as Hfresh.
  { intros Hin. apply (Hmark k prod Hprod) in Hin. congruence. }
  destruct (fmap_eq_lookup _ _ _ k prod Hframe Hprod)
    as (P0 & HP0 & [= Hsub0 Hinst0]).
  split; [|split; [lia|split; [rewrite length_app; simpl; lia|lia]]].
  split; [by rewrite fmap_alter_keep|]. split; [|split; [|split]].
  - intros j P HP. rewrite elem_of_app, list_elem_of_singleton.
    destruct (decide (j = k)) as [->|Hne].
    + rewrite list_lookup_alter_eq, Hprod in HP. injection HP as <-.
      simpl. split; auto.
    + rewrite list_lookup_alter_ne in HP by done.
      rewrite (Hmark j P HP). split; [auto|]. by intros [?|?].
  - apply NoDup_app. split; [done|]. split; [|apply NoDup_singleton].
    intros x Hx ->%list_elem_of_singleton. done.
  - intros j [?| ->%list_elem_of_singleton]%elem_of_app; auto.
  - intros l1 j l2 P Hout HP.
    destruct l2 as [|x l2 _] using rev_ind.
    + apply app_inj_tail in Hout as [<- <-].
      assert (P = P0) as -> by congruence. split.
      * intros s Hs. rewrite <- Hsub0 in Hs.
        destruct (Hsupers s Hs) as (sp & Hsp & Hwsp). by apply (Hmark s sp).
      * intros Hi. rewrite <- Hinst0 in Hi.
        destruct (Hinst Hi) as (i & ip & -> & Hip & Hwip).
        exists i. split; [done|]. by apply (Hmark i ip).
    + rewrite app_comm_cons, app_assoc in Hout.
      apply app_inj_tail in Hout as [Hout _]. by eapply Hord.
Qed.

(** One pass: the invariant is kept, [numberPrinted] counts what was
    printed, and a pass that prints nothing changes nothing. *)
Lemma printPass_inv (ps0 qs : list production) (out : list nat)
    (st : printing) :
  printingInv ps0 instanceProd toPrint qs out →
  printPass printCppProductionClass instanceProd toPrint qs out = Ok st →
  printingInv ps0 instanceProd toPrint (printProds st) (printed st) ∧
  length (printed st) = (length out + numberPrinted st)%nat ∧
  (numberPrinted st = 0%nat → st = mkPrinting qs out 0).
Proof.
  intros Hinv Hrun.
  apply (foldl_result_ind
           (printOne printCppProductionClass instanceProd)
           (λ _ st,
              printingInv ps0 instanceProd toPrint (printProds st)
                (printed st) ∧
              length (printed st) = (length out + numberPrinted st)%nat ∧
              (numberPrinted st = 0%nat → st = mkPrinting qs out 0))
           toPrint (mkPrinting qs out 0) st); [|clear Hrun|exact Hrun].
  - simpl. split; [done|]. split; [lia|done].
  - intros i k x x' Hi (Hx & Hlen & Hzero) Hstep.
    destruct (printOne_inv ps0 k x x') as (Hx' & Hmono & Hcount & Hsame);
      [by eapply list_elem_of_lookup_2|done..|].
    split; [done|]. split; [lia|]. intros H0.
    assert (numberPrinted x = 0%nat) as Hx0 by lia.
    rewrite Hsame by lia. by apply Hzero.
Qed.

(** The passes: the loop stops on a pass that prints nothing, or after
    as many passes as it was given, each of which printed something. *)
Lemma printPasses_inv (ps0 : list production) (n : nat)
    (qs : list production) (out : list nat) (ps' : list production)
    (out' : list nat) (total' : nat) :
  printingInv ps0 instanceProd toPrint qs out →
  printPasses printCppProductionClass n instanceProd toPrint qs out
              (length out)
  = Ok (ps', out', total') →
  printingInv ps0 instanceProd toPrint ps' out' ∧ total' = length out' ∧
  (printPass printCppProductionClass instanceProd toPrint ps' out'
   = Ok (mkPrinting ps' out' 0)
   ∨ (length out + n ≤ length out')%nat).
Proof.
  revert qs out. induction n as [|n IH]; intros qs out Hinv; simpl.
  - intros [= <- <- <-]. split; [done|]. split; [done|]. right. lia.
  - intros (st & Hpass & Hrest)%result_bind_Ok.
    destruct (printPass_inv ps0 qs out st Hinv Hpass) as (Hst & Hlen & Hzero).
    destruct (numberPrinted st =? 0)%nat eqn:E.
    + apply Nat.eqb_eq in E. injection Hrest as <- <- <-.
      rewrite (Hzero E) in *. simpl. split; [done|]. split; [done|]. by left.
    + apply Nat.eqb_neq in E. rewrite <- Hlen in Hrest.
      destruct (IH _ _ Hst Hrest) as (Hinv' & Htotal & Hstop).
      split; [done|]. split; [done|]. destruct Hstop as [?|?]; [by left|].
      right. lia.
Qed.

End EmissionLoop.

Lemma NoDup_subseteq_length (l k : list nat) :
  NoDup l → (∀ x, x ∈ l → x ∈ k) → (length l ≤ length k)%nat.
Proof. intros Hnd Hsub. apply submseteq_length. by apply NoDup_submseteq. Qed.

(** C4: the emission loop of [printCppClasses] prints a class for a
    production of [toPrint] only after it has printed the classes of all
    members of its [subtypeOf] and, for an instance, the class of the
    production [instance]; when the loop ends with a production of
    [toPrint] not printed, a full pass prints nothing more and the program
    ends with [loop found in productions]; when it ends with all of them
    printed, the program goes on. *)
Theorem printLoop_order_and_cycle
    (printCppProductionClass : list production → nat → option string)
    (instanceProd : option nat) (toPrint : list nat)
    (ps ps' : list production) (out : list nat) (total : nat) :
  NoDup toPrint → (∀ k, k ∈ toPrint → is_Some (ps !! k)) →
  Forall (λ P, wasPrinted P = false) ps →
  printPasses printCppProductionClass (length toPrint) instanceProd toPrint
              ps [] 0
  = Ok (ps', out, total) →
  (∀ l1 k l2 P, out = l1 ++ k :: l2 → ps !! k = Some P →
     k ∈ toPrint ∧ (k ∉ l1) ∧
     (∀ s, s ∈ subtypeOf P → s ∈ l1) ∧
     (isInstance P = true → ∃ i, instanceProd = Some i ∧ i ∈ l1)) ∧
  ((∃ k P', k ∈ toPrint ∧ ps' !! k = Some P' ∧ wasPrinted P' = false) →
   printPass printCppProductionClass instanceProd toPrint ps' out
   = Ok (mkPrinting ps' out 0) ∧
   printLoop printCppProductionClass instanceProd toPrint ps
   = Exit "loop found in productions") ∧
  ((∀ k P', k ∈ toPrint → ps' !! k = Some P' → wasPrinted P' = true) →
   printLoop printCppProductionClass instanceProd toPrint ps = Ok (ps', out)).
Proof.
  intros Hnd Hvalid Hfresh Hrun.
  assert (printingInv ps instanceProd toPrint ps []) as Hinit.
  { split; [done|]. split; [|split; [constructor|split]].
    - intros k P HP. rewrite Forall_lookup in Hfresh.
      rewrite (Hfresh k P HP). split; [done|]. by intros ?%elem_of_nil.
    - by intros k ?%elem_of_nil.
    - intros l1 k l2 P Hout. by destruct l1. }
  destruct (printPasses_inv printCppProductionClass instanceProd toPrint
              ps (length toPrint) ps [] ps' out total Hinit Hrun)
    as ((Hframe & Hmark & Hndout & Hsub & Hord) & -> & Hstop).
  assert (length out ≤ length toPrint)%nat as Hle
    by by apply NoDup_subseteq_length.
  unfold printLoop. rewrite Hrun. simpl.
  split; [|split].
  - intros l1 k l2 P -> HP.
    destruct (Hord l1 k l2 P eq_refl HP) as [Hsupers Hinst].
    split; [apply Hsub; rewrite elem_of_app; right; by left|].
    split; [|done]. by apply NoDup_app in Hndout as (_ & Hno & _); intros Hin;
      apply (Hno k Hin); left.
  - intros (k & P' & Hk & HP' & Hw).
    assert (k ∉ out) as Hnot.
    { intros Hin. apply (Hmark k P' HP') in Hin. congruence. }
    assert (length (k :: out) ≤ length toPrint)%nat as Hlt.
    { apply NoDup_subseteq_length; [by constructor|].
      intros x [->|?]%elem_of_cons; auto. }
    simpl in Hlt. split.
    + destruct Hstop as [?|?]; [done|]. simpl in *. lia.
    + destruct (length out =? length toPrint)%nat eqn:E; [|done].
      apply Nat.eqb_eq in E. lia.
  - intros Hall.
    assert (length toPrint ≤ length out)%nat as Hge.
    { apply NoDup_subseteq_length; [done|]. intros k Hk.
      destruct (Hvalid k Hk) as [P HP].
      destruct (fmap_eq_lookup_r _ _ _ k P Hframe HP) as (P' & HP' & _).
      apply (Hmark k P' HP'). by eapply Hall. }
    destruct (length out =? length toPrint)%nat eqn:E; [done|].
    apply Nat.eqb_neq in E. lia.
Qed.

Lemma printLoop_order_and_cycle_witness :
  ∃ ps' out total,
    printPasses printsAll 4 (Some 0%nat) [0; 1; 2; 3]%nat
                twoInstancesAnalyzed [] 0
    = Ok (ps', out, total) ∧
    (∀ l1 k l2 P, out = l1 ++ k :: l2 → twoInstancesAnalyzed !! k = Some P →
       k ∈ [0; 1; 2; 3]%nat ∧ (k ∉ l1) ∧
       (∀ s, s ∈ subtypeOf P → s ∈ l1) ∧
       (isInstance P = true → ∃ i, Some 0%nat = Some i ∧ i ∈ l1)) ∧
    ((∃ k P', k ∈ [0; 1; 2; 3]%nat ∧ ps' !! k = Some P' ∧
              wasPrinted P' = false) →
     printPass printsAll (Some 0%nat) [0; 1; 2; 3]%nat ps' out
     = Ok (mkPrinting ps' out 0) ∧
     printLoop printsAll (Some 0%nat) [0; 1; 2; 3]%nat twoInstancesAnalyzed
     = Exit "loop found in productions") ∧
    ((∀ k P', k ∈ [0; 1; 2; 3]%nat → ps' !! k = Some P' →
              wasPrinted P' = true) →
     printLoop printsAll (Some 0%nat) [0; 1; 2; 3]%nat twoInstancesAnalyzed
     = Ok (ps', out)).
Proof.
  eexists _, _, _. split; [vm_compute; reflexivity|].
  eapply (printLoop_order_and_cycle printsAll (Some 0%nat) [0; 1; 2; 3]%nat
            twoInstancesAnalyzed).
  - compute_done.
  - intros k Hk.
    repeat (apply elem_of_cons in Hk as [->|Hk]; [by eexists|]).
    by apply elem_of_nil in Hk.
  - repeat constructor.
  - vm_compute. reflexivity.
Defined.

(** ** The order of the passes *)

Lemma runPasses_app
    (printCppProductionClass : list production → nat → option string)
    (grammar : list sourceProduction) (inFile : attributeSection)
    (fuel : nat) (l1 l2 : list pass) :
  runPasses printCppProductionClass grammar inFile fuel (l1 ++ l2)
  = foldl (λ acc p,
             st ← acc; runPass printCppProductionClass grammar inFile fuel p st)
          (runPasses printCppProductionClass grammar inFile fuel l1) l2.
Proof. unfold runPasses. by rewrite foldl_app. Qed.

Lemma main_runPasses
    (printCppProductionClass : list production → nat → option string)
    (grammar : list sourceProduction) (inFile : attributeSection)
    (fuel : nat) :
  main printCppProductionClass grammar inFile fuel
  = runPasses printCppProductionClass grammar inFile fuel mainPasses.
Proof.
  unfold main, analyze, classify, runPasses, mainPasses. simpl.
  destruct (yyparse grammar initialAnalyzer) as [a0| | |]; simpl; [|done..].
  destruct (reviseSpelling a0) as [a1| | |]; simpl; [|done..].
  destruct (onProductions (findMyAtts inFile) a1) as [a2| | |]; simpl;
    [|done..].
  destruct (onProductions findAllAncestors _) as [a5| | |]; simpl; [|done..].
  destruct (onProductions findOptProds _) as [a7| | |]; simpl; [|done..].
  destruct (onProductions (findAttNamesAll fuel) a7) as [a8| | |]; simpl;
    [|done..].
  destruct (onProductions findMyExps a8) as [a9| | |]; simpl; [|done..].
  by destruct (printCppClasses printCppProductionClass a9) as [[a10 out]| | |].
Qed.

Lemma findProdValueAll_boundFrom (ps : list production) :
  Forall2 boundFrom ps (findProdValueAll ps).
Proof.
  rewrite findProdValueAll_spec. apply Forall2_same_length_lookup.
  split; [by rewrite length_imap|].
  intros i P P' HP HP'. rewrite list_lookup_imap, HP in HP'.
  injection HP' as <-.
  exists (boundUpTo (lhs <$> ps) i (length ps)). split; [|done].
  intros e. split; [apply boundUpTo_theType|apply boundUpTo_itemName].
Qed.

Lemma findIsList_boundFrom (P P' : production) :
  boundFrom P P' → findIsList P' = findIsList P.
Proof.
  intros (b & Hb & ->). unfold findIsList. simpl.
  destruct (defs P) as [|d1 [|d2 [|d3 ds]]]; try done. simpl.
  destruct d1 as [|e1 [|e1' d1]]; try done; simpl.
  destruct d2 as [|s [|m [|f [|x d2]]]]; try done; simpl;
    by rewrite ?(λ e, proj2 (Hb e)).
Qed.

Lemma isNew_isList (P : production) : isNew P → isList P = findIsList P.
Proof. intros ->. reflexivity. Qed.

Lemma set_isList_id (P : production) : set_isList (isList P) P = P.
Proof. by destruct P. Qed.

(** After parsing and binding, classifying the lists again changes
    nothing. *)
Lemma classifyLists_bound (ps : list production) :
  Forall isNew ps → classifyLists (findProdValueAll ps) = findProdValueAll ps.
Proof.
  intros Hnew. unfold classifyLists.
  transitivity (id <$> findProdValueAll ps); [|apply list_fmap_id].
  apply list_fmap_ext. intros i P' HP'. simpl.
  pose proof (findProdValueAll_boundFrom ps) as Hb.
  destruct (Forall2_lookup_r _ _ _ _ _ Hb HP') as (P & HP & HPP').
  rewrite (findIsList_boundFrom P P' HPP').
  rewrite Forall_lookup in Hnew. rewrite <- (isNew_isList P (Hnew i P HP)).
  destruct HPP' as (b & _ & ->).
  exact (set_isList_id (set_defs (fmap (M:=list) b <$> defs P) P)).
Qed.

Lemma spellingCodes_bound (b : expression → expression)
    (exps : list expression) (codes : list Z) :
  (∀ e, theType (b e) = theType e ∧ itemName (b e) = itemName e) →
  spellingCodes (b <$> exps) codes = spellingCodes exps codes.
Proof.
  intros Hb. revert codes. induction exps as [|e exps IH]; intros codes;
    [done|].
  simpl. destruct (Hb e) as [-> ->]. by rewrite !IH.
Qed.

Lemma reviseSpellingOne_boundFrom (P P' : production)
    (names lexes : list (list string)) :
  boundFrom P P' →
  reviseSpellingOne P' names lexes = reviseSpellingOne P names lexes.
Proof.
  intros (b & Hb & ->). unfold reviseSpellingOne. simpl.
  destruct (findToken (lhs P) names); [|done].
  destruct (defs P) as [|exps [|d ds]]; try done. simpl.
  by rewrite spellingCodes_bound.
Qed.

Lemma foldl_Forall2 {A B : Type} (R : B → B → Prop) (F : A → B → A)
    (l l' : list B) (a : A) :
  Forall2 R l l' → (∀ acc x x', R x x' → F acc x' = F acc x) →
  foldl F a l' = foldl F a l.
Proof.
  intros Hl HF. revert a. induction Hl as [|x x' l l' Hx Hl IH]; intros a;
    [done|].
  simpl. by rewrite (HF a x x' Hx), IH.
Qed.

Lemma reviseSpelling_bound (a : analyzer) :
  reviseSpelling (set_productions (findProdValueAll (productions a)) a)
  = a' ← reviseSpelling a;
    Ok (set_productions (findProdValueAll (productions a)) a').
Proof.
  unfold reviseSpelling. simpl.
  rewrite (foldl_Forall2 boundFrom _ (productions a)
             (findProdValueAll (productions a)));
    [|apply findProdValueAll_boundFrom|].
  - by destruct (foldl _ _ _).
  - intros acc P P' HPP'. destruct acc; simpl; try done.
    by apply reviseSpellingOne_boundFrom.
Qed.

Lemma findProd_lhs (name : string) (ps ps' : list production) :
  lhs <$> ps' = lhs <$> ps → findProd name ps' = findProd name ps.
Proof.
  intros Heq.
  assert (∀ qs, findProd name qs
                = fst <$> list_find (λ n, n = name) (lhs <$> qs)) as Hview.
  { intros qs. unfold findProd. rewrite list_find_fmap.
    by destruct (list_find _ qs) as [[i P]|]. }
  by rewrite !Hview, Heq.
Qed.

Lemma findProdValueAll_alter (h : production → production) (k : nat)
    (ps : list production) :
  (∀ P, lhs (h P) = lhs P) → (∀ P, defs (h P) = defs P) →
  (∀ X P, set_defs X (h P) = h (set_defs X P)) →
  findProdValueAll (alter h k ps) = alter h k (findProdValueAll ps).
Proof.
  intros Hl Hd Hc. rewrite !findProdValueAll_spec.
  rewrite (fmap_alter_keep lhs h k ps Hl), length_alter.
  apply list_eq. intros i. rewrite list_lookup_imap.
  destruct (decide (k = i)) as [->|Hne].
  - rewrite !list_lookup_alter_eq, list_lookup_imap.
    destruct (ps !! i) as [P|]; [|done]. simpl. by rewrite Hd, Hc.
  - by rewrite !list_lookup_alter_ne, list_lookup_imap.
Qed.

Lemma findMyAttsLine_bound (l : attLine) (ps : list production) :
  findMyAttsLine l (findProdValueAll ps)
  = qs ← findMyAttsLine l ps; Ok (findProdValueAll qs).
Proof.
  unfold findMyAttsLine.
  rewrite (findProd_lhs _ ps (findProdValueAll ps))
    by apply findProdValueAll_lhs.
  destruct (findProd (attProd l) ps) as [k|]; [|done]. simpl.
  rewrite findProdValueAll_alter; [done|..].
  - intros P. by destruct (attFull l).
  - intros P. by destruct (attFull l).
  - intros X P. by destruct (attFull l).
Qed.

Lemma foldl_result_err {A B : Type} (body : B → A → result A) (l : list B)
    (r : result A) :
  (∀ a, r ≠ Ok a) →
  foldl (λ acc k, x ← acc; body k x) r l = r.
Proof.
  intros Hr. induction l as [|k l IH] using rev_ind; [done|].
  rewrite foldl_snoc, IH. destruct r; try done. by destruct (Hr a).
Qed.

Lemma findMyAtts_bound (inFile : attributeSection) (ps : list production) :
  findMyAtts inFile (findProdValueAll ps)
  = qs ← findMyAtts inFile ps; Ok (findProdValueAll qs).
Proof.
  unfold findMyAtts. destruct inFile as [|lines closed]; [done|].
  assert (foldl (λ acc l, ps ← acc; findMyAttsLine l ps)
                (Ok (findProdValueAll ps)) lines
          = qs ← foldl (λ acc l, ps ← acc; findMyAttsLine l ps) (Ok ps) lines;
            Ok (findProdValueAll qs)) as ->.
  { revert ps. induction lines as [|l lines IH]; intros ps; [done|]. simpl.
    rewrite findMyAttsLine_bound.
    destruct (findMyAttsLine l ps) as [qs| | |]; simpl; [apply IH|..];
      by rewrite !foldl_result_err. }
  destruct (foldl _ (Ok ps) lines); simpl; try done. by destruct closed.
Qed.

(** C9 (as the code has it): [main] runs its passes in the order parse
    (with the list classification, which the constructor of a production
    does), refine-spelling, read-own-atts, bind, classify-supertypes,
    ancestors, be-instance, classify-optionals, full-atts, own-exps, emit;
    binding comes after spelling refinement and after the reading of the
    attribute section.  On every input the order of the specification
    gives the same outcome as this one. *)
Theorem main_pass_order
    (printCppProductionClass : list production → nat → option string)
    (grammar : list sourceProduction) (inFile : attributeSection)
    (fuel : nat) :
  main printCppProductionClass grammar inFile fuel
  = runPasses printCppProductionClass grammar inFile fuel
      [Parse; RefineSpelling; ReadOwnAtts; Bind; ClassifySupertypes;
       Ancestors; BeInstance; ClassifyOptionals; FullAtts; OwnExps; Emit] ∧
  runPasses printCppProductionClass grammar inFile fuel specPasses
  = main printCppProductionClass grammar inFile fuel.
Proof.
  split; [apply main_runPasses|]. rewrite main_runPasses.
  change specPasses
    with ([Parse; Bind; ClassifyLists; RefineSpelling; ReadOwnAtts]
          ++ [ClassifySupertypes; Ancestors; BeInstance; ClassifyOptionals;
              FullAtts; OwnExps; Emit]).
  change mainPasses
    with ([Parse; RefineSpelling; ReadOwnAtts; Bind]
          ++ [ClassifySupertypes; Ancestors; BeInstance; ClassifyOptionals;
              FullAtts; OwnExps; Emit]).
  rewrite !runPasses_app. f_equal.
  unfold runPasses. simpl.
  destruct (yyparse grammar initialAnalyzer) as [a0| | |] eqn:Hparse; simpl;
    [|done..].
  assert (Forall isNew (productions a0)) as Hnew.
  { apply yyparse_Ok in Hparse. eapply Forall_impl; [exact Hparse|].
    by intros P (? & _). }
  unfold onProductions at 2. simpl.
  rewrite (classifyLists_bound _ Hnew). simpl.
  pose proof (reviseSpelling_bound a0) as Hrev. simpl in Hrev.
  unfold set_productions at 1 2. simpl.
  unfold set_productions in Hrev at 1. simpl in Hrev. rewrite Hrev.
  destruct (reviseSpelling a0) as [a1| | |] eqn:Hrev1; simpl; [|done..].
  apply reviseSpelling_productions in Hrev1 as Hp1.
  unfold onProductions. simpl. rewrite findMyAtts_bound, Hp1.
  by destruct (findMyAtts inFile (productions a0)).
Qed.

(** ** Full attribute names *)







(** ** Full attribute names: what is inherited *)












(** C9, where the order of [main] and the spec's order differ: [main]
    runs [reviseSpelling] and [findMyAtts] second and third and binds
    after them, the spec's order binds second. *)
Lemma main_binds_after_spelling_and_atts :
  mainPasses !! 1%nat = Some RefineSpelling ∧
  mainPasses !! 2%nat = Some ReadOwnAtts ∧
  mainPasses !! 3%nat = Some Bind ∧
  specPasses !! 1%nat = Some Bind ∧
  mainPasses ≠ specPasses.
Proof. repeat split; discriminate. Qed.

(** ** The emission loop in [main]: what [printCppClasses] hands to it *)

(** [selectProductions] selects positions of the model, each once. *)
Lemma selectProductions_sound (a : analyzer) (toPrint : list nat) :
  selectProductions a = Ok toPrint →
  NoDup toPrint ∧ ∀ k, k ∈ toPrint → is_Some (productions a !! k).
Proof.
  intros Hrun. unfold selectProductions in Hrun.
  pose proof (foldl_result_ind
    (λ k toPrint,
       match productions a !! k with
       | None => Ok toPrint
       | Some prod =>
           isTerminal ← isTerminalName (lhs prod) (terminalNames a);
           if (isTerminal : bool) then Ok toPrint
           else if bool_decide (is_Some (findToken (lhs prod) (tokenNames a)))
           then Ok toPrint
           else if negb (isList prod =? 0) then Ok toPrint
           else if strcmp (lhs prod) "instancePlus" =? 0 then Ok toPrint
           else if (isOptional prod =? 1) || (isOptional prod =? 2)
           then Ok toPrint
           else Ok (toPrint ++ [k])
       end)
    (λ i l, NoDup l ∧ ∀ k, k ∈ l → (k < i)%nat)
    (seq 0 (length (productions a))) [] toPrint) as H.
  rewrite length_seq in H. destruct H as [Hnd Hlt]; [| |exact Hrun|].
  - split; [constructor|]. by intros k ?%elem_of_nil.
  - intros i k l l' [-> Hi]%lookup_seq [Hnd Hlt] Hbody. simpl in Hbody.
    assert (NoDup l ∧ ∀ k, k ∈ l → (k < S i)%nat) as Hsame.
    { split; [done|]. intros k Hk. specialize (Hlt k Hk). lia. }
    destruct (productions a !! i) as [prod|]; [|by injection Hbody as <-].
    apply result_bind_Ok in Hbody as (t & _ & Hbody).
    destruct t; [by injection Hbody as <-|].
    destruct (bool_decide _); [by injection Hbody as <-|].
    destruct (negb _); [by injection Hbody as <-|].
    destruct (strcmp _ _ =? 0); [by injection Hbody as <-|].
    destruct (_ || _); injection Hbody as <-; [done|].
    split.
    + apply NoDup_app. split; [done|]. split; [|apply NoDup_singleton].
      intros k Hk ->%list_elem_of_singleton. specialize (Hlt i Hk). lia.
    + intros k [Hk| ->%list_elem_of_singleton]%elem_of_app; [|lia].
      specialize (Hlt k Hk). lia.
  - split; [done|]. intros k Hk. apply lookup_lt_is_Some. by apply Hlt.
Qed.

(** [recordClasses] writes class names only. *)
Lemma recordClasses_productions (toPrint : list nat) (a a1 : analyzer) :
  recordClasses toPrint a = Ok a1 → productions a1 = productions a.
Proof.
  intros Hrun. unfold recordClasses in Hrun.
  apply (foldl_result_ind
    (λ k a, match productions a !! k with
            | None => Ok a
            | Some prod =>
                names ← recordClass (lhs prod) (classNames a);
                Ok (set_classNames names a)
            end)
    (λ _ x, productions x = productions a) toPrint a a1); [done| |done].
  intros i k x x' _ Hx Hbody.
  destruct (productions x !! k) as [prod|]; [|by injection Hbody as <-].
  by apply result_bind_Ok in Hbody as (names & _ & [= <-]).
Qed.

(** No production of the analyzed model is marked as printed. *)
Lemma analyze_not_printed (grammar : list sourceProduction)
    (inFile : attributeSection) (fuel : nat) (a : analyzer) :
  analyze grammar inFile fuel = Ok a →
  Forall (λ P, wasPrinted P = false) (productions a).
Proof.
  intros Hrun.
  destruct (analyze_Ok _ _ _ _ Hrun)
    as (a3 & ps4 & ps6 & ps7 & Hcl & H4 & H6 & H7 & H8 & _).
  apply (Forall_keeps wasPrinted false ps7); [by eapply findMyExps_keeps|].
  apply (Forall_keeps wasPrinted false ps6);
    [by eapply findAttNamesAll_keeps|].
  apply (Forall_keeps wasPrinted false (findBeInstance ps4));
    [by eapply findOptProds_keeps|].
  apply (Forall_keeps wasPrinted false ps4); [by apply findBeInstance_keeps|].
  apply (Forall_keeps wasPrinted false (productions a3));
    [by eapply findAllAncestors_keeps|].
  by apply (classify_fresh wasPrinted false grammar inFile).
Qed.

(** ** The lattice that [findAttNamesAll] gets in [main] *)

(** In [main], what a supertype other than [instance] names in a
    definition has got that supertype in its [subtypeOf] when
    [findAttNamesAll] starts. *)
Lemma analyze_lattice_linked (grammar : list sourceProduction)
    (inFile : attributeSection) (a3 : analyzer)
    (ps4 ps6 : list production) :
  classify grammar inFile = Ok a3 →
  findAllAncestors (productions a3) = Ok ps4 →
  findOptProds (findBeInstance ps4) = Ok ps6 →
  ∀ s S d t T, ps6 !! s = Some S → isSupertype S = true →
               lhs S ≠ "instance"%string → d ∈ defs S →
               firstProdValue d = Some t → ps6 !! t = Some T →
               s ∈ subtypeOf T.
Proof.
  intros Hcl H4 H6 s S d t T HS Hsup Hname Hd Ht HT.
  destruct (classify_Ok _ _ _ Hcl) as (a0 & ps1 & Hparse & Hatts & Hps3).
  set (ps2 := findProdValueAll ps1) in *.
  assert (Forall (λ P, isSupertype P = false) ps2) as Hfresh
    by by apply (bound_fresh isSupertype false grammar inFile a0).
  set (g := λ P : production, (defs P, isSupertype P, lhs P, subtypeOf P)).
  assert (g <$> ps6 = g <$> findSupertypes ps2) as Hg.
  { rewrite (findOptProds_keeps g (findBeInstance ps4) ps6) by done.
    rewrite findBeInstance_keeps by done. rewrite <- Hps3.
    by apply findAllAncestors_keeps. }
  destruct (fmap_eq_lookup g _ _ s S Hg HS)
    as (S3 & HS3 & [= Hd3 Hs3 Hl3 _]).
  destruct (fmap_eq_lookup g _ _ t T Hg HT)
    as (T3 & HT3 & [= _ _ _ Hsub3]).
  destruct (findSupertypes_prefix ps2) as [Hf Hsuper].
  destruct (Hsuper s S3 HS3) as (S2 & HS2 & Hiff & _).
  destruct (Hsuper t T3 HT3) as (T2 & HT2 & _ & Hmem).
  destruct (fmap_eq_lookup _ _ _ s S3 Hf HS3)
    as (S2' & HS2' & [= Hd2 _ Hl2]).
  rewrite HS2 in HS2'. injection HS2' as <-.
  rewrite Hsub3. apply Hmem. right. exists S2, d.
  split; [done|]. split; [|split; [congruence|split; [congruence|done]]].
  rewrite Forall_lookup in Hfresh.
  destruct (proj1 Hiff) as [Hold|?]; [congruence| |done].
  by rewrite (Hfresh s S2 HS2) in Hold.
Qed.

(** * Further properties of the code *)

(** ** [findAncestors] and [findAllAncestors] *)


Lemma unvisited_mono_list (l : list nat) (anc anc' : list nat) :
  (∀ a, a ∈ anc → a ∈ anc') →
  (length (filter (λ k, k ∉ anc') l) ≤ length (filter (λ k, k ∉ anc) l))%nat.
Proof.
  intros Hsub. induction l as [|x l IH]; [done|].
  rewrite !filter_cons.
  destruct (decide (x ∉ anc')) as [Hx'|Hx'];
    destruct (decide (x ∉ anc)) as [Hx|Hx]; simpl; try lia.
  destruct Hx'. apply Hsub. by destruct (decide (x ∈ anc)).
Qed.

Lemma unvisited_push_list (l : list nat) (anc : list nat) (super : nat) :
  super ∈ l → super ∉ anc →
  (length (filter (λ k, k ∉ anc ++ [super]) l)
   < length (filter (λ k, k ∉ anc) l))%nat.
Proof.
  intros Hin Hnew. induction l as [|x l IH]; [by apply elem_of_nil in Hin|].
  rewrite !filter_cons.
  destruct (decide (x = super)) as [->|Hne].
  - destruct (decide (super ∉ anc ++ [super])) as [Hx|_].
    { destruct Hx. apply elem_of_app. right. by apply list_elem_of_singleton. }
    destruct (decide (super ∉ anc)); [|done]. simpl.
    pose proof (unvisited_mono_list l anc (anc ++ [super])) as Hle.
    assert (∀ a, a ∈ anc → a ∈ anc ++ [super]) as Hsub
      by (intros a Ha; apply elem_of_app; by left).
    specialize (Hle Hsub). lia.
  - apply elem_of_cons in Hin as [->|Hin]; [done|]. specialize (IH Hin).
    destruct (decide (x ∉ anc ++ [super])) as [Hx|Hx];
      destruct (decide (x ∉ anc)) as [Hx'|Hx']; simpl; try lia.
    destruct Hx'. intros Ha. apply Hx. apply elem_of_app. by left.
Qed.

Lemma unvisited_mono (ps : list production) (anc anc' : list nat) :
  (∀ a, a ∈ anc → a ∈ anc') → (unvisited ps anc' ≤ unvisited ps anc)%nat.
Proof. apply unvisited_mono_list. Qed.

Lemma unvisited_push (ps : list production) (anc : list nat) (super : nat) :
  (super < length ps)%nat → super ∉ anc →
  (unvisited ps (anc ++ [super]) < unvisited ps anc)%nat.
Proof.
  intros Hlt. apply unvisited_push_list. apply elem_of_seq. lia.
Qed.

Lemma unvisited_le (ps : list production) (anc : list nat) :
  (unvisited ps anc ≤ length ps)%nat.
Proof.
  unfold unvisited.
  pose proof (length_filter (λ k, k ∉ anc) (seq 0 (length ps))) as H.
  rewrite length_seq in H. exact H.
Qed.

(** The body of the loop of [findAncestors]. *)
Lemma findAncestors_unfold (fuel : nat) (ps : list production) (prod : nat)
    (anc : list nat) :
  findAncestors (S fuel) ps prod anc
  = match ps !! prod with
    | None => Ok anc
    | Some p =>
        foldl (λ acc super,
                 anc ← acc;
                 match ps !! super with
                 | Some s =>
                     if negb (bool_decide (super ∈ anc))
                        && negb (isOptional s =? 1)
                        && negb (isOptional s =? 2)
                     then findAncestors fuel ps super (anc ++ [super])
                     else Ok anc
                 | None => Ok anc
                 end)
              (Ok anc) (subtypeOf p)
    end.
Proof. reflexivity. Qed.

(** The recursion ends: every call comes after a push of a production
    that was not on the list. *)
Lemma findAncestors_total (fuel : nat) (ps : list production) :
  ∀ (prod : nat) (anc : list nat),
    (unvisited ps anc < fuel)%nat →
    ∃ anc', findAncestors fuel ps prod anc = Ok anc' ∧
            ∀ a, a ∈ anc → a ∈ anc'.
Proof.
  induction fuel as [|fuel IH]; intros prod anc Hfuel; [lia|].
  rewrite findAncestors_unfold.
  destruct (ps !! prod) as [p|]; [|eauto].
  generalize (subtypeOf p). intros supers. revert anc Hfuel.
  induction supers as [|super supers IHs]; intros anc Hfuel; [simpl; eauto|].
  simpl.
  destruct (ps !! super) as [s|] eqn:Hs; [|by apply IHs].
  destruct (negb (bool_decide (super ∈ anc)) && negb (isOptional s =? 1)
            && negb (isOptional s =? 2)) eqn:Htest; [|by apply IHs].
  apply andb_true_iff in Htest as [[Hnew%negb_true_iff _]%andb_true_iff _].
  apply bool_decide_eq_false in Hnew.
  assert (super < length ps)%nat as Hlt by by eapply lookup_lt_Some.
  pose proof (unvisited_push ps anc super Hlt Hnew) as Hless.
  destruct (IH super (anc ++ [super])) as (anc1 & -> & Hsub1); [lia|].
  assert (∀ a, a ∈ anc → a ∈ anc1) as Hsub.
  { intros a Ha. apply Hsub1. apply elem_of_app. by left. }
  destruct (IHs anc1) as (anc' & Hrun & Hsub').
  { pose proof (unvisited_mono ps anc anc1 Hsub). lia. }
  exists anc'. split; [exact Hrun|]. auto.
Qed.

Lemma forEachProdM_total
    (body : nat → list production → result (list production))
    (ps : list production) :
  (∀ k qs, ∃ qs', body k qs = Ok qs') →
  ∃ ps', forEachProdM body ps = Ok ps'.
Proof.
  intros Hbody. unfold forEachProdM.
  generalize (seq 0 (length ps)). intros l. revert ps.
  induction l as [|k l IH]; intros ps; [simpl; eauto|].
  simpl. destruct (Hbody k ps) as (qs' & ->). apply IH.
Qed.

(** X1: [findAllAncestors] always returns: the recursion of
    [findAncestors] ends on every model, also when the [subtypeOf] lists
    form a cycle. *)
Theorem findAllAncestors_returns (ps : list production) :
  ∃ ps', findAllAncestors ps = Ok ps' ∧ length ps' = length ps.
Proof.
  destruct (forEachProdM_total findAllAncestorsOne ps) as (ps' & Hrun).
  - intros k qs. unfold findAllAncestorsOne.
    destruct (qs !! k) as [p|]; [|eauto].
    destruct (findAncestors_total (S (length qs)) qs k (ancestors p))
      as (anc & -> & _); [|simpl; eauto].
    pose proof (unvisited_le qs (ancestors p)). lia.
  - exists ps'. split; [done|].
    assert (lhs <$> ps' = lhs <$> ps) as H
      by by apply (findAllAncestors_keeps lhs ps ps').
    apply (f_equal length) in H. by rewrite !length_fmap in H.
Qed.

Lemma findAncestors_loop (fuel : nat) (ps : list production) (prod : nat)
    (p : production) (anc : list nat) :
  ps !! prod = Some p →
  (∀ prod anc anc', NoDup anc → findAncestors fuel ps prod anc = Ok anc' →
                    ancestorsPost ps prod anc anc') →
  ∀ supers anc0 anc',
    (∀ s, s ∈ supers → s ∈ subtypeOf p) →
    NoDup anc0 → (∀ a, a ∈ anc → a ∈ anc0) →
    (∀ x s, x ∈ anc0 → x ∉ anc → eligibleSuper ps x s → s ∈ anc0) →
    (∀ x, x ∈ anc0 → x ∉ anc → superPath ps prod x) →
    foldl (λ acc super,
             anc ← acc;
             match ps !! super with
             | Some s =>
                 if negb (bool_decide (super ∈ anc))
                    && negb (isOptional s =? 1)
                    && negb (isOptional s =? 2)
                 then findAncestors fuel ps super (anc ++ [super])
                 else Ok anc
             | None => Ok anc
             end)
          (Ok anc0) supers = Ok anc' →
    NoDup anc' ∧ (∀ a, a ∈ anc0 → a ∈ anc') ∧
    (∀ s S, s ∈ supers → ps !! s = Some S → isOptional S ≠ 1 →
            isOptional S ≠ 2 → s ∈ anc') ∧
    (∀ x s, x ∈ anc' → x ∉ anc → eligibleSuper ps x s → s ∈ anc') ∧
    (∀ x, x ∈ anc' → x ∉ anc → superPath ps prod x).
Proof.
  intros Hp IH supers.
  induction supers as [|super supers IHs];
    intros anc0 anc' Hsupers Hnd Hsub Hclosed Hpath Hrun.
  { injection Hrun as <-. repeat split; try done.
    intros s S Hs. by apply elem_of_nil in Hs. }
  simpl in Hrun.
  assert (∀ s, s ∈ supers → s ∈ subtypeOf p) as Hsupers'.
  { intros s Hs. apply Hsupers. by right. }
  destruct (ps !! super) as [s|] eqn:Hs.
  2:{ destruct (IHs anc0 anc' Hsupers' Hnd Hsub Hclosed Hpath Hrun)
        as (H1 & H2 & H3 & H4 & H5).
      repeat split; try done.
      intros s S [->|Hin]%elem_of_cons; [congruence|]. by apply H3. }
  destruct (negb (bool_decide (super ∈ anc0)) && negb (isOptional s =? 1)
            && negb (isOptional s =? 2)) eqn:Htest.
  2:{ destruct (IHs anc0 anc' Hsupers' Hnd Hsub Hclosed Hpath Hrun)
        as (H1 & H2 & H3 & H4 & H5).
      repeat split; try done.
      intros s0 S0 [->|Hin]%elem_of_cons HS0 Ho1 Ho2; [|by eapply H3].
      assert (S0 = s) as -> by congruence.
      apply andb_false_iff in Htest as [[Hin|Ho]%andb_false_iff|Ho].
      - apply negb_false_iff, bool_decide_eq_true in Hin. by apply H2.
      - apply negb_false_iff, Z.eqb_eq in Ho. done.
      - apply negb_false_iff, Z.eqb_eq in Ho. done. }
  apply andb_true_iff in Htest as [[Hnew Ho1]%andb_true_iff Ho2].
  apply negb_true_iff, bool_decide_eq_false in Hnew.
  apply negb_true_iff, Z.eqb_neq in Ho1.
  apply negb_true_iff, Z.eqb_neq in Ho2.
  destruct (findAncestors fuel ps super (anc0 ++ [super])) as [anc1| | |]
    eqn:Hcall;
    [|by rewrite foldl_result_err in Hrun..].
  assert (eligibleSuper ps prod super) as Helig.
  { exists p, s. repeat split; try done. apply Hsupers. by left. }
  destruct (IH super (anc0 ++ [super]) anc1) as (N1 & S1 & E1 & C1 & P1);
    [|done|].
  { apply NoDup_app. split; [done|]. split; [|apply NoDup_singleton].
    by intros x Hx ->%list_elem_of_singleton. }
  assert (∀ a, a ∈ anc0 → a ∈ anc1) as Hsub01.
  { intros a Ha. apply S1, elem_of_app. by left. }
  assert (super ∈ anc1) as Hsuper1.
  { apply S1, elem_of_app. right. by apply list_elem_of_singleton. }
  destruct (IHs anc1 anc') as (H1 & H2 & H3 & H4 & H5); try done.
  - auto.
  - intros x s0 Hx Hxanc Hel.
    destruct (decide (x ∈ anc0)) as [Hx0|Hx0]; [by eapply Hsub01, Hclosed|].
    destruct (decide (x = super)) as [->|Hne]; [by apply E1|].
    apply (C1 x); [done| |done].
    by intros [?| ->%list_elem_of_singleton]%elem_of_app.
  - intros x Hx Hxanc.
    destruct (decide (x ∈ anc0)) as [Hx0|Hx0]; [by apply Hpath|].
    destruct (decide (x = super)) as [->|Hne]; [by constructor|].
    apply (superPath_more ps prod super); [done|]. apply P1; [done|].
    by intros [?| ->%list_elem_of_singleton]%elem_of_app.
  - repeat split; try done; [auto|].
    intros s0 S0 [->|Hin]%elem_of_cons HS0 Hn1 Hn2; [by apply H2|].
    by eapply H3.
Qed.

Lemma findAncestors_post (fuel : nat) (ps : list production) :
  ∀ prod anc anc', NoDup anc → findAncestors fuel ps prod anc = Ok anc' →
                   ancestorsPost ps prod anc anc'.
Proof.
  induction fuel as [|fuel IH]; intros prod anc anc' Hnd Hrun; [done|].
  rewrite findAncestors_unfold in Hrun.
  destruct (ps !! prod) as [p|] eqn:Hp.
  - destruct (findAncestors_loop fuel ps prod p anc Hp IH (subtypeOf p)
                anc anc') as (H1 & H2 & H3 & H4 & H5); try done.
    split; [done|]. split; [done|]. split; [|done].
    intros s (P & S & HP & Hs & HS & Ho1 & Ho2).
    assert (P = p) as -> by congruence. by eapply H3.
  - injection Hrun as <-. repeat split; try done.
    intros s (P & S & HP & _). congruence.
Qed.

Lemma eligibleSuper_ext (ps qs : list production) (p s : nat) :
  (λ P, (subtypeOf P, isOptional P)) <$> qs
  = (λ P, (subtypeOf P, isOptional P)) <$> ps →
  eligibleSuper qs p s → eligibleSuper ps p s.
Proof.
  intros Hf (P & S & HP & Hs & HS & Ho1 & Ho2).
  destruct (fmap_eq_lookup _ _ _ p P Hf HP) as (P0 & HP0 & [= Hsub _]).
  destruct (fmap_eq_lookup _ _ _ s S Hf HS) as (S0 & HS0 & [= _ Hopt]).
  exists P0, S0. rewrite <- Hsub, <- Hopt. done.
Qed.

Lemma superPath_ext (ps qs : list production) (p a : nat) :
  (λ P, (subtypeOf P, isOptional P)) <$> qs
  = (λ P, (subtypeOf P, isOptional P)) <$> ps →
  superPath qs p a → superPath ps p a.
Proof.
  intros Hf Hpath. induction Hpath as [p s Hel|p s a Hel _ IH].
  - constructor. by eapply eligibleSuper_ext.
  - eapply superPath_more; [|done]. by eapply eligibleSuper_ext.
Qed.

Lemma findAllAncestors_superPath (ps ps' : list production) :
  Forall (λ P, ancestors P = []) ps →
  findAllAncestors ps = Ok ps' →
  ∀ p P', ps' !! p = Some P' →
          NoDup (ancestors P') ∧ ∀ a, a ∈ ancestors P' ↔ superPath ps p a.
Proof.
  intros Hfresh Hrun.
  set (f := λ P : production, (subtypeOf P, isOptional P)).
  cut (f <$> ps' = f <$> ps ∧
       ∀ p P', ps' !! p = Some P' →
         ((p < length ps)%nat →
          NoDup (ancestors P') ∧ ∀ a, a ∈ ancestors P' ↔ superPath ps p a) ∧
         ((length ps ≤ p)%nat → ancestors P' = [])).
  { intros [Hf H] p P' HP'. apply (H p P' HP').
    apply lookup_lt_Some in HP'. apply (f_equal length) in Hf.
    rewrite !length_fmap in Hf. lia. }
  apply (forEachProdM_ind
           (λ k qs, f <$> qs = f <$> ps ∧
              ∀ p P', qs !! p = Some P' →
                ((p < k)%nat →
                 NoDup (ancestors P') ∧
                 ∀ a, a ∈ ancestors P' ↔ superPath ps p a) ∧
                ((k ≤ p)%nat → ancestors P' = []))
           findAllAncestorsOne ps ps'); [|clear Hrun|exact Hrun].
  - split; [done|]. intros p P' HP'. split; [lia|]. intros _.
    rewrite Forall_lookup in Hfresh. by eapply Hfresh.
  - intros k qs qs' Hk [Hf Hinv] Hstep.
    split; [rewrite <- Hf; by eapply findAllAncestorsOne_keeps|].
    unfold findAllAncestorsOne in Hstep.
    destruct (qs !! k) as [Qk|] eqn:HQk.
    2:{ injection Hstep as <-. apply lookup_ge_None in HQk.
        apply (f_equal length) in Hf. rewrite !length_fmap in Hf. lia. }
    apply result_bind_Ok in Hstep as (anc & Hanc & [= <-]).
    rewrite (proj2 (Hinv k Qk HQk)) in Hanc by lia.
    destruct (findAncestors_post _ qs k [] anc (NoDup_nil_2) Hanc)
      as (N & _ & E & C & P).
    assert (∀ x a, (x = k ∨ x ∈ anc) → superPath ps x a → a ∈ anc) as Hall.
    { intros x a Hx Hpath. induction Hpath as [x s Hel|x s a Hel _ IH].
      - apply (eligibleSuper_ext qs ps) in Hel; [|done].
        destruct Hx as [->|Hx]; [by apply E|].
        apply (C x); [done|by intros ?%elem_of_nil|done].
      - apply IH. right.
        apply (eligibleSuper_ext qs ps) in Hel; [|done].
        destruct Hx as [->|Hx]; [by apply E|].
        apply (C x); [done|by intros ?%elem_of_nil|done]. }
    intros p P' HP'. destruct (decide (p = k)) as [->|Hne].
    + rewrite list_lookup_alter_eq, HQk in HP'. injection HP' as <-. simpl.
      split; [|lia]. intros _. split; [done|]. intros a. split.
      * intros Ha. eapply superPath_ext; [exact Hf|].
        apply P; [done|by intros ?%elem_of_nil].
      * intros Hpath. apply (Hall k); auto.
    + rewrite list_lookup_alter_ne in HP' by done.
      destruct (Hinv p P' HP') as [Hlt Hge]. split; intros ?.
      * apply Hlt. lia.
      * apply Hge. lia.
Qed.

(** X2: after [findAllAncestors], on a model without ancestors yet, the
    [ancestors] of a production are, each once, the productions reached
    from it by going up through [subtypeOf] lists over productions that
    are not optional parents. *)
Theorem findAllAncestors_closure (ps ps' : list production) :
  Forall (λ P, ancestors P = []) ps →
  findAllAncestors ps = Ok ps' →
  ∀ p P', ps' !! p = Some P' →
          NoDup (ancestors P') ∧ ∀ a, a ∈ ancestors P' ↔ superPath ps p a.
Proof. apply findAllAncestors_superPath. Qed.

Lemma findAllAncestors_closure_witness :
  ∃ ps', Forall (λ P, ancestors P = []) (withSupertypes diamond) ∧
         findAllAncestors (withSupertypes diamond) = Ok ps' ∧
         ∀ p P', ps' !! p = Some P' →
                 NoDup (ancestors P') ∧
                 ∀ a, a ∈ ancestors P' ↔ superPath (withSupertypes diamond) p a.
Proof.
  eexists. split; [vm_compute; repeat constructor|].
  split; [vm_compute; reflexivity|].
  apply findAllAncestors_closure;
    [vm_compute; repeat constructor|vm_compute; reflexivity].
Defined.

(** ** [findSupertypes] *)

(** The loop that marks the subtypes of [instance]. *)
Lemma foldl_set_isInstance (ds : list definition) (qs : list production)
    (p : nat) (P' : production) :
  foldl (λ ps d,
           match firstProdValue d with
           | Some sub => alter (set_isInstance true) sub ps
           | None => ps
           end) qs ds !! p = Some P' →
  ∃ Q, qs !! p = Some Q ∧
       (isInstance P' = true ↔
        isInstance Q = true ∨ ∃ d, d ∈ ds ∧ firstProdValue d = Some p).
Proof.
  revert qs. induction ds as [|d ds IH]; intros qs; simpl.
  - intros HP'. exists P'. split; [done|]. split; [by left|].
    intros [?|(d & Hd & _)]; [done|]. by apply elem_of_nil in Hd.
  - intros (Q1 & HQ1 & Hmem)%IH.
    destruct (firstProdValue d) as [sub|] eqn:Hd.
    + destruct (decide (sub = p)) as [->|Hne].
      * rewrite list_lookup_alter_eq in HQ1.
        destruct (qs !! p) as [Q|]; [|done]. injection HQ1 as <-.
        exists Q. split; [done|]. rewrite Hmem. simpl. split; [|auto].
        intros _. right. exists d. split; [by left|done].
      * rewrite list_lookup_alter_ne in HQ1 by done.
        exists Q1. split; [done|]. rewrite Hmem. split.
        -- intros [?|(d' & Hd' & Hp)]; [by left|].
           right. exists d'. split; [by right|done].
        -- intros [?|(d' & Hd' & Hp)]; [by left|].
           apply elem_of_cons in Hd' as [->|Hd']; [congruence|]. eauto.
    + exists Q1. split; [done|]. rewrite Hmem. split.
      * intros [?|(d' & Hd' & Hp)]; [by left|].
        right. exists d'. split; [by right|done].
      * intros [?|(d' & Hd' & Hp)]; [by left|].
        apply elem_of_cons in Hd' as [->|Hd']; [congruence|]. eauto.
Qed.

(** The productions that [findSupertypes] marks as instances. *)
Lemma findSupertypes_instances (ps : list production) :
  ∀ p P', findSupertypes ps !! p = Some P' →
    ∃ P0, ps !! p = Some P0 ∧
      (isInstance P' = true ↔ isInstance P0 = true ∨ instanceOf ps p).
Proof.
  set (f := λ P : production, (defs P, isList P, lhs P)).
  cut (f <$> findSupertypes ps = f <$> ps ∧
       ∀ p P', findSupertypes ps !! p = Some P' →
         ∃ P0, ps !! p = Some P0 ∧
           (isInstance P' = true ↔
            isInstance P0 = true ∨
            ∃ i I d, (i < length ps)%nat ∧ ps !! i = Some I ∧
                     supertypeShape ps I = true ∧
                     lhs I = "instance"%string ∧ d ∈ defs I ∧
                     firstProdValue d = Some p)).
  { intros [_ H] p P' HP'. destruct (H p P' HP') as (P0 & HP0 & Hiff).
    exists P0. split; [done|]. rewrite Hiff. split.
    - intros [?|(i & I & d & _ & ?)]; [by left|right]. by exists i, I, d.
    - intros [?|(i & I & d & Hi & ?)]; [by left|right]. exists i, I, d.
      split; [by eapply lookup_lt_Some|done]. }
  apply (forEachProd_ind
           (λ k qs,
              f <$> qs = f <$> ps ∧
              ∀ p P', qs !! p = Some P' →
                ∃ P0, ps !! p = Some P0 ∧
                  (isInstance P' = true ↔
                   isInstance P0 = true ∨
                   ∃ i I d, (i < k)%nat ∧ ps !! i = Some I ∧
                            supertypeShape ps I = true ∧
                            lhs I = "instance"%string ∧ d ∈ defs I ∧
                            firstProdValue d = Some p))
           findSupertypesOne ps).
  { split; [done|]. intros p P' HP'. exists P'. split; [done|].
    split; [by left|]. intros [?|(i & I & d & ? & _)]; [done|lia]. }
  intros k qs Hk [Hf Hinv].
  split; [rewrite <- Hf; by apply findSupertypesOne_keeps|].
  destruct (lookup_lt_is_Some_2 ps k Hk) as [Pk HPk].
  destruct (fmap_eq_lookup_r f ps qs k Pk Hf HPk) as (Qk & HQk & [= Hd Hl Hn]).
  assert (isList <$> qs = isList <$> ps) as Hlist.
  { apply (f_equal (fmap (λ x : list (list expression) * Z * string, x.1.2)))
      in Hf.
    by rewrite <- !list_fmap_compose in Hf. }
  pose proof (supertypeShape_ext ps qs Pk Qk Hlist Hd) as Hshape.
  (* a turn that leaves [isInstance] alone and is not one of [instance] *)
  assert (∀ qs1, isInstance <$> qs1 = isInstance <$> qs →
            (supertypeShape ps Pk = true → lhs Pk ≠ "instance"%string) →
            ∀ p P', qs1 !! p = Some P' →
              ∃ P0, ps !! p = Some P0 ∧
                (isInstance P' = true ↔
                 isInstance P0 = true ∨
                 ∃ i I d, (i < S k)%nat ∧ ps !! i = Some I ∧
                          supertypeShape ps I = true ∧
                          lhs I = "instance"%string ∧ d ∈ defs I ∧
                          firstProdValue d = Some p)) as Hsame.
  { intros qs1 Hg Hno p P' HP'.
    destruct (fmap_eq_lookup isInstance _ _ p P' Hg HP') as (Q & HQ & ->).
    destruct (Hinv p Q HQ) as (P0 & HP0 & Hiff).
    exists P0. split; [done|]. rewrite Hiff. split.
    - intros [?|(i & I & d & ? & ?)]; [by left|right].
      exists i, I, d. split; [lia|done].
    - intros [?|(i & I & d & Hi & HI & Hsh & Hname & ?)]; [by left|right].
      destruct (decide (i = k)) as [->|Hne].
      + assert (I = Pk) as -> by congruence. by destruct (Hno Hsh).
      + exists i, I, d. split; [lia|done]. }
  unfold findSupertypesOne. rewrite HQk. fold (supertypeShape qs Qk).
  rewrite Hshape. destruct (supertypeShape ps Pk) eqn:Hsh.
  2:{ apply Hsame; [done|]. done. }
  destruct (strcmp (lhs Qk) "instance" =? 0) eqn:Hinst.
  - apply strcmp_eqb_true in Hinst.
    intros p P' (Q1 & HQ1 & Hmem)%foldl_set_isInstance.
    assert (∃ Q, qs !! p = Some Q ∧ isInstance Q1 = isInstance Q)
      as (Q & HQ & HQi).
    { destruct (decide (p = k)) as [->|Hne].
      - rewrite list_lookup_alter_eq, HQk in HQ1. injection HQ1 as <-.
        by exists Qk.
      - rewrite list_lookup_alter_ne in HQ1 by done. by exists Q1. }
    destruct (Hinv p Q HQ) as (P0 & HP0 & Hiff).
    exists P0. split; [done|]. rewrite Hmem, HQi, Hiff. split.
    + intros [[?|(i & I & d & ? & ?)]|(d & Hdin & Hdp)]; [by left|right..].
      * exists i, I, d. split; [lia|done].
      * exists k, Pk, d. rewrite <- Hd.
        repeat split; [lia|done..|congruence|done|done].
    + intros [?|(i & I & d & Hi & HI & HshI & Hname & Hdin & Hdp)];
        [by left; left|].
      destruct (decide (i = k)) as [->|Hne].
      * right. assert (I = Pk) as -> by congruence. exists d.
        by rewrite Hd.
      * left. right. exists i, I, d. split; [lia|done].
  - apply strcmp_eqb_false in Hinst. apply Hsame; [|congruence].
    rewrite foldl_keep.
    + by apply fmap_alter_keep.
    + intros rs d. destruct (firstProdValue d); [|done].
      by apply fmap_alter_keep.
Qed.

(** X3: on productions that no pass has classified yet, [findSupertypes]
    marks as supertypes the productions whose definitions are each one
    NONTERMINAL expression bound to a production that is not a list, puts
    on the [subtypeOf] of a production the supertypes other than
    [instance] that name it in a definition, and marks as instances the
    productions that a supertype named [instance] names. *)
Theorem findSupertypes_lattice (ps : list production) :
  Forall unclassified ps →
  ∀ p P', findSupertypes ps !! p = Some P' →
    ∃ P0, ps !! p = Some P0 ∧
      (isSupertype P' = true ↔ supertypeShape ps P0 = true) ∧
      (∀ s, s ∈ subtypeOf P' ↔ supertypeOf ps s p) ∧
      (isInstance P' = true ↔ instanceOf ps p).
Proof.
  intros Hfresh p P' HP'.
  destruct (findSupertypes_prefix ps) as [_ Hpre].
  destruct (Hpre p P' HP') as (P0 & HP0 & Hsup & Hsub).
  destruct (findSupertypes_instances ps p P' HP') as (P0' & HP0' & Hinst).
  assert (P0' = P0) as -> by congruence.
  rewrite Forall_lookup in Hfresh.
  destruct (Hfresh p P0 HP0) as (F1 & F2 & F3).
  exists P0. split; [done|]. split; [|split].
  - rewrite Hsup, F1. split; [by intros [?|?]|auto].
  - intros s. rewrite Hsub, F2. split; [|auto].
    by intros [?%elem_of_nil|?].
  - rewrite Hinst, F3. split; [by intros [?|?]|auto].
Qed.

Lemma findSupertypes_lattice_witness :
  Forall unclassified (findProdValueAll twoInstancesParsed) ∧
  ∀ p P', findSupertypes (findProdValueAll twoInstancesParsed) !! p = Some P' →
    ∃ P0, findProdValueAll twoInstancesParsed !! p = Some P0 ∧
      (isSupertype P' = true
       ↔ supertypeShape (findProdValueAll twoInstancesParsed) P0 = true) ∧
      (∀ s, s ∈ subtypeOf P'
            ↔ supertypeOf (findProdValueAll twoInstancesParsed) s p) ∧
      (isInstance P' = true
       ↔ instanceOf (findProdValueAll twoInstancesParsed) p).
Proof.
  assert (Forall unclassified (findProdValueAll twoInstancesParsed)) as H
    by (vm_compute; repeat constructor).
  split; [exact H|]. apply findSupertypes_lattice. exact H.
Defined.

(** ** [findBeInstance] *)

Lemma foldl_alter_idem (h : production → production) (l : list nat)
    (qs : list production) (a : nat) :
  (∀ x, h (h x) = h x) →
  foldl (λ ps super, alter h super ps) qs l !! a
  = if decide (a ∈ l) then h <$> qs !! a else qs !! a.
Proof.
  intros Hh. revert qs. induction l as [|s l IH]; intros qs; simpl.
  - destruct (decide (a ∈ [])) as [Hin|_]; [|done]. by apply elem_of_nil in Hin.
  - rewrite IH. destruct (decide (a = s)) as [->|Hne].
    + rewrite list_lookup_alter_eq.
      destruct (decide (s ∈ s :: l)) as [_|Hn]; [|destruct Hn; by left].
      destruct (decide (s ∈ l)); [|done].
      destruct (qs !! s); simpl; [|done]. by rewrite Hh.
    + rewrite list_lookup_alter_ne by done.
      destruct (decide (a ∈ l)) as [Hin|Hin];
        destruct (decide (a ∈ s :: l)) as [Hin'|Hin']; try done.
      * destruct Hin'. by right.
      * apply elem_of_cons in Hin' as [?|?]; done.
Qed.

(** X4: on a model in which no [beInstance] is set, [findBeInstance]
    gives a production the first instance, in the order of the
    productions, that has it among its ancestors, and leaves the
    [beInstance] of a production that no instance has among its
    ancestors unset. *)
Theorem findBeInstance_first_instance (ps : list production) :
  Forall (λ P, beInstance P = None) ps →
  ∀ a A', findBeInstance ps !! a = Some A' →
    match beInstance A' with
    | Some q =>
        ∃ Q, ps !! q = Some Q ∧ isInstance Q = true ∧ a ∈ ancestors Q ∧
             ∀ q' Q', (q' < q)%nat → ps !! q' = Some Q' →
                      isInstance Q' = true → a ∉ ancestors Q'
    | None =>
        ∀ q Q, ps !! q = Some Q → isInstance Q = true → a ∉ ancestors Q
    end.
Proof.
  intros Hfresh.
  set (g := λ P : production, (isInstance P, ancestors P)).
  cut (g <$> findBeInstance ps = g <$> ps ∧
       ∀ a A', findBeInstance ps !! a = Some A' →
         match beInstance A' with
         | Some q =>
             (q < length ps)%nat ∧
             ∃ Q, ps !! q = Some Q ∧ isInstance Q = true ∧ a ∈ ancestors Q ∧
                  ∀ q' Q', (q' < q)%nat → ps !! q' = Some Q' →
                           isInstance Q' = true → a ∉ ancestors Q'
         | None =>
             ∀ q Q, (q < length ps)%nat → ps !! q = Some Q →
                    isInstance Q = true → a ∉ ancestors Q
         end).
  { intros [_ H] a A' HA'. specialize (H a A' HA').
    destruct (beInstance A'); [by destruct H|].
    intros q Q HQ HQi. apply (H q Q); [by eapply lookup_lt_Some|done..]. }
  apply (forEachProd_ind
           (λ k qs,
              g <$> qs = g <$> ps ∧
              ∀ a A', qs !! a = Some A' →
                match beInstance A' with
                | Some q =>
                    (q < k)%nat ∧
                    ∃ Q, ps !! q = Some Q ∧ isInstance Q = true ∧
                         a ∈ ancestors Q ∧
                         ∀ q' Q', (q' < q)%nat → ps !! q' = Some Q' →
                                  isInstance Q' = true → a ∉ ancestors Q'
                | None =>
                    ∀ q Q, (q < k)%nat → ps !! q = Some Q →
                           isInstance Q = true → a ∉ ancestors Q
                end)
           findBeInstanceOne ps).
  { split; [done|]. intros a A' HA'. rewrite Forall_lookup in Hfresh.
    rewrite (Hfresh a A' HA'). intros q Q ?. lia. }
  intros k qs Hk [Hg Hinv].
  split; [rewrite <- Hg; by apply findBeInstanceOne_keeps|].
  destruct (lookup_lt_is_Some_2 ps k Hk) as [Pk HPk].
  destruct (fmap_eq_lookup_r g ps qs k Pk Hg HPk) as (Qk & HQk & [= Hi Ha]).
  (* a production that this turn leaves alone *)
  assert (∀ a A', qs !! a = Some A' →
            (isInstance Pk = true → a ∉ ancestors Pk) →
            match beInstance A' with
            | Some q =>
                (q < S k)%nat ∧
                ∃ Q, ps !! q = Some Q ∧ isInstance Q = true ∧
                     a ∈ ancestors Q ∧
                     ∀ q' Q', (q' < q)%nat → ps !! q' = Some Q' →
                              isInstance Q' = true → a ∉ ancestors Q'
            | None =>
                ∀ q Q, (q < S k)%nat → ps !! q = Some Q →
                       isInstance Q = true → a ∉ ancestors Q
            end) as Hsame.
  { intros a A' HA' Hno. specialize (Hinv a A' HA').
    destruct (beInstance A') as [q|].
    - destruct Hinv as [Hq HQ]. split; [lia|done].
    - intros q Q Hq HQ HQi. destruct (decide (q = k)) as [->|Hne].
      + assert (Q = Pk) as -> by congruence. auto.
      + apply (Hinv q Q); [lia|done..]. }
  unfold findBeInstanceOne. rewrite HQk, Hi.
  destruct (isInstance Pk) eqn:HPi; [|intros a A' HA'; by apply Hsame].
  intros a A'. rewrite foldl_alter_idem.
  2:{ intros x. by destruct (beInstance x) eqn:E; simpl; rewrite ?E. }
  rewrite Ha. destruct (decide (a ∈ ancestors Pk)) as [Hin|Hin];
    [|intros HA'; by apply Hsame].
  destruct (qs !! a) as [A|] eqn:HA; [|done]. simpl. intros [= <-].
  specialize (Hinv a A HA). destruct (beInstance A) as [q|] eqn:HbA.
  - rewrite HbA. destruct Hinv as [Hq HQ]. split; [lia|done].
  - simpl. split; [lia|]. exists Pk. repeat split; [done..|].
    intros q' Q' Hq'. by apply Hinv.
Qed.

Lemma findBeInstance_first_instance_witness :
  Forall (λ P, beInstance P = None) (withAncestors twoInstances) ∧
  ∀ a A', findBeInstance (withAncestors twoInstances) !! a = Some A' →
    match beInstance A' with
    | Some q =>
        ∃ Q, withAncestors twoInstances !! q = Some Q ∧
             isInstance Q = true ∧ a ∈ ancestors Q ∧
             ∀ q' Q', (q' < q)%nat →
                      withAncestors twoInstances !! q' = Some Q' →
                      isInstance Q' = true → a ∉ ancestors Q'
    | None =>
        ∀ q Q, withAncestors twoInstances !! q = Some Q →
               isInstance Q = true → a ∉ ancestors Q
    end.
Proof.
  assert (Forall (λ P, beInstance P = None) (withAncestors twoInstances))
    as H by (vm_compute; repeat constructor).
  split; [exact H|]. apply findBeInstance_first_instance. exact H.
Defined.

(** ** Lists and the lattice *)

Lemma findIsList_ext (P Q : production) :
  defs Q = defs P → lhs Q = lhs P → findIsList Q = findIsList P.
Proof. intros Hd Hl. unfold findIsList. by rewrite Hd, Hl. Qed.

(** A production that [findIsList] takes for a list does not pass the
    test of [findSupertypes]. *)
Lemma list_not_supertypeShape (ps : list production) (P : production) :
  findIsList P ≠ 0 → supertypeShape ps P = false.
Proof.
  intros Hlist.
  destruct (findIsList_range P) as [?|[H|H]]; [done|..].
  - apply findIsList_plain in H as (item & self & final & Hd & _).
    unfold supertypeShape. rewrite Hd. simpl. by rewrite andb_false_r.
  - apply findIsList_comma in H as (item & self & mid & final & Hd & _).
    unfold supertypeShape. rewrite Hd. simpl. by rewrite andb_false_r.
Qed.

(** What a supertype names in a definition is not a list. *)
Lemma supertypeShape_sub_not_list (ps : list production) (S : production)
    (d : list expression) (p : nat) (P : production) :
  supertypeShape ps S = true → d ∈ defs S → firstProdValue d = Some p →
  ps !! p = Some P → isList P = 0.
Proof.
  unfold supertypeShape. rewrite forallb_forall. intros Hall Hd Hp HP.
  specialize (Hall d (proj1 (list_elem_of_In _ _) Hd)).
  unfold supertypeDef in Hall. unfold firstProdValue in Hp.
  destruct (negb _); [done|]. destruct (head d) as [e|]; [|done].
  simpl in Hp. destruct (negb _); [done|]. rewrite Hp, HP in Hall.
  by apply Z.eqb_eq.
Qed.

Lemma no_elem_nil {A : Type} (l : list A) : (∀ x, x ∉ l) → l = [].
Proof. destruct l as [|x l]; [done|]. intros H. destruct (H x). by left. Qed.

(** After parsing, reading the attributes and binding, [isList] is what
    [findIsList] says of the production. *)
Lemma bound_isList (grammar : list sourceProduction)
    (inFile : attributeSection) (a0 : analyzer) (ps1 : list production) :
  yyparse grammar initialAnalyzer = Ok a0 →
  findMyAtts inFile (productions a0) = Ok ps1 →
  Forall (λ P, isList P = findIsList P) (findProdValueAll ps1).
Proof.
  intros Hparse Hatts.
  set (g := λ P : production, (defs P, lhs P, isList P)).
  assert (g <$> ps1 = g <$> productions a0) as Hg
    by by apply (findMyAtts_keeps g inFile).
  apply yyparse_Ok in Hparse. rewrite Forall_lookup in Hparse.
  pose proof (findProdValueAll_boundFrom ps1) as Hb.
  apply Forall_lookup. intros i P2 HP2.
  destruct (Forall2_lookup_r _ _ _ _ _ Hb HP2) as (P1 & HP1 & HB).
  destruct (fmap_eq_lookup g _ _ i P1 Hg HP1) as (P0 & HP0 & [= Hd Hl Hi]).
  destruct (Hparse i P0 HP0) as (Hnew & _).
  rewrite (findIsList_boundFrom P1 P2 HB), (findIsList_ext P0 P1 Hd Hl).
  rewrite <- (isNew_isList P0 Hnew), <- Hi.
  destruct HB as (b & _ & ->). done.
Qed.

(** X5: in the analyzed model a production that the constructor has
    classified as a list is outside the lattice: it is no supertype, has
    no supertype and no ancestor, is no instance and has no
    [beInstance]. *)
Theorem analyze_lists_outside_lattice (grammar : list sourceProduction)
    (inFile : attributeSection) (fuel : nat) (a : analyzer) (p : nat)
    (P : production) :
  analyze grammar inFile fuel = Ok a →
  productions a !! p = Some P → isList P ≠ 0 →
  isSupertype P = false ∧ subtypeOf P = [] ∧ ancestors P = [] ∧
  isInstance P = false ∧ beInstance P = None.
Proof.
  intros Hrun HP Hlist.
  destruct (analyze_Ok _ _ _ _ Hrun)
    as (a3 & ps4 & ps6 & ps7 & Hcl & H4 & H6 & H7 & H8 & _).
  destruct (classify_Ok _ _ _ Hcl) as (a0 & ps1 & Hparse & Hatts & Hps3).
  set (ps2 := findProdValueAll ps1) in *.
  pose proof (bound_isList grammar inFile a0 ps1 Hparse Hatts) as HisList.
  fold ps2 in HisList.
  assert (Forall (λ P, isSupertype P = false) ps2) as Fsup
    by by apply (bound_fresh isSupertype false grammar inFile a0).
  assert (Forall (λ P, subtypeOf P = []) ps2) as Fsub
    by by apply (bound_fresh subtypeOf [] grammar inFile a0).
  assert (Forall (λ P, isInstance P = false) ps2) as Finst
    by by apply (bound_fresh isInstance false grammar inFile a0).
  assert (Forall (λ P, ancestors P = []) (productions a3)) as Fanc
    by by apply (classify_fresh ancestors [] grammar inFile).
  assert (Forall (λ P, beInstance P = None) (productions a3)) as Fbe
    by by apply (classify_fresh beInstance None grammar inFile).
  rewrite Forall_lookup in HisList, Fsup, Fsub, Finst.
  (* the frames of the passes *)
  assert (∀ {A} (f : production → A),
            (∀ x P, f (set_myExps x P) = f P) →
            (∀ x P, f (set_attNames x P) = f P) →
            (∀ x P, f (set_isOptional x P) = f P) →
            (∀ x P, f (set_optProd x P) = f P) →
            (∀ x P, f (set_transferName x P) = f P) →
            f <$> productions a = f <$> findBeInstance ps4) as Hlate.
  { intros A f Hf1 Hf2 Hf3 Hf4 Hf5.
    rewrite (findMyExps_keeps f ps7 (productions a)) by done.
    rewrite (findAttNamesAll_keeps f fuel ps6 ps7) by done.
    by apply (findOptProds_keeps f (findBeInstance ps4)). }
  set (h := λ P : production,
              (isList P, isSupertype P, subtypeOf P, isInstance P)).
  assert (h <$> productions a = h <$> productions a3) as Hh.
  { rewrite Hlate, findBeInstance_keeps by done.
    by apply findAllAncestors_keeps. }
  destruct (fmap_eq_lookup h _ _ p P Hh HP)
    as (P3 & HP3 & [= Hl3 Hs3 Hsub3 Hi3]).
  rewrite Hps3 in HP3.
  destruct (findSupertypes_prefix ps2) as [Hf Hpre].
  destruct (Hpre p P3 HP3) as (P2 & HP2 & Hsup & Hsub).
  destruct (findSupertypes_instances ps2 p P3 HP3) as (P2' & HP2' & Hinst).
  assert (P2' = P2) as -> by congruence.
  destruct (fmap_eq_lookup _ _ _ p P3 Hf HP3) as (P2'' & HP2'' & [= _ Hl2 _]).
  assert (P2'' = P2) as -> by congruence.
  assert (findIsList P2 ≠ 0) as Hlist2.
  { rewrite <- (HisList p P2 HP2). congruence. }
  pose proof (list_not_supertypeShape ps2 P2 Hlist2) as Hshape.
  assert (isList P2 ≠ 0) as HlistP2 by congruence.
  (* no supertype names a list *)
  assert (∀ S d, supertypeShape ps2 S = true → d ∈ defs S →
                 firstProdValue d = Some p → False) as Hnamed.
  { intros S d HshS Hd Hdp.
    by pose proof (supertypeShape_sub_not_list ps2 S d p P2 HshS Hd Hdp HP2). }
  assert (isSupertype P3 = false) as E1.
  { apply not_true_is_false. intros E.
    apply Hsup in E as [H|H]; [|congruence].
    by rewrite (Fsup p P2 HP2) in H. }
  assert (subtypeOf P3 = []) as E2.
  { apply no_elem_nil. intros s [Hs|Hs]%Hsub.
    - rewrite (Fsub p P2 HP2) in Hs. by apply elem_of_nil in Hs.
    - destruct Hs as (S & d & _ & HshS & _ & Hd & Hdp). by eapply Hnamed. }
  assert (isInstance P3 = false) as E3.
  { apply not_true_is_false. intros E.
    apply Hinst in E as [H|H].
    - by rewrite (Finst p P2 HP2) in H.
    - destruct H as (i & I & d & _ & HshI & _ & Hd & Hdp). by eapply Hnamed. }
  rewrite <- Hps3 in HP3.
  (* ancestors *)
  assert (ancestors <$> productions a = ancestors <$> ps4) as Ha.
  { rewrite Hlate by done. by apply findBeInstance_keeps. }
  destruct (fmap_eq_lookup ancestors _ _ p P Ha HP) as (P4 & HP4 & Ha4).
  assert (ancestors P4 = []) as E4.
  { apply no_elem_nil. intros x Hx.
    apply (findAllAncestors_superPath _ _ Fanc H4 p P4 HP4) in Hx.
    assert (∃ s, eligibleSuper (productions a3) p s) as (s & Q & S & HQ & Hs & _).
    { destruct Hx; eauto. }
    assert (Q = P3) as -> by congruence. rewrite E2 in Hs.
    by apply elem_of_nil in Hs. }
  (* beInstance *)
  assert (beInstance <$> productions a = beInstance <$> findBeInstance ps4)
    as Hb by by apply Hlate.
  destruct (fmap_eq_lookup beInstance _ _ p P Hb HP) as (P5 & HP5 & Hb5).
  destruct (findBeInstance_untouched ps4 p P4 HP4) as (P5' & HP5' & Hbe & _).
  { intros q Q4 HQ4 _ Hin.
    destruct (findAllAncestors_members _ _ Fanc H4 q Q4 p HQ4 Hin)
      as (q' & Q3 & HQ3 & Hmem).
    rewrite Hps3 in HQ3. destruct (Hpre q' Q3 HQ3) as (Q2 & HQ2 & _ & Hsub').
    destruct (proj1 (Hsub' p) Hmem) as [Hm|(S & d & HS & HshS & _)].
    - rewrite (Fsub q' Q2 HQ2) in Hm. by apply elem_of_nil in Hm.
    - assert (S = P2) as -> by congruence. congruence. }
  assert (P5' = P5) as -> by congruence.
  assert (beInstance P4 = None) as E5.
  { assert (beInstance <$> ps4 = beInstance <$> productions a3) as Hb4
      by by apply findAllAncestors_keeps.
    destruct (fmap_eq_lookup beInstance _ _ p P4 Hb4 HP4) as (Q3 & HQ3 & ->).
    rewrite Forall_lookup in Fbe. by eapply Fbe. }
  repeat split; congruence.
Qed.

Lemma analyze_lists_outside_lattice_witness :
  ∃ a P, analyze intList (AttLines [] true) 1 = Ok a ∧
         productions a !! 0%nat = Some P ∧ isList P ≠ 0 ∧
         isSupertype P = false ∧ subtypeOf P = [] ∧ ancestors P = [] ∧
         isInstance P = false ∧ beInstance P = None.
Proof.
  eexists _, _. split; [vm_compute; reflexivity|].
  split; [reflexivity|]. split; [discriminate|].
  eapply (analyze_lists_outside_lattice intList (AttLines [] true) 1 _ 0%nat);
    [vm_compute; reflexivity|reflexivity|discriminate].
Defined.

(** ** [findMyExps] *)

Lemma findMyExpsOne_reads (k : nat) (qs qs' : list production) :
  findMyExpsOne k qs = Ok qs' →
  readByFindMyExps <$> qs' = readByFindMyExps <$> qs.
Proof.
  unfold findMyExpsOne. destruct (qs !! k) as [prod|]; [|by intros [= <-]].
  destruct (myAtts prod); [by intros [= <-]|].
  destruct (sourceOf qs k prod); [|done].
  intros (exps & _ & [= <-])%result_bind_Ok. by apply fmap_alter_keep.
Qed.

Lemma sourceOf_ext (ps qs : list production) (p : nat) (P Q S0 : production) :
  readByFindMyExps <$> qs = readByFindMyExps <$> ps →
  readByFindMyExps Q = readByFindMyExps P →
  sourceOf ps p P = Some S0 →
  ∃ S, sourceOf qs p Q = Some S ∧
       readByFindMyExps S = readByFindMyExps S0.
Proof.
  intros Hg HQ. pose proof HQ as [= _ _ _ Hi Hb _].
  unfold sourceOf. rewrite Hi, Hb.
  destruct (isInstance P); [intros [= <-]; eauto|].
  destruct (beInstance P) as [b|]; [|intros [= <-]; eauto].
  intros HS0. symmetry in Hg.
  destruct (fmap_eq_lookup _ _ _ b S0 Hg HS0) as (S & HS & E). eauto.
Qed.

Lemma alignMyExps_ext (prod prod' source source' : production) :
  readByFindMyExps prod' = readByFindMyExps prod →
  readByFindMyExps source' = readByFindMyExps source →
  alignMyExps prod' source' = alignMyExps prod source.
Proof.
  intros [= Hm _ _ _ _ Hl] [= _ Hd Ha _ _ _].
  unfold alignMyExps. by rewrite Hm, Hl, Hd, Ha.
Qed.

Lemma attExps_ext (S S' : production) :
  readByFindMyExps S' = readByFindMyExps S → attExps S' = attExps S.
Proof. intros [= _ Hd _ _ _ _]. unfold attExps. by rewrite Hd. Qed.

(** The pass, on productions that have no own expressions yet. *)
Lemma findMyExps_aligned (ps ps' : list production) :
  Forall (λ P, myExps P = []) ps →
  findMyExps ps = Ok ps' →
  readByFindMyExps <$> ps' = readByFindMyExps <$> ps ∧
  ∀ p P', ps' !! p = Some P' → ownExpsAligned ps' p P'.
Proof.
  intros Hfresh Hrun.
  cut (readByFindMyExps <$> ps' = readByFindMyExps <$> ps ∧
       ∀ p P', ps' !! p = Some P' →
         ((length ps ≤ p)%nat → myExps P' = []) ∧
         ((p < length ps)%nat →
          ∃ P, ps !! p = Some P ∧
               readByFindMyExps P' = readByFindMyExps P ∧
               length (myExps P') = length (myAtts P) ∧
               (myAtts P ≠ [] →
                ∃ S j, sourceOf ps p P = Some S ∧
                       myExps P' = take (length (myAtts P))
                                        (drop j (attExps S)) ∧
                       take (length (myAtts P)) (drop j (attNames S))
                       = myAtts P))).
  { intros [Hg H]. split; [done|]. intros p P' HP'.
    destruct (H p P' HP') as [_ H'].
    destruct H' as (P & HP & HQ & Hlen & Hsrc).
    { apply lookup_lt_Some in HP'. apply (f_equal length) in Hg.
      rewrite !length_fmap in Hg. lia. }
    pose proof HQ as [= Hm _ _ _ _ _].
    split; [congruence|]. rewrite Hm. intros Hne.
    destruct (Hsrc Hne) as (S & j & HS & He & Ha).
    destruct (sourceOf_ext ps ps' p P P' S Hg HQ HS) as (S' & HS' & HE).
    exists S', j. split; [done|]. rewrite (attExps_ext S S' HE).
    pose proof HE as [= _ _ -> _ _ _]. done. }
  apply (forEachProdM_ind
           (λ k qs,
              readByFindMyExps <$> qs = readByFindMyExps <$> ps ∧
              ∀ p P', qs !! p = Some P' →
                ((k ≤ p)%nat → myExps P' = []) ∧
                ((p < k)%nat →
                 ∃ P, ps !! p = Some P ∧
                      readByFindMyExps P' = readByFindMyExps P ∧
                      length (myExps P') = length (myAtts P) ∧
                      (myAtts P ≠ [] →
                       ∃ S j, sourceOf ps p P = Some S ∧
                              myExps P' = take (length (myAtts P))
                                               (drop j (attExps S)) ∧
                              take (length (myAtts P)) (drop j (attNames S))
                              = myAtts P)))
           findMyExpsOne ps ps'); [|clear Hrun|exact Hrun].
  - split; [done|]. intros p P' HP'. split; [|lia]. intros _.
    rewrite Forall_lookup in Hfresh. by eapply Hfresh.
  - intros k qs qs' Hk [Hg Hinv] Hstep.
    assert (readByFindMyExps <$> qs' = readByFindMyExps <$> qs) as Hg'
      by by apply (findMyExpsOne_reads k).
    split; [by rewrite Hg'|].
    destruct (lookup_lt_is_Some_2 ps k Hk) as [Pk HPk].
    destruct (fmap_eq_lookup_r _ ps qs k Pk Hg HPk) as (Qk & HQk & HE).
    pose proof HE as [= Hm _ _ _ _ _].
    destruct (Hinv k Qk HQk) as [Hnil _]. specialize (Hnil (le_n k)).
    unfold findMyExpsOne in Hstep. rewrite HQk in Hstep.
    (* the productions that the turn leaves alone *)
    assert (∀ p P', p ≠ k → qs !! p = Some P' →
              ((S k ≤ p)%nat → myExps P' = []) ∧
              ((p < S k)%nat →
               ∃ P, ps !! p = Some P ∧
                    readByFindMyExps P' = readByFindMyExps P ∧
                    length (myExps P') = length (myAtts P) ∧
                    (myAtts P ≠ [] →
                     ∃ S j, sourceOf ps p P = Some S ∧
                            myExps P' = take (length (myAtts P))
                                             (drop j (attExps S)) ∧
                            take (length (myAtts P)) (drop j (attNames S))
                            = myAtts P))) as Hother.
    { intros p P' Hne HP'. destruct (Hinv p P' HP') as [H1 H2].
      split; intros ?; [apply H1|apply H2]; lia. }
    destruct (myAtts Qk) as [|myName rest] eqn:HmQ.
    + injection Hstep as <-. intros p P' HP'.
      destruct (decide (p = k)) as [->|Hne]; [|by apply Hother].
      assert (P' = Qk) as -> by congruence. split; [done|]. intros _.
      exists Pk. split; [done|]. split; [done|]. rewrite <- Hm, Hnil.
      split; [done|]. done.
    + destruct (sourceOf qs k Qk) as [S|] eqn:HS; [|done].
      apply result_bind_Ok in Hstep as (exps & Hexps & [= <-]).
      intros p P' HP'. destruct (decide (p = k)) as [->|Hne].
      2:{ rewrite list_lookup_alter_ne in HP' by done. by apply Hother. }
      rewrite list_lookup_alter_eq, HQk in HP'. injection HP' as <-.
      split; [lia|]. intros _. exists Pk. split; [done|].
      split; [done|]. simpl. rewrite Hnil. simpl.
      symmetry in Hg. symmetry in HE.
      destruct (sourceOf_ext qs ps k Qk Pk S Hg HE HS) as (S0 & HS0 & HE0).
      pose proof (alignMyExps_outcome Qk S) as Hout. rewrite Hexps in Hout.
      destruct Hout as [Hlen (j & He & Ha)]. rewrite HmQ in *.
      rewrite <- Hm. split; [done|]. intros _. exists S0, j.
      split; [done|]. rewrite (attExps_ext S S0 HE0).
      pose proof HE0 as [= _ _ -> _ _ _]. done.
Qed.

(** X6: in the analyzed model every production has as many own
    expressions as own attribute names, and the own expressions of a
    production with attributes are the attribute-bearing expressions of
    the first definition of its source at the places where its own names
    stand in the attribute names of the source. *)
Theorem analyze_own_expressions (grammar : list sourceProduction)
    (inFile : attributeSection) (fuel : nat) (a : analyzer) :
  analyze grammar inFile fuel = Ok a →
  ∀ p P, productions a !! p = Some P → ownExpsAligned (productions a) p P.
Proof.
  intros Hrun.
  destruct (analyze_Ok _ _ _ _ Hrun)
    as (a3 & ps4 & ps6 & ps7 & Hcl & H4 & H6 & H7 & H8 & _).
  apply (findMyExps_aligned ps7); [|done].
  apply (Forall_keeps myExps [] ps6); [by eapply findAttNamesAll_keeps|].
  apply (Forall_keeps myExps [] (findBeInstance ps4));
    [by eapply findOptProds_keeps|].
  apply (Forall_keeps myExps [] ps4); [by apply findBeInstance_keeps|].
  apply (Forall_keeps myExps [] (productions a3));
    [by eapply findAllAncestors_keeps|].
  by apply (classify_fresh myExps [] grammar inFile).
Qed.

Lemma analyze_own_expressions_witness :
  ∃ a P, analyze inheritedAtts tooFewExpressionsAtts 3 = Ok a ∧
         productions a !! 1%nat = Some P ∧
         ownExpsAligned (productions a) 1 P.
Proof.
  eexists _, _. split; [vm_compute; reflexivity|]. split; [reflexivity|].
  apply (analyze_own_expressions inheritedAtts tooFewExpressionsAtts 3);
    [vm_compute; reflexivity|reflexivity].
Defined.

(** ** [selectProductions] *)

(** X7: when [selectProductions] returns, [toPrint] holds, in the order
    of the productions and each once, the productions that are neither
    named like a terminal or a token, nor lists, nor [instancePlus], nor
    optional parents. *)
Theorem selectProductions_selected (a : analyzer) (toPrint : list nat) :
  selectProductions a = Ok toPrint →
  (∀ i j x y, (i < j)%nat → toPrint !! i = Some x → toPrint !! j = Some y →
              (x < y)%nat) ∧
  ∀ k, k ∈ toPrint ↔ selected a k.
Proof.
  intros Hrun. unfold selectProductions in Hrun.
  pose proof (foldl_result_ind
    (λ k toPrint,
       match productions a !! k with
       | None => Ok toPrint
       | Some prod =>
           isTerminal ← isTerminalName (lhs prod) (terminalNames a);
           if (isTerminal : bool) then Ok toPrint
           else if bool_decide (is_Some (findToken (lhs prod) (tokenNames a)))
           then Ok toPrint
           else if negb (isList prod =? 0) then Ok toPrint
           else if strcmp (lhs prod) "instancePlus" =? 0 then Ok toPrint
           else if (isOptional prod =? 1) || (isOptional prod =? 2)
           then Ok toPrint
           else Ok (toPrint ++ [k])
       end)
    (λ n l, (∀ i j x y, (i < j)%nat → l !! i = Some x → l !! j = Some y →
                        (x < y)%nat) ∧
            ∀ k, k ∈ l ↔ (k < n)%nat ∧ selected a k)
    (seq 0 (length (productions a))) [] toPrint) as H.
  rewrite length_seq in H. destruct H as [Hsorted Hmem]; [| |exact Hrun|].
  - split; [done|]. intros k. split; [by intros ?%elem_of_nil|].
    intros [? _]. lia.
  - intros i k l l' [-> Hi]%lookup_seq [Hs Hm] Hbody. simpl in Hbody.
    (* a turn that selects nothing, for a production not to select *)
    assert (¬ selected a i → l' = l →
            (∀ i j x y, (i < j)%nat → l' !! i = Some x → l' !! j = Some y →
                        (x < y)%nat) ∧
            ∀ k, k ∈ l' ↔ (k < S i)%nat ∧ selected a k) as Hskip.
    { intros Hno ->. split; [done|]. intros k. rewrite Hm. split.
      - intros [? ?]. split; [lia|done].
      - intros [Hk Hsel]. split; [|done].
        destruct (decide (k = i)) as [->|?]; [done|lia]. }
    destruct (productions a !! i) as [prod|] eqn:Hprod.
    2:{ injection Hbody as <-. apply Hskip; [|done].
        intros (P & HP & _). congruence. }
    apply result_bind_Ok in Hbody as (t & Ht & Hbody).
    destruct t.
    { injection Hbody as <-. apply Hskip; [|done].
      intros (P & HP & Hterm & _). assert (P = prod) as -> by congruence.
      congruence. }
    destruct (bool_decide _) eqn:Htok.
    { injection Hbody as <-. apply Hskip; [|done].
      intros (P & HP & _ & Hnone & _). assert (P = prod) as -> by congruence.
      apply bool_decide_eq_true in Htok. rewrite Hnone in Htok.
      by destruct Htok. }
    apply bool_decide_eq_false in Htok.
    destruct (negb (isList prod =? 0)) eqn:Hl.
    { injection Hbody as <-. apply Hskip; [|done].
      intros (P & HP & _ & _ & Hlist & _).
      assert (P = prod) as -> by congruence.
      apply negb_true_iff, Z.eqb_neq in Hl. done. }
    apply negb_false_iff, Z.eqb_eq in Hl.
    destruct (strcmp (lhs prod) "instancePlus" =? 0) eqn:Hplus.
    { injection Hbody as <-. apply Hskip; [|done].
      intros (P & HP & _ & _ & _ & Hname & _).
      assert (P = prod) as -> by congruence.
      by apply strcmp_eqb_true in Hplus. }
    apply strcmp_eqb_false in Hplus.
    destruct ((isOptional prod =? 1) || (isOptional prod =? 2)) eqn:Hopt.
    { injection Hbody as <-. apply Hskip; [|done].
      intros (P & HP & _ & _ & _ & _ & Ho1 & Ho2).
      assert (P = prod) as -> by congruence.
      apply orb_true_iff in Hopt as [?%Z.eqb_eq|?%Z.eqb_eq]; done. }
    apply orb_false_iff in Hopt as [Ho1%Z.eqb_neq Ho2%Z.eqb_neq].
    injection Hbody as <-.
    assert (selected a i) as Hsel.
    { exists prod. repeat split; try done.
      destruct (findToken _ _) eqn:E; [|done]. destruct Htok. by eexists. }
    split.
    + intros n m x y Hnm Hx Hy.
      apply lookup_lt_Some in Hy as Hlen. rewrite length_app in Hlen.
      simpl in Hlen. rewrite lookup_app_l in Hx by lia.
      destruct (decide (m < length l)%nat).
      * rewrite lookup_app_l in Hy by lia. by apply (Hs n m x y).
      * rewrite lookup_app_r in Hy by lia.
        replace (m - length l)%nat with 0%nat in Hy by lia.
        injection Hy as <-. apply list_elem_of_lookup_2, Hm in Hx. lia.
    + intros k. rewrite elem_of_app, list_elem_of_singleton, Hm. split.
      * intros [[? ?]| ->]; (split; [lia|done]).
      * intros [Hk Hsel']. destruct (decide (k = i)); [by right|left].
        split; [lia|done].
  - split; [done|]. intros k. rewrite Hmem. split; [by intros [_ ?]|].
    intros Hsel. split; [|done]. destruct Hsel as (P & HP & _).
    by eapply lookup_lt_Some.
Qed.

Lemma selectProductions_selected_witness :
  ∃ toPrint,
    selectProductions intListAnalyzed = Ok toPrint ∧
    (∀ i j x y, (i < j)%nat → toPrint !! i = Some x → toPrint !! j = Some y →
                (x < y)%nat) ∧
    ∀ k, k ∈ toPrint ↔ selected intListAnalyzed k.
Proof.
  eexists. split; [vm_compute; reflexivity|].
  apply selectProductions_selected. vm_compute. reflexivity.
Defined.

(** ** The emission loop: what stops it *)

Section EmissionStops.

Variable printCppProductionClass : list production → nat → option string.
Variable instanceProd : option nat.

(** A turn of the scan that leaves a production unprinted found it
    waiting. *)
Lemma printOne_same (k : nat) (st : printing) (P : production) :
  printOne printCppProductionClass instanceProd k st = Ok st →
  printProds st !! k = Some P → wasPrinted P = false →
  blocked instanceProd (printProds st) P.
Proof.
  unfold printOne. intros Hrun HP Hw. rewrite HP, Hw in Hrun.
  apply result_bind_Ok in Hrun as (wait & Hwait & Hrun).
  destruct wait.
  { left. destruct (isInstance P); [|done]. split; [done|].
    destruct instanceProd as [i|]; [|done]. simpl in Hwait.
    destruct (printProds st !! i) as [ip|] eqn:Hip; [|done].
    injection Hwait as Hwait. exists i, ip. split; [done|]. split; [done|].
    by destruct (wasPrinted ip). }
  destruct (existsb _ _) eqn:Hex.
  { right. apply existsb_exists in Hex as (s & Hs%list_elem_of_In & Hsp).
    exists s. split; [done|]. intros sp Hlook. rewrite Hlook in Hsp.
    by destruct (wasPrinted sp). }
  destruct (printCppProductionClass _ _); [done|].
  injection Hrun as Hrun. apply (f_equal printed) in Hrun. simpl in Hrun.
  apply (f_equal length) in Hrun. rewrite length_app in Hrun. simpl in Hrun.
  lia.
Qed.

Lemma printFold_mono (l : list nat) (st0 st' : printing) :
  foldl (λ acc k, st ← acc;
                  printOne printCppProductionClass instanceProd k st)
        (Ok st0) l = Ok st' →
  (numberPrinted st0 ≤ numberPrinted st')%nat.
Proof.
  intros Hrun.
  apply (foldl_result_ind
           (printOne printCppProductionClass instanceProd)
           (λ _ st, (numberPrinted st0 ≤ numberPrinted st)%nat)
           l st0 st'); [done| |exact Hrun].
  intros i k x x' _ Hx [->|(prod & _ & _ & _ & _ & ->)]%printOne_Ok; [done|].
  simpl. lia.
Qed.

(** A pass that prints nothing has left every production alone. *)
Lemma printFold_same (l : list nat) (st0 st' : printing) :
  foldl (λ acc k, st ← acc;
                  printOne printCppProductionClass instanceProd k st)
        (Ok st0) l = Ok st' →
  numberPrinted st' = numberPrinted st0 →
  ∀ k, k ∈ l → printOne printCppProductionClass instanceProd k st0 = Ok st0.
Proof.
  revert st0. induction l as [|k l IH]; intros st0 Hrun Hn j Hj;
    [by apply elem_of_nil in Hj|].
  simpl in Hrun.
  destruct (printOne printCppProductionClass instanceProd k st0)
    as [st1| | |] eqn:Hone; [|by rewrite foldl_result_err in Hrun..].
  pose proof (printFold_mono l st1 st' Hrun) as Hmono.
  assert (st1 = st0) as ->.
  { apply printOne_Ok in Hone as [->|(prod & _ & _ & _ & _ & ->)]; [done|].
    simpl in Hmono. lia. }
  apply elem_of_cons in Hj as [->|Hj]; [done|]. by apply IH.
Qed.

(** The loop has stopped short of [toPrint]: its last pass printed
    nothing, and what is left waits. *)
Lemma printPasses_stuck (toPrint : list nat) (ps ps' : list production)
    (out : list nat) (total : nat) :
  Forall (λ P, wasPrinted P = false) ps →
  printPasses printCppProductionClass (length toPrint) instanceProd toPrint
              ps [] 0
  = Ok (ps', out, total) →
  printingInv ps instanceProd toPrint ps' out ∧ total = length out ∧
  (length out ≤ length toPrint)%nat ∧
  (total ≠ length toPrint →
   ∀ k P', k ∈ toPrint → ps' !! k = Some P' → wasPrinted P' = false →
           blocked instanceProd ps' P').
Proof.
  intros Hfresh Hrun.
  assert (printingInv ps instanceProd toPrint ps []) as Hinit.
  { split; [done|]. split; [|split; [constructor|split]].
    - intros k P HP. rewrite Forall_lookup in Hfresh.
      rewrite (Hfresh k P HP). split; [done|]. by intros ?%elem_of_nil.
    - by intros k ?%elem_of_nil.
    - intros l1 k l2 P Hout. by destruct l1. }
  destruct (printPasses_inv printCppProductionClass instanceProd toPrint
              ps (length toPrint) ps [] ps' out total Hinit Hrun)
    as (Hinv & -> & Hstop).
  pose proof Hinv as (_ & _ & Hnd & Hsub & _).
  pose proof (NoDup_subseteq_length out toPrint Hnd Hsub) as Hle.
  split; [done|]. split; [done|]. split; [done|].
  intros Hne k P' Hk HP' Hw.
  destruct Hstop as [Hzero|Hall]; [|simpl in Hall; lia].
  apply (printOne_same k (mkPrinting ps' out 0)); [|done..].
  by apply (printFold_same toPrint _ _ Hzero).
Qed.

End EmissionStops.

(** X8: when the emission loop stops with fewer classes printed than
    productions selected, [printCppClasses] ends with [loop found in
    productions], and every selected production that has no class is an
    instance waiting for the class of [instance] or has a supertype
    without a class. *)
Theorem printLoop_stuck
    (printCppProductionClass : list production → nat → option string)
    (instanceProd : option nat) (toPrint : list nat)
    (ps ps' : list production) (out : list nat) (total : nat) :
  Forall (λ P, wasPrinted P = false) ps →
  printPasses printCppProductionClass (length toPrint) instanceProd toPrint
              ps [] 0
  = Ok (ps', out, total) →
  total ≠ length toPrint →
  printLoop printCppProductionClass instanceProd toPrint ps
  = Exit "loop found in productions" ∧
  ∀ k P', k ∈ toPrint → ps' !! k = Some P' → wasPrinted P' = false →
          blocked instanceProd ps' P'.
Proof.
  intros Hfresh Hrun Hne.
  destruct (printPasses_stuck printCppProductionClass instanceProd toPrint
              ps ps' out total Hfresh Hrun) as (_ & _ & _ & Hblocked).
  split; [|by apply Hblocked].
  unfold printLoop. rewrite Hrun. simpl.
  destruct (total =? length toPrint)%nat eqn:E; [|done].
  by apply Nat.eqb_eq in E.
Qed.

(** ** The emission loop: when it prints every class *)

Section EmissionReturns.

Variable printCppProductionClass : list production → nat → option string.
Variable instanceProd : option nat.
Variable toPrint : list nat.
Variable ps0 : list production.

(** The emitter returns, and [instance] exists when an instance is to be
    printed. *)
Hypothesis emitter_returns : ∀ qs k, printCppProductionClass qs k = None.
Hypothesis instance_exists :
  ∀ k P, k ∈ toPrint → ps0 !! k = Some P → isInstance P = true →
         ∃ i, instanceProd = Some i ∧ is_Some (ps0 !! i).

Lemma printOne_returns (k : nat) (st : printing) :
  k ∈ toPrint →
  (λ P, (subtypeOf P, isInstance P)) <$> printProds st
  = (λ P, (subtypeOf P, isInstance P)) <$> ps0 →
  ∃ st', printOne printCppProductionClass instanceProd k st = Ok st'.
Proof.
  intros Hk Hframe. unfold printOne.
  destruct (printProds st !! k) as [prod|] eqn:Hprod; [|eauto].
  destruct (wasPrinted prod); [eauto|].
  destruct (fmap_eq_lookup _ _ _ k prod Hframe Hprod)
    as (P0 & HP0 & [= _ Hinst]).
  assert (∃ wait : bool,
            (if isInstance prod
             then match instanceProd ≫= (printProds st !!.) with
                  | Some ip => Ok (negb (wasPrinted ip))
                  | None => Crash
                  end
             else Ok false) = Ok wait) as (wait & ->).
  { destruct (isInstance prod) eqn:Hi; [|eauto].
    destruct (instance_exists k P0 Hk HP0) as (i & -> & [ip0 Hip0]);
      [congruence|].
    destruct (fmap_eq_lookup_r _ _ _ i ip0 Hframe Hip0) as (ip & Hip & _).
    simpl. rewrite Hip. eauto. }
  simpl. destruct wait; [eauto|]. destruct (existsb _ _); [eauto|].
  rewrite emitter_returns. eauto.
Qed.

Lemma printFold_returns (l : list nat) (st : printing) :
  (∀ k, k ∈ l → k ∈ toPrint) →
  printingInv ps0 instanceProd toPrint (printProds st) (printed st) →
  ∃ st', foldl (λ acc k, st ← acc;
                  printOne printCppProductionClass instanceProd k st)
               (Ok st) l = Ok st'.
Proof.
  revert st. induction l as [|k l IH]; intros st Hl Hinv; [simpl; eauto|].
  simpl.
  destruct (printOne_returns k st) as (st1 & Hone);
    [apply Hl; by left|apply Hinv|].
  rewrite Hone.
  destruct (printOne_inv printCppProductionClass instanceProd toPrint ps0
              k st st1) as (Hinv1 & _); [apply Hl; by left|done..|].
  apply IH; [|done]. intros j Hj. apply Hl. by right.
Qed.

Lemma printPasses_returns (n : nat) (qs : list production) (out : list nat)
    (total : nat) :
  printingInv ps0 instanceProd toPrint qs out →
  ∃ r, printPasses printCppProductionClass n instanceProd toPrint qs out
                   total = Ok r.
Proof.
  revert qs out total. induction n as [|n IH]; intros qs out total Hinv;
    [simpl; eauto|].
  simpl. unfold printPass at 1.
  destruct (printFold_returns toPrint (mkPrinting qs out 0)) as (st & Hst);
    [done..|].
  rewrite Hst. simpl.
  destruct (numberPrinted st =? 0)%nat; [eauto|]. apply IH.
  by destruct (printPass_inv printCppProductionClass instanceProd toPrint
                 ps0 qs out st Hinv Hst).
Qed.

End EmissionReturns.

(** X9: when the emitter returns, nothing is marked as printed, and the
    productions selected can be ranked so that the supertypes of a
    selected production, and [instance] for an instance, are selected and
    of lower rank (the lattice has no cycle and is selected as a whole),
    the emission loop prints a class for every selected production, each
    once, in an order in which every class comes after the classes it
    derives from. *)
Theorem printLoop_complete
    (printCppProductionClass : list production → nat → option string)
    (instanceProd : option nat) (toPrint : list nat) (ps : list production)
    (rank : nat → nat) :
  NoDup toPrint →
  Forall (λ P, wasPrinted P = false) ps →
  (∀ qs k, printCppProductionClass qs k = None) →
  (∀ k, k ∈ toPrint →
        ∃ P, ps !! k = Some P ∧
             (∀ s, s ∈ subtypeOf P → s ∈ toPrint ∧ (rank s < rank k)%nat) ∧
             (isInstance P = true →
              ∃ i, instanceProd = Some i ∧ i ∈ toPrint ∧
                   (rank i < rank k)%nat)) →
  ∃ ps' out,
    printLoop printCppProductionClass instanceProd toPrint ps = Ok (ps', out) ∧
    out ≡ₚ toPrint ∧ emissionOrdered ps instanceProd out.
Proof.
  intros Hnd Hfresh Hemit Hrank.
  assert (∀ k P, k ∈ toPrint → ps !! k = Some P → isInstance P = true →
                 ∃ i, instanceProd = Some i ∧ is_Some (ps !! i)) as Hinst.
  { intros k P Hk HP Hi. destruct (Hrank k Hk) as (P0 & HP0 & _ & Hi0).
    assert (P0 = P) as -> by congruence.
    destruct (Hi0 Hi) as (i & -> & Hin & _). exists i. split; [done|].
    destruct (Hrank i Hin) as (Pi & HPi & _). by eexists. }
  assert (printingInv ps instanceProd toPrint ps []) as Hinit.
  { split; [done|]. split; [|split; [constructor|split]].
    - intros k P HP. rewrite Forall_lookup in Hfresh.
      rewrite (Hfresh k P HP). split; [done|]. by intros ?%elem_of_nil.
    - by intros k ?%elem_of_nil.
    - intros l1 k l2 P Hout. by destruct l1. }
  destruct (printPasses_returns printCppProductionClass instanceProd toPrint
              ps Hemit Hinst (length toPrint) ps [] 0%nat Hinit)
    as ([[ps' out] total] & Hrun).
  destruct (printPasses_stuck printCppProductionClass instanceProd toPrint
              ps ps' out total Hfresh Hrun)
    as (Hinv & Htotal & Hle & Hblocked).
  destruct Hinv as (Hframe & Hmark & Hndout & Hsub & Hord).
  assert (total = length toPrint) as Hall.
  { destruct (decide (total = length toPrint)) as [?|Hne]; [done|].
    specialize (Hblocked Hne).
    assert (∀ n k, (rank k < n)%nat → k ∈ toPrint →
                   ∃ P', ps' !! k = Some P' ∧ wasPrinted P' = true) as Hdone.
    { induction n as [|n IH]; intros k Hn Hk; [lia|].
      destruct (Hrank k Hk) as (P & HP & Hsupers & Hi).
      destruct (fmap_eq_lookup_r _ _ _ k P Hframe HP)
        as (P' & HP' & [= Hsub' Hinst']).
      exists P'. split; [done|]. apply not_false_is_true. intros Hw.
      destruct (Hblocked k P' Hk HP' Hw)
        as [(Hi' & i & ip & Hip & Hlook & Hwi)|(s & Hs & Hws)].
      - rewrite Hinst' in Hi'. destruct (Hi Hi') as (i' & Hi'' & Hin & Hr).
        assert (i' = i) as -> by congruence.
        destruct (IH i) as (ip' & Hip' & Hwip'); [lia|done|]. congruence.
      - rewrite Hsub' in Hs. destruct (Hsupers s Hs) as [Hin Hr].
        destruct (IH s) as (sp & Hsp & Hwsp); [lia|done|].
        rewrite (Hws sp Hsp) in Hwsp. done. }
    assert (length toPrint ≤ length out)%nat.
    { apply NoDup_subseteq_length; [done|]. intros k Hk.
      destruct (Hdone (S (rank k)) k) as (P' & HP' & Hw); [lia|done|].
      by apply (Hmark k P'). }
    lia. }
  exists ps', out. split; [|split; [|done]].
  - unfold printLoop. rewrite Hrun. simpl. by rewrite Hall, Nat.eqb_refl.
  - apply submseteq_length_Permutation; [by apply NoDup_submseteq|lia].
Qed.

Lemma printLoop_stuck_witness :
  ∃ ps' out total,
    printPasses printsAll 2 None [0; 1]%nat cyclicPairAnalyzed [] 0
    = Ok (ps', out, total) ∧
    printLoop printsAll None [0; 1]%nat cyclicPairAnalyzed
    = Exit "loop found in productions" ∧
    ∀ k P', k ∈ [0; 1]%nat → ps' !! k = Some P' → wasPrinted P' = false →
            blocked None ps' P'.
Proof.
  eexists _, _, _. split; [vm_compute; reflexivity|].
  eapply (printLoop_stuck printsAll None [0; 1]%nat cyclicPairAnalyzed);
    [repeat constructor|vm_compute; reflexivity|discriminate].
Defined.

Lemma printLoop_complete_witness :
  ∃ ps' out,
    printLoop printsAll (Some 0%nat) [0; 1; 2; 3]%nat twoInstancesAnalyzed
    = Ok (ps', out) ∧
    out ≡ₚ [0; 1; 2; 3]%nat ∧
    emissionOrdered twoInstancesAnalyzed (Some 0%nat) out.
Proof.
  apply (printLoop_complete printsAll (Some 0%nat) [0; 1; 2; 3]%nat
           twoInstancesAnalyzed (λ k, if (k <? 2)%nat then 0%nat else 1%nat)).
  - compute_done.
  - repeat constructor.
  - done.
  - intros k Hk.
    repeat (apply elem_of_cons in Hk as [->|Hk];
            [eexists; split; [reflexivity|]; split;
             [intros s Hs; simpl in Hs;
              repeat (apply elem_of_cons in Hs as [->|Hs];
                      [split; [compute_done|simpl; lia]|]);
              by apply elem_of_nil in Hs
             |simpl; intros Hi;
              first [discriminate
                    |exists 0%nat; split; [done|];
                     split; [compute_done|simpl; lia]]]|]).
    by apply elem_of_nil in Hk.
Defined.

(** ** [strcmp] as an order *)

Lemma strcmp_lt (a b : string) : strcmp a b < 0 ↔ String.compare a b = Lt.
Proof. unfold strcmp. destruct (String.compare a b); split; (done || lia). Qed.

Lemma strcmp_gt (a b : string) : 0 < strcmp a b ↔ strcmp b a < 0.
Proof.
  rewrite strcmp_lt. unfold strcmp. rewrite (String.compare_antisym a b).
  destruct (String.compare b a); simpl; split; (done || lia).
Qed.

Lemma strcmp_lt_trans (a b c : string) :
  strcmp a b < 0 → strcmp b c < 0 → strcmp a c < 0.
Proof.
  rewrite !strcmp_lt. intros H1 H2.
  apply OrderedTypeEx.String_as_OT.cmp_lt in H1, H2.
  apply OrderedTypeEx.String_as_OT.cmp_lt.
  by eapply OrderedTypeEx.String_as_OT.lt_trans.
Qed.

Lemma strcmp_lt_irrefl (a : string) : ¬ strcmp a a < 0.
Proof. rewrite strcmp_refl. lia. Qed.

(** ** Sorted lists of names *)

Lemma ascending_app (l1 l2 : list string) :
  ascending (l1 ++ l2) ↔
  ascending l1 ∧ ascending l2 ∧
  ∀ x y, x ∈ l1 → y ∈ l2 → strcmp x y < 0.
Proof.
  induction l1 as [|a l1 IH]; simpl.
  - split; [|by intros (_ & ? & _)]. intros H. repeat split; [done|].
    by intros x y ?%elem_of_nil.
  - rewrite Forall_app, IH. split.
    + intros ((H1 & H2) & H3 & H4 & H5). repeat split; try done.
      intros x y [->|Hx]%elem_of_cons Hy; [|by apply H5].
      rewrite Forall_forall in H2. by apply H2.
    + intros ((H1 & H2) & H3 & H4). repeat split; try done.
      * apply Forall_forall. intros y Hy. apply H4; [by left|done].
      * intros x y Hx Hy. apply H4; [by right|done].
Qed.

Lemma ascending_NoDup (l : list string) : ascending l → NoDup l.
Proof.
  induction l as [|a l IH]; simpl; [constructor|].
  intros [Ha Hl]. constructor; [|by apply IH].
  intros Hin. rewrite Forall_forall in Ha.
  by apply (strcmp_lt_irrefl a), Ha.
Qed.

(** The search loop of the [record] functions on a sorted sub-array. *)
Lemma scanNames_None (name : string) (l : list string) (n : nat) :
  scanNames name l n = None → name ∈ l.
Proof.
  revert n. induction l as [|x l IH]; intros n; simpl; [done|].
  destruct (strcmp name x =? 0) eqn:E.
  - apply strcmp_eqb_true in E as ->. intros _. by left.
  - destruct (strcmp name x <? 0); [done|]. intros H. right. by eapply IH.
Qed.

Lemma scanNames_Some (name : string) (l : list string) (n m : nat) :
  ascending l → scanNames name l n = Some m →
  ∃ k, m = (n + k)%nat ∧ (k ≤ length l)%nat ∧
       (∀ x, x ∈ take k l → strcmp x name < 0) ∧
       (∀ x, x ∈ drop k l → strcmp name x < 0).
Proof.
  revert n. induction l as [|x l IH]; intros n; simpl.
  - intros _ [= <-]. exists 0%nat. repeat split; [lia|done|..];
      by intros y ?%elem_of_nil.
  - intros [Hx Hl]. destruct (strcmp name x =? 0) eqn:E; [done|].
    destruct (strcmp name x <? 0) eqn:E'.
    + intros [= <-]. apply Z.ltb_lt in E'. exists 0%nat.
      repeat split; [lia|lia|by intros y ?%elem_of_nil|].
      simpl. intros y [->|Hy]%elem_of_cons; [done|].
      rewrite Forall_forall in Hx. eapply strcmp_lt_trans; [done|].
      by apply Hx.
    + intros (k & -> & Hk & Hlow & Hhigh)%(IH (S n) Hl).
      exists (S k). repeat split; [lia|lia| |done].
      simpl. intros y [->|Hy]%elem_of_cons; [|by apply Hlow].
      apply strcmp_gt. apply Z.ltb_ge in E'. apply Z.eqb_neq in E. lia.
Qed.

(** A name that stands in a sorted sub-array is found by the loop. *)
Lemma scanNames_elem (name : string) (l : list string) (n : nat) :
  ascending l → name ∈ l → scanNames name l n = None.
Proof.
  intros Hl Hin. destruct (scanNames name l n) as [m|] eqn:E; [|done].
  destruct (scanNames_Some name l n m Hl E) as (k & _ & _ & Hlow & Hhigh).
  rewrite <- (take_drop k l) in Hin.
  apply elem_of_app in Hin as [Hin|Hin].
  - by apply Hlow, strcmp_lt_irrefl in Hin.
  - by apply Hhigh, strcmp_lt_irrefl in Hin.
Qed.

(** What the three [record] functions do to one sorted sub-array. *)
Lemma recordName_outcome (size : nat) (tooMany name : string)
    (l : list string) :
  ascending l → (length l ≤ size)%nat →
  match recordName size tooMany name l with
  | Ok l' =>
      ascending l' ∧ (length l' ≤ size)%nat ∧
      (∀ x, x ∈ l' ↔ x = name ∨ x ∈ l) ∧
      (name ∈ l → l' = l)
  | Exit msg => msg = tooMany ∧ length l = size ∧ name ∉ l
  | _ => False
  end.
Proof.
  intros Hl Hlen. unfold recordName.
  destruct (scanNames name l 0) as [n|] eqn:Hscan.
  2:{ apply scanNames_None in Hscan. repeat split; try done.
      - intros ?. by right.
      - by intros [->|?]. }
  destruct (scanNames_Some name l 0 n Hl Hscan)
    as (k & -> & Hk & Hlow & Hhigh). simpl.
  assert (name ∉ l) as Hnew.
  { intros Hin. by rewrite (scanNames_elem name l 0 Hl Hin) in Hscan. }
  destruct (k =? size)%nat eqn:E1.
  { apply Nat.eqb_eq in E1. split; [done|]. split; [lia|done]. }
  apply Nat.eqb_neq in E1.
  destruct ((k <? length l)%nat && (length l =? size)%nat) eqn:E2.
  { apply andb_true_iff in E2 as [_ E2%Nat.eqb_eq]. done. }
  assert (length l < size)%nat as Hroom.
  { apply andb_false_iff in E2 as [E2%Nat.ltb_ge|E2%Nat.eqb_neq]; lia. }
  split; [|split; [|split]].
  - apply ascending_app. rewrite <- (take_drop k l) in Hl.
    apply ascending_app in Hl as (H1 & H2 & H3).
    split; [done|]. split.
    + simpl. split; [|done]. apply Forall_forall. intros y Hy. by apply Hhigh.
    + intros x y Hx [->|Hy]%elem_of_cons; [by apply Hlow|by apply H3].
  - rewrite length_app. simpl. rewrite length_take, length_drop. lia.
  - intros x. rewrite elem_of_app, elem_of_cons.
    assert (x ∈ l ↔ x ∈ take k l ∨ x ∈ drop k l) as ->.
    { by rewrite <- elem_of_app, take_drop. }
    tauto.
  - done.
Qed.

(** ** [recordTerminal] and the scan of [selectProductions] *)

Lemma isTerminalName_elem (x : string) (names : list string) :
  x ∈ names → isTerminalName x names = Ok true.
Proof.
  intros Hin. unfold isTerminalName.
  assert (existsb (λ t, strcmp x t =? 0) names = true) as ->; [|done].
  apply existsb_exists. exists x. split; [by apply list_elem_of_In|].
  by apply strcmp_eqb_true.
Qed.

Lemma isTerminalName_not_elem (x : string) (names : list string) :
  x ∉ names →
  isTerminalName x names
  = if (length names <? LETTERSIZE)%nat then Ok false else Crash.
Proof.
  intros Hin. unfold isTerminalName.
  assert (existsb (λ t, strcmp x t =? 0) names = false) as ->; [|done].
  apply not_true_is_false. intros (t & Ht%list_elem_of_In & E)%existsb_exists.
  apply strcmp_eqb_true in E as ->. done.
Qed.

(** X10: [recordTerminal] keeps [terminalNames] sorted, without
    duplicates and within the [LETTERSIZE] entries of the array; it adds
    the name when it is new and there is room, and ends with [Too many
    terminals] exactly when the name is new and the array is full.  The
    scan of [selectProductions] then finds exactly the recorded names,
    and runs past the end of the array for another name when all
    [LETTERSIZE] entries are in use. *)
Theorem recordTerminal_outcome (t : string) (names : list string) :
  ascending names → (length names ≤ LETTERSIZE)%nat →
  match recordTerminal t names with
  | Ok names' =>
      ascending names' ∧ NoDup names' ∧ (length names' ≤ LETTERSIZE)%nat ∧
      (∀ x, x ∈ names' ↔ x = t ∨ x ∈ names) ∧
      (∀ x, isTerminalName x names'
            = if decide (x ∈ names') then Ok true
              else if (length names' <? LETTERSIZE)%nat then Ok false
                   else Crash)
  | Exit msg =>
      msg = "Too many terminals"%string ∧ length names = LETTERSIZE ∧
      t ∉ names
  | _ => False
  end.
Proof.
  intros Hasc Hlen.
  pose proof (recordName_outcome LETTERSIZE "Too many terminals" t names
                Hasc Hlen) as H.
  unfold recordTerminal. destruct (recordName _ _ _ _) as [names'| | |];
    try done.
  destruct H as (H1 & H2 & H3 & _). split; [done|].
  split; [by apply ascending_NoDup|]. split; [done|]. split; [done|].
  intros x. destruct (decide (x ∈ names')) as [Hin|Hin].
  - by apply isTerminalName_elem.
  - by apply isTerminalName_not_elem.
Qed.

Lemma recordTerminal_outcome_witness :
  match recordTerminal "real" ["int"; "string"]%string with
  | Ok names' =>
      ascending names' ∧ NoDup names' ∧ (length names' ≤ LETTERSIZE)%nat ∧
      (∀ x, x ∈ names' ↔ x = "real"%string ∨ x ∈ ["int"; "string"]%string) ∧
      (∀ x, isTerminalName x names'
            = if decide (x ∈ names') then Ok true
              else if (length names' <? LETTERSIZE)%nat then Ok false
                   else Crash)
  | Exit msg =>
      msg = "Too many terminals"%string ∧
      length ["int"; "string"]%string = LETTERSIZE ∧
      "real"%string ∉ ["int"; "string"]%string
  | _ => False
  end.
Proof.
  apply (recordTerminal_outcome "real" ["int"; "string"]%string).
  - simpl. repeat constructor.
  - vm_compute. lia.
Defined.

(** ** [recordToken] and [findToken] *)

Lemma findInNames_Some (text : string) (l : list string) (n m : nat) :
  findInNames text l n = Some m →
  ∃ k, m = (n + k)%nat ∧ l !! k = Some text.
Proof.
  revert n. induction l as [|x l IH]; intros n; simpl; [done|].
  destruct (strcmp text x =? 0) eqn:E.
  - apply strcmp_eqb_true in E as ->. intros [= <-]. exists 0%nat.
    split; [lia|done].
  - destruct (strcmp text x <? 0); [done|].
    intros (k & -> & Hk)%IH. exists (S k). split; [lia|done].
Qed.

Lemma findInNames_elem (text : string) (l : list string) (n : nat) :
  ascending l → text ∈ l → is_Some (findInNames text l n).
Proof.
  revert n. induction l as [|x l IH]; intros n; simpl.
  - by intros _ ?%elem_of_nil.
  - intros [Hx Hl] Hin. destruct (strcmp text x =? 0) eqn:E; [by eexists|].
    apply strcmp_eqb_false in E.
    apply elem_of_cons in Hin as [->|Hin]; [done|].
    rewrite Forall_forall in Hx. specialize (Hx text Hin).
    apply strcmp_gt in Hx.
    destruct (strcmp text x <? 0) eqn:E'; [apply Z.ltb_lt in E'; lia|].
    by apply IH.
Qed.

Lemma letterIndex_guard (text : string) :
  (charAt 0 text <? 65) || (90 <? charAt 0 text)
  = bool_decide (letterIndex 65 text = None).
Proof.
  unfold letterIndex.
  destruct (charAt 0 text <? 65) eqn:E1; destruct (90 <? charAt 0 text) eqn:E2;
    simpl; symmetry.
  all: try apply Z.ltb_lt in E1; try apply Z.ltb_ge in E1.
  all: try apply Z.ltb_lt in E2; try apply Z.ltb_ge in E2.
  all: destruct (0 <=? charAt 0 text - 65) eqn:E3;
    destruct (charAt 0 text - 65 <? 26) eqn:E4; simpl.
  all: try apply Z.leb_le in E3; try apply Z.leb_gt in E3.
  all: try apply Z.ltb_lt in E4; try apply Z.ltb_ge in E4.
  all: try lia.
  all: by (apply bool_decide_eq_true || apply bool_decide_eq_false).
Qed.

(** [findToken] on a sorted table finds what stands in the sub-array of
    the first letter. *)
Lemma findToken_elem (size : nat) (text : string)
    (table : list (list string)) :
  tableSorted size table →
  is_Some (findToken text table) ↔
  ∃ i names, letterIndex 65 text = Some i ∧ table !! i = Some names ∧
             text ∈ names.
Proof.
  intros [_ Hsorted]. unfold findToken. rewrite letterIndex_guard.
  destruct (letterIndex 65 text) as [i|] eqn:Hi; simpl.
  2:{ split; [by intros [? ?]|]. by intros (? & ? & ? & _). }
  destruct (table !! i) as [names|] eqn:Hnames; simpl.
  2:{ split; [by intros [? ?]|]. intros (? & ? & [= <-] & ? & _). congruence. }
  split.
  - intros [n (k & _ & Hk)%findInNames_Some]. exists i, names.
    repeat split; [done|]. by eapply list_elem_of_lookup_2.
  - intros (i' & names' & [= <-] & Hn & Hin).
    assert (names' = names) as -> by congruence.
    rewrite Forall_lookup in Hsorted.
    destruct (Hsorted i names Hnames) as [Hasc _]. by apply findInNames_elem.
Qed.

(** After [recordToken], [tokenNames] is a sorted table again, and
    [findToken] finds the name recorded and what it found before. *)
Lemma recordToken_sorted (name : string) (table table' : list (list string)) :
  tableSorted LETTERSIZE table →
  recordToken name table = Ok table' →
  tableSorted LETTERSIZE table' ∧
  ∀ text, is_Some (findToken text table') ↔
          text = name ∨ is_Some (findToken text table).
Proof.
  intros Hsorted Hrun. pose proof Hsorted as [Hlen Hall].
  unfold recordToken, recordInTable in Hrun.
  destruct (letterIndex 65 name) as [i|] eqn:Hi; [|done].
  destruct (table !! i) as [names|] eqn:Hnames; [|done].
  apply result_bind_Ok in Hrun as (names' & Hrec & [= <-]).
  rewrite Forall_lookup in Hall. destruct (Hall i names Hnames) as [Hasc Hle].
  pose proof (recordName_outcome LETTERSIZE
                ("Too many tokens starting with " +:+ String.substring 0 1 name)
                name names Hasc Hle) as H.
  rewrite Hrec in H. destruct H as (H1 & H2 & H3 & _).
  assert (tableSorted LETTERSIZE (<[i:=names']> table)) as Hsorted'.
  { split; [by rewrite length_insert|]. apply Forall_lookup.
    intros j l Hj. destruct (decide (j = i)) as [->|Hne].
    - rewrite list_lookup_insert_eq in Hj by by eapply lookup_lt_Some.
      by injection Hj as <-.
    - rewrite list_lookup_insert_ne in Hj by done. by eapply Hall. }
  split; [done|]. intros text.
  rewrite (findToken_elem LETTERSIZE text _ Hsorted'),
          (findToken_elem LETTERSIZE text _ Hsorted).
  split.
  - intros (j & l & Hj & Hl & Hin). destruct (decide (j = i)) as [->|Hne].
    + rewrite list_lookup_insert_eq in Hl by by eapply lookup_lt_Some.
      injection Hl as <-. apply H3 in Hin as [->|Hin]; [by left|right].
      by exists i, names.
    + rewrite list_lookup_insert_ne in Hl by done. right. by exists j, l.
  - intros [->|(j & l & Hj & Hl & Hin)].
    + exists i, names'. split; [done|].
      rewrite list_lookup_insert_eq by by eapply lookup_lt_Some.
      split; [done|]. apply H3. by left.
    + destruct (decide (j = i)) as [->|Hne].
      * exists i, names'. split; [done|].
        rewrite list_lookup_insert_eq by by eapply lookup_lt_Some.
        split; [done|]. apply H3. right. congruence.
      * exists j, l. by rewrite list_lookup_insert_ne.
Qed.

(** X11: on a table of sorted sub-arrays within their bounds,
    [recordToken] either returns, and then [tokenNames] is such a table
    again in which [findToken] finds the name recorded and exactly the
    names that it found before; or it ends with [Too many tokens starting
    with] and the first letter, when the name is new and the sub-array of
    its first letter is full; or the first character of the name is no
    upper case letter and the index of the sub-array is out of range. *)
Theorem recordToken_findToken (name : string) (table : list (list string)) :
  tableSorted LETTERSIZE table →
  match recordToken name table with
  | Ok table' =>
      tableSorted LETTERSIZE table' ∧
      ∀ text, is_Some (findToken text table') ↔
              text = name ∨ is_Some (findToken text table)
  | Exit msg =>
      msg = ("Too many tokens starting with " +:+ String.substring 0 1 name)
      ∧ findToken name table = None ∧
      ∃ i names, letterIndex 65 name = Some i ∧ table !! i = Some names ∧
                 length names = LETTERSIZE
  | Crash => letterIndex 65 name = None
  | OutOfFuel => False
  end.
Proof.
  intros Hsorted.
  destruct (recordToken name table) as [table'|msg| |] eqn:Hrun.
  - by apply recordToken_sorted.
  - pose proof Hsorted as [Hlen Hall].
    unfold recordToken, recordInTable in Hrun.
    destruct (letterIndex 65 name) as [i|] eqn:Hi; [|done].
    destruct (table !! i) as [names|] eqn:Hnames; [|done].
    rewrite Forall_lookup in Hall.
    destruct (Hall i names Hnames) as [Hasc Hle].
    pose proof (recordName_outcome LETTERSIZE
                  ("Too many tokens starting with "
                   +:+ String.substring 0 1 name)
                  name names Hasc Hle) as H.
    destruct (recordName _ _ _ _) as [l|msg'| |]; try done.
    injection Hrun as <-. destruct H as (-> & Hfull & Hnew).
    split; [done|]. split; [|by exists i, names].
    destruct (findToken name table) as [n|] eqn:Hfind; [|done].
    assert (is_Some (findToken name table)) as Hsome by by eexists.
    apply (findToken_elem LETTERSIZE name table Hsorted) in Hsome
      as (i' & names' & Hi' & Hn' & Hin). congruence.
  - pose proof Hsorted as [Hlen Hall].
    unfold recordToken, recordInTable in Hrun.
    destruct (letterIndex 65 name) as [i|] eqn:Hi; [|done].
    destruct (table !! i) as [names|] eqn:Hnames.
    + rewrite Forall_lookup in Hall.
      destruct (Hall i names Hnames) as [Hasc Hle].
      pose proof (recordName_outcome LETTERSIZE
                    ("Too many tokens starting with "
                     +:+ String.substring 0 1 name)
                    name names Hasc Hle) as H.
      by destruct (recordName _ _ _ _).
    + apply lookup_ge_None in Hnames. unfold letterIndex in Hi.
      destruct ((0 <=? charAt 0 name - 65) && (charAt 0 name - 65 <? 26))
        eqn:E; [|done].
      injection Hi as <-. apply andb_true_iff in E as [_ E%Z.ltb_lt]. lia.
  - unfold recordToken, recordInTable in Hrun.
    destruct (letterIndex 65 name) as [i|]; [|done].
    destruct (table !! i) as [names|] eqn:Hnames; [|done].
    pose proof Hsorted as [_ Hall]. rewrite Forall_lookup in Hall.
    destruct (Hall i names Hnames) as [Hasc Hle].
    pose proof (recordName_outcome LETTERSIZE
                  ("Too many tokens starting with "
                   +:+ String.substring 0 1 name)
                  name names Hasc Hle) as H.
    by destruct (recordName _ _ _ _).
Qed.

Lemma recordToken_findToken_witness :
  match recordToken "POINT" (tokenNames initialAnalyzer) with
  | Ok table' =>
      tableSorted LETTERSIZE table' ∧
      ∀ text, is_Some (findToken text table') ↔
              text = "POINT"%string
              ∨ is_Some (findToken text (tokenNames initialAnalyzer))
  | Exit msg =>
      msg = ("Too many tokens starting with "
             +:+ String.substring 0 1 "POINT")
      ∧ findToken "POINT" (tokenNames initialAnalyzer) = None ∧
      ∃ i names, letterIndex 65 "POINT" = Some i ∧
                 tokenNames initialAnalyzer !! i = Some names ∧
                 length names = LETTERSIZE
  | Crash => letterIndex 65 "POINT" = None
  | OutOfFuel => False
  end.
Proof.
  apply (recordToken_findToken "POINT" (tokenNames initialAnalyzer)).
  split; [done|]. simpl. repeat constructor; vm_compute; lia.
Defined.

(** ** Binding in the analyzed model *)

(** What [findProdValueAll] makes of an unbound expression. *)
Lemma boundUpTo_sound (names : list string) (user n : nat) (e : expression) :
  prodValue e = None →
  match prodValue (boundUpTo names user n e) with
  | Some q => (q < n)%nat ∧ q ≠ user ∧ names !! q = Some (itemName e)
  | None => ∀ j, (j < n)%nat → j ≠ user → names !! j ≠ Some (itemName e)
  end.
Proof.
  intros He. induction n as [|n IH]; simpl.
  - rewrite He. intros j ?. lia.
  - destruct (decide (user = n)) as [->|Hne].
    + destruct (prodValue (boundUpTo names n n e)) as [q|].
      * destruct IH as (? & ? & ?). repeat split; [lia|done..].
      * intros j Hj Hjn. apply IH; [lia|done].
    + destruct (names !! n) as [nm|] eqn:Hn.
      * destruct (strcmp _ _ =? 0) eqn:E.
        -- apply strcmp_eqb_true in E. rewrite boundUpTo_itemName in E.
           simpl. repeat split; [lia|done|congruence].
        -- apply strcmp_eqb_false in E. rewrite boundUpTo_itemName in E.
           destruct (prodValue (boundUpTo names user n e)) as [q|].
           ++ destruct IH as (? & ? & ?). repeat split; [lia|done..].
           ++ intros j Hj Hju. destruct (decide (j = n)) as [->|?];
                [congruence|]. apply IH; [lia|done].
      * destruct (prodValue (boundUpTo names user n e)) as [q|].
        -- destruct IH as (? & ? & ?). repeat split; [lia|done..].
        -- intros j Hj Hju. destruct (decide (j = n)) as [->|?];
             [congruence|]. apply IH; [lia|done].
Qed.

(** X12: in the analyzed model an expression points at a production
    exactly when another production than its own bears its name, and
    then at a production of that name; so a reference of a production to
    itself and every [c] of a right-hand side stay unbound. *)
Theorem analyze_binding_sound (grammar : list sourceProduction)
    (inFile : attributeSection) (fuel : nat) (a : analyzer) :
  analyze grammar inFile fuel = Ok a →
  ∀ p P d e, productions a !! p = Some P → d ∈ defs P → e ∈ d →
    (itemName e = "c"%string → prodValue e = None) ∧
    match prodValue e with
    | Some q =>
        q ≠ p ∧ ∃ Q, productions a !! q = Some Q ∧ lhs Q = itemName e
    | None =>
        ∀ q Q, q ≠ p → productions a !! q = Some Q → lhs Q ≠ itemName e
    end.
Proof.
  intros Hrun p P d e HP Hd He.
  destruct (analyze_Ok _ _ _ _ Hrun)
    as (a3 & ps4 & ps6 & ps7 & Hcl & H4 & H6 & H7 & H8 & _).
  destruct (classify_Ok _ _ _ Hcl) as (a0 & ps1 & Hparse & Hatts & Hps3).
  set (g := λ P : production, (defs P, lhs P)).
  assert (g <$> productions a = g <$> findProdValueAll ps1) as Hg.
  { rewrite (findMyExps_keeps g ps7 (productions a)) by done.
    rewrite (findAttNamesAll_keeps g fuel ps6 ps7) by done.
    rewrite (findOptProds_keeps g (findBeInstance ps4) ps6) by done.
    rewrite findBeInstance_keeps by done.
    rewrite (findAllAncestors_keeps g (productions a3) ps4) by done.
    rewrite Hps3. by apply findSupertypes_keeps. }
  assert (g <$> ps1 = g <$> productions a0) as Hg1
    by by apply (findMyAtts_keeps g inFile).
  assert (lhs <$> productions a = lhs <$> ps1) as Hnames.
  { pose proof (f_equal (fmap snd) Hg) as Hn.
    rewrite <- !list_fmap_compose in Hn.
    change (lhs <$> productions a = lhs <$> findProdValueAll ps1) in Hn.
    by rewrite findProdValueAll_lhs in Hn. }
  apply yyparse_Ok in Hparse. rewrite Forall_lookup in Hparse.
  (* the expression before binding *)
  destruct (fmap_eq_lookup g _ _ p P Hg HP) as (P2 & HP2 & [= Hd2 _]).
  rewrite findProdValueAll_spec, list_lookup_imap in HP2.
  destruct (ps1 !! p) as [P1|] eqn:HP1; [|done]. injection HP2 as <-.
  simpl in Hd2. rewrite Hd2 in Hd.
  apply list_elem_of_fmap in Hd as (d1 & -> & Hd1).
  apply list_elem_of_fmap in He as (e1 & -> & He1).
  destruct (fmap_eq_lookup g _ _ p P1 Hg1 HP1) as (P0 & HP0 & [= Hd0 _]).
  destruct (Hparse p P0 HP0) as (_ & _ & Hnull).
  assert (prodValue e1 = None) as Hnull1.
  { rewrite Hd0 in Hd1. rewrite Forall_forall in Hnull.
    specialize (Hnull d1 Hd1). rewrite Forall_forall in Hnull. by apply Hnull. }
  pose proof (boundUpTo_sound (lhs <$> ps1) p (length ps1) e1 Hnull1) as Hs.
  rewrite boundUpTo_itemName.
  assert (∀ q Q, productions a !! q = Some Q → lhs Q ≠ "c"%string) as Hc.
  { intros q Q HQ. assert ((lhs <$> productions a) !! q = Some (lhs Q)) as HlQ
      by by rewrite list_lookup_fmap, HQ.
    rewrite Hnames in HlQ.
    assert (lhs <$> ps1 = lhs <$> productions a0) as Hn1.
    { pose proof (f_equal (fmap snd) Hg1) as Hn.
      by rewrite <- !list_fmap_compose in Hn. }
    rewrite Hn1, list_lookup_fmap in HlQ.
    destruct (productions a0 !! q) as [Q0|] eqn:HQ0; [|done].
    injection HlQ as <-. by destruct (Hparse q Q0 HQ0) as (_ & ? & _). }
  rewrite <- Hnames in Hs |- *.
  destruct (prodValue (boundUpTo (lhs <$> productions a) p (length ps1) e1))
    as [q|].
  - destruct Hs as (_ & Hqp & Hq). rewrite list_lookup_fmap in Hq.
    destruct (productions a !! q) as [Q|] eqn:HQ; [|done].
    injection Hq as Hq. split.
    + intros Hname. rewrite Hname in Hq. by destruct (Hc q Q HQ).
    + split; [done|]. by exists Q.
  - split; [done|]. intros q Q Hqp HQ Hname.
    apply (Hs q); [|done|by rewrite list_lookup_fmap, HQ; simpl; rewrite Hname].
    apply lookup_lt_Some in HQ. apply (f_equal length) in Hnames.
    rewrite !length_fmap in Hnames. lia.
Qed.

Lemma analyze_binding_sound_witness :
  ∃ a P d e,
    analyze intList (AttLines [] true) 1 = Ok a ∧
    productions a !! 0%nat = Some P ∧ defs P !! 1%nat = Some d ∧
    d !! 1%nat = Some e ∧
    (itemName e = "c"%string → prodValue e = None) ∧
    match prodValue e with
    | Some q =>
        q ≠ 0%nat ∧ ∃ Q, productions a !! q = Some Q ∧ lhs Q = itemName e
    | None =>
        ∀ q Q, q ≠ 0%nat → productions a !! q = Some Q → lhs Q ≠ itemName e
    end.
Proof.
  eexists _, _, _, _. split; [vm_compute; reflexivity|].
  split; [reflexivity|]. split; [reflexivity|]. split; [reflexivity|].
  eapply (analyze_binding_sound intList (AttLines [] true) 1 _
            ltac:(vm_compute; reflexivity) 0%nat);
    [reflexivity|..].
  - apply elem_of_cons. right. apply elem_of_cons. left. reflexivity.
  - apply elem_of_cons. right. apply elem_of_cons. left. reflexivity.
Defined.

(** ** The actions of the parser *)

Lemma tablesExtend_refl (a : analyzer) : tablesExtend a a.
Proof. by split. Qed.

Lemma tablesExtend_trans (a b c : analyzer) :
  tablesExtend a b → tablesExtend b c → tablesExtend a c.
Proof. intros [H1 H2] [H3 H4]. split; auto. Qed.

Lemma recorded_extend (a a' : analyzer) (e : expression) :
  tablesExtend a a' → recorded a e → recorded a' e.
Proof. intros [H1 H2] [H3 H4]. split; auto. Qed.

Lemma expressionAction_tables (t : token) (a a' : analyzer)
    (e : expression) :
  tablesSorted a → expressionAction t a = Ok (e, a') →
  e = tokenExpression t ∧ productions a' = productions a ∧
  tablesSorted a' ∧ tablesExtend a a' ∧ recorded a' e.
Proof.
  intros (Htok & Hterm & Hlen). destruct t; simpl.
  - intros (names & Hrec & [= <- <-])%result_bind_Ok.
    destruct (recordToken_sorted text _ _ Htok Hrec) as [Hs Hfind].
    split; [done|]. split; [done|]. split; [by split|]. split.
    + split; [|done]. intros x Hx. apply Hfind. by right.
    + split; [|done]. intros _. apply Hfind. by left.
  - destruct (strcmp text "c" =? 0); simpl; intros [= <- <-];
      (split; [done|]; split; [done|]; split; [by split|];
       split; [apply tablesExtend_refl|done]).
  - intros (names & Hrec & [= <- <-])%result_bind_Ok.
    pose proof (recordName_outcome LETTERSIZE "Too many terminals" text
                  (terminalNames a) Hterm Hlen) as H.
    unfold recordTerminal in Hrec. rewrite Hrec in H.
    destruct H as (H1 & H2 & H3 & _).
    split; [done|]. split; [done|]. split; [by split|]. split.
    + split; [done|]. intros x Hx. apply H3. by right.
    + split; [done|]. intros _. apply H3. by left.
  - intros [= <- <-]. split; [done|]. split; [done|]. split; [by split|].
    split; [apply tablesExtend_refl|done].
  - intros [= <- <-]. split; [done|]. split; [done|]. split; [by split|].
    split; [apply tablesExtend_refl|done].
  - intros [= <- <-]. split; [done|]. split; [done|]. split; [by split|].
    split; [apply tablesExtend_refl|done].
Qed.

Lemma expressionListAction_tables (ts : list token) (a a' : analyzer)
    (exps : list expression) :
  tablesSorted a → expressionListAction ts a = Ok (exps, a') →
  exps = tokenExpression <$> ts ∧ productions a' = productions a ∧
  tablesSorted a' ∧ tablesExtend a a' ∧ Forall (recorded a') exps.
Proof.
  intros Hsorted Hrun.
  pose proof (foldl_result_ind
           (λ t (st : list expression * analyzer),
              let '(es, a0) := st in
              '(e, a1) ← expressionAction t a0; Ok (es ++ [e], a1))
           (λ i st, st.1 = tokenExpression <$> take i ts ∧
                    productions st.2 = productions a ∧
                    tablesSorted st.2 ∧ tablesExtend a st.2 ∧
                    Forall (recorded st.2) st.1)
           ts ([], a) (exps, a')) as H.
  simpl in H. rewrite firstn_all in H. apply H; [| |exact Hrun].
  - split; [done|]. split; [done|]. split; [done|].
    split; [apply tablesExtend_refl|constructor].
  - intros i t [es a1] [es' a2] Hi (Hes & Hp & Hs & Hext & Hrec). simpl in *.
    intros ([e a3] & He & [= <- <-])%result_bind_Ok.
    destruct (expressionAction_tables t a1 a3 e Hs He)
      as (-> & Hp' & Hs' & Hext' & Hrec').
    simpl. split; [|split; [congruence|split; [done|split]]].
    + rewrite (take_S_r ts i t Hi), fmap_app, Hes. done.
    + by eapply tablesExtend_trans.
    + apply Forall_app. split; [|by constructor].
      eapply Forall_impl; [exact Hrec|]. intros x. by apply recorded_extend.
Qed.

Lemma definitionListAction_tables (ds : list (list token)) (a a' : analyzer)
    (defs' : list (list expression)) :
  tablesSorted a → definitionListAction ds a = Ok (defs', a') →
  defs' = fmap (M:=list) tokenExpression <$> ds ∧
  productions a' = productions a ∧
  tablesSorted a' ∧ tablesExtend a a' ∧ Forall (Forall (recorded a')) defs'.
Proof.
  intros Hsorted Hrun.
  pose proof (foldl_result_ind
           (λ ts (st : list (list expression) * analyzer),
              let '(dfs, a0) := st in
              '(exps, a1) ← expressionListAction ts a0;
              Ok (dfs ++ [exps], a1))
           (λ i st, st.1 = fmap (M:=list) tokenExpression <$> take i ds ∧
                    productions st.2 = productions a ∧
                    tablesSorted st.2 ∧ tablesExtend a st.2 ∧
                    Forall (Forall (recorded st.2)) st.1)
           ds ([], a) (defs', a')) as H.
  simpl in H. rewrite firstn_all in H. apply H; [| |exact Hrun].
  - split; [done|]. split; [done|]. split; [done|].
    split; [apply tablesExtend_refl|constructor].
  - intros i ts [dfs a1] [dfs' a2] Hi (Hds & Hp & Hs & Hext & Hrec).
    simpl in *.
    intros ([exps a3] & He & [= <- <-])%result_bind_Ok.
    destruct (expressionListAction_tables ts a1 a3 exps Hs He)
      as (-> & Hp' & Hs' & Hext' & Hrec').
    simpl. split; [|split; [congruence|split; [done|split]]].
    + rewrite (take_S_r ds i ts Hi), fmap_app, Hds. done.
    + by eapply tablesExtend_trans.
    + apply Forall_app. split; [|by constructor].
      eapply Forall_impl; [exact Hrec|]. intros d Hd.
      eapply Forall_impl; [exact Hd|]. intros x. by apply recorded_extend.
Qed.

Lemma productionAction_tables (sp : sourceProduction) (a a' : analyzer) :
  tablesSorted a → productionAction sp a = Ok a' →
  tablesSorted a' ∧ tablesExtend a a' ∧
  productions a'
  = productions a
    ++ (if decide (leftSide sp = "c"%string) then []
        else [parsedProduction sp]) ∧
  (leftSide sp ≠ "c"%string →
   Forall (Forall (recorded a')) (defs (parsedProduction sp))) ∧
  (leftSide sp = "c"%string → is_Some (findToken "C" (tokenNames a'))).
Proof.
  intros Hsorted. unfold productionAction.
  intros ([ds a1] & Hds & Hrun)%result_bind_Ok.
  destruct (definitionListAction_tables _ a a1 ds Hsorted Hds)
    as (-> & Hp & Hs & Hext & Hrec).
  simpl in Hrun.
  destruct (strcmp (leftSide sp) "c" =? 0) eqn:E; simpl in Hrun.
  - apply strcmp_eqb_true in E.
    apply result_bind_Ok in Hrun as (names & Hnames & [= <-]).
    destruct Hs as (Htok & Hterm & Hlen).
    destruct (recordToken_sorted "C" _ _ Htok Hnames) as [Hs' Hfind].
    destruct (decide (leftSide sp = "c"%string)); [|done].
    split; [split; [done|by split]|]. split; [|split; [|split]].
    + split.
      * intros x Hx. apply Hfind. right. by apply Hext.
      * intros t Ht. by apply Hext.
    + simpl. by rewrite Hp, app_nil_r.
    + done.
    + intros _. apply Hfind. by left.
  - apply strcmp_eqb_false in E. injection Hrun as <-.
    destruct (decide (leftSide sp = "c"%string)); [done|].
    split; [done|]. split; [done|]. split; [|split].
    + simpl. by rewrite Hp.
    + intros _. exact Hrec.
    + done.
Qed.

(** The parser, production by production. *)
Lemma yyparse_tables (grammar : list sourceProduction) (a : analyzer) :
  yyparse grammar initialAnalyzer = Ok a →
  tablesSorted a ∧
  productions a
  = parsedProduction <$> filter (λ sp, leftSide sp ≠ "c"%string) grammar ∧
  Forall (λ P, Forall (Forall (recorded a)) (defs P)) (productions a) ∧
  (∀ sp, sp ∈ grammar → leftSide sp = "c"%string →
         is_Some (findToken "C" (tokenNames a))).
Proof.
  intros Hrun.
  pose proof (foldl_result_ind productionAction
           (λ i a,
              tablesSorted a ∧
              productions a
              = parsedProduction
                  <$> filter (λ sp, leftSide sp ≠ "c"%string)
                             (take i grammar) ∧
              Forall (λ P, Forall (Forall (recorded a)) (defs P))
                     (productions a) ∧
              (∀ sp, sp ∈ take i grammar → leftSide sp = "c"%string →
                     is_Some (findToken "C" (tokenNames a))))
           grammar initialAnalyzer a) as H.
  cbv beta in H. rewrite firstn_all in H. apply H; [| |exact Hrun].
  - split; [|split; [done|split; [constructor|]]].
    + split; [|split; [done|simpl; lia]].
      split; [done|]. simpl. repeat constructor; simpl; lia.
    + by intros sp ?%elem_of_nil.
  - intros i sp a1 a2 Hi (Hs & Hp & Hrec & Hc) Hstep.
    destruct (productionAction_tables sp a1 a2 Hs Hstep)
      as (Hs' & Hext & Hp' & Hrec' & Hc').
    rewrite (take_S_r grammar i sp Hi), filter_app, fmap_app, <- Hp.
    split; [done|]. split; [|split].
    + rewrite Hp'. f_equal. rewrite filter_cons, filter_nil.
      destruct (decide (leftSide sp = "c"%string)) as [E|E];
        by destruct (decide (leftSide sp ≠ "c"%string)).
    + rewrite Hp'. apply Forall_app. split.
      * eapply Forall_impl; [exact Hrec|]. intros P HP.
        eapply Forall_impl; [exact HP|]. intros d Hd.
        eapply Forall_impl; [exact Hd|]. intros x. by apply recorded_extend.
      * destruct (decide (leftSide sp = "c"%string)); [constructor|].
        constructor; [|constructor]. by apply Hrec'.
    + intros sp' [Hin| ->%list_elem_of_singleton]%elem_of_app Hname.
      * apply Hext. by eapply Hc.
      * by apply Hc'.
Qed.

(** X13: when the parser returns, the list of productions holds, in the
    order of the file, one production for every production of the file
    that is not named [c], built by the constructor from its name and
    from the expressions of its tokens, with every [c] of a right-hand
    side replaced by the shared comma expression and no expression
    bound. *)
Theorem yyparse_productions (grammar : list sourceProduction) (a : analyzer) :
  yyparse grammar initialAnalyzer = Ok a →
  productions a
  = parsedProduction <$> filter (λ sp, leftSide sp ≠ "c"%string) grammar ∧
  ∀ P d e, P ∈ productions a → d ∈ defs P → e ∈ d → prodValue e = None.
Proof.
  intros Hrun. split; [by apply yyparse_tables|].
  apply yyparse_Ok in Hrun. rewrite Forall_forall in Hrun.
  intros P d e HP Hd He. destruct (Hrun P HP) as (_ & _ & Hnull).
  rewrite Forall_forall in Hnull. specialize (Hnull d Hd).
  rewrite Forall_forall in Hnull. by apply Hnull.
Qed.

Lemma yyparse_productions_witness :
  ∃ a, yyparse intList initialAnalyzer = Ok a ∧
       productions a
       = parsedProduction
           <$> filter (λ sp, leftSide sp ≠ "c"%string) intList ∧
       ∀ P d e, P ∈ productions a → d ∈ defs P → e ∈ d → prodValue e = None.
Proof.
  eexists. split; [vm_compute; reflexivity|].
  apply yyparse_productions. vm_compute. reflexivity.
Defined.

(** X14: when the parser returns, the token table and the terminal table
    are sorted and within their bounds, [findToken] finds the name of
    every KEYWORD expression of the productions, the name of every
    TERMINAL expression is in [terminalNames], and [findToken] finds [C]
    when the file has a production named [c]. *)
Theorem yyparse_records_tokens (grammar : list sourceProduction)
    (a : analyzer) :
  yyparse grammar initialAnalyzer = Ok a →
  tablesSorted a ∧
  (∀ P d e, P ∈ productions a → d ∈ defs P → e ∈ d → recorded a e) ∧
  (∀ sp, sp ∈ grammar → leftSide sp = "c"%string →
         is_Some (findToken "C" (tokenNames a))).
Proof.
  intros (Hs & _ & Hrec & Hc)%yyparse_tables.
  split; [done|]. split; [|done].
  intros P d e HP Hd He. rewrite Forall_forall in Hrec.
  specialize (Hrec P HP). rewrite Forall_forall in Hrec.
  specialize (Hrec d Hd). rewrite Forall_forall in Hrec. by apply Hrec.
Qed.

Lemma yyparse_records_tokens_witness :
  ∃ a, yyparse intList initialAnalyzer = Ok a ∧
       tablesSorted a ∧
       (∀ P d e, P ∈ productions a → d ∈ defs P → e ∈ d → recorded a e) ∧
       (∀ sp, sp ∈ intList → leftSide sp = "c"%string →
              is_Some (findToken "C" (tokenNames a))).
Proof.
  eexists. split; [vm_compute; reflexivity|].
  apply yyparse_records_tokens. vm_compute. reflexivity.
Defined.

(** ** [findAttNamesOne] on a cycle of supertypes *)

Lemma subPath_snoc (ps : list production) (a b c : nat) :
  subPath ps a b → namesSupertype ps b c → subPath ps a c.
Proof.
  intros Hab Hbc. induction Hab as [a b Hab|a r b Har _ IH].
  - eapply subPath_more; [done|]. by constructor.
  - eapply subPath_more; [done|]. by apply IH.
Qed.

Lemma subPath_cycle_step (ps : list production) (q : nat) :
  subPath ps q q → ∃ r, namesSupertype ps q r ∧ subPath ps r r.
Proof.
  intros H. inversion H as [q' r Hqr|q' r u Hqr Hrq]; subst.
  - exists q. split; [done|]. by constructor.
  - exists r. split; [done|]. by eapply subPath_snoc.
Qed.

Lemma findAttNamesOne_unfold (fuel super : nat) (qs : list production) :
  findAttNamesOne (S fuel) super qs
  = match qs !! super with
    | None => Crash
    | Some S0 =>
        foldl (λ acc d,
                 ps ← acc;
                 match firstProdValue d with
                 | None => Crash
                 | Some sub =>
                     match ps !! sub, ps !! super with
                     | Some T, Some S1 =>
                         let ps1 :=
                           match attNames T with
                           | [] => alter (set_attNames
                                            (attNames S1 ++ myAtts T)) sub ps
                           | _ :: _ => ps
                           end in
                         if isSupertype T
                         then findAttNamesOne fuel sub ps1
                         else Ok ps1
                     | _, _ => Crash
                     end
                 end)
              (Ok qs) (defs S0)
    end.
Proof. reflexivity. Qed.

Section Cycle.

Variable ps : list production.
Hypothesis bound : supertypesBound ps.

Lemma sameLattice_write (qs : list production) (sub : nat)
    (names : list string) :
  sameLattice ps qs → sameLattice ps (alter (set_attNames names) sub qs).
Proof. intros H. unfold sameLattice. by rewrite fmap_alter_keep. Qed.

(** The loop over the definitions of a supertype, when the calls it
    makes on the supertypes in [stuck] do not return: it does not return
    either once it comes to a definition that names one of them. *)
Lemma findAttNamesOne_loop (fuel super : nat) (S0 : production)
    (stuck : nat → Prop) :
  ps !! super = Some S0 → isSupertype S0 = true →
  (∀ r qs, stuck r → sameLattice ps qs →
           findAttNamesOne fuel r qs = OutOfFuel) →
  (∀ r R qs, sameLattice ps qs → ps !! r = Some R → isSupertype R = true →
             findAttNamesOne fuel r qs = OutOfFuel ∨
             ∃ qs', findAttNamesOne fuel r qs = Ok qs' ∧ sameLattice ps qs') →
  ∀ (l : list (list expression)) (qs : list production),
    (∀ d, d ∈ l → d ∈ defs S0) → sameLattice ps qs →
    let run :=
      foldl (λ acc d,
               ps ← acc;
               match firstProdValue d with
               | None => Crash
               | Some sub =>
                   match ps !! sub, ps !! super with
                   | Some T, Some S1 =>
                       let ps1 :=
                         match attNames T with
                         | [] => alter (set_attNames
                                          (attNames S1 ++ myAtts T)) sub ps
                         | _ :: _ => ps
                         end in
                       if isSupertype T
                       then findAttNamesOne fuel sub ps1
                       else Ok ps1
                   | _, _ => Crash
                   end
               end)
            (Ok qs) l in
    (run = OutOfFuel ∨ ∃ qs', run = Ok qs' ∧ sameLattice ps qs') ∧
    ((∃ d r R, d ∈ l ∧ firstProdValue d = Some r ∧ ps !! r = Some R ∧
               isSupertype R = true ∧ stuck r) →
     run = OutOfFuel).
Proof.
  intros HS0 Hsuper Hstuck Hreturns l.
  induction l as [|d l IH]; intros qs Hl Hqs; simpl.
  { split; [right; eauto|]. intros (d & r & R & Hd & _).
    by apply elem_of_nil in Hd. }
  destruct (bound super S0 d HS0 Hsuper) as (sub & Hsub & [T0 HT0]);
    [apply Hl; by left|].
  rewrite Hsub.
  destruct (fmap_eq_lookup_r _ _ _ sub T0 Hqs HT0) as (T & HT & [= _ HTs]).
  destruct (fmap_eq_lookup_r _ _ _ super S0 Hqs HS0) as (S1 & HS1 & _).
  rewrite HT, HS1.
  set (qs1 := match attNames T with
              | [] => alter (set_attNames (attNames S1 ++ myAtts T)) sub qs
              | _ :: _ => qs
              end).
  assert (sameLattice ps qs1) as Hqs1.
  { unfold qs1. destruct (attNames T); [by apply sameLattice_write|done]. }
  assert (∀ d', d' ∈ l → d' ∈ defs S0) as Hl'.
  { intros d' Hd'. apply Hl. by right. }
  destruct (isSupertype T) eqn:HTsup.
  - (* the call on the subtype *)
    destruct (Hreturns sub T0 qs1 Hqs1 HT0) as [Hout|(qs2 & Hok & Hqs2)];
      [congruence| |].
    + rewrite Hout, foldl_result_err by done. split; [by left|done].
    + rewrite Hok. destruct (IH qs2 Hl' Hqs2) as [Hres Hcyc].
      split; [done|].
      intros (d' & r & R & [->|Hd']%elem_of_cons & Hr & HR & HRs & Hst);
        [|apply Hcyc; by exists d', r, R].
      assert (r = sub) as -> by congruence.
      rewrite (Hstuck sub qs1 Hst Hqs1) in Hok. done.
  - destruct (IH qs1 Hl' Hqs1) as [Hres Hcyc]. split; [done|].
    intros (d' & r & R & [->|Hd']%elem_of_cons & Hr & HR & HRs & Hst);
      [|apply Hcyc; by exists d', r, R].
    assert (r = sub) as -> by congruence.
    assert (R = T0) as -> by congruence. congruence.
Qed.

Lemma findAttNamesOne_returns (fuel : nat) :
  ∀ r R qs, sameLattice ps qs → ps !! r = Some R → isSupertype R = true →
            findAttNamesOne fuel r qs = OutOfFuel ∨
            ∃ qs', findAttNamesOne fuel r qs = Ok qs' ∧ sameLattice ps qs'.
Proof.
  induction fuel as [|fuel IH]; intros r R qs Hqs HR HRs; [by left|].
  rewrite findAttNamesOne_unfold.
  destruct (fmap_eq_lookup_r _ _ _ r R Hqs HR) as (R' & -> & [= Hd _]).
  rewrite Hd.
  by destruct (findAttNamesOne_loop fuel r R (λ _, False) HR HRs
                 ltac:(done) IH (defs R) qs ltac:(done) Hqs) as [H _].
Qed.

Lemma findAttNamesOne_stuck (fuel : nat) :
  ∀ q qs, subPath ps q q → sameLattice ps qs →
          findAttNamesOne fuel q qs = OutOfFuel.
Proof.
  induction fuel as [|fuel IH]; intros q qs Hpath Hqs; [done|].
  destruct (subPath_cycle_step ps q Hpath)
    as (r & (Q & R & d & HQ & HQs & Hd & Hr & HR & HRs) & Hcycle).
  rewrite findAttNamesOne_unfold.
  destruct (fmap_eq_lookup_r _ _ _ q Q Hqs HQ) as (Q' & -> & [= HdQ _]).
  rewrite HdQ.
  pose proof (findAttNamesOne_loop fuel q Q (λ r, subPath ps r r) HQ HQs
                (λ r' qs' Hr' Hqs', IH r' qs' Hr' Hqs')
                (findAttNamesOne_returns fuel) (defs Q) qs (λ d H, H) Hqs)
    as [_ H].
  apply H. by exists d, r, R.
Qed.

End Cycle.

(** X15: when the definitions of the supertypes start with bound
    expressions, as [findSupertypes] has checked, and a supertype is
    reached from itself through definitions of supertypes, the recursion
    of [findAttNamesOne] on it has no end, whatever depth is allowed:
    [findAttNamesOne] has no test for a production that it is already
    working on. *)
Theorem findAttNamesOne_cycle (ps : list production) (s : nat) :
  supertypesBound ps → subPath ps s s →
  ∀ fuel, findAttNamesOne fuel s ps = OutOfFuel.
Proof.
  intros Hbound Hcycle fuel. by apply (findAttNamesOne_stuck ps Hbound).
Qed.

Lemma findAttNamesOne_cycle_witness :
  findAttNamesOne 1000 0 cyclicPairAnalyzed = OutOfFuel.
Proof.
  apply (findAttNamesOne_cycle cyclicPairAnalyzed 0).
  - intros q Q d HQ Hsup Hd. destruct q as [|[|?]]; simplify_eq/=.
    + apply list_elem_of_singleton in Hd. subst d. eexists.
      split; [reflexivity|by eexists].
    + apply list_elem_of_singleton in Hd. subst d. eexists.
      split; [reflexivity|by eexists].
  - apply (subPath_more _ 0 1 0); [|constructor].
    + eexists _, _, _. split; [reflexivity|]. split; [reflexivity|].
      split; [apply list_elem_of_singleton; reflexivity|].
      split; [reflexivity|]. split; reflexivity.
    + eexists _, _, _. split; [reflexivity|]. split; [reflexivity|].
      split; [apply list_elem_of_singleton; reflexivity|].
      split; [reflexivity|]. split; reflexivity.
Defined.

(** ** The classes that [main] prints *)

Lemma printLoop_Ok
    (printCppProductionClass : list production → nat → option string)
    (instanceProd : option nat) (toPrint : list nat)
    (ps ps' : list production) (out : list nat) :
  printLoop printCppProductionClass instanceProd toPrint ps = Ok (ps', out) →
  printPasses printCppProductionClass (length toPrint) instanceProd toPrint
              ps [] 0
  = Ok (ps', out, length toPrint).
Proof.
  unfold printLoop. intros ([[qs o] total] & Hrun & Hend)%result_bind_Ok.
  simpl in Hend. destruct (total =? length toPrint)%nat eqn:E; [|done].
  apply Nat.eqb_eq in E. simpl in Hend. injection Hend as <- <-.
  by rewrite Hrun, E.
Qed.

(** X16: when [main] gets past [printCppClasses], the analysis has
    returned a model, [selectProductions] has selected productions of it,
    and the classes printed are those of the selected productions, each
    once, every class after the classes of the supertypes of its
    production and, for an instance, after the class of [instance]. *)
Theorem main_classes
    (printCppProductionClass : list production → nat → option string)
    (grammar : list sourceProduction) (inFile : attributeSection)
    (fuel : nat) (a' : analyzer) (out : list nat) :
  main printCppProductionClass grammar inFile fuel = Ok (a', out) →
  ∃ a toPrint,
    analyze grammar inFile fuel = Ok a ∧
    selectProductions a = Ok toPrint ∧
    out ≡ₚ toPrint ∧
    emissionOrdered (productions a) (findProd "instance" (productions a)) out ∧
    ∀ k P', productions a' !! k = Some P' →
            (wasPrinted P' = true ↔ k ∈ toPrint).
Proof.
  unfold main. intros (a & Ha & Hprint)%result_bind_Ok.
  unfold printCppClasses in Hprint.
  apply result_bind_Ok in Hprint as (toPrint & Hsel & Hprint).
  apply result_bind_Ok in Hprint as (a1 & Hrec & Hprint).
  apply result_bind_Ok in Hprint as ([ps out'] & Hloop & [= <- <-]).
  pose proof (recordClasses_productions toPrint a a1 Hrec) as Hp.
  rewrite Hp in Hloop. apply printLoop_Ok in Hloop.
  destruct (printPasses_stuck printCppProductionClass
              (findProd "instance" (productions a)) toPrint (productions a)
              ps out' (length toPrint))
    as ((Hframe & Hmark & Hnd & Hsub & Hord) & Hlen & _);
    [by eapply analyze_not_printed|done|].
  assert (out' ≡ₚ toPrint) as Hperm.
  { apply submseteq_length_Permutation; [by apply NoDup_submseteq|lia]. }
  exists a, toPrint. split; [done|]. split; [done|]. split; [done|].
  split; [done|]. intros k P' HP'. simpl in HP'. rewrite (Hmark k P' HP').
  by rewrite Hperm.
Qed.

Lemma main_classes_witness :
  ∃ a' out a toPrint,
    main printsAll twoInstances (AttLines [] true) 1 = Ok (a', out) ∧
    analyze twoInstances (AttLines [] true) 1 = Ok a ∧
    selectProductions a = Ok toPrint ∧
    out ≡ₚ toPrint ∧
    emissionOrdered (productions a) (findProd "instance" (productions a)) out ∧
    ∀ k P', productions a' !! k = Some P' →
            (wasPrinted P' = true ↔ k ∈ toPrint).
Proof.
  destruct (main_classes printsAll twoInstances (AttLines [] true) 1
              _ _ ltac:(vm_compute; reflexivity)) as (a & toPrint & H).
  eexists _, _, a, toPrint. split; [vm_compute; reflexivity|]. exact H.
Defined.

(** ** [findOptProds]: the optional parents *)

Lemma optionalChild_ext (P Q : production) :
  defs Q = defs P → optionalChild Q = optionalChild P.
Proof. intros H. unfold optionalChild. by rewrite H. Qed.

Lemma findTransferName_found (parent child : nat) (ps ps' : list production) :
  findTransferName parent child ps = Ok ps' →
  ∃ I, I ∈ ps ∧ child ∈ ancestors I ∧ isInstance I = true ∧
       ps' = alter (set_transferName (Some (lhs I))) parent ps.
Proof.
  unfold findTransferName.
  destruct (List.find _ ps) as [I|] eqn:Hfind.
  - intros [= <-]. apply find_some in Hfind as [Hin Htest].
    apply andb_true_iff in Htest as [Hanc%bool_decide_eq_true Hinst].
    exists I. split; [by apply list_elem_of_In|done].
  - by destruct (ps !! parent).
Qed.

Lemma findOptProdsOne_reads (k : nat) (qs qs' : list production) :
  findOptProdsOne k qs = Ok qs' →
  readByFindOptProds <$> qs' = readByFindOptProds <$> qs.
Proof. by apply findOptProdsOne_keeps. Qed.

Lemma readByFindOptProds_eq (P Q : production) :
  readByFindOptProds P = readByFindOptProds Q →
  defs P = defs Q ∧ isInstance P = isInstance Q ∧
  beInstance P = beInstance Q ∧ ancestors P = ancestors Q ∧ lhs P = lhs Q.
Proof. unfold readByFindOptProds. by intros [= -> -> -> -> ->]. Qed.

(** One turn of [findOptProds] at a production of the optional-parent
    shape: what it writes, in terms of a model [ps] with the same read
    fields. *)
Lemma findOptProdsOne_parent (ps qs qs' : list production) (k c : nat)
    (P : production) :
  readByFindOptProds <$> qs = readByFindOptProds <$> ps →
  qs !! k = Some P → optionalChild P = Some c →
  findOptProdsOne k qs = Ok qs' →
  ∃ P', qs' !! k = Some P' ∧ optionalParentOf ps P' ∧
        (isOptional P' = 1 ∨ isOptional P' = 2) ∧
        (∀ p, p ≠ k → p ≠ c → qs' !! p = qs !! p) ∧
        (c ≠ k → ∀ C', qs' !! c = Some C' → isOptional C' = 3).
Proof.
  intros Hreads HP Hc Hrun.
  pose proof (findOptProdsOne_reads k qs qs' Hrun) as Hreads'.
  destruct (findOptProdsOne_Ok qs qs' k c P HP Hc Hrun) as (r & t & Hr & Hqs').
  assert (∀ p, p ≠ k → p ≠ c → qs' !! p = qs !! p) as Hother.
  { intros p Hpk Hpc. rewrite Hqs'.
    by rewrite !list_lookup_alter_ne by done. }
  assert (is_Some (qs' !! k)) as [P' HP'].
  { apply lookup_lt_is_Some. rewrite (fmap_eq_length _ _ _ Hreads').
    by eapply lookup_lt_Some. }
  exists P'. split; [done|].
  assert (optionalChild P' = Some c ∧ optProd P' = Some c ∧
          isOptional P' = r ∧ transferName P' = t) as (HcP' & Hopt & Hrole & Ht).
  { rewrite Hqs' in HP'. rewrite list_lookup_alter_eq in HP'.
    destruct (decide (k = c)) as [->|Hne].
    - rewrite list_lookup_alter_eq, HP in HP'. simpl in HP'.
      injection HP' as <-. simpl. split; [|done].
      rewrite <- Hc. by apply optionalChild_ext.
    - rewrite list_lookup_alter_ne, HP in HP' by done. simpl in HP'.
      injection HP' as <-. simpl. split; [|done].
      rewrite <- Hc. by apply optionalChild_ext. }
  split; [|split; [by rewrite Hrole|split; [done|]]]; cycle 1.
  { intros Hne C' HC'. rewrite Hqs' in HC'.
    rewrite list_lookup_alter_ne, list_lookup_alter_eq in HC' by done.
    destruct (qs !! c) as [Y|]; [|done]. simpl in HC'. by injection HC' as <-. }
  (* the child, as the turn reads it *)
  unfold findOptProdsOne in Hrun. rewrite HP, Hc in Hrun.
  set (ps2 := alter (set_optProd (Some c)) k
                (alter (λ c0, set_optProd (Some k) (set_isOptional 3 c0)) c
                       qs)) in Hrun.
  assert (readByFindOptProds <$> ps2 = readByFindOptProds <$> ps) as Hps2.
  { subst ps2. rewrite !fmap_alter_keep; done. }
  destruct (ps2 !! c) as [C|] eqn:HC; [|done].
  destruct (fmap_eq_lookup _ _ _ c C Hps2 HC) as (C0 & HC0 & HeqC).
  apply readByFindOptProds_eq in HeqC as (_ & HiC & HbC & _ & HlC).
  exists c, C0. split; [done|]. split; [done|]. split; [done|].
  rewrite <- HiC, <- HbC, <- HlC.
  assert (∀ X, qs' = alter (λ p, set_transferName (Some X)
                                     (set_isOptional 1 p)) k ps2 →
               r = 1 ∧ t = Some X) as Hone.
  { intros X HX. rewrite HX, list_lookup_alter_eq in HP'.
    destruct (ps2 !! k) as [Y|]; [|done]. simpl in HP'. injection HP' as <-.
    simpl in Hrole, Ht. by subst. }
  destruct (isInstance C) eqn:Hinst.
  - injection Hrun as Hrun. symmetry in Hrun.
    destruct (Hone _ Hrun) as [-> ->]. split; [by split; [left|]|].
    by exists (lhs C).
  - destruct (beInstance C) as [b|] eqn:Hbe.
    + apply findTransferName_found in Hrun as (I & HI & Hanc & HIi & ->).
      rewrite list_alter_alter_eq in HP'.
      rewrite list_lookup_alter_eq in HP'.
      destruct (ps2 !! k) as [Y|]; [|done]. simpl in HP'. injection HP' as <-.
      simpl in Hrole, Ht. subst r t. split; [split; [by right; eexists|done]|].
      exists (lhs I). split; [done|].
      apply list_elem_of_lookup in HI as [i HI].
      assert (readByFindOptProds <$> alter (set_isOptional 1) k ps2 =
              readByFindOptProds <$> ps) as HpsI
        by by rewrite fmap_alter_keep.
      destruct (fmap_eq_lookup _ _ _ i I HpsI HI) as (I0 & HI0 & HeqI).
      apply readByFindOptProds_eq in HeqI as (_ & HiI & _ & HaI & HlI).
      exists I0. split; [by eapply list_elem_of_lookup_2|].
      by rewrite <- HaI, <- HiI, <- HlI.
    + injection Hrun as Hrun. symmetry in Hrun.
      rewrite Hrun, list_lookup_alter_eq in HP'.
      destruct (ps2 !! k) as [Y|]; [|done]. simpl in HP'. injection HP' as <-.
      simpl in Hrole, Ht. subst r t. split.
      * split; [done|]. intros [?|[? ?]]; done.
      * by exists (lhs C).
Qed.

Lemma findOptProds_parents (ps ps' : list production) :
  (∀ p P, ps !! p = Some P → isOptional P = 0) →
  findOptProds ps = Ok ps' →
  readByFindOptProds <$> ps' = readByFindOptProds <$> ps ∧
  ∀ p P', ps' !! p = Some P' → isOptional P' = 1 ∨ isOptional P' = 2 →
          optionalParentOf ps P'.
Proof.
  intros Hfresh Hrun.
  apply (forEachProdM_ind
           (λ _ qs, readByFindOptProds <$> qs = readByFindOptProds <$> ps ∧
                    ∀ p P', qs !! p = Some P' →
                            isOptional P' = 1 ∨ isOptional P' = 2 →
                            optionalParentOf ps P')
           findOptProdsOne ps ps'); [|clear Hrun|exact Hrun].
  - split; [done|]. intros p P' HP' Hr. rewrite (Hfresh p P' HP') in Hr.
    by destruct Hr.
  - intros k qs qs' Hk [Hreads HI] Hstep.
    split; [by rewrite (findOptProdsOne_reads k qs qs' Hstep)|].
    assert (is_Some (qs !! k)) as [Qk HQk].
    { apply lookup_lt_is_Some. by rewrite (fmap_eq_length _ _ _ Hreads). }
    destruct (optionalChild Qk) as [c|] eqn:Hc.
    + destruct (findOptProdsOne_parent ps qs qs' k c Qk Hreads HQk Hc Hstep)
        as (P1 & HP1 & Hpar & _ & Hother & Hchild).
      intros p P' HP' Hr.
      destruct (decide (p = k)) as [->|Hpk]; [congruence|].
      destruct (decide (p = c)) as [->|Hpc].
      * rewrite (Hchild Hpk P' HP') in Hr. by destruct Hr.
      * rewrite Hother in HP' by done. by eapply HI.
    + unfold findOptProdsOne in Hstep. rewrite HQk, Hc in Hstep.
      injection Hstep as <-. exact HI.
Qed.

(** X17: when no production has a role before [findOptProds], every
    production that has role 1 or 2 after it is an optional parent as the
    function sets one up: it has the optional-parent shape, its [optProd]
    is the child of that shape, its role is 1 exactly when the child is an
    instance or has a [beInstance], and its [transferName] is the name of
    the child, or, for a child that is no instance but has a [beInstance],
    the name of an instance that has the child among its ancestors. *)
Theorem findOptProds_transferName (ps ps' : list production) :
  (∀ p P, ps !! p = Some P → isOptional P = 0) →
  findOptProds ps = Ok ps' →
  ∀ p P', ps' !! p = Some P' → isOptional P' = 1 ∨ isOptional P' = 2 →
          optionalParentOf ps P'.
Proof. intros Hfresh Hrun. by apply findOptProds_parents. Qed.

Lemma findOptProds_transferName_witness :
  ∃ ps', findOptProds optionalSuperClassified = Ok ps' ∧
         ∀ p P', ps' !! p = Some P' → isOptional P' = 1 ∨ isOptional P' = 2 →
                 optionalParentOf optionalSuperClassified P'.
Proof.
  eexists. split; [vm_compute; reflexivity|].
  apply (findOptProds_transferName optionalSuperClassified).
  - intros p P HP. unfold optionalSuperClassified in HP.
    do 7 (destruct p as [|p];
          [simpl in HP; injection HP as <-; reflexivity|]).
    discriminate.
  - vm_compute. reflexivity.
Defined.

(** ** [findTypeName] on the analyzed model *)

Lemma findIsList_item (P : production) :
  findIsList P ≠ 0 → ∃ item rest, defs P = [item] :: rest.
Proof.
  unfold findIsList. destruct (defs P) as [|d rest]; [done|].
  destruct (negb _); [done|]. simpl head.
  destruct (last (d :: rest)); [|done].
  destruct d as [|item [|? ?]]; [done| |done]. intros _. by exists item, rest.
Qed.

(** X18: on the analyzed model [findTypeName] returns a name for every
    expression bound to a production, so that none of its unchecked
    pointers is null: for a list the name is the renamed name of the
    single expression of the first definition, for an optional parent
    (role 1 or 2) the name of the production of its first definition,
    its optional child, and else the name of the expression itself. *)
Theorem analyze_findTypeName (grammar : list sourceProduction)
    (inFile : attributeSection) (fuel : nat) (a : analyzer)
    (e : expression) (q : nat) (Q : production) :
  analyze grammar inFile fuel = Ok a →
  prodValue e = Some q → productions a !! q = Some Q →
  ∃ name, findTypeName (productions a) e = Ok name ∧
    if negb (isList Q =? 0) then
      ∃ item rest, defs Q = [item] :: rest ∧
                   name = listItemTypeName (itemName item)
    else if (isOptional Q =? 1) || (isOptional Q =? 2) then
      ∃ c C, optionalChild Q = Some c ∧ productions a !! c = Some C ∧
             name = lhs C
    else name = itemName e.
Proof.
  intros Hrun He HQ.
  destruct (analyze_Ok _ _ _ _ Hrun)
    as (a3 & ps4 & ps6 & ps7 & Hcl & H4 & H6 & H7 & H8 & _).
  pose proof Hcl as (a0 & ps1 & Hparse & Hatts & Hps3)%classify_Ok.
  unfold findTypeName. rewrite He. simpl. rewrite HQ.
  assert (∀ {A} (f : production → A),
            (∀ x P, f (set_myExps x P) = f P) →
            (∀ x P, f (set_attNames x P) = f P) →
            f <$> productions a = f <$> ps6) as Hlate.
  { intros A f Hf1 Hf2.
    rewrite (findMyExps_keeps f ps7 (productions a)) by done.
    by apply (findAttNamesAll_keeps f fuel ps6 ps7). }
  destruct (negb (isList Q =? 0)) eqn:Hlist.
  - (* a list *)
    set (g := λ P : production, (defs P, lhs P, isList P)).
    assert (g <$> productions a = g <$> findProdValueAll ps1) as Hg.
    { rewrite Hlate by done.
      rewrite (findOptProds_keeps g (findBeInstance ps4) ps6) by done.
      rewrite findBeInstance_keeps by done.
      rewrite (findAllAncestors_keeps g (productions a3) ps4) by done.
      rewrite Hps3. by apply findSupertypes_keeps. }
    destruct (fmap_eq_lookup g _ _ q Q Hg HQ) as (Q2 & HQ2 & [= Hd Hl Hi]).
    pose proof (bound_isList grammar inFile a0 ps1 Hparse Hatts) as HisList.
    rewrite Forall_lookup in HisList.
    assert (findIsList Q ≠ 0) as Hne.
    { rewrite (findIsList_ext Q2 Q Hd Hl), <- (HisList q Q2 HQ2), <- Hi.
      apply negb_true_iff, Z.eqb_neq in Hlist. done. }
    destruct (findIsList_item Q Hne) as (item & rest & Hdefs).
    rewrite Hdefs. simpl. eexists. split; [done|]. by exists item, rest.
  - destruct ((isOptional Q =? 1) || (isOptional Q =? 2)) eqn:Hrole.
    + (* an optional parent *)
      assert (isOptional Q = 1 ∨ isOptional Q = 2) as Hr.
      { apply orb_true_iff in Hrole as [?%Z.eqb_eq|?%Z.eqb_eq]; auto. }
      assert (Forall (λ P, isOptional P = 0) (productions a3)) as Ffresh
        by by apply (classify_fresh isOptional 0 grammar inFile).
      assert (Forall (λ P, isOptional P = 0) (findBeInstance ps4)) as Ffresh5.
      { apply (Forall_keeps isOptional 0 ps4);
          [by apply findBeInstance_keeps|].
        apply (Forall_keeps isOptional 0 (productions a3)); [|done].
        by apply findAllAncestors_keeps. }
      rewrite Forall_lookup in Ffresh5.
      destruct (findOptProds_parents _ _ Ffresh5 H6) as [Hreads Hparents].
      set (g := λ P : production, (defs P, isOptional P, optProd P)).
      assert (g <$> productions a = g <$> ps6) as Hg by by apply Hlate.
      destruct (fmap_eq_lookup g _ _ q Q Hg HQ) as (Q6 & HQ6 & [= Hd Ho Hp]).
      rewrite Ho in Hr.
      destruct (Hparents q Q6 HQ6 Hr) as (c & C & Hc & Hopt & HC & _).
      destruct (fmap_eq_lookup_r lhs (findBeInstance ps4) (productions a) c C)
        as (C' & HC' & Hl); [|done|].
      { rewrite Hlate by done.
        by apply (findOptProds_keeps lhs (findBeInstance ps4)). }
      rewrite Hp, Hopt. simpl. rewrite HC'. eexists. split; [done|].
      exists c, C'. split; [|done].
      rewrite <- Hc. by apply optionalChild_ext.
    + eexists. split; done.
Qed.

Lemma analyze_findTypeName_witness :
  ∃ a Q, analyze optionalSuper (AttLines [] true) 10 = Ok a ∧
         productions a !! 2%nat = Some Q ∧
         ∃ name,
           findTypeName (productions a)
                        (mkExpression NONTERMINAL "optS" (Some 2%nat))
           = Ok name ∧
           if negb (isList Q =? 0) then
             ∃ item rest, defs Q = [item] :: rest ∧
                          name = listItemTypeName (itemName item)
           else if (isOptional Q =? 1) || (isOptional Q =? 2) then
             ∃ c C, optionalChild Q = Some c ∧
                    productions a !! c = Some C ∧ name = lhs C
           else name = "optS"%string.
Proof.
  eexists _, _. split; [vm_compute; reflexivity|]. split; [reflexivity|].
  apply (analyze_findTypeName optionalSuper (AttLines [] true) 10 _
           (mkExpression NONTERMINAL "optS" (Some 2%nat)) 2);
    [vm_compute|..]; reflexivity.
Defined.

(** ** The methods of [stringList] on cells *)

Section StringListCells.
Import StringList.

Lemma segment_app (h : heap) (c1 c2 : list (nat * string))
    (p q : option nat) :
  segment h p (c1 ++ c2) q ↔ ∃ m, segment h p c1 m ∧ segment h m c2 q.
Proof.
  revert p. induction c1 as [|[a s] c1 IH]; intros p; simpl.
  - split; [intros H; by exists p|by intros (m & -> & H)].
  - split.
    + intros (-> & c & Hc & Hs & (m & H1 & H2)%IH). exists m.
      split; [|done]. split; [done|]. by exists c.
    + intros (m & (-> & c & Hc & Hs & H1) & H2). split; [done|].
      exists c. split; [done|]. split; [done|]. apply IH. by exists m.
Qed.

Lemma segment_cons (h : heap) (a : nat) (c : stringListCell)
    (rest : list (nat * string)) (q : option nat) :
  h !! a = Some c → segment h (next c) rest q →
  segment h (Some a) ((a, data c) :: rest) q.
Proof. intros Hc H. split; [done|]. by exists c. Qed.

Lemma segment_valid (h : heap) (cells : list (nat * string))
    (p q : option nat) (a : nat) :
  segment h p cells q → a ∈ cells.*1 → (a < length h)%nat.
Proof.
  revert p. induction cells as [|[b s] cells IH]; intros p; simpl.
  - intros _ H. by apply elem_of_nil in H.
  - intros (-> & c & Hc & _ & H) [->|Ha]%elem_of_cons.
    + by eapply lookup_lt_Some.
    + by eapply IH.
Qed.

Lemma segment_grow (h h' : heap) (cells : list (nat * string))
    (p q : option nat) :
  segment h p cells q → segment (h ++ h') p cells q.
Proof.
  revert p. induction cells as [|[b s] cells IH]; intros p; simpl; [done|].
  intros (-> & c & Hc & Hs & H). split; [done|]. exists c.
  split; [by apply lookup_app_l_Some|]. split; [done|]. by apply IH.
Qed.

Lemma segment_alter_ne (h : heap) (f : stringListCell → stringListCell)
    (b : nat) (cells : list (nat * string)) (p q : option nat) :
  b ∉ cells.*1 → segment h p cells q → segment (alter f b h) p cells q.
Proof.
  revert p. induction cells as [|[a s] cells IH]; intros p; [done|].
  rewrite fmap_cons. cbn [segment fst].
  intros Hb (-> & c & Hc & Hs & H). split; [done|]. exists c.
  split; [|split; [done|]].
  - rewrite list_lookup_alter_ne; [done|]. intros ->. apply Hb. by left.
  - apply IH; [|done]. intros Hin. apply Hb. by right.
Qed.

Lemma segment_det (h : heap) (c1 c2 : list (nat * string)) (p : option nat) :
  segment h p c1 None → segment h p c2 None → c1 = c2.
Proof.
  revert c2 p. induction c1 as [|[a s] c1 IH]; intros [|[a' s'] c2] p; simpl.
  - done.
  - intros -> [? _]. done.
  - intros [-> _] ?. done.
  - intros (-> & c & Hc & Hs & H1) ([= <-] & c' & Hc' & Hs' & H2).
    assert (c' = c) as -> by congruence. subst. f_equal. by eapply IH.
Qed.

Lemma segment_NoDup (h : heap) (cells : list (nat * string))
    (p : option nat) :
  segment h p cells None → NoDup cells.*1.
Proof.
  revert p. induction cells as [|[a s] cells IH]; intros p Hseg.
  - constructor.
  - pose proof Hseg as (-> & c & Hc & Hs & H). simpl. constructor.
    + intros Hin. apply list_elem_of_fmap in Hin as ([a' s'] & Ha & Hin).
      simpl in Ha. subst a'.
      apply list_elem_of_split in Hin as (r1 & r2 & ->).
      apply segment_app in H as (m & _ & H2).
      pose proof H2 as [-> _].
      pose proof (segment_det _ _ _ _ Hseg H2) as E.
      apply (f_equal length) in E. simpl in E. rewrite length_app in E.
      simpl in E. lia.
    + by eapply IH.
Qed.

(** Linking the last cell of a segment to another cell. *)
Lemma segment_link (h : heap) (cells : list (nat * string)) (b : nat)
    (s : string) (p q v : option nat) :
  NoDup (cells ++ [(b, s)]).*1 →
  segment h p (cells ++ [(b, s)]) q →
  segment (alter (set_next v) b h) p (cells ++ [(b, s)]) v.
Proof.
  intros Hnd (m & H1 & (-> & c & Hc & Hs & _))%segment_app.
  apply segment_app. exists (Some b). split.
  - apply segment_alter_ne; [|done]. rewrite fmap_app in Hnd.
    apply NoDup_app in Hnd as (_ & Hnd & _). intros Hin.
    apply (Hnd b Hin). simpl. by left.
  - simpl. split; [done|]. exists (set_next v c).
    split; [|done]. by rewrite list_lookup_alter_eq, Hc.
Qed.

Lemma last_snoc_fst (cells : list (nat * string)) (c : nat * string) :
  fst <$> list.last (cells ++ [c]) = Some c.1.
Proof. by rewrite last_snoc. Qed.

Lemma last_app_cons {A : Type} (l1 l2 : list A) (x : A) :
  list.last (l1 ++ x :: l2) = list.last (x :: l2).
Proof.
  induction l1 as [|y l1 IH]; [done|]. simpl.
  destruct (l1 ++ x :: l2) eqn:E; [by destruct l1|]. done.
Qed.

Lemma record_loop_spec (dataIn : string) (h : heap) (l : stringList)
    (cells : list (nat * string)) :
  represents h l cells → cells ≠ [] →
  ∀ after before fuel aCell backCell,
    cells = before ++ after →
    segment h (first l) before aCell → segment h aCell after None →
    (before ≠ [] → backCell = fst <$> list.last before) →
    Forall (λ y, 0 < strcmp dataIn y) before.*2 →
    (length after ≤ fuel)%nat →
    ∃ h' l' cells',
      record_loop fuel dataIn h l aCell backCell = Ok (h', l') ∧
      represents h' l' cells' ∧
      recorded_in dataIn cells.*2 cells'.*2 ∧
      ∀ a c, h !! a = Some c → ∃ c', h' !! a = Some c' ∧ data c' = data c.
Proof.
  intros [Hseg Hlast] Hne.
  pose proof (segment_NoDup _ _ _ Hseg) as Hnd.
  assert (∀ a, a ∈ cells.*1 → (a < length h)%nat) as Hvalid
    by (intros a; by eapply segment_valid).
  induction after as [|[a s] after IH];
    intros before fuel aCell backCell Hcells Hbefore Hafter Hback Hgt Hfuel.
  - (* the string goes at the end *)
    rewrite app_nil_r in Hcells. subst before. simpl in Hafter. subst aCell.
    rewrite (Hback Hne). clear Hback.
    destruct (exists_last Hne) as (init & [b sb] & Hcells).
    assert (fst <$> list.last cells = Some b) as ->
      by (rewrite Hcells; apply last_snoc_fst).
    assert (b < length h)%nat as Hb.
    { apply Hvalid. rewrite Hcells, fmap_app. apply elem_of_app. right.
      by left. }
    assert (record_loop fuel dataIn h l None (Some b)
            = let '(newLast, h1) := new_stringListCell dataIn h in
              h2 ← store_next (Some b) (Some newLast) h1;
              Ok (h2, mkStringList (first l) (Some newLast))) as ->
      by by destruct fuel.
    unfold new_stringListCell, store_next. rewrite lookup_app_l by done.
    destruct (h !! b) as [cb|] eqn:Hcb;
      [|by apply lookup_ge_None in Hcb; lia].
    simpl. eexists _, _, (cells ++ [(length h, dataIn)]).
    split; [reflexivity|]. split; [|split].
    + split; [|by rewrite last_snoc].
      cbn [first]. apply segment_app. exists (Some (length h)). split.
      * rewrite Hcells. eapply segment_link; [by rewrite <- Hcells|].
        rewrite <- Hcells. by apply segment_grow.
      * cbn [segment]. split; [done|]. eexists. split.
        -- rewrite list_lookup_alter_ne by lia. by apply list_lookup_middle.
        -- done.
    + exists cells.*2, []. split; [by rewrite app_nil_r|]. split; [done|].
      by rewrite fmap_app.
    + intros a c Hc. destruct (decide (a = b)) as [->|Hab].
      * rewrite list_lookup_alter_eq, lookup_app_l, Hc by done. simpl.
        by eexists.
      * rewrite list_lookup_alter_ne by done. exists c.
        split; [by apply lookup_app_l_Some|done].
  - (* the cell [a] *)
    pose proof Hafter as (-> & c & Hc & Hs & Hrest).
    destruct fuel as [|fuel]; [simpl in Hfuel; lia|]. simpl in Hfuel.
    assert (NoDup (before.*1 ++ a :: after.*1)) as Hnd'.
    { rewrite Hcells, fmap_app in Hnd. done. }
    apply NoDup_app in Hnd' as (Hnd1 & Hnd2 & Hnd3).
    apply NoDup_cons in Hnd3 as (Hnd3 & Hnd4).
    assert (Some a = first l ↔ before = []) as Hfirst.
    { split.
      - intros E. destruct before as [|[a0 s0] before]; [done|].
        destruct Hbefore as [E0 _]. rewrite E0 in E. injection E as <-.
        exfalso. apply (Hnd2 a); simpl; by left.
      - intros ->. done. }
    cbn [record_loop]. rewrite Hc. cbv zeta.
    destruct (strcmp dataIn (data c) <? 0) eqn:Hlt.
    + (* insert before [a] *)
      apply Z.ltb_lt in Hlt.
      assert (recorded_in dataIn cells.*2
                (before.*2 ++ dataIn :: ((a, s) :: after).*2)) as Hrec.
      { exists before.*2, ((a, s) :: after).*2.
        split; [by rewrite Hcells, fmap_app|]. split; [done|].
        simpl. rewrite <- Hs.
        destruct (strcmp dataIn (data c) =? 0) eqn:E;
          [apply Z.eqb_eq in E; lia|done]. }
      assert (∀ x, x ∈ cells.*1 → x ≠ length h) as Hfresh
        by (intros x Hx%Hvalid; lia).
      destruct (decide (Some a = first l)) as [E|E].
      * apply Hfirst in E. subst before. simpl in Hcells.
        unfold new_stringListCell, store_next.
        rewrite list_lookup_middle by done. simpl.
        eexists _, _, ((length h, dataIn) :: cells).
        split; [reflexivity|]. split; [|split].
        -- split.
           ++ apply (segment_cons _ _ (mkStringListCell dataIn (Some a))).
              ** rewrite list_lookup_alter_eq, list_lookup_middle by done.
                 done.
              ** cbn [next]. apply segment_alter_ne.
                 { intros Hin. by apply (Hfresh _ Hin). }
                 apply segment_grow. rewrite Hcells. done.
           ++ simpl. rewrite Hlast. by destruct cells.
        -- rewrite <- Hcells in Hrec. done.
        -- intros x cx Hx. exists cx. split; [|done].
           rewrite list_lookup_alter_ne
             by (apply lookup_lt_Some in Hx; lia).
           by apply lookup_app_l_Some.
      * assert (before ≠ []) as Hbne by (intros ?; by apply E, Hfirst).
        rewrite (Hback Hbne).
        destruct (exists_last Hbne) as (init & [b sb] & Hb).
        assert (fst <$> list.last before = Some b) as ->
          by (rewrite Hb; apply last_snoc_fst).
        assert (b ∈ before.*1) as Hbin.
        { rewrite Hb, fmap_app. apply elem_of_app. right. by left. }
        assert (b < length h)%nat as Hblt.
        { apply Hvalid. rewrite Hcells, fmap_app. apply elem_of_app.
          by left. }
        unfold new_stringListCell, store_next.
        rewrite lookup_app_l by done.
        destruct (h !! b) as [cb|] eqn:Hcb;
          [|by apply lookup_ge_None in Hcb; lia].
        simpl. rewrite list_lookup_alter_ne by lia.
        rewrite list_lookup_middle by done. simpl.
        eexists _, _, (before ++ (length h, dataIn) :: (a, s) :: after).
        split; [reflexivity|]. split; [|split].
        -- split.
           ++ apply segment_app. exists (Some (length h)). split.
              ** apply segment_alter_ne.
                 { intros Hin. apply (Hfresh (length h)); [|done].
                   rewrite Hcells, fmap_app. apply elem_of_app. by left. }
                 rewrite Hb. eapply segment_link.
                 { by rewrite <- Hb. }
                 rewrite <- Hb. by apply segment_grow.
              ** apply (segment_cons _ _ (mkStringListCell dataIn (Some a))).
                 { rewrite list_lookup_alter_eq, list_lookup_alter_ne by lia.
                   by rewrite list_lookup_middle. }
                 cbn [next]. apply segment_alter_ne.
                 { intros Hin. apply (Hfresh (length h)); [|done].
                   rewrite Hcells, fmap_app. apply elem_of_app. by right. }
                 apply segment_alter_ne.
                 { intros Hin. by apply (Hnd2 b). }
                 by apply segment_grow.
           ++ rewrite Hlast, Hcells. rewrite !last_app_cons. done.
        -- rewrite fmap_app. done.
        -- intros x cx Hx. apply lookup_lt_Some in Hx as Hxlt.
           rewrite list_lookup_alter_ne by lia.
           destruct (decide (x = b)) as [->|Hxb].
           ++ rewrite list_lookup_alter_eq, lookup_app_l, Hx by done.
              simpl. by eexists.
           ++ rewrite list_lookup_alter_ne by done. exists cx.
              split; [by apply lookup_app_l_Some|done].
    + apply Z.ltb_ge in Hlt.
      destruct (strcmp dataIn (data c) =? 0) eqn:Heq.
      * (* the string is there *)
        exists h, l, cells. split; [done|]. split; [done|]. split.
        -- exists before.*2, ((a, s) :: after).*2.
           split; [by rewrite Hcells, fmap_app|]. split; [done|].
           simpl. rewrite <- Hs, Heq. done.
        -- intros x cx Hx. by exists cx.
      * (* go on *)
        apply Z.eqb_neq in Heq.
        apply (IH (before ++ [(a, s)])).
        -- by rewrite <- app_assoc.
        -- apply segment_app. exists (Some a). split; [done|].
           simpl. split; [done|]. by exists c.
        -- done.
        -- intros _. by rewrite last_snoc.
        -- rewrite fmap_app. apply Forall_app. split; [done|].
           constructor; [|done]. simpl. rewrite <- Hs. lia.
        -- lia.
Qed.

Lemma record_spec (fuel : nat) (dataIn : string) (h : heap)
    (l : stringList) (cells : list (nat * string)) :
  represents h l cells → (length cells ≤ fuel)%nat →
  ∃ h' l' cells',
    record fuel dataIn h l = Ok (h', l') ∧ represents h' l' cells' ∧
    recorded_in dataIn cells.*2 cells'.*2.
Proof.
  intros Hrep Hfuel. destruct cells as [|[a s] cells].
  - unfold record. destruct Hrep as [Hseg Hlast]. simpl in Hseg. rewrite Hseg. simpl.
    exists (h ++ [mkStringListCell dataIn None]),
      (mkStringList (Some (length h)) (Some (length h))),
      [(length h, dataIn)].
    split; [done|]. split.
    + split; [|done]. simpl. split; [done|]. eexists.
      split; [by apply list_lookup_middle|done].
    + by exists [], [].
  - pose proof Hrep as [[Hfirst _] _].
    assert (record fuel dataIn h l = record_loop fuel dataIn h l (first l) None)
      as -> by (unfold record; by rewrite Hfirst).
    destruct (record_loop_spec dataIn h l ((a, s) :: cells) Hrep)
      with (after := (a, s) :: cells) (before := @nil (nat * string))
           (fuel := fuel) (aCell := first l) (backCell := @None nat)
      as (h' & l' & cells' & Hrun & Hrep' & Hrec & _); try done.
    + by destruct Hrep.
    + by exists h', l', cells'.
Qed.

Lemma recorded_in_elem (x : string) (old new : list string) :
  recorded_in x old new → ∀ y, y ∈ new ↔ y = x ∨ y ∈ old.
Proof.
  intros (before & after & -> & _ & Hnew) y. destruct after as [|z after].
  - rewrite Hnew, !elem_of_app, list_elem_of_singleton. tauto.
  - destruct (strcmp x z =? 0) eqn:E.
    + apply strcmp_eqb_true in E. subst z new.
      rewrite !elem_of_app, !elem_of_cons. tauto.
    + destruct Hnew as [_ ->].
      rewrite !elem_of_app, !elem_of_cons. tauto.
Qed.

Lemma recorded_in_ascending (x : string) (old new : list string) :
  recorded_in x old new → ascending old → ascending new.
Proof.
  intros (before & after & -> & Hgt & Hnew) Hasc.
  rewrite Forall_forall in Hgt.
  apply ascending_app in Hasc as (Hb & Ha & Hba).
  destruct after as [|z after].
  - rewrite app_nil_r in Hnew. subst new. apply ascending_app.
    split; [done|]. split; [by simpl|].
    intros u v Hu ->%list_elem_of_singleton. by apply strcmp_gt, Hgt.
  - destruct (strcmp x z =? 0) eqn:E.
    + subst new. by apply ascending_app.
    + destruct Hnew as [Hlt ->]. apply ascending_app. split; [done|]. split.
      * simpl. split; [|done]. destruct Ha as [Hz _].
        constructor; [done|]. eapply Forall_impl; [exact Hz|].
        intros v Hv. by eapply strcmp_lt_trans.
      * intros u v Hu [->|Hv]%elem_of_cons; [by apply strcmp_gt, Hgt|].
        by apply Hba.
Qed.

Lemma findLength_loop_spec (h : heap) (cells : list (nat * string)) :
  ∀ fuel p n,
    segment h p cells None → (length cells ≤ fuel)%nat →
    0 ≤ n → n + Z.of_nat (length cells) ≤ INT_MAX →
    findLength_loop fuel h p n = Ok (n + Z.of_nat (length cells)).
Proof.
  induction cells as [|[a s] cells IH]; intros fuel p n Hseg Hfuel Hn Hmax.
  - simpl in Hseg. subst p. destruct fuel; simpl; f_equal; lia.
  - destruct Hseg as (-> & c & Hc & _ & Hseg).
    destruct fuel as [|fuel]; simpl in Hfuel; [lia|].
    simpl length in Hmax. cbn [findLength_loop]. rewrite Hc.
    assert (int_succ n = n + 1) as ->.
    { unfold int_succ. unfold INT_MAX in Hmax.
      rewrite Z.mod_small; lia. }
    rewrite IH; [f_equal; simpl length; lia|done|lia|lia|lia].
Qed.

Lemma member_loop_spec (h : heap) (aString : string)
    (cells : list (nat * string)) :
  ∀ fuel p,
    segment h p cells None → (length cells ≤ fuel)%nat →
    ∃ r, member_loop fuel h aString p = Ok r ∧
         match r with
         | None => aString ∉ cells.*2
         | Some a =>
             ∃ i, cells !! i = Some (a, aString) ∧
                  ∀ j c, (j < i)%nat → cells !! j = Some c → c.2 ≠ aString
         end.
Proof.
  induction cells as [|[a s] cells IH]; intros fuel p Hseg Hfuel.
  - simpl in Hseg. subst p. exists None.
    split; [by destruct fuel|]. apply not_elem_of_nil.
  - destruct Hseg as (-> & c & Hc & Hs & Hseg).
    destruct fuel as [|fuel]; simpl in Hfuel; [lia|].
    cbn [member_loop]. rewrite Hc, Hs.
    destruct (strcmp s aString =? 0) eqn:E.
    + apply strcmp_eqb_true in E. subst s. exists (Some a).
      split; [done|]. exists 0%nat. split; [simpl; by rewrite E|].
      intros j c0 Hj. lia.
    + apply strcmp_eqb_false in E.
      destruct (IH fuel (next c) Hseg) as (r & Hrun & Hr); [lia|].
      exists r. split; [done|]. destruct r as [b|].
      * destruct Hr as (i & Hi & Hbefore). exists (S i). split; [done|].
        intros [|j] c0 Hj; simpl.
        -- by intros [= <-].
        -- apply Hbefore. lia.
      * rewrite fmap_cons. simpl. intros [->|Hin]%elem_of_cons; done.
Qed.

Lemma pushBack_spec (dataIn : string) (h : heap) (l : stringList)
    (cells : list (nat * string)) :
  represents h l cells →
  ∃ h' l' newCell,
    pushBack dataIn h l = Ok (h', l') ∧
    represents h' l' (cells ++ [(newCell, dataIn)]) ∧
    h !! newCell = None.
Proof.
  intros [Hseg Hlast]. unfold pushBack, new_stringListCell.
  set (h0 := h ++ [mkStringListCell dataIn None]).
  assert (length h0 = S (length h)) as Hlen
    by (unfold h0; rewrite length_app; simpl; lia).
  assert (h !! length h0 = None) as Hnew by (apply lookup_ge_None; lia).
  destruct (decide (cells = [])) as [->|Hne].
  - simpl in Hlast. rewrite Hlast. simpl in Hseg.
    eexists _, _, (length h0). split; [reflexivity|]. split; [|done].
    split; [|done]. simpl. split; [done|]. eexists.
    split; [by apply list_lookup_middle|done].
  - destruct (exists_last Hne) as (init & [b sb] & Hcells).
    assert (last l = Some b) as Hb.
    { rewrite Hlast, Hcells. apply last_snoc_fst. }
    rewrite Hb. unfold store_next.
    assert (b < length h)%nat as Hblt.
    { apply (segment_valid h cells (first l) None); [done|].
      rewrite Hcells, fmap_app. apply elem_of_app. right. by left. }
    rewrite lookup_app_l by (rewrite Hlen; lia).
    destruct (h0 !! b) as [cb|] eqn:Hcb;
      [|apply lookup_ge_None in Hcb; lia].
    simpl. eexists _, _, (length h0). split; [reflexivity|].
    split; [|done]. split; [|by rewrite last_snoc].
    cbn [first]. apply segment_app. exists (Some (length h0)). split.
    + rewrite Hcells. eapply segment_link.
      * rewrite <- Hcells. by eapply segment_NoDup.
      * rewrite <- Hcells. apply segment_grow. unfold h0.
        by apply segment_grow.
    + cbn [segment]. split; [done|]. eexists. split.
      * rewrite list_lookup_alter_ne by lia. by apply list_lookup_middle.
      * done.
Qed.

(** X19: [stringList::record] on a list made of the cells [cells] returns
    and leaves a list made of cells again, with [last] at its last cell;
    its strings are the old ones with [dataIn] put before the first
    string that is not smaller, or at the end if there is none, and
    unchanged if that string is [dataIn] itself. *)
Theorem stringList_record (fuel : nat) (dataIn : string) (h : heap)
    (l : stringList) (cells : list (nat * string)) :
  represents h l cells → (length cells ≤ fuel)%nat →
  ∃ h' l' cells',
    record fuel dataIn h l = Ok (h', l') ∧ represents h' l' cells' ∧
    recorded_in dataIn cells.*2 cells'.*2.
Proof. apply record_spec. Qed.

(** X20: [stringList::record] keeps a list in strictly ascending order of
    [strcmp], and the strings of the list after it are [dataIn] and the
    strings it had. *)
Theorem stringList_record_ascending (fuel : nat) (dataIn : string)
    (h : heap) (l : stringList) (cells : list (nat * string)) :
  represents h l cells → (length cells ≤ fuel)%nat →
  ascending cells.*2 →
  ∃ h' l' cells',
    record fuel dataIn h l = Ok (h', l') ∧ represents h' l' cells' ∧
    ascending cells'.*2 ∧
    ∀ y, y ∈ cells'.*2 ↔ y = dataIn ∨ y ∈ cells.*2.
Proof.
  intros Hrep Hfuel Hasc.
  destruct (record_spec fuel dataIn h l cells Hrep Hfuel)
    as (h' & l' & cells' & Hrun & Hrep' & Hrec).
  exists h', l', cells'. split; [done|]. split; [done|]. split.
  - by eapply recorded_in_ascending.
  - by apply recorded_in_elem.
Qed.

(** X21: [stringList::pushBack] on a list made of cells returns and
    leaves the list made of the same cells and a new cell with [dataIn]
    after them. *)
Theorem stringList_pushBack (dataIn : string) (h : heap) (l : stringList)
    (cells : list (nat * string)) :
  represents h l cells →
  ∃ h' l' newCell,
    pushBack dataIn h l = Ok (h', l') ∧
    represents h' l' (cells ++ [(newCell, dataIn)]) ∧
    h !! newCell = None.
Proof. apply pushBack_spec. Qed.

(** X22: on a list made of at most [INT_MAX] cells [stringList::findLength]
    returns the number of cells. *)
Theorem stringList_findLength (fuel : nat) (h : heap) (l : stringList)
    (cells : list (nat * string)) :
  represents h l cells → (length cells ≤ fuel)%nat →
  Z.of_nat (length cells) ≤ INT_MAX →
  findLength fuel h l = Ok (Z.of_nat (length cells)).
Proof.
  intros [Hseg _] Hfuel Hmax. unfold findLength.
  by rewrite (findLength_loop_spec h cells fuel (first l) 0).
Qed.

(** X23: on a list made of cells [stringList::member] returns the first
    cell with the string [aString], and the null pointer if no cell has
    it. *)
Theorem stringList_member (fuel : nat) (h : heap) (aString : string)
    (l : stringList) (cells : list (nat * string)) :
  represents h l cells → (length cells ≤ fuel)%nat →
  ∃ r, member fuel h aString l = Ok r ∧
       match r with
       | None => aString ∉ cells.*2
       | Some a =>
           ∃ i, cells !! i = Some (a, aString) ∧
                ∀ j c, (j < i)%nat → cells !! j = Some c → c.2 ≠ aString
       end.
Proof. intros [Hseg _] Hfuel. by apply member_loop_spec. Qed.

(** X24: after [pushBack] or [record] of a string on a list made of
    cells, [member] finds a cell with the string and [findLength] of the
    list after [pushBack] is one more than before. *)
Theorem stringList_round_trip (fuel : nat) (dataIn : string) (h : heap)
    (l : stringList) (cells : list (nat * string)) :
  represents h l cells → (length cells < fuel)%nat →
  Z.of_nat (length cells) < INT_MAX →
  (∃ h' l' a c,
     record fuel dataIn h l = Ok (h', l') ∧
     member fuel h' dataIn l' = Ok (Some a) ∧
     h' !! a = Some c ∧ data c = dataIn) ∧
  (∃ h' l' a c,
     pushBack dataIn h l = Ok (h', l') ∧
     member fuel h' dataIn l' = Ok (Some a) ∧
     h' !! a = Some c ∧ data c = dataIn ∧
     findLength fuel h' l' = Ok (Z.of_nat (length cells) + 1)).
Proof.
  intros Hrep Hfuel Hmax.
  assert (∀ h' l' cells',
            represents h' l' cells' → (length cells' ≤ fuel)%nat →
            dataIn ∈ cells'.*2 →
            ∃ a c, member fuel h' dataIn l' = Ok (Some a) ∧
                   h' !! a = Some c ∧ data c = dataIn) as Hfind.
  { intros h' l' cells' [Hseg' _] Hlen Hin.
    destruct (member_loop_spec h' dataIn cells' fuel (first l') Hseg' Hlen)
      as ([a|] & Hrun & Hr); [|done].
    destruct Hr as (i & Hi & _).
    apply (list_elem_of_split_length) in Hi as (c1 & c2 & -> & _).
    apply segment_app in Hseg' as (m & _ & (_ & c & Hc & Hs & _)).
    by exists a, c. }
  split.
  - destruct (record_spec fuel dataIn h l cells Hrep)
      as (h' & l' & cells' & Hrun & Hrep' & Hrec); [lia|].
    destruct (Hfind h' l' cells' Hrep') as (a & c & Hm & Hc & Hd).
    + assert (length cells'.*2 ≤ S (length cells.*2))%nat as Hlen.
      { destruct Hrec as (before & after & -> & _ & Hnew).
        destruct after as [|z after].
        - rewrite Hnew, !length_app. simpl. lia.
        - destruct (strcmp dataIn z =? 0).
          + rewrite Hnew. lia.
          + destruct Hnew as [_ ->]. rewrite !length_app. simpl. lia. }
      rewrite !length_fmap in Hlen. lia.
    + apply (recorded_in_elem _ _ _ Hrec). by left.
    + by exists h', l', a, c.
  - destruct (pushBack_spec dataIn h l cells Hrep)
      as (h' & l' & n & Hrun & Hrep' & _).
    assert (length (cells ++ [(n, dataIn)]) = S (length cells)) as Hlen
      by (rewrite length_app; simpl; lia).
    destruct (Hfind h' l' _ Hrep') as (a & c & Hm & Hc & Hd).
    + lia.
    + rewrite fmap_app. apply elem_of_app. right. by left.
    + exists h', l', a, c. repeat (split; [done|]).
      destruct Hrep' as [Hseg' _]. unfold findLength.
      rewrite (findLength_loop_spec h' _ fuel (first l') 0 Hseg');
        [f_equal; lia|lia|lia|lia].
Qed.

Lemma twoStrings_represents :
  represents twoStrings twoStringsList twoStringsCells.
Proof.
  split; [|done]. simpl. split; [done|]. eexists. split; [reflexivity|].
  split; [done|]. simpl. split; [done|]. eexists. split; [reflexivity|].
  done.
Qed.

Lemma stringList_record_witness :
  ∃ h' l' cells',
    record 2 "c" twoStrings twoStringsList = Ok (h', l') ∧
    represents h' l' cells' ∧
    recorded_in "c" twoStringsCells.*2 cells'.*2.
Proof.
  apply (stringList_record 2 "c" twoStrings twoStringsList twoStringsCells);
    [exact twoStrings_represents|simpl; lia].
Defined.

Lemma stringList_record_ascending_witness :
  ∃ h' l' cells',
    record 2 "c" twoStrings twoStringsList = Ok (h', l') ∧
    represents h' l' cells' ∧ ascending cells'.*2 ∧
    ∀ y, y ∈ cells'.*2 ↔ y = "c"%string ∨ y ∈ twoStringsCells.*2.
Proof.
  apply (stringList_record_ascending 2 "c" twoStrings twoStringsList
           twoStringsCells);
    [exact twoStrings_represents|simpl; lia|].
  simpl. repeat constructor.
Defined.

Lemma stringList_pushBack_witness :
  ∃ h' l' newCell,
    pushBack "a" twoStrings twoStringsList = Ok (h', l') ∧
    represents h' l' (twoStringsCells ++ [(newCell, "a"%string)]) ∧
    twoStrings !! newCell = None.
Proof.
  apply (stringList_pushBack "a" twoStrings twoStringsList twoStringsCells).
  exact twoStrings_represents.
Defined.

Lemma stringList_findLength_witness :
  findLength 2 twoStrings twoStringsList = Ok 2.
Proof.
  apply (stringList_findLength 2 twoStrings twoStringsList twoStringsCells);
    [exact twoStrings_represents|simpl; lia|by vm_compute].
Defined.

Lemma stringList_member_witness :
  ∃ r, member 2 twoStrings "d" twoStringsList = Ok r ∧
       match r with
       | None => "d"%string ∉ twoStringsCells.*2
       | Some a =>
           ∃ i, twoStringsCells !! i = Some (a, "d"%string) ∧
                ∀ j c, (j < i)%nat → twoStringsCells !! j = Some c →
                       c.2 ≠ "d"%string
       end.
Proof.
  apply (stringList_member 2 twoStrings "d" twoStringsList twoStringsCells);
    [exact twoStrings_represents|simpl; lia].
Defined.

Lemma stringList_round_trip_witness :
  (∃ h' l' a c,
     record 3 "c" twoStrings twoStringsList = Ok (h', l') ∧
     member 3 h' "c" l' = Ok (Some a) ∧
     h' !! a = Some c ∧ data c = "c"%string) ∧
  (∃ h' l' a c,
     pushBack "c" twoStrings twoStringsList = Ok (h', l') ∧
     member 3 h' "c" l' = Ok (Some a) ∧
     h' !! a = Some c ∧ data c = "c"%string ∧
     findLength 3 h' l' = Ok (2 + 1)).
Proof.
  apply (stringList_round_trip 3 "c" twoStrings twoStringsList
           twoStringsCells);
    [exact twoStrings_represents|simpl; lia|by vm_compute].
Defined.

End StringListCells.

(** ** The methods of [defList], [expList] and [prodList] on cells *)

Section CellLists.
Import CellList.
Context {A : Type}.
Implicit Types (h : list (listCell A)) (cells : list (nat * A)).

Lemma lastCell_snoc prev cells (c : nat * A) :
  lastCell prev (cells ++ [c]) = Some c.1.
Proof. unfold lastCell. by rewrite last_snoc. Qed.

Lemma lastCell_cons prev (c : nat * A) cells :
  lastCell prev (c :: cells) = lastCell (Some c.1) cells.
Proof.
  unfold lastCell. destruct cells as [|d cells]; [reflexivity|].
  rewrite last_cons_cons.
  destruct (list.last (d :: cells)) eqn:E; [done|]. by apply last_None in E.
Qed.

Lemma dsegment_app h prev p q (c1 c2 : list (nat * A)) :
  segment h prev p (c1 ++ c2) q ↔
  ∃ m, segment h prev p c1 m ∧ segment h (lastCell prev c1) m c2 q.
Proof.
  revert prev p. induction c1 as [|[a x] c1 IH]; intros prev p.
  - simpl. split; [intros H; by exists p|by intros (m & -> & H)].
  - rewrite lastCell_cons. cbn [app segment fst]. split.
    + intros (-> & c & Hc & Hx & Hb & (m & H1 & H2)%IH). exists m.
      split; [|done]. split; [done|]. by exists c.
    + intros (m & (-> & c & Hc & Hx & Hb & H1) & H2). split; [done|].
      exists c. repeat (split; [done|]). apply IH. by exists m.
Qed.

Lemma dsegment_valid h prev p q cells (a : nat) :
  segment h prev p cells q → a ∈ cells.*1 → (a < length h)%nat.
Proof.
  revert prev p. induction cells as [|[b x] cells IH]; intros prev p.
  - intros _ H. by apply elem_of_nil in H.
  - rewrite fmap_cons. cbn [segment fst].
    intros (-> & c & Hc & _ & _ & H) [->|Ha]%elem_of_cons.
    + by eapply lookup_lt_Some.
    + by eapply IH.
Qed.

Lemma dsegment_grow h h' prev p q cells :
  segment h prev p cells q → segment (h ++ h') prev p cells q.
Proof.
  revert prev p. induction cells as [|[b x] cells IH]; intros prev p;
    [done|].
  cbn [segment]. intros (-> & c & Hc & Hx & Hb & H). split; [done|].
  exists c. split; [by apply lookup_app_l_Some|]. repeat (split; [done|]).
  by apply IH.
Qed.

Lemma dsegment_alter_ne h (f : listCell A → listCell A) (b : nat)
    prev p q cells :
  b ∉ cells.*1 → segment h prev p cells q →
  segment (alter f b h) prev p cells q.
Proof.
  revert prev p. induction cells as [|[a x] cells IH]; intros prev p;
    [done|].
  rewrite fmap_cons. cbn [segment fst].
  intros Hb (-> & c & Hc & Hx & Hbk & H). split; [done|]. exists c.
  split; [|repeat (split; [done|])].
  - rewrite list_lookup_alter_ne; [done|]. intros ->. apply Hb. by left.
  - apply IH; [|done]. intros Hin. apply Hb. by right.
Qed.

Lemma dsegment_det h (c1 c2 : list (nat * A)) prev1 prev2 p :
  segment h prev1 p c1 None → segment h prev2 p c2 None → c1 = c2.
Proof.
  revert c2 prev1 prev2 p.
  induction c1 as [|[a x] c1 IH]; intros [|[a' x'] c2] prev1 prev2 p;
    cbn [segment].
  - done.
  - intros -> [? _]. done.
  - intros [-> _] ?. done.
  - intros (-> & c & Hc & Hx & _ & H1) ([= <-] & c' & Hc' & Hx' & _ & H2).
    assert (c' = c) as -> by congruence. subst. f_equal. by eapply IH.
Qed.

Lemma dsegment_NoDup h prev p cells :
  segment h prev p cells None → NoDup cells.*1.
Proof.
  revert prev p. induction cells as [|[a x] cells IH]; intros prev p Hseg.
  - constructor.
  - pose proof Hseg as (-> & c & Hc & Hx & _ & H). rewrite fmap_cons.
    constructor.
    + intros Hin. apply list_elem_of_fmap in Hin as ([a' x'] & Ha & Hin).
      simpl in Ha. subst a'.
      apply list_elem_of_split in Hin as (r1 & r2 & ->).
      apply dsegment_app in H as (m & _ & H2).
      pose proof H2 as [-> _].
      pose proof (dsegment_det _ _ _ _ _ _ Hseg H2) as E.
      apply (f_equal length) in E. simpl in E. rewrite length_app in E.
      simpl in E. lia.
    + by eapply IH.
Qed.

Lemma cell_pushBack_spec (dataIn : A) h (l : cellList) cells :
  represents h l cells →
  ∃ h' l' newCell,
    pushBack dataIn h l = Ok (h', l') ∧
    represents h' l' (cells ++ [(newCell, dataIn)]) ∧
    h !! newCell = None.
Proof.
  intros [Hseg Hlast]. unfold pushBack, new_listCell.
  assert (h !! length h = None) as Hnew by (apply lookup_ge_None; lia).
  destruct (decide (cells = [])) as [->|Hne].
  - simpl in Hlast. rewrite Hlast. simpl in Hseg.
    eexists _, _, (length h). split; [reflexivity|]. split; [|done].
    split; [|done]. cbn [first app segment]. split; [done|]. eexists.
    split; [by apply list_lookup_middle|done].
  - destruct (exists_last Hne) as (init & [b xb] & Hcells).
    assert (last l = Some b) as Hb.
    { rewrite Hlast, Hcells. apply lastCell_snoc. }
    rewrite Hb. unfold store.
    assert (b < length h)%nat as Hblt.
    { apply (dsegment_valid h None (first l) None cells); [done|].
      rewrite Hcells, fmap_app. apply elem_of_app. right. by left. }
    rewrite lookup_app_l by done.
    destruct (h !! b) as [cb|] eqn:Hcb;
      [|apply lookup_ge_None in Hcb; lia].
    simpl. rewrite list_lookup_alter_ne by lia.
    rewrite list_lookup_middle by done. simpl.
    eexists _, _, (length h). split; [reflexivity|].
    split; [|done]. split; [|by rewrite lastCell_snoc].
    cbn [first]. apply dsegment_app. exists (Some (length h)).
    pose proof (dsegment_NoDup _ _ _ _ Hseg) as Hnd.
    rewrite Hcells in Hseg, Hnd. rewrite Hcells.
    apply dsegment_app in Hseg as (m & Hinit & (-> & c & Hc & Hx & Hbk & _)).
    assert (c = cb) as -> by congruence.
    rewrite fmap_app in Hnd. apply NoDup_app in Hnd as (_ & Hnd & _).
    assert (∀ x, x ∈ init.*1 → (x < length h)%nat) as Hvalid
      by (intros x; by eapply dsegment_valid).
    split.
    + apply dsegment_app. exists (Some b). split.
      * apply dsegment_alter_ne; [intros Hin%Hvalid; lia|].
        apply dsegment_alter_ne.
        { intros Hin. apply (Hnd b Hin). by left. }
        by apply dsegment_grow.
      * cbn [segment]. split; [done|]. eexists. split.
        -- rewrite list_lookup_alter_ne by lia.
           rewrite list_lookup_alter_eq, lookup_app_l, Hc by done. done.
        -- done.
    + rewrite lastCell_snoc. cbn [segment fst]. split; [done|]. eexists.
      split.
      * rewrite list_lookup_alter_eq, list_lookup_alter_ne by lia.
        by rewrite list_lookup_middle.
      * done.
Qed.

Lemma cell_pushFront_spec (dataIn : A) h (l : cellList) cells :
  represents h l cells →
  ∃ h' l' newCell,
    pushFront dataIn h l = Ok (h', l') ∧
    represents h' l' ((newCell, dataIn) :: cells) ∧
    h !! newCell = None.
Proof.
  intros [Hseg Hlast]. unfold pushFront, new_listCell.
  assert (h !! length h = None) as Hnew by (apply lookup_ge_None; lia).
  destruct cells as [|[a x] cells].
  - simpl in Hseg. rewrite Hseg.
    eexists _, _, (length h). split; [reflexivity|]. split; [|done].
    split; [|done]. cbn [first segment]. split; [done|]. eexists.
    split; [by apply list_lookup_middle|done].
  - pose proof (dsegment_NoDup _ _ _ _ Hseg) as Hnd.
    assert (∀ y, y ∈ ((a, x) :: cells).*1 → (y < length h)%nat) as Hvalid
      by (intros y; by eapply dsegment_valid).
    destruct Hseg as (Hfirst & c & Hc & Hx & Hbk & Hrest).
    rewrite Hfirst. unfold store.
    assert (a < length h)%nat as Halt by by eapply lookup_lt_Some.
    rewrite lookup_app_l, Hc by done.
    simpl. rewrite list_lookup_alter_ne by lia.
    rewrite list_lookup_middle by done. simpl.
    eexists _, _, (length h). split; [reflexivity|].
    split; [|done]. split.
    + cbn [first segment]. split; [done|]. eexists. split.
      { rewrite list_lookup_alter_eq, list_lookup_alter_ne by lia.
        by rewrite list_lookup_middle. }
      do 3 (split; [done|]). eexists. split.
      { rewrite list_lookup_alter_ne by lia.
        rewrite list_lookup_alter_eq, lookup_app_l, Hc by done. done. }
      do 2 (split; [done|]). cbn [next set_back].
      rewrite fmap_cons in Hnd. apply NoDup_cons in Hnd as [Hna _].
      apply dsegment_alter_ne.
      { intros Hin. assert (length h < length h)%nat; [|lia].
        apply Hvalid. rewrite fmap_cons. by right. }
      apply dsegment_alter_ne; [done|]. by apply dsegment_grow.
    + cbn [last]. rewrite Hlast. by rewrite !lastCell_cons.
Qed.

Lemma cell_findLength_loop_spec h cells :
  ∀ fuel prev p n,
    segment h prev p cells None → (length cells ≤ fuel)%nat →
    0 ≤ n → n + Z.of_nat (length cells) ≤ INT_MAX →
    findLength_loop fuel h p n = Ok (n + Z.of_nat (length cells)).
Proof.
  induction cells as [|[a x] cells IH];
    intros fuel prev p n Hseg Hfuel Hn Hmax.
  - simpl in Hseg. subst p. destruct fuel; simpl; f_equal; lia.
  - destruct Hseg as (-> & c & Hc & _ & _ & Hseg).
    destruct fuel as [|fuel]; simpl in Hfuel; [lia|].
    simpl length in Hmax. cbn [findLength_loop]. rewrite Hc.
    assert (int_succ n = n + 1) as ->.
    { unfold int_succ. unfold INT_MAX in Hmax.
      rewrite Z.mod_small; lia. }
    rewrite (IH fuel (Some a)); [f_equal; simpl length; lia|done|lia|lia|lia].
Qed.

(** X25: [pushBack] of a [defList], an [expList] or a [prodList] made of
    cells linked both ways returns and leaves the list made of the same
    cells and a new cell with the data after them, linked both ways, with
    [last] at the new cell. *)
Theorem cellList_pushBack (dataIn : A) h (l : cellList) cells :
  represents h l cells →
  ∃ h' l' newCell,
    pushBack dataIn h l = Ok (h', l') ∧
    represents h' l' (cells ++ [(newCell, dataIn)]) ∧
    h !! newCell = None.
Proof. apply cell_pushBack_spec. Qed.

(** X26: [pushFront] of a [defList] or an [expList] made of cells linked
    both ways returns and leaves the list made of a new cell with the
    data and the same cells after it, linked both ways, with [first] at
    the new cell. *)
Theorem cellList_pushFront (dataIn : A) h (l : cellList) cells :
  represents h l cells →
  ∃ h' l' newCell,
    pushFront dataIn h l = Ok (h', l') ∧
    represents h' l' ((newCell, dataIn) :: cells) ∧
    h !! newCell = None.
Proof. apply cell_pushFront_spec. Qed.

(** X27: [findLength] of a [defList], an [expList] or a [prodList] made of
    at most [INT_MAX] cells returns the number of cells, and one more
    after a [pushBack] or a [pushFront]. *)
Theorem cellList_findLength (fuel : nat) (dataIn : A) h (l : cellList)
    cells :
  represents h l cells → (length cells < fuel)%nat →
  Z.of_nat (length cells) < INT_MAX →
  findLength fuel h l = Ok (Z.of_nat (length cells)) ∧
  (∃ h' l', pushBack dataIn h l = Ok (h', l') ∧
            findLength fuel h' l' = Ok (Z.of_nat (length cells) + 1)) ∧
  (∃ h' l', pushFront dataIn h l = Ok (h', l') ∧
            findLength fuel h' l' = Ok (Z.of_nat (length cells) + 1)).
Proof.
  intros Hrep Hfuel Hmax.
  assert (∀ h' l' cells',
            represents h' l' cells' → (length cells' ≤ fuel)%nat →
            Z.of_nat (length cells') ≤ INT_MAX →
            findLength fuel h' l' = Ok (Z.of_nat (length cells'))) as Hlen.
  { intros h' l' cells' [Hseg _] Hf Hm. unfold findLength.
    by rewrite (cell_findLength_loop_spec h' cells' fuel None (first l') 0). }
  split; [apply Hlen; [done|lia|lia]|]. split.
  - destruct (cell_pushBack_spec dataIn h l cells Hrep)
      as (h' & l' & n & Hrun & Hrep' & _).
    exists h', l'. split; [done|].
    rewrite (Hlen h' l' _ Hrep'); rewrite length_app; simpl;
      [f_equal; lia|lia|lia].
  - destruct (cell_pushFront_spec dataIn h l cells Hrep)
      as (h' & l' & n & Hrun & Hrep' & _).
    exists h', l'. split; [done|].
    rewrite (Hlen h' l' _ Hrep'); simpl length; [f_equal; lia|lia|lia].
Qed.

End CellLists.

Section ProdListCells.
Import CellList.

Lemma prod_member_loop_spec (h : list (listCell nat)) (prod : nat)
    (cells : list (nat * nat)) :
  ∀ fuel prev p,
    segment h prev p cells None → (length cells ≤ fuel)%nat →
    ∃ r, member_loop fuel h prod p = Ok r ∧
         match r with
         | None => prod ∉ cells.*2
         | Some a =>
             ∃ i, cells !! i = Some (a, prod) ∧
                  ∀ j c, (j < i)%nat → cells !! j = Some c → c.2 ≠ prod
         end.
Proof.
  induction cells as [|[a x] cells IH]; intros fuel prev p Hseg Hfuel.
  - simpl in Hseg. subst p. exists None.
    split; [by destruct fuel|]. apply not_elem_of_nil.
  - destruct Hseg as (-> & c & Hc & Hx & _ & Hseg).
    destruct fuel as [|fuel]; simpl in Hfuel; [lia|].
    cbn [member_loop]. rewrite Hc, Hx.
    destruct (decide (x = prod)) as [E|E].
    + exists (Some a). split; [done|]. exists 0%nat.
      split; [simpl; by rewrite E|]. intros j c0 Hj. lia.
    + destruct (IH fuel (Some a) (next c) Hseg) as (r & Hrun & Hr); [lia|].
      exists r. split; [done|]. destruct r as [b|].
      * destruct Hr as (i & Hi & Hbefore). exists (S i). split; [done|].
        intros [|j] c0 Hj; simpl.
        -- by intros [= <-].
        -- apply Hbefore. lia.
      * rewrite fmap_cons. simpl. intros [->|Hin]%elem_of_cons; done.
Qed.

(** X28: on a [prodList] made of cells [prodList::member] returns the
    first cell that points at the production, and the null pointer if no
    cell does; after [pushBack] of the production it returns a cell. *)
Theorem prodList_member (fuel : nat) (h : list (listCell nat))
    (prod : nat) (l : cellList) (cells : list (nat * nat)) :
  represents h l cells → (length cells < fuel)%nat →
  (∃ r, member fuel h prod l = Ok r ∧
        match r with
        | None => prod ∉ cells.*2
        | Some a =>
            ∃ i, cells !! i = Some (a, prod) ∧
                 ∀ j c, (j < i)%nat → cells !! j = Some c → c.2 ≠ prod
        end) ∧
  ∃ h' l' a c, pushBack prod h l = Ok (h', l') ∧
               member fuel h' prod l' = Ok (Some a) ∧
               h' !! a = Some c ∧ data c = prod.
Proof.
  intros Hrep Hfuel. split.
  - destruct Hrep as [Hseg _]. apply (prod_member_loop_spec h prod cells fuel None);
      [done|lia].
  - destruct (cell_pushBack_spec prod h l cells Hrep)
      as (h' & l' & n & Hrun & [Hseg' _] & _).
    destruct (prod_member_loop_spec h' prod _ fuel None (first l') Hseg')
      as ([a|] & Hm & Hr).
    + rewrite length_app. simpl. lia.
    + destruct Hr as (i & Hi & _).
      apply list_elem_of_split_length in Hi as (c1 & c2 & E & _).
      rewrite E in Hseg'.
      apply dsegment_app in Hseg' as (m & _ & (_ & c & Hc & Hx & _)).
      by exists h', l', a, c.
    + destruct Hr. rewrite fmap_app. apply elem_of_app. right. by left.
Qed.

Lemma twoCells_represents : represents twoCells twoCellsList twoCellsCells.
Proof.
  split; [|done]. cbn [segment twoCellsCells twoCellsList first].
  split; [done|]. eexists. split; [reflexivity|]. do 2 (split; [done|]).
  split; [done|]. eexists. split; [reflexivity|]. done.
Qed.

Lemma cellList_pushBack_witness :
  ∃ h' l' newCell,
    pushBack 5%nat twoCells twoCellsList = Ok (h', l') ∧
    represents h' l' (twoCellsCells ++ [(newCell, 5%nat)]) ∧
    twoCells !! newCell = None.
Proof.
  apply (cellList_pushBack 5%nat twoCells twoCellsList twoCellsCells).
  exact twoCells_represents.
Defined.

Lemma cellList_pushFront_witness :
  ∃ h' l' newCell,
    pushFront 5%nat twoCells twoCellsList = Ok (h', l') ∧
    represents h' l' ((newCell, 5%nat) :: twoCellsCells) ∧
    twoCells !! newCell = None.
Proof.
  apply (cellList_pushFront 5%nat twoCells twoCellsList twoCellsCells).
  exact twoCells_represents.
Defined.

Lemma cellList_findLength_witness :
  findLength 3 twoCells twoCellsList = Ok 2 ∧
  (∃ h' l', pushBack 5%nat twoCells twoCellsList = Ok (h', l') ∧
            findLength 3 h' l' = Ok (2 + 1)) ∧
  (∃ h' l', pushFront 5%nat twoCells twoCellsList = Ok (h', l') ∧
            findLength 3 h' l' = Ok (2 + 1)).
Proof.
  apply (cellList_findLength 3 5%nat twoCells twoCellsList twoCellsCells);
    [exact twoCells_represents|simpl; lia|by vm_compute].
Defined.

Lemma prodList_member_witness :
  (∃ r, member 3 twoCells 9%nat twoCellsList = Ok r ∧
        match r with
        | None => 9%nat ∉ twoCellsCells.*2
        | Some a =>
            ∃ i, twoCellsCells !! i = Some (a, 9%nat) ∧
                 ∀ j c, (j < i)%nat → twoCellsCells !! j = Some c →
                        c.2 ≠ 9%nat
        end) ∧
  ∃ h' l' a c, pushBack 9%nat twoCells twoCellsList = Ok (h', l') ∧
               member 3 h' 9%nat l' = Ok (Some a) ∧
               h' !! a = Some c ∧ data c = 9%nat.
Proof.
  apply (prodList_member 3 twoCells 9%nat twoCellsList twoCellsCells);
    [exact twoCells_represents|simpl; lia].
Defined.

End ProdListCells.

(** ** [recordClass], [recordClasses] *)

Lemma recordClass_step (name : string) (table table' : list (list string)) :
  tableSorted CLASSSIZE table →
  recordClass name table = Ok table' →
  tableSorted CLASSSIZE table' ∧
  ∃ i names names',
    letterIndex 97 name = Some i ∧ table !! i = Some names ∧
    table' = <[i := names']> table ∧
    ∀ x, x ∈ names' ↔ x = name ∨ x ∈ names.
Proof.
  intros Hsorted Hrun. pose proof Hsorted as [Hlen Hall].
  unfold recordClass, recordInTable in Hrun.
  destruct (letterIndex 97 name) as [i|] eqn:Hi; [|done].
  destruct (table !! i) as [names|] eqn:Hnames; [|done].
  apply result_bind_Ok in Hrun as (names' & Hrec & [= <-]).
  rewrite Forall_lookup in Hall. destruct (Hall i names Hnames) as [Hasc Hle].
  pose proof (recordName_outcome CLASSSIZE
                ("Too many classes starting with " +:+ String.substring 0 1 name)
                name names Hasc Hle) as H.
  rewrite Hrec in H. destruct H as (H1 & H2 & H3 & _).
  split.
  - split; [by rewrite length_insert|]. apply Forall_lookup.
    intros j l Hj. destruct (decide (j = i)) as [->|Hne].
    + rewrite list_lookup_insert_eq in Hj by by eapply lookup_lt_Some.
      by injection Hj as <-.
    + rewrite list_lookup_insert_ne in Hj by done. by eapply Hall.
  - by exists i, names, names'.
Qed.

(** X29: on a sorted table of class names within [CLASSSIZE] entries a
    sub-array, when [recordClasses] returns the table is sorted and within
    its bounds again, every name of a selected production is in the
    sub-array of its first letter, which is a lower case letter, and the
    table holds the names it had and the names of the selected
    productions, no other; the productions are as before. *)
Theorem recordClasses_classNames (toPrint : list nat) (a a' : analyzer) :
  tableSorted CLASSSIZE (classNames a) →
  recordClasses toPrint a = Ok a' →
  productions a' = productions a ∧
  tableSorted CLASSSIZE (classNames a') ∧
  (∀ k P, k ∈ toPrint → productions a !! k = Some P →
          classRecorded (lhs P) (classNames a')) ∧
  (∀ name, inTable name (classNames a') ↔
           inTable name (classNames a) ∨
           ∃ k P, k ∈ toPrint ∧ productions a !! k = Some P ∧ lhs P = name).
Proof.
  intros Hsorted Hrun. unfold recordClasses in Hrun.
  set (J := λ (i : nat) (x : analyzer),
    productions x = productions a ∧
    tableSorted CLASSSIZE (classNames x) ∧
    (∀ n names0, classNames a !! n = Some names0 →
       ∃ names, classNames x !! n = Some names ∧ names0 ⊆ names) ∧
    (∀ j k P, (j < i)%nat → toPrint !! j = Some k →
       productions a !! k = Some P → classRecorded (lhs P) (classNames x)) ∧
    (∀ name, inTable name (classNames x) →
       inTable name (classNames a) ∨
       ∃ j k P, (j < i)%nat ∧ toPrint !! j = Some k ∧
                productions a !! k = Some P ∧ lhs P = name)).
  assert (J (length toPrint) a') as (Hp & Hs & Hmono & Hrec & Hfrom).
  { apply (foldl_result_ind
      (λ k a, match productions a !! k with
              | None => Ok a
              | Some prod =>
                  names ← recordClass (lhs prod) (classNames a);
                  Ok (set_classNames names a)
              end) J toPrint a a'); [| |done].
    - split; [done|]. split; [done|]. split; [|split].
      + intros n names0 Hn. by exists names0.
      + intros j k P Hj. lia.
      + intros name Hin. by left.
    - intros i k x x' Hk (Hp & Hs & Hmono & Hrec & Hfrom) Hbody.
      rewrite Hp in Hbody.
      destruct (productions a !! k) as [prod|] eqn:Hprod.
      2:{ injection Hbody as <-. split; [done|]. split; [done|].
          split; [done|]. split.
          - intros j k0 P Hj Hk0 HP.
            destruct (decide (j = i)) as [->|Hne]; [congruence|].
            apply (Hrec j k0 P); [lia|done..].
          - intros name Hin.
            destruct (Hfrom name Hin) as [?|(j & k0 & P & ? & ?)];
              [by left|right].
            exists j, k0, P. split; [lia|done]. }
      apply result_bind_Ok in Hbody as (table' & Hrc & [= <-]).
      unfold J, set_classNames. cbn [classNames productions].
      destruct (recordClass_step _ _ _ Hs Hrc)
        as (Hs' & n & names & names' & Hn & Hnames & -> & Hin).
      assert (n < length (classNames x))%nat as Hnlt
        by by eapply lookup_lt_Some.
      assert (∀ m l, classNames x !! m = Some l →
                ∃ l', <[n:=names']> (classNames x) !! m = Some l' ∧ l ⊆ l')
        as Hstep.
      { intros m l Hm. destruct (decide (m = n)) as [->|Hne].
        - exists names'. rewrite list_lookup_insert_eq by done.
          split; [done|]. intros y Hy. apply Hin. right. congruence.
        - exists l. by rewrite list_lookup_insert_ne. }
      split; [done|]. split; [done|]. split; [|split].
      + intros m names0 Hm.
        destruct (Hmono m names0 Hm) as (l & Hl & Hsub).
        destruct (Hstep m l Hl) as (l' & Hl' & Hsub').
        exists l'. split; [done|]. intros y Hy. by apply Hsub', Hsub.
      + intros j k0 P Hj Hk0 HP.
        destruct (decide (j = i)) as [->|Hne].
        * assert (k0 = k) as -> by congruence.
          assert (P = prod) as -> by congruence.
          exists n, names'. split; [done|].
          rewrite list_lookup_insert_eq by done. split; [done|].
          apply Hin. by left.
        * destruct (Hrec j k0 P) as (m & l & Hm & Hl & Hmem);
            [lia|done..|].
          destruct (Hstep m l Hl) as (l' & Hl' & Hsub').
          exists m, l'. split; [done|]. split; [done|]. by apply Hsub'.
      + intros name (m & l & Hl & Hmem).
        destruct (decide (m = n)) as [->|Hne].
        * rewrite list_lookup_insert_eq in Hl by done. injection Hl as <-.
          apply Hin in Hmem as [->|Hmem].
          -- right. exists i, k, prod. split; [lia|done].
          -- destruct (Hfrom name) as [?|(j & k0 & P & ? & ?)];
               [by exists n, names|by left|right].
             exists j, k0, P. split; [lia|done].
        * rewrite list_lookup_insert_ne in Hl by done.
          destruct (Hfrom name) as [?|(j & k0 & P & ? & ?)];
            [by exists m, l|by left|right].
          exists j, k0, P. split; [lia|done]. }
  split; [done|]. split; [done|]. split.
  - intros k P [j Hj]%list_elem_of_lookup HP.
    apply (Hrec j k P); [by eapply lookup_lt_Some|done..].
  - intros name. split.
    + intros [?|(j & k & P & _ & Hj & HP & Hl)]%Hfrom; [by left|right].
      exists k, P. split; [by eapply list_elem_of_lookup_2|done].
    + intros [(n & names0 & Hn & Hmem)|(k & P & Hk & HP & <-)].
      * destruct (Hmono n names0 Hn) as (l & Hl & Hsub).
        exists n, l. split; [done|]. by apply Hsub.
      * apply list_elem_of_lookup in Hk as [j Hj].
        destruct (Hrec j k P) as (n & l & _ & Hl & Hmem);
          [by eapply lookup_lt_Some|done..|].
        by exists n, l.
Qed.

Lemma recordClasses_classNames_witness :
  ∃ a',
    recordClasses [0%nat; 1%nat] intListAnalyzed = Ok a' ∧
    productions a' = productions intListAnalyzed ∧
    tableSorted CLASSSIZE (classNames a') ∧
    (∀ k P, k ∈ [0%nat; 1%nat] → productions intListAnalyzed !! k = Some P →
            classRecorded (lhs P) (classNames a')) ∧
    (∀ name, inTable name (classNames a') ↔
             inTable name (classNames intListAnalyzed) ∨
             ∃ k P, k ∈ [0%nat; 1%nat] ∧
                    productions intListAnalyzed !! k = Some P ∧
                    lhs P = name).
Proof.
  eexists. split; [vm_compute; reflexivity|].
  apply (recordClasses_classNames [0%nat; 1%nat] intListAnalyzed).
  - split; [reflexivity|]. vm_compute. repeat constructor.
  - vm_compute. reflexivity.
Defined.
